(** * Dovetail workshop: phase machine, cut handlers, hammering and sawdust

    A shallow embedding of the interaction core of the woodworking game
    (components/WoodProject.tsx, App.tsx, types.ts) and the properties its
    design document states about it.

    Conventions of the embedding.
    - A JavaScript [number] that carries a length or a coordinate is an exact
      rational ([Q]); equality of such numbers is [Qeq] ([==]).  Counters
      (hammer taps, array indices, the level) are [nat].
    - [Math.sqrt (dx*dx + dz*dz) < r] with a positive literal [r] is written
      [dx*dx + dz*dz < r*r].
    - The program computes in IEEE 754 doubles.  The rationals stand for the
      numbers the doubles approximate: what is stated of them is stated with
      a margin or a tolerance wherever the last bit of a double could
      decide.  Where a property is about the last bit itself (an exact
      equality of computed numbers, a test at the very edge of a zone), the
      code is embedded a second time over binary64 floats, in the modules
      whose names end in 64.
    - A React component is a record of its [useState] cells; a handler is a
      function from the cells it closes over to the new cells and the list
      of calls it makes on its props and refs ([Call]).  A call of a handler
      sees the cells left by the call before it: the component is rendered
      again between two calls.
    - A ref to a group that the component always renders is taken as
      attached; [legsRef], whose group is rendered in two phases only, is an
      [option].
    - [Math.random], [Math.sin], [Math.cos], [Math.atan2] and [Math.PI] are
      parameters of the sections that use them. *)

From Stdlib Require Import QArith Qabs Qminmax Qround Lqa Lia List Sorted Permutation String.
From Stdlib Require PrimFloat FloatOps SpecFloat Uint63.
From stdpp Require Import list.

Open Scope Q_scope.

(** ** Numbers *)

Definition Qltb (x y : Q) : bool := negb (Qle_bool y x).

Definition ofNat (n : nat) : Q := inject_Z (Z.of_nat n).


(** ** Geometry helpers for the box (WoodProject.tsx, "Geometry Helpers") *)

Module Layout.
Section Layout.
(** The three configuration constants the helpers read. *)
Variable BOARD_WIDTH : Q.
Variable NUM_TAILS : nat.
Variable TOTAL_TAIL_RATIO : Q.

Definition TAIL_WIDTH_TIP : Q :=
  (BOARD_WIDTH * TOTAL_TAIL_RATIO) / ofNat NUM_TAILS.

Definition TAIL_WIDTH_ROOT : Q := TAIL_WIDTH_TIP * 0.55.

Definition totalTailWidth : Q := TAIL_WIDTH_TIP * ofNat NUM_TAILS.
Definition remainingWidth : Q := BOARD_WIDTH - totalTailWidth.
Definition pinWidth : Q := remainingWidth / (ofNat NUM_TAILS + 1).
Definition pitch : Q := TAIL_WIDTH_TIP + pinWidth.
Definition firstX : Q := (- BOARD_WIDTH) / 2 + pinWidth + TAIL_WIDTH_TIP / 2.

(** [for (let i = 0; i < NUM_TAILS; i++) { centers.push(currentX);
    currentX += pitch; }], with [k] iterations left. *)
Fixpoint push_centers (k : nat) (currentX : Q) : list Q :=
  match k with
  | O => []
  | S k' => currentX :: push_centers k' (currentX + pitch)
  end.

Definition TAIL_CENTERS : list Q := push_centers NUM_TAILS firstX.
End Layout.
End Layout.

(** The shipped configuration. *)
Definition NUM_TAILS : nat := 4.
Definition BOARD_WIDTH : Q := 2.
Definition TABLE_OFFSET : Q := 0.00.
Definition BOARD_HEIGHT_A : Q := 2.5.
Definition GAP_HEIGHT : Q := 0.15.
Definition HAMMER_TAPS_REQUIRED : nat := 3.
Definition TOTAL_TAIL_RATIO : Q := 0.65.
Definition TAIL_WIDTH_TIP : Q :=
  Layout.TAIL_WIDTH_TIP BOARD_WIDTH NUM_TAILS TOTAL_TAIL_RATIO.
Definition TAIL_CENTERS : list Q :=
  Layout.TAIL_CENTERS BOARD_WIDTH NUM_TAILS TOTAL_TAIL_RATIO.

(** ** Shared data (types.ts, and the props the projects receive) *)

Inductive GamePhase :=
| INTRO | TIMBER | CLAMPING | MARKING | CUTTING | ASSEMBLY_PREP | ASSEMBLY
| CUTTING_BACK | ASSEMBLY_C | CUTTING_TOP | ASSEMBLY_D | SUCCESS.

#[export] Instance GamePhase_eq_dec : EqDecision GamePhase.
Proof. solve_decision. Defined.

Record Vector3 := vec3 { v_x : Q; v_y : Q; v_z : Q }.

(** What a handler does to the outside: calls on the sawdust ref and on the
    props.  [spawnBurst] and [clear] stand for the guarded calls
    [sawdustRef.current?.spawnBurst(pos)] and [sawdustRef.current?.clear()];
    the guard is taken when the call is interpreted on the particle system. *)
Inductive Call :=
| spawnBurst (pos : Vector3)
| clear
| onPhaseComplete
| setTimeout_onPhaseComplete (ms : nat)
| setProgress (val : Q)
| setOrbitEnabled (enabled : bool)
| setRawWoodCount_increment.

Definition is_spawnBurst (c : Call) : bool :=
  match c with spawnBurst _ => true | _ => false end.

(** The phase-complete signal, called at once or through [setTimeout]. *)
Definition is_phaseComplete (c : Call) : bool :=
  match c with
  | onPhaseComplete | setTimeout_onPhaseComplete _ => true
  | _ => false
  end.

Definition count_phaseComplete (cs : list Call) : nat :=
  length (filter (fun c => is_phaseComplete c = true) cs).

Definition bursts (cs : list Call) : list Vector3 :=
  omap (fun c => match c with spawnBurst p => Some p | _ => None end) cs.

(** *** Arrays *)

(** [!a[i]] reads [undefined] past the end, which is falsy. *)
Definition array_get (a : list bool) (i : nat) : bool := default false (a !! i).

(** [a[i] = v]; past the end JavaScript grows the array ([hole] stands for
    the holes this leaves, which read as [undefined]).  The arrays of the
    projects are created with as many entries as the list their loop runs
    over (4 flags for 4 tails or 4 legs, 2 entries for 2 trees) and are
    indexed below that. *)
Definition array_set {A : Type} (hole : A) (a : list A) (i : nat) (v : A) : list A :=
  if decide (i < length a)%nat then <[i:=v]> a
  else a ++ replicate (i - length a) hole ++ [v].

(** [a.every(w => w)]. *)
Definition every (a : list bool) : bool := forallb (fun w => w) a.

(** [new Array(n).fill(false)]. *)
Definition all_false (n : nat) : list bool := replicate n false.

(** [xs.forEach((x, index) => ...)] with the captured variables as [s]. *)
Fixpoint forEach {A St : Type} (f : St -> A -> nat -> St) (xs : list A)
    (index : nat) (s : St) : St :=
  match xs with
  | [] => s
  | x :: xs' => forEach f xs' (S index) (f s x index)
  end.

(** The variables a cutting loop closes over. *)
Record CutLoop := mkCutLoop {
  newFlags : list bool;
  changed : bool;
  emitted : list Call
}.

(** ** The dovetail box (BoxProject) *)

Inductive AssemblyState := dragging | hammering | done.

#[export] Instance AssemblyState_eq_dec : EqDecision AssemblyState.
Proof. solve_decision. Defined.

Inductive BoardRef := tailBoardARef | tailBoardCRef | topBoardDRef.

Module BoxProject.

Record State := mkState {
  wastesCutBFront : list bool;
  wastesCutBBack : list bool;
  wastesCutD : list bool;
  assemblyState : AssemblyState;
  hammerTaps : nat;
  (* position of the group each board ref points to *)
  tailBoardA : Vector3;
  tailBoardC : Vector3;
  topBoardD : Vector3
}.

(** The [useState] initialisers and the [position] props of the groups. *)
Definition initial : State :=
  {| wastesCutBFront := all_false NUM_TAILS;
     wastesCutBBack := all_false NUM_TAILS;
     wastesCutD := all_false NUM_TAILS;
     assemblyState := dragging;
     hammerTaps := 0;
     tailBoardA := vec3 0 2.5 0;
     tailBoardC := vec3 0 2.5 (-2.6);
     topBoardD := vec3 0 5 0 |}.

Definition threshold : Q := TAIL_WIDTH_TIP / 1.5.

(** The array [handleCut] works on in a phase, if it is a cutting phase. *)
Definition targetState (phase : GamePhase) (st : State) : option (list bool) :=
  match phase with
  | CUTTING => Some (wastesCutBFront st)
  | CUTTING_BACK => Some (wastesCutBBack st)
  | CUTTING_TOP => Some (wastesCutD st)
  | _ => None
  end.

Definition setTargetState (phase : GamePhase) (a : list bool) (st : State) : State :=
  match phase with
  | CUTTING =>
      mkState a (wastesCutBBack st) (wastesCutD st) (assemblyState st)
        (hammerTaps st) (tailBoardA st) (tailBoardC st) (topBoardD st)
  | CUTTING_BACK =>
      mkState (wastesCutBFront st) a (wastesCutD st) (assemblyState st)
        (hammerTaps st) (tailBoardA st) (tailBoardC st) (topBoardD st)
  | CUTTING_TOP =>
      mkState (wastesCutBFront st) (wastesCutBBack st) a (assemblyState st)
        (hammerTaps st) (tailBoardA st) (tailBoardC st) (topBoardD st)
  | _ => st
  end.

Definition zBase (phase : GamePhase) : Q :=
  if decide (phase = CUTTING_BACK) then -2.6 else 0.
Definition yBase (phase : GamePhase) : Q :=
  if decide (phase = CUTTING_TOP) then 5.4 else 0.4.

(** Body of [TAIL_CENTERS.forEach((center, index) => ...)]. *)
Definition cutOne (phase : GamePhase) (xPos : Q)
    (acc : CutLoop) (center : Q) (index : nat) : CutLoop :=
  if negb (array_get (newFlags acc) index)
     && Qltb (Qabs (xPos - center)) threshold
  then {| newFlags := array_set false (newFlags acc) index true;
          changed := true;
          emitted := emitted acc
                     ++ [spawnBurst (vec3 center (yBase phase) (zBase phase))] |}
  else acc.

Definition handleCut (phase : GamePhase) (xPos zPos : Q) (st : State)
    : State * list Call :=
  match targetState phase st with
  | None => (st, [])                       (* if (!isCutting) return; *)
  | Some target =>
      let r := forEach (cutOne phase xPos) TAIL_CENTERS 0
                 (mkCutLoop target false []) in
      if changed r then
        (setTargetState phase (newFlags r) st,
         emitted r ++ (if every (newFlags r) then [onPhaseComplete] else []))
      else (st, [])
  end.

Definition board (b : BoardRef) (st : State) : Vector3 :=
  match b with
  | tailBoardARef => tailBoardA st
  | tailBoardCRef => tailBoardC st
  | topBoardDRef => topBoardD st
  end.

Definition setBoard (b : BoardRef) (p : Vector3) (st : State) : State :=
  match b with
  | tailBoardARef =>
      mkState (wastesCutBFront st) (wastesCutBBack st) (wastesCutD st)
        (assemblyState st) (hammerTaps st) p (tailBoardC st) (topBoardD st)
  | tailBoardCRef =>
      mkState (wastesCutBFront st) (wastesCutBBack st) (wastesCutD st)
        (assemblyState st) (hammerTaps st) (tailBoardA st) p (topBoardD st)
  | topBoardDRef =>
      mkState (wastesCutBFront st) (wastesCutBBack st) (wastesCutD st)
        (assemblyState st) (hammerTaps st) (tailBoardA st) (tailBoardC st) p
  end.

Definition setAssembly (a : AssemblyState) (taps : nat) (st : State) : State :=
  mkState (wastesCutBFront st) (wastesCutBBack st) (wastesCutD st)
    a taps (tailBoardA st) (tailBoardC st) (topBoardD st).

(** [handleAssemblyDrag]; [pointY] is the height at which the pointer ray
    meets the drag plane. *)
Definition handleAssemblyDrag (pointY : Q) (b : BoardRef) (targetY : Q)
    (st : State) : State * list Call :=
  if decide (assemblyState st = dragging) then
    let stopY := targetY + GAP_HEIGHT in
    let currentY := Qmax stopY (Qmin (pointY + 1) (targetY + 3)) in
    let z := match b with tailBoardCRef => -2.6 | _ => 0 end in
    if Qle_bool currentY (stopY + 0.05) then
      (setAssembly hammering (hammerTaps st) (setBoard b (vec3 0 stopY z) st),
       [setOrbitEnabled false; setOrbitEnabled true])
    else (setBoard b (vec3 0 currentY z) st, [setOrbitEnabled false])
  else (st, []).

Definition handleHammerClick (targetY : Q) (b : BoardRef) (st : State)
    : State * list Call :=
  if decide (assemblyState st = hammering) then
    let newTaps := S (hammerTaps st) in
    let remainingGap :=
      GAP_HEIGHT * (1 - ofNat newTaps / ofNat HAMMER_TAPS_REQUIRED) in
    let nextY := targetY + Qmax 0 remainingGap in
    let p := board b st in
    let st1 := setBoard b (vec3 (v_x p) nextY (v_z p)) st in
    if (HAMMER_TAPS_REQUIRED <=? newTaps)%nat then
      (setAssembly done newTaps st1, [setTimeout_onPhaseComplete 500])
    else (setAssembly (assemblyState st) newTaps st1, [])
  else (st, []).

Definition handleClampClick (phase : GamePhase) : list Call :=
  if decide (phase = CLAMPING)
  then [setProgress 1; setTimeout_onPhaseComplete 600]
  else [].

(** The mallet's [onClick]. *)
Definition malletClick (phase : GamePhase) (st : State) : State * list Call :=
  match phase with
  | ASSEMBLY => handleHammerClick TABLE_OFFSET tailBoardARef st
  | ASSEMBLY_C => handleHammerClick TABLE_OFFSET tailBoardCRef st
  | ASSEMBLY_D => handleHammerClick BOARD_HEIGHT_A topBoardDRef st
  | _ => (st, [])
  end.

(** [useEffect(() => {...}, [phase])]. *)
Definition phaseEffect (phase : GamePhase) (st : State) : State * list Call :=
  let '(st1, calls) :=
    if decide (phase = INTRO) then
      (mkState (all_false NUM_TAILS) (all_false NUM_TAILS) (all_false NUM_TAILS)
         (assemblyState st) (hammerTaps st)
         (vec3 0 2.5 0) (vec3 0 2.5 (-2.6)) (vec3 0 5 0),
       [clear])
    else (st, []) in
  let st2 :=
    match phase with
    | ASSEMBLY | ASSEMBLY_C | ASSEMBLY_D => setAssembly dragging 0 st1
    | _ => st1
    end in
  let st3 :=
    match phase with
    | ASSEMBLY_PREP => setBoard tailBoardARef (vec3 0 2.5 0) st2
    | CUTTING_BACK => setBoard tailBoardCRef (vec3 0 2.5 (-2.6)) st2
    | CUTTING_TOP => setBoard topBoardDRef (vec3 0 5 0) st2
    | _ => st2
    end in
  (st3, calls).

End BoxProject.

(** ** The stool (StoolProject) *)

Module StoolProject.

Inductive LegsState := hidden | dragging | hammering | done.

#[export] Instance LegsState_eq_dec : EqDecision LegsState.
Proof. solve_decision. Defined.

Record Leg := mkLeg { x : Q; z : Q }.

Definition LEG_POSITIONS : list Leg :=
  [ mkLeg 0.6 0.6; mkLeg (-0.6) 0.6; mkLeg 0.6 (-0.6); mkLeg (-0.6) (-0.6) ].

Record State := mkState {
  holesDrilled : list bool;
  legsState : LegsState;
  hammerTaps : nat;
  (* [legsRef.current.position.y]; [None] while the legs group is not
     rendered (it is rendered in ASSEMBLY and SUCCESS) *)
  legsRef : option Q
}.

Definition initial : State :=
  {| holesDrilled := [false; false; false; false];
     legsState := hidden;
     hammerTaps := 0;
     legsRef := None |}.

Definition handleClampClick (phase : GamePhase) : list Call :=
  if decide (phase = CLAMPING)
  then [setProgress 1; setTimeout_onPhaseComplete 600]
  else [].

(** The target of a leg in world coordinates (the seat is upside down). *)
Definition targetWorldX (leg : Leg) : Q := x leg.
Definition targetWorldZ (leg : Leg) : Q := - z leg.

(** [dist < 0.25], squared. *)
Definition inHole (toolX toolZ : Q) (leg : Leg) : bool :=
  Qltb ((toolX - targetWorldX leg) * (toolX - targetWorldX leg)
        + (toolZ - targetWorldZ leg) * (toolZ - targetWorldZ leg))
       (0.25 * 0.25).

(** Body of [LEG_POSITIONS.forEach((leg, idx) => ...)]. *)
Definition drillOne (toolX toolZ : Q) (acc : CutLoop) (leg : Leg) (idx : nat)
    : CutLoop :=
  if negb (array_get (newFlags acc) idx) then
    if inHole toolX toolZ leg then
      {| newFlags := array_set false (newFlags acc) idx true;
         changed := true;
         emitted := emitted acc
                    ++ [spawnBurst (vec3 (targetWorldX leg) 0.3 (targetWorldZ leg))] |}
    else acc
  else acc.

Definition handleDrill (phase : GamePhase) (toolX toolZ : Q) (st : State)
    : State * list Call :=
  if decide (phase = CUTTING) then
    let r := forEach (drillOne toolX toolZ) LEG_POSITIONS 0
               (mkCutLoop (holesDrilled st) false []) in
    if changed r then
      (mkState (newFlags r) (legsState st) (hammerTaps st) (legsRef st),
       emitted r
       ++ (if every (newFlags r) then [setTimeout_onPhaseComplete 800] else []))
    else (st, [])
  else (st, []).

(** [useEffect(() => {...}, [phase])]. *)
Definition phaseEffect (phase : GamePhase) (st : State) : State * list Call :=
  if decide (phase = ASSEMBLY)
  then (mkState (holesDrilled st) dragging 0 (legsRef st), [])
  else (st, []).

(** [handleLegDrag]; [pointY] is where the pointer ray meets the plane. *)
Definition handleLegDrag (pointY : Q) (st : State) : State * list Call :=
  match legsRef st with
  | Some _ =>
      if decide (legsState st = dragging) then
        let worldMaxY := 5.0 in
        let worldMinY := 0.5 in
        let clampedWorldY := Qmax worldMinY (Qmin pointY worldMaxY) in
        if Qle_bool clampedWorldY (worldMinY + 0.1) then
          (mkState (holesDrilled st) hammering (hammerTaps st) (Some (- worldMinY)),
           [setOrbitEnabled false; setOrbitEnabled true])
        else
          (mkState (holesDrilled st) (legsState st) (hammerTaps st)
             (Some (- clampedWorldY)),
           [setOrbitEnabled false])
      else (st, [])
  | None => (st, [])
  end.

Definition startWorldY : Q := 0.5.
Definition endWorldY : Q := 0.05.

Definition handleHammer (st : State) : State * list Call :=
  match legsRef st with
  | Some _ =>
      if decide (legsState st = hammering) then
        let newTaps := S (hammerTaps st) in
        let progress := ofNat newTaps / ofNat HAMMER_TAPS_REQUIRED in
        let currentWorldY := startWorldY - ((startWorldY - endWorldY) * progress) in
        if (HAMMER_TAPS_REQUIRED <=? newTaps)%nat then
          (mkState (holesDrilled st) done newTaps (Some (- currentWorldY)),
           [setTimeout_onPhaseComplete 600])
        else
          (mkState (holesDrilled st) (legsState st) newTaps (Some (- currentWorldY)),
           [])
      else (st, [])
  | None => (st, [])
  end.

End StoolProject.

(** ** Timber harvesting (TimberStage) *)

Module TimberStage.

Record Spot := mkSpot { x : Q; z : Q }.

Definition trees : list Spot := [ mkSpot (-3) (-2); mkSpot 3 0 ].

Definition saplings : list Spot :=
  [ mkSpot (-4.5) (-3); mkSpot (-1.5) (-1); mkSpot 4.5 1.5;
    mkSpot 1.5 0.5; mkSpot (-2) 2 ].

Record Warning := mkWarning { show : bool; pos : Vector3 }.

Record State := mkState {
  treesCut : list bool;
  cutProgress : list Q;
  fallRotation : list Q;
  saplingWarning : Warning
}.

Definition initial : State :=
  {| treesCut := [false; false];
     cutProgress := [0; 0];
     fallRotation := [0; 0];
     saplingWarning := mkWarning false (vec3 0 0 0) |}.

(** Square of the distance in the ground plane. *)
Definition dist2 (p : Vector3) (s : Spot) : Q :=
  (v_x p - x s) * (v_x p - x s) + (v_z p - z s) * (v_z p - z s).

(** [dist < 0.8 && sawPos.y < 1.5] *)
Definition hitsSapling (sawPos : Vector3) (s : Spot) : bool :=
  Qltb (dist2 sawPos s) (0.8 * 0.8) && Qltb (v_y sawPos) 1.5.

(** [dist < 1.2 && heightValid] *)
Definition inTree (sawPos : Vector3) (tree : Spot) : bool :=
  Qltb (dist2 sawPos tree) (1.2 * 1.2)
  && (Qltb 0 (v_y sawPos) && Qltb (v_y sawPos) 3).

(** The variables the loop over the trees closes over; [rng] counts the
    calls of [Math.random] made so far. *)
Record TreeLoop := mkTreeLoop {
  newProgress : list Q;
  newTreesCut : list bool;
  newFallRotations : list Q;
  t_changed : bool;
  t_emitted : list Call;
  rng : nat
}.

Section Handlers.
(** [random k] is the result of the k-th call of [Math.random]. *)
Variable random : nat -> Q.
Variable atan2 : Q -> Q -> Q.

(** Body of [trees.forEach((tree, idx) => ...)]. *)
Definition cutTree (sawPos : Vector3) (hittingSapling : bool)
    (acc : TreeLoop) (tree : Spot) (idx : nat) : TreeLoop :=
  if negb (array_get (newTreesCut acc) idx) && negb hittingSapling then
    if inTree sawPos tree then
      let p := Qmin 100 (default 0 (newProgress acc !! idx) + 2) in
      let prog := array_set 0 (newProgress acc) idx p in
      let '(burst, rng1) :=
        if Qltb 0.8 (random (rng acc)) then
          ([spawnBurst (vec3 (x tree + (random (S (rng acc)) - 0.5) * 0.5)
                             0.5
                             (z tree + (random (S (S (rng acc))) - 0.5) * 0.5))],
           S (S (S (rng acc))))
        else ([], S (rng acc)) in
      if Qle_bool 100 p then
        let angle := atan2 (x tree - v_x sawPos) (z tree - v_z sawPos) in
        {| newProgress := prog;
           newTreesCut := array_set false (newTreesCut acc) idx true;
           newFallRotations := array_set 0 (newFallRotations acc) idx angle;
           t_changed := true;
           t_emitted := t_emitted acc ++ burst ++ [setRawWoodCount_increment];
           rng := rng1 |}
      else
        {| newProgress := prog;
           newTreesCut := newTreesCut acc;
           newFallRotations := newFallRotations acc;
           t_changed := true;
           t_emitted := t_emitted acc ++ burst;
           rng := rng1 |}
    else acc
  else acc.

(** [handleCut(sawPos)]; the third component is the number of calls of
    [Math.random] after the handler. *)
Definition handleCut (sawPos : Vector3) (st : State) (rng0 : nat)
    : State * list Call * nat :=
  (* Check saplings first *)
  let hit := List.find (hitsSapling sawPos) saplings in
  let hittingSapling := match hit with Some _ => true | None => false end in
  let warning :=
    match hit with
    | Some sapling => mkWarning true (vec3 (x sapling) 2 (z sapling))
    | None =>
        if show (saplingWarning st)
        then mkWarning false (pos (saplingWarning st))
        else saplingWarning st
    end in
  (* Check big trees *)
  let r := forEach (cutTree sawPos hittingSapling) trees 0
             (mkTreeLoop (cutProgress st) (treesCut st) (fallRotation st)
                false [] rng0) in
  if t_changed r then
    (mkState (newTreesCut r) (newProgress r) (newFallRotations r) warning,
     t_emitted r
     ++ (if every (newTreesCut r) then [setTimeout_onPhaseComplete 3500] else []),
     rng r)
  else
    (mkState (treesCut st) (cutProgress st) (fallRotation st) warning, [], rng r).
End Handlers.

End TimberStage.

(** ** The sawdust particles (SawdustSystem) *)

Module SawdustSystem.

Definition count : nat := 1200.
Definition burstCount : nat := 60.
Definition duration : nat := 15.

Record Particle := mkParticle {
  active : bool;
  position : Vector3;
  velocity : Vector3;
  rotation : Vector3;
  rotSpeed : Vector3;
  scale : Q;
  life : Q;
  isPiled : bool
}.

(** One running [setInterval] of a burst, with its captured [pos] and
    [iter]. *)
Record Interval := mkInterval { origin : Vector3; iter : nat }.

Record System := mkSystem {
  (* [meshRef.current] is attached *)
  meshRef : bool;
  (* [meshRef.current.count], the number of instances drawn *)
  meshCount : nat;
  (* [particles.current] *)
  particles : list Particle;
  (* index into the palette per instance, set by [setColorAt] *)
  instanceColor : list nat;
  intervals : list Interval;
  (* calls of [Math.random] made so far *)
  rng : nat
}.

Definition fresh : Particle :=
  mkParticle false (vec3 0 0 0) (vec3 0 0 0) (vec3 0 0 0) (vec3 0 0 0) 1 0 false.

(** The pool built by [useMemo] when the component mounts. *)
Definition initial : System :=
  {| meshRef := true;
     meshCount := count;
     particles := replicate count fresh;
     instanceColor := replicate count 0%nat;
     intervals := [];
     rng := 0 |}.

Definition activeCount (ps : list Particle) : nat :=
  length (filter (fun p => active p = true) ps).

(** [spawnBurst(pos)] starts an interval; the particles come with its
    ticks. *)
Definition spawnBurst (pos : Vector3) (sys : System) : System :=
  mkSystem (meshRef sys) (meshCount sys) (particles sys) (instanceColor sys)
    (intervals sys ++ [mkInterval pos 0]) (rng sys).

(** [clear()]. *)
Definition clear (sys : System) : System :=
  mkSystem (meshRef sys)
    (if meshRef sys then 0%nat else meshCount sys)
    (map (fun p => mkParticle false (position p) (velocity p) (rotation p)
                     (rotSpeed p) (scale p) (life p) (isPiled p))
         (particles sys))
    (instanceColor sys) (intervals sys) (rng sys).

Section Dynamics.
(** [random k] is the result of the k-th call of [Math.random]. *)
Variable random : nat -> Q.
Variables sin cos : Q -> Q.
Variable PI : Q.

(** The assignments to a free slot [p], drawing from [random] at [r]:
    the new particle, its palette index and the next draw. *)
Definition activate (pos : Vector3) (p : Particle) (r : nat)
    : Particle * nat * nat :=
  let position' :=
    vec3 (v_x pos + (random r - 0.5) * 0.1)
         (v_y pos + random (r + 1) * 0.1)
         (v_z pos + (random (r + 2) - 0.5) * 0.1) in
  let angle := random (r + 3) * PI * 2 in
  let force := 0.5 + random (r + 4) * 2.0 in
  let velocity' :=
    vec3 (sin angle * force) (2.5 + random (r + 5) * 3.0) (cos angle * force) in
  let rotation' :=
    vec3 (random (r + 6) * PI) (random (r + 7) * PI) (random (r + 8) * PI) in
  let rotSpeed' :=
    vec3 ((random (r + 9) - 0.5) * 15) ((random (r + 10) - 0.5) * 15)
         ((random (r + 11) - 0.5) * 15) in
  let scale' := 0.5 + random (r + 12) * 0.7 in
  let color := Z.to_nat (Qfloor (random (r + 13) * 3)) in
  (mkParticle true position' velocity' rotation' rotSpeed' scale' 0 false,
   color, (r + 14)%nat).

(** [for (let i = 0; i < count; i++) {...}] of one tick, from index [i]
    with [fuel] iterations left.  [None] is the TypeError of reading
    [.active] of a missing slot. *)
Fixpoint spawnLoop (fuel i spawnedInBatch batch : nat) (pos : Vector3)
    (sys : System) : option System :=
  match fuel with
  | O => Some sys
  | S fuel' =>
      match particles sys !! i with
      | None => None
      | Some p =>
          if active p then spawnLoop fuel' (S i) spawnedInBatch batch pos sys
          else
            let '(p', color, r') := activate pos p (rng sys) in
            let sys' :=
              mkSystem (meshRef sys) (meshCount sys)
                (<[i:=p']> (particles sys))
                (<[i:=color]> (instanceColor sys))
                (intervals sys) r' in
            if (batch <=? S spawnedInBatch)%nat then Some sys'   (* break *)
            else spawnLoop fuel' (S i) (S spawnedInBatch) batch pos sys'
      end
  end.

Definition setIntervals (l : list Interval) (sys : System) : System :=
  mkSystem (meshRef sys) (meshCount sys) (particles sys) (instanceColor sys)
    l (rng sys).

(** One firing of the [k]-th running interval. *)
Definition tick (k : nat) (sys : System) : option System :=
  match intervals sys !! k with
  | None => Some sys
  | Some iv =>
      if meshRef sys then
        let batch := (burstCount / duration)%nat in
        match spawnLoop count 0 0 batch (origin iv) sys with
        | None => None
        | Some sys' =>
            let iter' := S (iter iv) in
            Some (setIntervals
                    (if (duration <=? iter')%nat then delete k (intervals sys')
                     else <[k := mkInterval (origin iv) iter']> (intervals sys'))
                    sys')
        end
      else Some (setIntervals (delete k (intervals sys)) sys)
  end.

Definition gravity : Q := -12.
Definition floorY : Q := 0.01.

(** What [useFrame] does to one particle; drawing at [r]. *)
Definition integrate (dt : Q) (p : Particle) (r : nat) : Particle * nat :=
  if active p && negb (isPiled p) then
    let v := velocity p in
    let v1 := vec3 (v_x v * 0.98) (v_y v + gravity * dt) (v_z v * 0.98) in
    let q := position p in
    let q1 := vec3 (v_x q + v_x v1 * dt) (v_y q + v_y v1 * dt)
                   (v_z q + v_z v1 * dt) in
    let e := rotation p in
    let s := rotSpeed p in
    let e1 := vec3 (v_x e + v_x s * dt) (v_y e + v_y s * dt)
                   (v_z e + v_z s * dt) in
    if Qle_bool (v_y q1) floorY then
      (mkParticle (active p)
         (vec3 (v_x q1) (floorY + random r * 0.04) (v_z q1))
         (vec3 0 0 0)
         (vec3 (PI / 2) (v_y e1) (v_z e1))
         (vec3 0 0 0)
         (scale p * 0.9) (life p) true,
       S r)
    else
      (mkParticle (active p) q1 v1 e1 s (scale p) (life p) (isPiled p), r)
  else (p, r).

Fixpoint integrateAll (dt : Q) (ps : list Particle) (r : nat)
    : list Particle * nat :=
  match ps with
  | [] => ([], r)
  | p :: ps' =>
      let '(p1, r1) := integrate dt p r in
      let '(ps1, r2) := integrateAll dt ps' r1 in
      (p1 :: ps1, r2)
  end.

(** [useFrame((state, delta) => ...)]: the loop visits the slots
    [0 .. count-1]; [None] is the TypeError of a missing slot. *)
Definition frame (delta : Q) (sys : System) : option System :=
  if meshRef sys then
    if decide (count <= length (particles sys))%nat then
      let dt := Qmin delta 0.1 in
      let '(ps, r) := integrateAll dt (take count (particles sys)) (rng sys) in
      Some (mkSystem (meshRef sys) (meshCount sys)
              (ps ++ drop count (particles sys)) (instanceColor sys)
              (intervals sys) r)
    else None
  else Some sys.

(** The events that reach a mounted particle system. *)
Inductive Event :=
| EvSpawnBurst (pos : Vector3)
| EvTick (k : nat)
| EvClear
| EvFrame (delta : Q).

Definition step (e : Event) (sys : System) : option System :=
  match e with
  | EvSpawnBurst pos => Some (spawnBurst pos sys)
  | EvTick k => tick k sys
  | EvClear => Some (clear sys)
  | EvFrame delta => frame delta sys
  end.

(** Running a sequence of events from a state. *)
Fixpoint run (es : list Event) (sys : System) : option System :=
  match es with
  | [] => Some sys
  | e :: es' =>
      match step e sys with
      | None => None
      | Some sys' => run es' sys'
      end
  end.
End Dynamics.

End SawdustSystem.

(** ** The session (App) *)

Module App.

Record State := mkState {
  phase : GamePhase;
  progress : Q;
  level : nat;
  inventory : list string;
  rawWoodCount : nat
}.

Definition initial : State := mkState INTRO 0 1 [] 0.

(** [setTimeout(() => setPhase(target), delay)]. *)
Record Timer := mkTimer { delay : nat; target : GamePhase }.

Definition setPhase (p : GamePhase) (st : State) : State :=
  mkState p (progress st) (level st) (inventory st) (rawWoodCount st).

Definition setRawWoodCount (n : nat) (st : State) : State :=
  mkState (phase st) (progress st) (level st) (inventory st) n.

(** [nextPhase]: the new cells and the timers it starts. *)
Definition nextPhase (st : State) : State * list Timer :=
  if decide (level st = 1%nat) then
    match phase st with
    | INTRO => (setRawWoodCount 0 (setPhase TIMBER st), [])
    | TIMBER => (setPhase CLAMPING st, [])
    | CLAMPING => (setPhase MARKING st, [mkTimer 2000 CUTTING])
    | CUTTING => (setPhase ASSEMBLY_PREP st, [mkTimer 1500 ASSEMBLY])
    | ASSEMBLY => (setPhase CUTTING_BACK st, [])
    | CUTTING_BACK => (setPhase ASSEMBLY_C st, [])
    | ASSEMBLY_C => (setPhase CUTTING_TOP st, [])
    | CUTTING_TOP => (setPhase ASSEMBLY_D st, [])
    | ASSEMBLY_D => (setPhase SUCCESS st, [])
    | SUCCESS => (st, [])      (* Controlled by UI Overlay 'Collect' button *)
    | _ => (setPhase INTRO st, [])
    end
  else if decide (level st = 2%nat) then
    match phase st with
    | INTRO => (setPhase CLAMPING st, [])
    | CLAMPING => (setPhase CUTTING st, [])
    | CUTTING => (setPhase ASSEMBLY st, [])
    | ASSEMBLY => (setPhase SUCCESS st, [])
    | SUCCESS => (st, [])      (* End of demo *)
    | _ => (setPhase INTRO st, [])
    end
  else (st, []).

(** A timer started by [nextPhase] fires. *)
Definition fire (t : Timer) (st : State) : State := setPhase (target t) st.

Definition handleCollectAndNext (st : State) : State :=
  if decide (level st = 1%nat) then
    mkState INTRO 0 2 (inventory st ++ ["Dovetail Box"%string]) (rawWoodCount st)
  else
    mkState INTRO 0 1 (inventory st ++ ["Wooden Stool"%string]) 0.


Definition stoolPhases : list GamePhase :=
  [INTRO; CLAMPING; CUTTING; ASSEMBLY; SUCCESS].




End App.

(** ** What WoodProject mounts *)

Inductive Component := TimberStageC | StoolProjectC | BoxProjectC.

#[export] Instance Component_eq_dec : EqDecision Component.
Proof. solve_decision. Defined.

(** The component [WoodProject] returns for a phase and a level. *)
Definition WoodProject (phase : GamePhase) (level : nat) : Component :=
  if decide (phase = TIMBER) then TimberStageC
  else if decide (level = 2%nat) then StoolProjectC
  else BoxProjectC.

(** The mounted project with the particle system it renders.  React keeps
    the cells of a component while [WoodProject] returns the same component
    and builds them anew, from the [useState] initialisers, when it returns
    another one. *)
Inductive Mounted :=
| MTimber (t : TimberStage.State) (dust : SawdustSystem.System)
| MStool (s : StoolProject.State) (dust : SawdustSystem.System)
| MBox (b : BoxProject.State) (dust : SawdustSystem.System).

Definition componentOf (m : Mounted) : Component :=
  match m with
  | MTimber _ _ => TimberStageC
  | MStool _ _ => StoolProjectC
  | MBox _ _ => BoxProjectC
  end.

(** The calls of a handler or effect that go to [sawdustRef.current]. *)
Definition toSawdust (calls : list Call) (dust : SawdustSystem.System)
    : SawdustSystem.System :=
  fold_left (fun d c =>
               match c with
               | spawnBurst pos => SawdustSystem.spawnBurst pos d
               | clear => SawdustSystem.clear d
               | _ => d
               end) calls dust.

(** The legs group of the stool is rendered in ASSEMBLY and SUCCESS, at
    [position={[0, -4, 0]}]. *)
Definition attachLegs (phase : GamePhase) (s : StoolProject.State)
    : StoolProject.State :=
  let rendered :=
    match phase with ASSEMBLY | SUCCESS => true | _ => false end in
  StoolProject.mkState (StoolProject.holesDrilled s) (StoolProject.legsState s)
    (StoolProject.hammerTaps s)
    (if rendered
     then match StoolProject.legsRef s with Some y => Some y | None => Some (-4) end
     else None).

(** Mounting the component [WoodProject] returns: its cells are built from
    the [useState] initialisers, its particle pool by [useMemo], and its
    effect on [phase] runs. *)
Definition mount (phase : GamePhase) (level : nat) : Mounted :=
  match WoodProject phase level with
  | TimberStageC => MTimber TimberStage.initial SawdustSystem.initial
  | StoolProjectC =>
      let '(s, calls) :=
        StoolProject.phaseEffect phase (attachLegs phase StoolProject.initial) in
      MStool s (toSawdust calls SawdustSystem.initial)
  | BoxProjectC =>
      let '(b, calls) := BoxProject.phaseEffect phase BoxProject.initial in
      MBox b (toSawdust calls SawdustSystem.initial)
  end.

(** Rendering the component that is already mounted with a new [phase]: its
    cells are kept and its effect runs when [phase] has changed. *)
Definition update (prevPhase phase : GamePhase) (m : Mounted) : Mounted :=
  match m with
  | MTimber _ _ => m
  | MStool s dust =>
      let s1 := attachLegs phase s in
      if decide (prevPhase = phase) then MStool s1 dust
      else
        let '(s2, calls) := StoolProject.phaseEffect phase s1 in
        MStool s2 (toSawdust calls dust)
  | MBox b dust =>
      if decide (prevPhase = phase) then m
      else
        let '(b1, calls) := BoxProject.phaseEffect phase b in
        MBox b1 (toSawdust calls dust)
  end.

Definition commit (prevPhase phase : GamePhase) (level : nat) (old : Mounted)
    : Mounted :=
  if decide (componentOf old = WoodProject phase level)
  then update prevPhase phase old
  else mount phase level.

(** The session, what is mounted under it, and the timers of [nextPhase] that
    have not fired yet. *)
Record World := mkWorld {
  app : App.State;
  mounted : Mounted;
  timers : list App.Timer
}.

Definition boot : World := mkWorld App.initial (mount INTRO 1) [].

(** What can happen to the session. *)
Inductive Action :=
| ActNextPhase                 (* onPhaseComplete / onNext *)
| ActCollect                   (* onCollect *)
| ActTimer (k : nat)           (* the k-th pending timer fires *)
| ActHandlers (m : Mounted).   (* handlers of the mounted project ran and
                                  left its cells and particles as [m] *)

(** New cells of the session: the tree is rendered again. *)
Definition setApp (st' : App.State) (started : list App.Timer) (w : World) : World :=
  mkWorld st'
    (commit (App.phase (app w)) (App.phase st') (App.level st') (mounted w))
    (timers w ++ started).

Definition act (a : Action) (w : World) : World :=
  match a with
  | ActNextPhase =>
      let '(st', started) := App.nextPhase (app w) in setApp st' started w
  | ActCollect => setApp (App.handleCollectAndNext (app w)) [] w
  | ActTimer k =>
      match timers w !! k with
      | Some t =>
          let w' := setApp (App.fire t (app w)) [] w in
          mkWorld (app w') (mounted w') (delete k (timers w'))
      | None => w
      end
  | ActHandlers m =>
      if decide (componentOf m = componentOf (mounted w))
      then mkWorld (app w) m (timers w)
      else w
  end.

(** The completion flags of the mounted project are all unset and no
    particle of its pool is active. *)
Definition allReset (m : Mounted) : Prop :=
  match m with
  | MBox b dust =>
      BoxProject.wastesCutBFront b = all_false NUM_TAILS
      /\ BoxProject.wastesCutBBack b = all_false NUM_TAILS
      /\ BoxProject.wastesCutD b = all_false NUM_TAILS
      /\ SawdustSystem.activeCount (SawdustSystem.particles dust) = 0%nat
  | MStool s dust =>
      StoolProject.holesDrilled s = [false; false; false; false]
      /\ SawdustSystem.activeCount (SawdustSystem.particles dust) = 0%nat
  | MTimber _ _ => False
  end.

(** What holds of every world the session reaches: the level is 1 or 2, a
    stool is in one of the stool's phases, the mounted component is the one
    [WoodProject] returns, and the pending timers are those [nextPhase]
    starts. *)
Definition wellFormed (w : World) : Prop :=
  (App.level (app w) = 1%nat
   \/ (App.level (app w) = 2%nat /\ In (App.phase (app w)) App.stoolPhases))
  /\ componentOf (mounted w) = WoodProject (App.phase (app w)) (App.level (app w))
  /\ Forall (fun t => App.target t = CUTTING \/ App.target t = ASSEMBLY) (timers w).

Definition setsPhase (a : Action) : Prop :=
  match a with ActHandlers _ => False | _ => True end.


(** ** Notions used to state and prove the properties *)

(** Running a handler [h] over a sequence of inputs: the state after the
    last call and, per call, the calls it made. *)
Fixpoint runHandler {St I : Type} (h : I -> St -> St * list Call)
    (inputs : list I) (st : St) : St * list (list Call) :=
  match inputs with
  | [] => (st, [])
  | i :: rest =>
      let '(st1, calls) := h i st in
      let '(st2, log) := runHandler h rest st1 in
      (st2, calls :: log)
  end.

(** The state after the first [k] calls. *)
Definition stateAfter {St I : Type} (h : I -> St -> St * list Call)
    (k : nat) (inputs : list I) (st : St) : St :=
  fst (runHandler h (take k inputs) st).

(** The shape shared by the loops of [handleCut] and [handleDrill]: a target
    [a] is marked when its flag is unset and [hit a] holds. *)
Section MarkLoop.
Context {A : Type}.
Variable hit : A -> bool.
Variable burst : A -> Call.
Variable signal : Call.

Definition markOne (acc : CutLoop) (a : A) (idx : nat) : CutLoop :=
  if negb (array_get (newFlags acc) idx) && hit a
  then {| newFlags := array_set false (newFlags acc) idx true;
          changed := true;
          emitted := emitted acc ++ [burst a] |}
  else acc.

(** The flags after the loop, and the targets it newly marks, for flags
    and targets of the same length. *)
Fixpoint marked (flags : list bool) (ts : list A) : list bool :=
  match flags, ts with
  | f :: fs, a :: ts' => (f || hit a) :: marked fs ts'
  | _, _ => flags
  end.

Fixpoint newly (flags : list bool) (ts : list A) : list A :=
  match flags, ts with
  | f :: fs, a :: ts' => (if negb f && hit a then [a] else []) ++ newly fs ts'
  | _, _ => []
  end.

Definition markStep (ts : list A) (flags : list bool) : list bool * list Call :=
  let r := forEach markOne ts 0 (mkCutLoop flags false []) in
  if changed r
  then (newFlags r, emitted r ++ (if every (newFlags r) then [signal] else []))
  else (flags, []).
End MarkLoop.

(** The tool is within the threshold of a tail centre. *)
Definition inZone (xPos center : Q) : bool :=
  Qltb (Qabs (xPos - center)) BoxProject.threshold.

(** The box handler and the stool handler on a tool position. *)
Definition boxCut (phase : GamePhase) (p : Q * Q) (st : BoxProject.State)
    : BoxProject.State * list Call :=
  BoxProject.handleCut phase (fst p) (snd p) st.

Definition stoolDrill (p : Q * Q) (st : StoolProject.State)
    : StoolProject.State * list Call :=
  StoolProject.handleDrill CUTTING (fst p) (snd p) st.

Definition isCuttingPhase (phase : GamePhase) : Prop :=
  phase = CUTTING \/ phase = CUTTING_BACK \/ phase = CUTTING_TOP.

(** The tool positions that hit the targets in the order [order]: the tail
    centres for the box, the hole centres for the stool. *)
Definition centreHits (order : list nat) : list (Q * Q) :=
  map (fun i => (default 0 (TAIL_CENTERS !! i), 0)) order.

Definition holeHits (order : list nat) : list (Q * Q) :=
  map (fun i =>
         match StoolProject.LEG_POSITIONS !! i with
         | Some leg => (StoolProject.targetWorldX leg, StoolProject.targetWorldZ leg)
         | None => (0, 0)
         end) order.

(** The [k]-th call turns a set of targets that is not complete into one
    that is. *)
Definition completesAt {St I : Type} (h : I -> St -> St * list Call)
    (flagsOf : St -> list bool) (k : nat) (inputs : list I) (st : St) : bool :=
  negb (every (flagsOf (stateAfter h k inputs st)))
  && every (flagsOf (stateAfter h (S k) inputs st)).

(** The phase-complete signal is given by the call that completes the set of
    targets and by no other: per call, and counted over the whole run. *)
Definition firesOnce {St I : Type} (h : I -> St -> St * list Call)
    (flagsOf : St -> list bool) (inputs : list I) (st : St) : Prop :=
  let log := snd (runHandler h inputs st) in
  (forall k calls, log !! k = Some calls ->
     count_phaseComplete calls
     = if completesAt h flagsOf k inputs st then 1%nat else 0%nat)
  /\ count_phaseComplete (concat log)
     = (if every (flagsOf (fst (runHandler h inputs st))) then 1%nat else 0%nat)
  /\ (count_phaseComplete (concat log) <= 1)%nat.

(** The flags a handler works on in the box and in the stool. *)
Definition boxFlags (phase : GamePhase) (st : BoxProject.State) : list bool :=
  default [] (BoxProject.targetState phase st).

(** The run of the marking loop on the flags alone. *)
Definition flagRun {I A : Type} (hit : I -> A -> bool) (burst : A -> Call)
    (signal : Call) (ts : list A) (inputs : list I) (flags : list bool)
    : list bool * list (list Call) :=
  runHandler (fun i fl => markStep (hit i) burst signal ts fl) inputs flags.

Definition boxBurst (phase : GamePhase) (center : Q) : Call :=
  spawnBurst (vec3 center (BoxProject.yBase phase) (BoxProject.zBase phase)).

Definition stoolBurst (leg : StoolProject.Leg) : Call :=
  spawnBurst (vec3 (StoolProject.targetWorldX leg) 0.3 (StoolProject.targetWorldZ leg)).

(** The number of completed targets. *)
Definition countTrue (flags : list bool) : nat :=
  length (filter (fun b => b = true) flags).

(** The centres marked along a run of box cuts, in the order of their
    marking. *)
Fixpoint sweepCentres (inputs : list (Q * Q)) (flags : list bool) : list Q :=
  match inputs with
  | [] => []
  | p :: rest =>
      newly (inZone (fst p)) flags TAIL_CENTERS
      ++ sweepCentres rest (marked (inZone (fst p)) flags TAIL_CENTERS)
  end.

(** [k] clicks on the mallet of the box, and of the stool. *)
Definition boxTaps (targetY : Q) (b : BoardRef) (k : nat) (st : BoxProject.State)
    : BoxProject.State :=
  Nat.iter k (fun s => fst (BoxProject.handleHammerClick targetY b s)) st.

Definition stoolTaps (k : nat) (st : StoolProject.State) : StoolProject.State :=
  Nat.iter k (fun s => fst (StoolProject.handleHammer s)) st.

(** The height of the legs in the world (the seat is worked upside down, so
    the group's local y is the opposite). *)
Definition legsWorldY (st : StoolProject.State) : option Q :=
  match StoolProject.legsRef st with
  | Some y => Some (- y)
  | None => None
  end.

(** The free slots of a pool. *)
Definition idle (ps : list SawdustSystem.Particle) : nat :=
  length (filter (fun p => SawdustSystem.active p = false) ps).

(** ** The outlines of the boards (PinBoardMesh, TailBoardMesh, WasteBlock) *)

Definition JOINT_HEIGHT : Q := 0.4.

Module Joint.

(** A [THREE.Shape] drawn with [moveTo] and [lineTo]: its points in the
    order of the calls. *)
Definition Shape : Type := list (Q * Q).

(** A shape rendered in a group at [position = [x, y, _]]. *)
Definition placed (x y : Q) (s : Shape) : Shape :=
  map (fun p => (x + fst p, y + snd p)) s.

(** Two points with equal coordinates. *)
Definition samePoint (p q : Q * Q) : Prop := fst p == fst q /\ snd p == snd q.

Section Joint.
Variable BOARD_WIDTH : Q.
Variable NUM_TAILS : nat.
Variable TOTAL_TAIL_RATIO : Q.
Variable JOINT_HEIGHT : Q.
Variable BOARD_HEIGHT_A : Q.

Definition TIP : Q := Layout.TAIL_WIDTH_TIP BOARD_WIDTH NUM_TAILS TOTAL_TAIL_RATIO.
Definition ROOT : Q := Layout.TAIL_WIDTH_ROOT BOARD_WIDTH NUM_TAILS TOTAL_TAIL_RATIO.
Definition CENTERS : list Q :=
  Layout.TAIL_CENTERS BOARD_WIDTH NUM_TAILS TOTAL_TAIL_RATIO.

Definition createPinShape (xLeftBot xLeftTop xRightTop xRightBot : Q) : Shape :=
  let H := JOINT_HEIGHT in
  [ (xLeftBot, 0); (xLeftTop, H); (xRightTop, H); (xRightBot, 0); (xLeftBot, 0) ].

(** The pins of [PinBoardMesh], left to right.  [None] stands for a read
    of [TAIL_CENTERS] past its end, which leaves a shape without numbers
    for coordinates. *)
Definition firstPin : option Shape :=
  let W := BOARD_WIDTH / 2 in
  c ← CENTERS !! 0%nat;
  Some (createPinShape (- W) (- W) (c - TIP / 2) (c - ROOT / 2)).

Definition innerPin (i : nat) : option Shape :=
  a ← CENTERS !! i;
  b ← CENTERS !! S i;
  Some (createPinShape (a + ROOT / 2) (a + TIP / 2) (b - TIP / 2) (b - ROOT / 2)).

Definition lastPin : option Shape :=
  let W := BOARD_WIDTH / 2 in
  c ← CENTERS !! (NUM_TAILS - 1)%nat;
  Some (createPinShape (c + ROOT / 2) (c + TIP / 2) W W).

Definition shapesF : option (list Shape) :=
  f ← firstPin;
  inner ← mapM innerPin (seq 0 (NUM_TAILS - 1));
  l ← lastPin;
  Some (f :: inner ++ [l]).

(** The pin at place [k] of the row of [NUM_TAILS + 1] pins. *)
Definition pinAt (k : nat) : option Shape :=
  if decide (k = 0%nat) then firstPin
  else if decide (k = NUM_TAILS) then lastPin
  else innerPin (k - 1).

(** The outline of a tail, which is also that of a waste block. *)
Definition tailShape : Shape :=
  [ (- TIP / 2, JOINT_HEIGHT); (- ROOT / 2, 0); (ROOT / 2, 0);
    (TIP / 2, JOINT_HEIGHT); (- TIP / 2, JOINT_HEIGHT) ].

(** [<WasteBlock position={[center, 0, z]} />]. *)
Definition WasteBlock (center : Q) : Shape := placed center 0 tailShape.

End Joint.

(** The two sides of a pin: its first two points run up the left side, the
    next two down the right side.  A tail runs down its left side first and
    up its right side after. *)
Definition firstSide (s : Shape) : Shape := take 2 s.
Definition secondSide (s : Shape) : Shape := take 2 (drop 2 s).

(** The width of a pin at the height of the joint. *)
Definition topWidth (s : Shape) : Q :=
  match s with
  | _ :: (xLeftTop, _) :: (xRightTop, _) :: _ => xRightTop - xLeftTop
  | _ => 0
  end.

End Joint.

(** ** The tools (RouterTool.tsx, Tools.tsx) *)

(** Where the pointer ray meets the plane a tool is dragged on:
    [const target = new THREE.Vector3(); ray.intersectPlane(plane, target)].
    When the ray misses the plane [target] is left at the origin, and the
    test [if (target)] that follows holds in both cases. *)
Definition intersectPlane (hit : option Vector3) : Vector3 :=
  default (vec3 0 0 0) hit.

Module RouterTool.

Inductive Variant := router | drill.

(** What the tool calls on its props. *)
Inductive Emit :=
| onCut (x z : Q)
| onInteractionStart
| onInteractionEnd.

(** [THREE.MathUtils.lerp]. *)
Definition lerp (x y t : Q) : Q := (1 - t) * x + t * y.

Section Props.
Variable variant : Variant.
Variable phase : GamePhase.
Variable zBackPosition : Q.

Definition workY : Q :=
  match variant with
  | drill => 0.3
  | router => if decide (phase = CUTTING_TOP) then 5.4 else 0.6
  end.

Definition workZ : Q :=
  if decide (phase = CUTTING_BACK) then zBackPosition - 0.2 else 0.2.

Record State := mkState {
  (* meshRef.current.position *)
  position : Vector3;
  dragging : bool;
  (* drillBitRef.current.rotation.y *)
  bitRotation : Q
}.

(** The group is rendered at
    [position={[1.5, workY, variant === 'drill' ? 0 : workZ]}]. *)
Definition initial : State :=
  mkState (vec3 1.5 workY (match variant with drill => 0 | router => workZ end))
    false 0.

(** [useFrame((state, delta) => ...)]; [hit] is where the pointer ray meets
    the work plane. *)
Definition frame (hit : option Vector3) (delta : Q) (st : State)
    : State * list Emit :=
  let target := intersectPlane hit in
  let '(pos, calls) :=
    if dragging st then
      match variant with
      | drill =>
          let px := lerp (v_x (position st)) (v_x target) 0.5 in
          let pz := lerp (v_z (position st)) (v_z target) 0.5 in
          (vec3 px workY pz, [onCut px pz])
      | router =>
          let x := Qmax (-1.0) (Qmin 1.0 (v_x target)) in
          let px := lerp (v_x (position st)) x 0.3 in
          (vec3 px workY workZ, [onCut px workZ])
      end
    else (position st, []) in
  let speed := if dragging st then 40 else 2 in
  (mkState pos (dragging st) (bitRotation st + delta * speed), calls).

Definition onPointerDown (st : State) : State * list Emit :=
  (mkState (position st) true (bitRotation st), [onInteractionStart]).

Definition onPointerUp (st : State) : State * list Emit :=
  (mkState (position st) false (bitRotation st), [onInteractionEnd]).
End Props.

End RouterTool.

Module Mallet.

Inductive Emit := onClick | onDragStart | onDragEnd.

(** The fields of a pointer event the mallet reads, with the point where
    its ray meets the drag plane. *)
Record PointerEvent := mkPointerEvent {
  clientX : Q;
  clientY : Q;
  hit : option Vector3
}.

Record State := mkState {
  strike : bool;
  isDragging : bool;
  currentPos : Vector3;
  (* dragStartPos.current *)
  dragStartPos : Q * Q;
  (* planeRef.current.constant *)
  planeConstant : Q
}.

(** The cells and refs for the prop [position]. *)
Definition initial (position : Vector3) : State :=
  mkState false false position (0, 0) (- v_y position).

(** [useEffect(() => {...}, [position[0], position[1], position[2]])]. *)
Definition positionEffect (position : Vector3) (st : State) : State :=
  mkState (strike st) (isDragging st) position (dragStartPos st)
    (- v_y position).


Definition handlePointerDown (e : PointerEvent) (st : State)
    : State * list Emit :=
  (mkState (strike st) true (currentPos st) (clientX e, clientY e)
     (planeConstant st),
   [onDragStart]).

Definition handlePointerMove (e : PointerEvent) (st : State) : State :=
  if isDragging st then
    let target := intersectPlane (hit e) in
    mkState (strike st) (isDragging st)
      (vec3 (v_x target) (v_y (currentPos st)) (v_z target))
      (dragStartPos st) (planeConstant st)
  else st.

(** Square of [dragStartPos.current.distanceTo(new THREE.Vector2(e.clientX,
    e.clientY))]. *)
Definition moved2 (e : PointerEvent) (st : State) : Q :=
  (fst (dragStartPos st) - clientX e) * (fst (dragStartPos st) - clientX e)
  + (snd (dragStartPos st) - clientY e) * (snd (dragStartPos st) - clientY e).

(** [dist < 5], squared. *)
Definition handlePointerUp (e : PointerEvent) (st : State)
    : State * list Emit :=
  if Qltb (moved2 e st) (5 * 5) then
    (mkState true false (currentPos st) (dragStartPos st) (planeConstant st),
     [onDragEnd; onClick])
  else
    (mkState (strike st) false (currentPos st) (dragStartPos st)
       (planeConstant st),
     [onDragEnd]).

End Mallet.

Module Chainsaw.

Inductive Emit :=
| onCut (pos : Vector3)
| onDragStart
| onDragEnd.

Record State := mkState {
  dragging : bool;
  tiltIndex : nat;
  (* groupRef.current.position *)
  position : Vector3
}.

Definition initial (position : Vector3) : State := mkState false 0 position.

(** [setTiltIndex((prev) => (prev + 1) % 3)]. *)
Definition toggleTilt (st : State) : State :=
  mkState (dragging st) ((tiltIndex st + 1) mod 3) (position st).

(** The listener on [keydown]: [e.key.toLowerCase() === 'r'] holds of the
    keys [r] and [R]. *)
Definition handleKeyDown (key : string) (st : State) : State :=
  if (String.eqb key "r" || String.eqb key "R")%bool then toggleTilt st else st.

(** [button] is [e.nativeEvent.button]. *)
Definition handlePointerDown (button : nat) (st : State) : State * list Emit :=
  if decide (button = 2%nat) then (toggleTilt st, [])
  else (mkState true (tiltIndex st) (position st), [onDragStart]).

Definition handlePointerMove (hit : option Vector3) (st : State) : State :=
  if dragging st then
    let target := intersectPlane hit in
    mkState (dragging st) (tiltIndex st)
      (vec3 (v_x target) (v_y (position st)) (v_z target))
  else st.

(** [tip] is the world position of the blade tip, read from [tipRef]. *)
Definition handlePointerUp (tip : Vector3) (st : State) : State * list Emit :=
  if dragging st
  then (mkState false (tiltIndex st) (position st), [onDragEnd; onCut tip])
  else (st, []).

Section Frame.
Variable sin : Q -> Q.

(** [useFrame(({ clock }) => ...)]. *)
Definition frame (elapsedTime : Q) (tip : Vector3) (st : State)
    : State * list Emit :=
  let vibeStrength := if dragging st then 0.005 else 0.001 in
  let p := position st in
  (mkState (dragging st) (tiltIndex st)
     (vec3 (v_x p) (1 + sin (elapsedTime * 50) * vibeStrength) (v_z p)),
   if dragging st then [onCut tip] else []).
End Frame.

End Chainsaw.

(** ** Double precision *)

#[local] Set Warnings "-inexact-float".

(** The kernel's binary64 floats: [+], [-], [*], [/] and [sqrt] round to
    nearest, ties to even, as those of JavaScript do, and a decimal literal
    is the double nearest to it. *)
Module F64.
Import PrimFloat.
Local Open Scope float_scope.

Definition ofNat (n : nat) : PrimFloat.float :=
  PrimFloat.of_uint63 (Uint63.of_Z (Z.of_nat n)).

(** The rational number a finite double stands for. *)
Definition toQ (f : PrimFloat.float) : Q :=
  match FloatOps.Prim2SF f with
  | SpecFloat.S754_finite s m e =>
      let v := (inject_Z (Zpos m) * Qpower 2 e)%Q in
      if s then (- v)%Q else v
  | _ => 0%Q
  end.

(** [new THREE.Vector2(ax, az).distanceTo(new THREE.Vector2(bx, bz))]. *)
Definition distanceTo (ax az bx bz : PrimFloat.float) : PrimFloat.float :=
  let dx := ax - bx in
  let dy := az - bz in
  PrimFloat.sqrt (dx * dx + dy * dy).

End F64.

(** *** The geometry helpers in doubles *)

Module Layout64.
Import PrimFloat.
Local Open Scope float_scope.

Section Layout.
Variable BOARD_WIDTH : PrimFloat.float.
Variable NUM_TAILS : nat.
Variable TOTAL_TAIL_RATIO : PrimFloat.float.

Definition TAIL_WIDTH_TIP : PrimFloat.float :=
  (BOARD_WIDTH * TOTAL_TAIL_RATIO) / F64.ofNat NUM_TAILS.
Definition TAIL_WIDTH_ROOT : PrimFloat.float := TAIL_WIDTH_TIP * 0.55.

Definition totalTailWidth : PrimFloat.float := TAIL_WIDTH_TIP * F64.ofNat NUM_TAILS.
Definition remainingWidth : PrimFloat.float := BOARD_WIDTH - totalTailWidth.
Definition pinWidth : PrimFloat.float := remainingWidth / (F64.ofNat NUM_TAILS + 1).
Definition pitch : PrimFloat.float := TAIL_WIDTH_TIP + pinWidth.
Definition firstX : PrimFloat.float :=
  - BOARD_WIDTH / 2 + pinWidth + TAIL_WIDTH_TIP / 2.

(** [for (let i = 0; i < NUM_TAILS; i++) { centers.push(currentX);
    currentX += pitch; }] with [k] rounds left. *)
Fixpoint push_centers (k : nat) (currentX : PrimFloat.float) : list PrimFloat.float :=
  match k with
  | O => []
  | S k' => currentX :: push_centers k' (currentX + pitch)
  end.

Definition TAIL_CENTERS : list PrimFloat.float := push_centers NUM_TAILS firstX.

(** [const threshold = TAIL_WIDTH_TIP / 1.5] of [handleCut]. *)
Definition threshold : PrimFloat.float := TAIL_WIDTH_TIP / 1.5.
End Layout.

End Layout64.

(** The shipped box in doubles. *)
Module Box64.
Import PrimFloat.
Local Open Scope float_scope.

Definition BOARD_WIDTH : float := 2.
Definition TOTAL_TAIL_RATIO : float := 0.65.

Definition TAIL_WIDTH_TIP : float :=
  Layout64.TAIL_WIDTH_TIP BOARD_WIDTH NUM_TAILS TOTAL_TAIL_RATIO.
Definition pinWidth : float :=
  Layout64.pinWidth BOARD_WIDTH NUM_TAILS TOTAL_TAIL_RATIO.
Definition pitch : float :=
  Layout64.pitch BOARD_WIDTH NUM_TAILS TOTAL_TAIL_RATIO.
Definition TAIL_CENTERS : list float :=
  Layout64.TAIL_CENTERS BOARD_WIDTH NUM_TAILS TOTAL_TAIL_RATIO.
Definition threshold : float :=
  Layout64.threshold BOARD_WIDTH NUM_TAILS TOTAL_TAIL_RATIO.

(** The doubles [TAIL_CENTERS] holds, and the pin width and the pitch it
    is computed with, as decimal literals. *)
Definition centres : list float :=
  [ -0.6975; -0.23250000000000004; 0.23249999999999993; 0.6974999999999999 ].
Definition pinWidthValue : float := 0.13999999999999999.
Definition pitchValue : float := 0.46499999999999997.
Definition tipValue : float := 0.325.
Definition thresholdValue : float := 0.21666666666666667.

Definition halfPitch : float := pitch / 2.

End Box64.

(** Two rationals are within [eps] of each other. *)
Definition within (eps a b : Q) : Prop := Qabs (a - b) <= eps.

(** A list of doubles increases strictly. *)
Definition increasing64 (l : list PrimFloat.float) : Prop :=
  StronglySorted (fun a b => PrimFloat.ltb a b = true) l.

(** *** The mallet on the legs of the stool, in doubles *)

Module StoolProject64.
Import PrimFloat.
Local Open Scope float_scope.

(** The cells and the ref that [handleHammer] reads and writes; [legsRef]
    holds [legsRef.current.position.y]. *)
Record State := mkState {
  legsState : StoolProject.LegsState;
  hammerTaps : nat;
  legsRef : option float
}.

Definition startWorldY : float := 0.5.
Definition endWorldY : float := 0.05.

Definition handleHammer (st : State) : State * list Call :=
  match legsRef st, legsState st with
  | Some _, StoolProject.hammering =>
      let newTaps := S (hammerTaps st) in
      let progress := F64.ofNat newTaps / F64.ofNat HAMMER_TAPS_REQUIRED in
      let currentWorldY := startWorldY - ((startWorldY - endWorldY) * progress) in
      if (HAMMER_TAPS_REQUIRED <=? newTaps)%nat then
        (mkState StoolProject.done newTaps (Some (- currentWorldY)),
         [setTimeout_onPhaseComplete 600])
      else (mkState (legsState st) newTaps (Some (- currentWorldY)), [])
  | _, _ => (st, [])
  end.

(** The legs as [handleLegDrag] leaves them when it locks them:
    [legsRef.current.position.y = -worldMinY], hammering, no tap counted. *)
Definition locked : State := mkState StoolProject.hammering 0 (Some (- 0.5)).

(** The height of the legs in the world: the opposite of the local y. *)
Definition legsWorldY (st : State) : option float :=
  match legsRef st with
  | Some y => Some (- y)
  | None => None
  end.

(** [k] clicks on the mallet. *)
Definition taps (k : nat) (st : State) : State :=
  Nat.iter k (fun s => fst (handleHammer s)) st.

(** The heights the three taps leave the legs at, as decimal literals. *)
Definition tapHeights : list float := [ 0.35; 0.2; 0.04999999999999999 ].

End StoolProject64.

(** *** The chainsaw among the trees, in doubles *)

(** [handleCut] of [TimberStage] with the tip of the chainsaw and its
    distances to the trees and saplings in doubles.  The progress of a cut
    (even whole numbers up to 100), the random numbers and the places of
    the bursts stay exact; [atan2] takes the doubles the code passes it. *)
Module TimberStage64.
Import PrimFloat.
Local Open Scope float_scope.

(** [sawPos]. *)
Record Tip := mkTip { t_x : float; t_y : float; t_z : float }.

Record Spot := mkSpot { x : float; z : float }.

Definition trees : list Spot := [ mkSpot (-3) (-2); mkSpot 3 0 ].

Definition saplings : list Spot :=
  [ mkSpot (-4.5) (-3); mkSpot (-1.5) (-1); mkSpot 4.5 1.5;
    mkSpot 1.5 0.5; mkSpot (-2) 2 ].

(** [new THREE.Vector2(sawPos.x, sawPos.z).distanceTo(new
    THREE.Vector2(s.x, s.z))]. *)
Definition dist (sawPos : Tip) (s : Spot) : float :=
  F64.distanceTo (t_x sawPos) (t_z sawPos) (x s) (z s).

(** The radius and the height of a sapling's zone and the radius of a
    tree's, as the literals of the code. *)
Definition saplingRadius : float := 0.8.
Definition saplingHeight : float := 1.5.
Definition treeRadius : float := 1.2.

(** [dist < 0.8 && sawPos.y < 1.5] *)
Definition hitsSapling (sawPos : Tip) (s : Spot) : bool :=
  (dist sawPos s <? saplingRadius) && (t_y sawPos <? saplingHeight).

(** [dist < 1.2 && heightValid] *)
Definition inTree (sawPos : Tip) (tree : Spot) : bool :=
  (dist sawPos tree <? treeRadius) && ((0 <? t_y sawPos) && (t_y sawPos <? 3)).

Section Handlers.
(** [random k] is the result of the k-th call of [Math.random]. *)
Variable random : nat -> Q.
Variable atan2 : float -> float -> Q.

(** Body of [trees.forEach((tree, idx) => ...)]. *)
Definition cutTree (sawPos : Tip) (hittingSapling : bool)
    (acc : TimberStage.TreeLoop) (tree : Spot) (idx : nat) : TimberStage.TreeLoop :=
  if negb (array_get (TimberStage.newTreesCut acc) idx) && negb hittingSapling then
    if inTree sawPos tree then
      let p := Qmin 100 (default 0%Q (TimberStage.newProgress acc !! idx) + 2)%Q in
      let prog := array_set 0%Q (TimberStage.newProgress acc) idx p in
      let '(burst, rng1) :=
        if Qltb 0.8 (random (TimberStage.rng acc)) then
          ([spawnBurst
              (vec3 (F64.toQ (x tree)
                     + (random (S (TimberStage.rng acc)) - 0.5) * 0.5)%Q
                    0.5%Q
                    (F64.toQ (z tree)
                     + (random (S (S (TimberStage.rng acc))) - 0.5) * 0.5)%Q)],
           S (S (S (TimberStage.rng acc))))
        else ([], S (TimberStage.rng acc)) in
      if Qle_bool 100 p then
        let angle := atan2 (x tree - t_x sawPos) (z tree - t_z sawPos) in
        {| TimberStage.newProgress := prog;
           TimberStage.newTreesCut :=
             array_set false (TimberStage.newTreesCut acc) idx true;
           TimberStage.newFallRotations :=
             array_set 0%Q (TimberStage.newFallRotations acc) idx angle;
           TimberStage.t_changed := true;
           TimberStage.t_emitted :=
             TimberStage.t_emitted acc ++ burst ++ [setRawWoodCount_increment];
           TimberStage.rng := rng1 |}
      else
        {| TimberStage.newProgress := prog;
           TimberStage.newTreesCut := TimberStage.newTreesCut acc;
           TimberStage.newFallRotations := TimberStage.newFallRotations acc;
           TimberStage.t_changed := true;
           TimberStage.t_emitted := TimberStage.t_emitted acc ++ burst;
           TimberStage.rng := rng1 |}
    else acc
  else acc.

(** [handleCut(sawPos)]; the third component is the number of calls of
    [Math.random] after the handler. *)
Definition handleCut (sawPos : Tip) (st : TimberStage.State) (rng0 : nat)
    : TimberStage.State * list Call * nat :=
  (* Check saplings first *)
  let hit := List.find (hitsSapling sawPos) saplings in
  let hittingSapling := match hit with Some _ => true | None => false end in
  let warning :=
    match hit with
    | Some sapling =>
        TimberStage.mkWarning true
          (vec3 (F64.toQ (x sapling)) 2%Q (F64.toQ (z sapling)))
    | None =>
        if TimberStage.show (TimberStage.saplingWarning st)
        then TimberStage.mkWarning false (TimberStage.pos (TimberStage.saplingWarning st))
        else TimberStage.saplingWarning st
    end in
  (* Check big trees *)
  let r := forEach (cutTree sawPos hittingSapling) trees 0
             (TimberStage.mkTreeLoop (TimberStage.cutProgress st)
                (TimberStage.treesCut st) (TimberStage.fallRotation st)
                false [] rng0) in
  if TimberStage.t_changed r then
    (TimberStage.mkState (TimberStage.newTreesCut r) (TimberStage.newProgress r)
       (TimberStage.newFallRotations r) warning,
     TimberStage.t_emitted r
     ++ (if every (TimberStage.newTreesCut r)
         then [setTimeout_onPhaseComplete 3500] else []),
     TimberStage.rng r)
  else
    (TimberStage.mkState (TimberStage.treesCut st) (TimberStage.cutProgress st)
       (TimberStage.fallRotation st) warning, [], TimberStage.rng r).
End Handlers.

(** Tips of the chainsaw used below: between the sapling at (-1.5, -1) and
    the tree at (-3, -2), low and lifted; and a tip whose distance to the
    sapling at (1.5, 0.5) is less than 0.8 as a real number and the double
    0.8 as the code computes it. *)
Definition tipBetween : Tip := mkTip (-2.1) 1 (-1.4).
Definition tipLifted : Tip := mkTip (-2.1) 2 (-1.4).
Definition tipAtEdge : Tip := mkTip 2.2981360578208525 1 0.5545786882050925.

End TimberStage64.

(** ** Runs of the other handlers *)

Definition is_rawWood (c : Call) : bool :=
  match c with setRawWoodCount_increment => true | _ => false end.

(** The number of calls [setRawWoodCount(prev => prev + 1)]. *)
Definition count_rawWood (cs : list Call) : nat :=
  length (filter (fun c => is_rawWood c = true) cs).

Section TimberRun.
Variable random : nat -> Q.
Variable atan2 : Q -> Q -> Q.

(** The chainsaw calls [handleCut] with one tip position after the other:
    the state after the last call, the calls made per call, and the number
    of draws of [Math.random]. *)
Fixpoint timberRun (inputs : list Vector3) (st : TimberStage.State) (rng : nat)
    : TimberStage.State * list (list Call) * nat :=
  match inputs with
  | [] => (st, [], rng)
  | sawPos :: rest =>
      let '(st1, calls, rng1) := TimberStage.handleCut random atan2 sawPos st rng in
      let '(st2, log, rng2) := timberRun rest st1 rng1 in
      (st2, calls :: log, rng2)
  end.
End TimberRun.

(** The saw at [sawPos] is in the protected zone of some sapling. *)
Definition overSapling (sawPos : Vector3) : bool :=
  existsb (TimberStage.hitsSapling sawPos) TimberStage.saplings.

(** The tip is well inside the zone of a tree: not farther than 1.19 from
    it (the zone ends at 1.2), above the ground and below 3. *)
Definition wellInTree (sawPos : Vector3) (tree : TimberStage.Spot) : Prop :=
  TimberStage.dist2 sawPos tree <= 1.19 * 1.19 /\ 0 < v_y sawPos < 3.

(** The tip is well clear of the saplings: at the height 1.5 or above, or
    not closer than 0.81 to any of them (their zones end at 0.8). *)
Definition clearOfSaplings (sawPos : Vector3) : Prop :=
  1.5 <= v_y sawPos
  \/ Forall (fun s => 0.81 * 0.81 <= TimberStage.dist2 sawPos s) TimberStage.saplings.

(** The cells of the timber stage hold one entry per tree, every progress
    lies between 0 and 100, and a tree is felled exactly when its progress
    has reached 100. *)
Definition timberSound (st : TimberStage.State) : Prop :=
  exists (t0 t1 : bool) (p0 p1 f0 f1 : Q),
    TimberStage.treesCut st = [t0; t1]
    /\ TimberStage.cutProgress st = [p0; p1]
    /\ TimberStage.fallRotation st = [f0; f1]
    /\ 0 <= p0 <= 100 /\ 0 <= p1 <= 100
    /\ (t0 = true <-> 100 <= p0) /\ (t1 = true <-> 100 <= p1).

(** What the player does in an assembly phase: the pointer moves over the
    part with its ray meeting the drag plane at height [pointY], or the
    mallet is clicked. *)
Inductive AssemblyEvent :=
| AsmDrag (pointY : Q)
| AsmTap.

(** The handlers of the box for the board [b] that is seated at [targetY]. *)
Definition boxAssembly (targetY : Q) (b : BoardRef) (e : AssemblyEvent)
    (st : BoxProject.State) : BoxProject.State * list Call :=
  match e with
  | AsmDrag pointY => BoxProject.handleAssemblyDrag pointY b targetY st
  | AsmTap => BoxProject.handleHammerClick targetY b st
  end.

(** The handlers of the stool. *)
Definition stoolAssembly (e : AssemblyEvent) (st : StoolProject.State)
    : StoolProject.State * list Call :=
  match e with
  | AsmDrag pointY => StoolProject.handleLegDrag pointY st
  | AsmTap => StoolProject.handleHammer st
  end.

(** The last call of [setOrbitEnabled] in a list of calls, if there is one. *)
Definition lastOrbit (cs : list Call) : option bool :=
  last (omap (fun c => match c with setOrbitEnabled b => Some b | _ => None end) cs).

Definition isDrag (e : AssemblyEvent) : bool :=
  match e with AsmDrag _ => true | AsmTap => false end.

(** What holds of the box while the board [b] is assembled: no tap counts
    before the board is seated in the gap, fewer than three have counted
    while it is hammered, and exactly three when it is done; the board
    stands where the taps so far have driven it. *)
Definition boxAssemblySound (targetY : Q) (b : BoardRef) (st : BoxProject.State)
    : Prop :=
  match BoxProject.assemblyState st with
  | dragging => BoxProject.hammerTaps st = 0%nat
  | hammering =>
      (BoxProject.hammerTaps st < 3)%nat
      /\ v_y (BoxProject.board b st)
         == targetY + GAP_HEIGHT * (1 - ofNat (BoxProject.hammerTaps st) / 3)
  | done =>
      BoxProject.hammerTaps st = 3%nat /\ v_y (BoxProject.board b st) == targetY
  end.

(** The same for the legs of the stool, whose group is attached. *)
Definition stoolAssemblySound (st : StoolProject.State) : Prop :=
  exists y : Q,
    legsWorldY st = Some y
    /\ match StoolProject.legsState st with
       | StoolProject.hidden => False
       | StoolProject.dragging =>
           StoolProject.hammerTaps st = 0%nat /\ 0.5 <= y <= 5
       | StoolProject.hammering =>
           (StoolProject.hammerTaps st < 3)%nat
           /\ y == 0.5 - 0.45 * (ofNat (StoolProject.hammerTaps st) / 3)
       | StoolProject.done =>
           StoolProject.hammerTaps st = 3%nat /\ y == 0.05
       end.

Definition isClear (e : SawdustSystem.Event) : bool :=
  match e with SawdustSystem.EvClear => true | _ => false end.

(** One burst on its own: [spawnBurst(pos)] and the fifteen firings of the
    interval it starts, which is the last of the running ones. *)
Definition oneBurst (pos : Vector3) (sys : SawdustSystem.System)
    : list SawdustSystem.Event :=
  SawdustSystem.EvSpawnBurst pos
  :: replicate SawdustSystem.duration
       (SawdustSystem.EvTick (length (SawdustSystem.intervals sys))).

(** No active particle is below the floor. *)
Definition aboveFloor (ps : list SawdustSystem.Particle) : Prop :=
  Forall (fun p => SawdustSystem.active p = true ->
                   SawdustSystem.floorY <= v_y (SawdustSystem.position p)) ps.

(** The bursts of a sequence of events start at the floor or above it. *)
Definition burstsAboveFloor (events : list SawdustSystem.Event) : Prop :=
  Forall (fun e => match e with
                   | SawdustSystem.EvSpawnBurst pos => SawdustSystem.floorY <= v_y pos
                   | _ => True
                   end) events.

(** ** Runs of the tools *)

(** What happens to a mounted [RouterTool]: a frame, with the point where
    the pointer ray meets the work plane and the frame's delta, or one of
    its two pointer events. *)
Inductive RouterEvent :=
| RouterFrame (hit : option Vector3) (delta : Q)
| RouterPointerDown
| RouterPointerUp.

Section RouterRun.
Variable variant : RouterTool.Variant.
Variable phase : GamePhase.
Variable zBackPosition : Q.

Definition routerStep (e : RouterEvent) (st : RouterTool.State)
    : RouterTool.State * list RouterTool.Emit :=
  match e with
  | RouterFrame hit delta => RouterTool.frame variant phase zBackPosition hit delta st
  | RouterPointerDown => RouterTool.onPointerDown st
  | RouterPointerUp => RouterTool.onPointerUp st
  end.

(** The state after the events and the calls made on the props, in order. *)
Fixpoint routerRun (events : list RouterEvent) (st : RouterTool.State)
    : RouterTool.State * list RouterTool.Emit :=
  match events with
  | [] => (st, [])
  | e :: rest =>
      let '(st1, calls) := routerStep e st in
      let '(st2, log) := routerRun rest st1 in
      (st2, calls ++ log)
  end.
End RouterRun.

(** The arguments of the [onCut] calls of a log. *)
Definition cutsOf (log : list RouterTool.Emit) : list (Q * Q) :=
  flat_map (fun c => match c with
                     | RouterTool.onCut x z => [(x, z)]
                     | _ => []
                     end) log.

(** A frame in which the pointer ray meets the work plane at [x] (and at
    [z]). *)
Definition aimsAtX (x : Q) (e : RouterEvent) : Prop :=
  match e with
  | RouterFrame (Some target) _ => v_x target == x
  | _ => False
  end.

(** A frame in which the pointer ray meets the work plane not farther than
    [eps] from [x] and from [z], coordinate by coordinate. *)
Definition aimsNear (eps x z : Q) (e : RouterEvent) : Prop :=
  match e with
  | RouterFrame (Some target) _ =>
      Qabs (v_x target - x) <= eps /\ Qabs (v_z target - z) <= eps
  | _ => False
  end.






(** What happens to a mounted [Chainsaw]. *)
Inductive ChainsawEvent :=
| SawKeyDown (key : string)
| SawPointerDown (button : nat)
| SawPointerMove (hit : option Vector3)
| SawPointerUp (tip : Vector3)
| SawFrame (elapsedTime : Q) (tip : Vector3).

Section ChainsawRun.
Variable sin : Q -> Q.

Definition chainsawStep (e : ChainsawEvent) (st : Chainsaw.State)
    : Chainsaw.State * list Chainsaw.Emit :=
  match e with
  | SawKeyDown key => (Chainsaw.handleKeyDown key st, [])
  | SawPointerDown button => Chainsaw.handlePointerDown button st
  | SawPointerMove hit => (Chainsaw.handlePointerMove hit st, [])
  | SawPointerUp tip => Chainsaw.handlePointerUp tip st
  | SawFrame elapsedTime tip => Chainsaw.frame sin elapsedTime tip st
  end.

Fixpoint chainsawRun (events : list ChainsawEvent) (st : Chainsaw.State)
    : Chainsaw.State * list Chainsaw.Emit :=
  match events with
  | [] => (st, [])
  | e :: rest =>
      let '(st1, calls) := chainsawStep e st in
      let '(st2, log) := chainsawRun rest st1 in
      (st2, calls ++ log)
  end.
End ChainsawRun.

(** An event that calls [toggleTilt]: the key [r] or [R], or a press of the
    right button. *)
Definition togglesTilt (e : ChainsawEvent) : bool :=
  match e with
  | SawKeyDown key => (String.eqb key "r" || String.eqb key "R")%bool
  | SawPointerDown button => bool_decide (button = 2%nat)
  | _ => false
  end.

(** The calls a chainsaw may make next: none but [onDragStart] while it is
    idle, any while it is held, and [onCut] right after [onDragEnd]. *)
Inductive SawProtocol := SawIdle | SawHeld | SawReleased.

Definition sawNext (s : SawProtocol) (c : Chainsaw.Emit) : option SawProtocol :=
  match s, c with
  | SawIdle, Chainsaw.onDragStart => Some SawHeld
  | SawHeld, Chainsaw.onDragStart => Some SawHeld
  | SawHeld, Chainsaw.onCut _ => Some SawHeld
  | SawHeld, Chainsaw.onDragEnd => Some SawReleased
  | SawReleased, Chainsaw.onCut _ => Some SawIdle
  | _, _ => None
  end.

Fixpoint sawFollows (s : SawProtocol) (log : list Chainsaw.Emit)
    : option SawProtocol :=
  match log with
  | [] => Some s
  | c :: rest => s1 ← sawNext s c; sawFollows s1 rest
  end.

(** ** Runs of the session *)

(** What sets a cell of [App]: [nextPhase], [handleCollectAndNext], a timer
    of [nextPhase] that fires, and the setters handed down as props. *)
Inductive AppEvent :=
| AppNextPhase
| AppCollect
| AppTimer (t : App.Timer)
| AppSetProgress (p : Q)
| AppSetRawWoodCount (n : nat).

Definition appStep (e : AppEvent) (st : App.State) : App.State :=
  match e with
  | AppNextPhase => fst (App.nextPhase st)
  | AppCollect => App.handleCollectAndNext st
  | AppTimer t => App.fire t st
  | AppSetProgress p =>
      App.mkState (App.phase st) p (App.level st) (App.inventory st)
        (App.rawWoodCount st)
  | AppSetRawWoodCount n => App.setRawWoodCount n st
  end.

Definition appRun (events : list AppEvent) (st : App.State) : App.State :=
  fold_left (fun s e => appStep e s) events st.

Definition isCollect (e : AppEvent) : bool :=
  match e with AppCollect => true | _ => false end.

(** The first [n] products of a session: a box, a stool, a box, ... *)
Definition products (n : nat) : list string :=
  map (fun k => if Nat.even k then "Dovetail Box"%string else "Wooden Stool"%string)
    (seq 0 n).

(** * Proofs *)

(** ** Numbers *)

Lemma Qltb_lt (x y : Q) : Qltb x y = true <-> x < y.
Proof.
  unfold Qltb. rewrite negb_true_iff, <- not_true_iff_false, Qle_bool_iff.
  split; [apply Qnot_le_lt | apply Qlt_not_le].
Qed.

Lemma Qltb_ge (x y : Q) : Qltb x y = false <-> y <= x.
Proof.
  unfold Qltb. rewrite negb_false_iff. apply Qle_bool_iff.
Qed.

Lemma ofNat_S (n : nat) : ofNat (S n) == ofNat n + 1.
Proof.
  unfold ofNat. rewrite Nat2Z.inj_succ, <- Z.add_1_r, inject_Z_plus. reflexivity.
Qed.

Lemma ofNat_add (a b : nat) : ofNat (a + b) == ofNat a + ofNat b.
Proof.
  unfold ofNat. rewrite Nat2Z.inj_add, inject_Z_plus. reflexivity.
Qed.

Lemma ofNat_nonneg (n : nat) : 0 <= ofNat n.
Proof.
  unfold ofNat. change 0 with (inject_Z 0). rewrite <- Zle_Qle. lia.
Qed.

Lemma ofNat_pos (n : nat) : (1 <= n)%nat -> 1 <= ofNat n.
Proof.
  intros Hn. unfold ofNat. change 1 with (inject_Z 1). rewrite <- Zle_Qle. lia.
Qed.

(** ** Properties of the layout *)

Section LayoutFacts.
Variables (bw : Q) (n : nat) (ratio : Q).

Let tw := Layout.TAIL_WIDTH_TIP bw n ratio.
Let pw := Layout.pinWidth bw n ratio.
Let pt := Layout.pitch bw n ratio.

Lemma push_centers_length (k : nat) (x0 : Q) :
  length (Layout.push_centers bw n ratio k x0) = k.
Proof.
  revert x0. induction k as [|k IH]; intros x0; simpl; [reflexivity|].
  now rewrite IH.
Qed.

Lemma push_centers_lookup (k i : nat) (x0 x : Q) :
  Layout.push_centers bw n ratio k x0 !! i = Some x ->
  (i < k)%nat /\ x == x0 + ofNat i * pt.
Proof.
  revert i x0. induction k as [|k IH]; intros i x0; simpl; [discriminate|].
  destruct i as [|i]; simpl.
  - intros [= <-]. split; [lia|]. unfold ofNat. simpl. ring.
  - intros H. apply IH in H as [Hlt Hx]. split; [lia|].
    rewrite Hx, ofNat_S. fold pt. ring.
Qed.

Lemma pinWidth_eq :
  pw * (ofNat n + 1) == bw - tw * ofNat n.
Proof.
  unfold pw, Layout.pinWidth, Layout.remainingWidth, Layout.totalTailWidth.
  fold tw. field. pose proof (ofNat_nonneg n). lra.
Qed.

Lemma pinWidth_pos : ofNat n * tw < bw -> 0 < pw.
Proof.
  intros H. pose proof (ofNat_nonneg n) as Hn. pose proof pinWidth_eq as E.
  destruct (Qlt_le_dec 0 pw) as [|Hle]; [assumption|exfalso].
  assert (pw * (ofNat n + 1) <= 0) by nra. lra.
Qed.
End LayoutFacts.

Section LayoutShape.
Variables (bw : Q) (n : nat) (ratio : Q).

Let tw := Layout.TAIL_WIDTH_TIP bw n ratio.
Let pw := Layout.pinWidth bw n ratio.
Let pt := Layout.pitch bw n ratio.
Let cs := Layout.TAIL_CENTERS bw n ratio.

Lemma tail_centers_length : length cs = n.
Proof. apply push_centers_length. Qed.

Lemma tail_centers_lookup (i : nat) (x : Q) :
  cs !! i = Some x ->
  (i < n)%nat /\ x == Layout.firstX bw n ratio + ofNat i * pt.
Proof. apply push_centers_lookup. Qed.

Lemma tail_centers_step (i : nat) (x y : Q) :
  cs !! i = Some x -> cs !! S i = Some y -> y - x == pt.
Proof.
  intros Hx Hy. apply tail_centers_lookup in Hx as [_ Hx].
  apply tail_centers_lookup in Hy as [_ Hy].
  rewrite Hx, Hy, ofNat_S. ring.
Qed.

Lemma tail_centers_mirror (i : nat) (x y : Q) :
  cs !! i = Some x -> cs !! (n - 1 - i)%nat = Some y -> x + y == 0.
Proof.
  intros Hx Hy. apply tail_centers_lookup in Hx as [Hi Hx].
  apply tail_centers_lookup in Hy as [_ Hy].
  assert (Hsum : ofNat (n - 1 - i) + ofNat i + 1 == ofNat n).
  { rewrite <- ofNat_add, <- ofNat_S.
    replace (S (n - 1 - i + i)) with n by lia. reflexivity. }
  pose proof (pinWidth_eq bw n ratio) as E. fold tw pw in E.
  rewrite Hx, Hy. unfold Layout.firstX, pt, Layout.pitch. fold tw pw.
  assert (Ha : ofNat (n - 1 - i) == ofNat n - 1 - ofNat i) by lra.
  rewrite Ha.
  transitivity (pw * (ofNat n + 1) - (bw - tw * ofNat n)); [field|].
  rewrite E. ring.
Qed.

Lemma pitch_pos : 0 <= tw -> ofNat n * tw < bw -> 0 < pt.
Proof.
  intros Htw Hlt. pose proof (pinWidth_pos bw n ratio Hlt) as Hpw.
  fold pw in Hpw. unfold pt, Layout.pitch. fold tw pw. lra.
Qed.

Lemma tail_centers_increasing (i j : nat) (x y : Q) :
  0 < pt -> (i < j)%nat -> cs !! i = Some x -> cs !! j = Some y -> x < y.
Proof.
  intros Hpt Hij Hx Hy. apply tail_centers_lookup in Hx as [_ Hx].
  apply tail_centers_lookup in Hy as [_ Hy].
  assert (Hd : ofNat i + 1 <= ofNat j).
  { unfold ofNat. change 1 with (inject_Z 1).
    rewrite <- inject_Z_plus, <- Zle_Qle. lia. }
  rewrite Hx, Hy. nra.
Qed.
End LayoutShape.

Lemma push_centers64_length (bw ratio : PrimFloat.float) (n k : nat)
    (x0 : PrimFloat.float) :
  length (Layout64.push_centers bw n ratio k x0) = k.
Proof.
  revert x0. induction k as [|k IH]; intros x0; simpl; [reflexivity|].
  now rewrite IH.
Qed.

Lemma within_refl (eps a b : Q) : 0 <= eps -> a == b -> within eps a b.
Proof.
  intros He E. unfold within.
  assert (Z : a - b == 0) by lra. rewrite Z. exact He.
Qed.

(** C1, as the code has it.  The helper returns exactly [NUM_TAILS]
    abscissae whatever the configuration.  For the shipped box the doubles
    it computes increase strictly, the pin width is positive, consecutive
    centres differ by the pitch exactly, each centre is within 1e-15 of the
    exact one, and mirrored centres add up to zero within 1e-15, but not
    exactly.  For every configuration of 1 to 100 tails, a board width from
    0.001 to 1000 and a total tail ratio from 0 to 0.99, the centres
    increase strictly, the pin width
    (boardWidth - tailCount*tailWidth)/(tailCount+1) is positive, and the
    row is uniformly pitched and symmetric about x = 0 within 1e-9. *)
Theorem tail_centers_uniform_symmetric :
  (forall (bw ratio : PrimFloat.float) (n : nat),
      length (Layout64.TAIL_CENTERS bw n ratio) = n)
  /\ (Box64.TAIL_CENTERS = Box64.centres
      /\ Box64.pinWidth = Box64.pinWidthValue
      /\ Box64.pitch = Box64.pitchValue
      /\ increasing64 Box64.TAIL_CENTERS
      /\ PrimFloat.ltb PrimFloat.zero Box64.pinWidth = true
      /\ Forall2 (fun f q => within (1 # 1000000000000000) (F64.toQ f) q)
           Box64.TAIL_CENTERS TAIL_CENTERS
      /\ (forall i x y,
            Box64.TAIL_CENTERS !! i = Some x -> Box64.TAIL_CENTERS !! S i = Some y ->
            F64.toQ y - F64.toQ x == F64.toQ Box64.pitch)
      /\ (forall i x y,
            Box64.TAIL_CENTERS !! i = Some x ->
            Box64.TAIL_CENTERS !! (4 - 1 - i)%nat = Some y ->
            within (1 # 1000000000000000) (F64.toQ x + F64.toQ y) 0))
  /\ (forall (bw ratio : Q) (n : nat),
        (1 <= n <= 100)%nat ->
        1 # 1000 <= bw <= 1000 ->
        0 <= ratio <= 99 # 100 ->
        let tw := Layout.TAIL_WIDTH_TIP bw n ratio in
        let pw := Layout.pinWidth bw n ratio in
        let cs := Layout.TAIL_CENTERS bw n ratio in
        length cs = n
        /\ within (1 # 1000000000) pw ((bw - ofNat n * tw) / (ofNat n + 1))
        /\ 0 < pw
        /\ (forall i x y, cs !! i = Some x -> cs !! S i = Some y ->
              within (1 # 1000000000) (y - x) (tw + pw))
        /\ (forall i x y, cs !! i = Some x -> cs !! (n - 1 - i)%nat = Some y ->
              within (1 # 1000000000) (x + y) 0)
        /\ (forall i j x y, (i < j)%nat -> cs !! i = Some x -> cs !! j = Some y ->
              x < y)).
Proof.
  split; [|split].
  - intros bw ratio n. apply push_centers64_length.
  - split; [vm_compute; reflexivity|].
    split; [vm_compute; reflexivity|].
    split; [vm_compute; reflexivity|].
    split; [repeat constructor|].
    split; [vm_compute; reflexivity|].
    split; [repeat constructor; apply Qle_bool_iff; vm_compute; reflexivity|].
    split.
    + intros [|[|[|[|i]]]] x y Hx Hy; try discriminate;
        injection Hx as <-; injection Hy as <-;
        apply Qeq_bool_iff; vm_compute; reflexivity.
    + intros [|[|[|[|i]]]] x y Hx Hy; try discriminate;
        injection Hx as <-; injection Hy as <-;
        apply Qle_bool_iff; vm_compute; reflexivity.
  - intros bw ratio n Hn Hbw Hr tw pw cs.
    assert (Hn1 : 1 <= ofNat n) by (apply ofNat_pos; lia).
    assert (Hn0 : 0 < ofNat n) by lra.
    assert (Htot : ofNat n * tw == bw * ratio).
    { unfold tw, Layout.TAIL_WIDTH_TIP. field. lra. }
    assert (Htw : 0 <= tw).
    { destruct (Qlt_le_dec tw 0) as [Hneg|]; [exfalso|assumption]. nra. }
    assert (Hlt : ofNat n * tw < bw) by nra.
    assert (Hpw : 0 < pw) by (apply pinWidth_pos; exact Hlt).
    split; [apply tail_centers_length|].
    split.
    { apply within_refl; [lra|].
      unfold pw, Layout.pinWidth, Layout.remainingWidth, Layout.totalTailWidth.
      fold tw. field. lra. }
    split; [exact Hpw|].
    split.
    { intros i x y Hx Hy. apply within_refl; [lra|].
      apply (tail_centers_step bw n ratio i x y Hx Hy). }
    split.
    { intros i x y Hx Hy. apply within_refl; [lra|].
      apply (tail_centers_mirror bw n ratio i x y Hx Hy). }
    intros i j x y. apply tail_centers_increasing, pitch_pos; assumption.
Qed.

(** The shipped box, as exact numbers: board width 2, four tails, total
    tail ratio 0.65. *)
Lemma tail_centers_shipped :
  length TAIL_CENTERS = 4%nat
  /\ 0 < Layout.pinWidth BOARD_WIDTH NUM_TAILS TOTAL_TAIL_RATIO
  /\ (forall i x y, TAIL_CENTERS !! i = Some x -> TAIL_CENTERS !! S i = Some y ->
        within (1 # 1000000000) (y - x)
          (TAIL_WIDTH_TIP + Layout.pinWidth BOARD_WIDTH NUM_TAILS TOTAL_TAIL_RATIO))
  /\ (forall i x y, TAIL_CENTERS !! i = Some x ->
        TAIL_CENTERS !! (4 - 1 - i)%nat = Some y -> within (1 # 1000000000) (x + y) 0)
  /\ (forall i j x y, (i < j)%nat -> TAIL_CENTERS !! i = Some x ->
        TAIL_CENTERS !! j = Some y -> x < y).
Proof.
  destruct tail_centers_uniform_symmetric as (_ & _ & G).
  destruct (G 2 0.65 4%nat) as (L & _ & P & U & M & I).
  - lia.
  - split; vm_compute; discriminate.
  - split; vm_compute; discriminate.
  - split; [exact L|]. split; [exact P|]. split; [exact U|].
    split; [exact M|exact I].
Defined.

(** C1, as stated, fails.  The doubles of the shipped box are not
    symmetric about x = 0: the two outer centres add up to -2^-53, and so
    do the two inner ones.  And in exact arithmetic, with board width 1,
    two tails and a ratio of -4, the tails are narrower than the board
    (their total width is -4) but the centres decrease. *)
Lemma tail_centers_not_exact :
  (exists c0 c1 c2 c3,
      Box64.TAIL_CENTERS = [c0; c1; c2; c3]
      /\ PrimFloat.eqb (PrimFloat.add c0 c3) PrimFloat.zero = false
      /\ PrimFloat.eqb (PrimFloat.add c1 c2) PrimFloat.zero = false
      /\ F64.toQ c0 + F64.toQ c3 == - (1 # 9007199254740992)
      /\ F64.toQ c1 + F64.toQ c2 == - (1 # 9007199254740992))
  /\ (ofNat 2 * Layout.TAIL_WIDTH_TIP 1 2 (-4) < 1
      /\ exists x y,
           Layout.TAIL_CENTERS 1 2 (-4) = [x; y] /\ y < x).
Proof.
  split.
  - eexists _, _, _, _. split; [vm_compute; reflexivity|].
    split; [vm_compute; reflexivity|].
    split; [vm_compute; reflexivity|].
    split; apply Qeq_bool_iff; vm_compute; reflexivity.
  - split; [vm_compute; reflexivity|].
    eexists _, _. split; [reflexivity|]. vm_compute. reflexivity.
Qed.

Example tail_centers_values :
  Forall2 Qeq TAIL_CENTERS [-0.6975; -0.2325; 0.2325; 0.6975].
Proof. repeat constructor. Qed.





(** ** The marking loop *)

Lemma every_true_iff (a : list bool) :
  every a = true <-> forall i b, a !! i = Some b -> b = true.
Proof.
  unfold every. rewrite forallb_forall. split.
  - intros H i b Hi. apply H. apply list_elem_of_In.
    apply list_elem_of_lookup. eauto.
  - intros H b Hb. apply list_elem_of_In, list_elem_of_lookup in Hb as [i Hi]. eauto.
Qed.

Lemma array_get_app_r (pre fs : list bool) (f : bool) :
  array_get (pre ++ f :: fs) (length pre) = f.
Proof.
  unfold array_get. rewrite lookup_app_r by lia.
  now rewrite Nat.sub_diag.
Qed.

Lemma array_set_app_r {A : Type} (hole : A) (pre fs : list A) (f v : A) :
  array_set hole (pre ++ f :: fs) (length pre) v = (pre ++ [v]) ++ fs.
Proof.
  unfold array_set. rewrite decide_True by (rewrite length_app; simpl; lia).
  rewrite insert_app_r_alt by lia. rewrite Nat.sub_diag. simpl.
  now rewrite <- app_assoc.
Qed.

Section MarkLoopFacts.
Context {A : Type}.
Variable hit : A -> bool.
Variable burst : A -> Call.
Variable signal : Call.

Hypothesis burst_not_signal : forall a, is_phaseComplete (burst a) = false.
Hypothesis signal_is_signal : is_phaseComplete signal = true.

Lemma forEach_markOne (ts : list A) :
  forall (pre flags : list bool) (ch : bool) (em : list Call),
    length flags = length ts ->
    forEach (markOne hit burst) ts (length pre) (mkCutLoop (pre ++ flags) ch em)
    = mkCutLoop (pre ++ marked hit flags ts)
        (ch || negb (bool_decide (newly hit flags ts = [])))
        (em ++ map burst (newly hit flags ts)).
Proof.
  induction ts as [|a ts IH]; intros pre flags ch em Hlen.
  - destruct flags; [|discriminate]. simpl.
    now rewrite orb_false_r, !app_nil_r.
  - destruct flags as [|f fs]; [discriminate|]. simpl in Hlen.
    injection Hlen as Hlen. simpl forEach. unfold markOne at 2. simpl newFlags.
    rewrite array_get_app_r. destruct f; simpl.
    + replace (pre ++ true :: fs) with ((pre ++ [true]) ++ fs)
        by now rewrite <- app_assoc.
      replace (S (length pre)) with (length (pre ++ [true]))
        by (rewrite length_app; simpl; lia).
      rewrite IH by assumption. now rewrite <- app_assoc.
    + destruct (hit a); simpl.
      * rewrite array_set_app_r.
        replace (S (length pre)) with (length (pre ++ [true]))
          by (rewrite length_app; simpl; lia).
        rewrite IH by assumption. rewrite <- !app_assoc. simpl.
        now rewrite orb_true_r.
      * replace (pre ++ false :: fs) with ((pre ++ [false]) ++ fs)
          by now rewrite <- app_assoc.
        replace (S (length pre)) with (length (pre ++ [false]))
          by (rewrite length_app; simpl; lia).
        rewrite IH by assumption. now rewrite <- app_assoc.
Qed.

Lemma marked_length (flags : list bool) (ts : list A) :
  length (marked hit flags ts) = length flags.
Proof.
  revert ts. induction flags as [|f fs IH]; intros [|a ts]; simpl; auto.
Qed.

Lemma marked_newly_nil (flags : list bool) (ts : list A) :
  newly hit flags ts = [] -> marked hit flags ts = flags.
Proof.
  revert ts. induction flags as [|f fs IH]; intros [|a ts]; simpl; auto.
  destruct f; simpl.
  - intros H. now rewrite IH.
  - destruct (hit a); simpl; [discriminate|]. intros H. now rewrite IH.
Qed.

Lemma marked_lookup_true (flags : list bool) (ts : list A) (i : nat) :
  flags !! i = Some true -> marked hit flags ts !! i = Some true.
Proof.
  revert ts i. induction flags as [|f fs IH]; intros [|a ts] [|i]; simpl; auto.
  now intros [= ->].
Qed.

Lemma newly_every (flags : list bool) (ts : list A) :
  newly hit flags ts <> [] -> every flags = false.
Proof.
  revert ts. induction flags as [|f fs IH]; intros [|a ts]; simpl; try congruence.
  destruct f; simpl; [apply IH|reflexivity].
Qed.

(** What a call of the handler does, without the loop. *)
Lemma markStep_spec (ts : list A) (flags : list bool) :
  length flags = length ts ->
  markStep hit burst signal ts flags
  = (marked hit flags ts,
     map burst (newly hit flags ts)
     ++ (if negb (bool_decide (newly hit flags ts = []))
            && every (marked hit flags ts)
         then [signal] else [])).
Proof.
  intros Hlen. unfold markStep.
  pose proof (forEach_markOne ts [] flags false [] Hlen) as E.
  simpl in E. rewrite E. simpl.
  case_bool_decide as Hn; simpl.
  - rewrite Hn, (marked_newly_nil _ _ Hn). reflexivity.
  - reflexivity.
Qed.

Lemma count_phaseComplete_bursts (l : list A) :
  count_phaseComplete (map burst l) = 0%nat.
Proof.
  unfold count_phaseComplete. induction l as [|a l IH]; [reflexivity|].
  simpl. rewrite filter_cons_False; [exact IH|].
  rewrite burst_not_signal. discriminate.
Qed.

Lemma count_phaseComplete_app (l k : list Call) :
  count_phaseComplete (l ++ k) = (count_phaseComplete l + count_phaseComplete k)%nat.
Proof.
  unfold count_phaseComplete. now rewrite filter_app, length_app.
Qed.

(** The signal is given by a call exactly when the call completes the
    set of targets. *)
Lemma markStep_signal (ts : list A) (flags : list bool) :
  length flags = length ts ->
  let r := markStep hit burst signal ts flags in
  count_phaseComplete (snd r)
  = if negb (every flags) && every (fst r) then 1%nat else 0%nat.
Proof.
  intros Hlen r. unfold r. rewrite markStep_spec by assumption. simpl.
  rewrite count_phaseComplete_app, count_phaseComplete_bursts. simpl.
  case_bool_decide as Hn; simpl.
  - rewrite (marked_newly_nil _ _ Hn). destruct (every flags); reflexivity.
  - rewrite (newly_every _ _ Hn). simpl.
    destruct (every (marked hit flags ts)); [|reflexivity].
    unfold count_phaseComplete. simpl.
    rewrite filter_cons_True by exact signal_is_signal. reflexivity.
Qed.

Lemma markStep_every (ts : list A) (flags : list bool) :
  length flags = length ts ->
  every flags = true ->
  markStep hit burst signal ts flags = (flags, []).
Proof.
  intros Hlen Hall. rewrite markStep_spec by assumption.
  destruct (decide (newly hit flags ts = [])) as [Hn|Hn].
  - rewrite Hn, (marked_newly_nil _ _ Hn). reflexivity.
  - apply newly_every in Hn. congruence.
Qed.
End MarkLoopFacts.

(** ** Runs of a handler that marks targets *)

Lemma runHandler_cons {St I : Type} (h : I -> St -> St * list Call)
    (i : I) (rest : list I) (st : St) :
  runHandler h (i :: rest) st
  = (fst (runHandler h rest (fst (h i st))),
     snd (h i st) :: snd (runHandler h rest (fst (h i st)))).
Proof.
  simpl. destruct (h i st) as [st1 calls]. simpl.
  destruct (runHandler h rest st1). reflexivity.
Qed.

Lemma stateAfter_0 {St I : Type} (h : I -> St -> St * list Call)
    (inputs : list I) (st : St) :
  stateAfter h 0 inputs st = st.
Proof. reflexivity. Qed.

Lemma stateAfter_S {St I : Type} (h : I -> St -> St * list Call)
    (k : nat) (i : I) (rest : list I) (st : St) :
  stateAfter h (S k) (i :: rest) st = stateAfter h k rest (fst (h i st)).
Proof. unfold stateAfter. simpl take. now rewrite runHandler_cons. Qed.

Lemma stateAfter_all {St I : Type} (h : I -> St -> St * list Call)
    (inputs : list I) (st : St) :
  stateAfter h (length inputs) inputs st = fst (runHandler h inputs st).
Proof. unfold stateAfter. now rewrite firstn_all. Qed.

Section TargetPhase.
Context {St I A : Type}.
Variable h : I -> St -> St * list Call.
Variable flagsOf : St -> list bool.
Variable hit : I -> A -> bool.
Variable burst : A -> Call.
Variable signal : Call.
Variable ts : list A.

(** The handler is the marking loop on the flags of its state. *)
Hypothesis h_flags : forall i st,
  length (flagsOf st) = length ts ->
  flagsOf (fst (h i st)) = fst (markStep (hit i) burst signal ts (flagsOf st)).
Hypothesis h_calls : forall i st,
  length (flagsOf st) = length ts ->
  snd (h i st) = snd (markStep (hit i) burst signal ts (flagsOf st)).
Hypothesis burst_not_signal : forall a, is_phaseComplete (burst a) = false.
Hypothesis signal_is_signal : is_phaseComplete signal = true.

Lemma step_length (i : I) (st : St) :
  length (flagsOf st) = length ts ->
  length (flagsOf (fst (h i st))) = length ts.
Proof.
  intros Hlen. rewrite h_flags, markStep_spec by assumption. simpl.
  now rewrite marked_length.
Qed.

Lemma step_monotone (i : I) (st : St) (j : nat) :
  length (flagsOf st) = length ts ->
  flagsOf st !! j = Some true ->
  flagsOf (fst (h i st)) !! j = Some true.
Proof.
  intros Hlen Hj. rewrite h_flags, markStep_spec by assumption. simpl.
  now apply marked_lookup_true.
Qed.

Lemma step_every (i : I) (st : St) :
  length (flagsOf st) = length ts ->
  every (flagsOf st) = true ->
  every (flagsOf (fst (h i st))) = true /\ snd (h i st) = [].
Proof.
  intros Hlen Hall. rewrite h_flags, h_calls by assumption.
  rewrite markStep_every by assumption. auto.
Qed.

Lemma step_signal (i : I) (st : St) :
  length (flagsOf st) = length ts ->
  count_phaseComplete (snd (h i st))
  = if negb (every (flagsOf st)) && every (flagsOf (fst (h i st)))
    then 1%nat else 0%nat.
Proof.
  intros Hlen. rewrite h_flags, h_calls by assumption.
  now apply markStep_signal.
Qed.

Lemma run_length (inputs : list I) (st : St) :
  length (flagsOf st) = length ts ->
  length (flagsOf (fst (runHandler h inputs st))) = length ts.
Proof.
  revert st. induction inputs as [|i rest IH]; intros st Hlen; [exact Hlen|].
  rewrite runHandler_cons. simpl. apply IH, step_length, Hlen.
Qed.

Lemma run_monotone (inputs : list I) (st : St) (j : nat) :
  length (flagsOf st) = length ts ->
  flagsOf st !! j = Some true ->
  flagsOf (fst (runHandler h inputs st)) !! j = Some true.
Proof.
  revert st. induction inputs as [|i rest IH]; intros st Hlen Hj; [exact Hj|].
  rewrite runHandler_cons. simpl.
  apply IH; [now apply step_length | now apply step_monotone].
Qed.

Lemma run_every (inputs : list I) (st : St) :
  length (flagsOf st) = length ts ->
  every (flagsOf st) = true ->
  every (flagsOf (fst (runHandler h inputs st))) = true
  /\ concat (snd (runHandler h inputs st)) = [].
Proof.
  revert st. induction inputs as [|i rest IH]; intros st Hlen Hall; [auto|].
  rewrite runHandler_cons. simpl.
  destruct (step_every i st Hlen Hall) as [Hall1 Hcalls].
  destruct (IH _ (step_length i st Hlen) Hall1) as [Hall2 Hlog].
  now rewrite Hcalls, Hlog.
Qed.

Lemma run_signal_total (inputs : list I) (st : St) :
  length (flagsOf st) = length ts ->
  count_phaseComplete (concat (snd (runHandler h inputs st)))
  = if negb (every (flagsOf st)) && every (flagsOf (fst (runHandler h inputs st)))
    then 1%nat else 0%nat.
Proof.
  revert st. induction inputs as [|i rest IH]; intros st Hlen.
  - simpl. now destruct (every (flagsOf st)).
  - rewrite runHandler_cons. simpl.
    rewrite count_phaseComplete_app, (step_signal i st Hlen).
    rewrite (IH _ (step_length i st Hlen)).
    destruct (every (flagsOf st)) eqn:E0.
    + destruct (step_every i st Hlen E0) as [E1 _]. rewrite E1. reflexivity.
    + simpl. destruct (every (flagsOf (fst (h i st)))) eqn:E1; simpl.
      * destruct (run_every rest _ (step_length i st Hlen) E1) as [E2 _].
        now rewrite E2.
      * reflexivity.
Qed.

Lemma run_signal_at (inputs : list I) :
  forall (st : St) (k : nat) (calls : list Call),
    length (flagsOf st) = length ts ->
    snd (runHandler h inputs st) !! k = Some calls ->
    count_phaseComplete calls
    = if completesAt h flagsOf k inputs st then 1%nat else 0%nat.
Proof.
  induction inputs as [|i rest IH]; intros st k calls Hlen Hk; [discriminate|].
  rewrite runHandler_cons in Hk. simpl in Hk. unfold completesAt.
  destruct k as [|k]; simpl in Hk.
  - injection Hk as <-. rewrite stateAfter_S, !stateAfter_0.
    now apply step_signal.
  - rewrite !stateAfter_S. apply (IH _ _ _ (step_length i st Hlen) Hk).
Qed.

(** From a set of targets that is not complete, the signal is given once,
    by the call that completes it. *)
Lemma run_firesOnce (inputs : list I) (st : St) :
  length (flagsOf st) = length ts ->
  every (flagsOf st) = false ->
  firesOnce h flagsOf inputs st.
Proof.
  intros Hlen Hstart. unfold firesOnce.
  pose proof (run_signal_total inputs st Hlen) as Htot.
  rewrite Hstart in Htot. simpl in Htot.
  split; [|split].
  - intros k calls Hk. now apply run_signal_at.
  - exact Htot.
  - rewrite Htot. destruct (every (flagsOf (fst (runHandler h inputs st)))); lia.
Qed.

(** The log of a run is the log of the marking loop on the flags. *)
Lemma run_flagRun (inputs : list I) (st : St) :
  length (flagsOf st) = length ts ->
  flagsOf (fst (runHandler h inputs st))
  = fst (flagRun hit burst signal ts inputs (flagsOf st))
  /\ snd (runHandler h inputs st)
     = snd (flagRun hit burst signal ts inputs (flagsOf st)).
Proof.
  unfold flagRun.
  revert st. induction inputs as [|i rest IH]; intros st Hlen; [auto|].
  rewrite !runHandler_cons. cbn [fst snd].
  rewrite <- (h_flags i st Hlen), <- (h_calls i st Hlen).
  destruct (IH _ (step_length i st Hlen)) as [IHf IHc].
  now rewrite IHf, IHc.
Qed.
End TargetPhase.

(** ** The cut handlers as marking loops *)

Lemma forEach_ext {A St : Type} (f g : St -> A -> nat -> St) (xs : list A) :
  (forall s a i, f s a i = g s a i) ->
  forall i s, forEach f xs i s = forEach g xs i s.
Proof.
  intros Hfg. induction xs as [|x xs IH]; intros i s; [reflexivity|].
  simpl. now rewrite Hfg, IH.
Qed.

Lemma tail_centers_count : length TAIL_CENTERS = 4%nat.
Proof. reflexivity. Qed.

Lemma box_targetState_set (phase : GamePhase) (a : list bool) (st : BoxProject.State) :
  isCuttingPhase phase ->
  BoxProject.targetState phase (BoxProject.setTargetState phase a st) = Some a.
Proof. intros [->|[->| ->]]; reflexivity. Qed.

Lemma box_targetState_some (phase : GamePhase) (st : BoxProject.State) :
  isCuttingPhase phase ->
  BoxProject.targetState phase st = Some (boxFlags phase st).
Proof. intros [->|[->| ->]]; reflexivity. Qed.

Lemma boxCut_markStep (phase : GamePhase) (p : Q * Q) (st : BoxProject.State) :
  isCuttingPhase phase ->
  let r := markStep (inZone (fst p)) (boxBurst phase) onPhaseComplete
             TAIL_CENTERS (boxFlags phase st) in
  boxFlags phase (fst (boxCut phase p st)) = fst r
  /\ snd (boxCut phase p st) = snd r.
Proof.
  intros Hphase r. unfold r, boxCut, BoxProject.handleCut, markStep.
  rewrite (box_targetState_some phase st Hphase).
  change (BoxProject.cutOne phase (fst p))
    with (markOne (inZone (fst p)) (boxBurst phase)).
  generalize (forEach (markOne (inZone (fst p)) (boxBurst phase)) TAIL_CENTERS 0
                (mkCutLoop (boxFlags phase st) false [])).
  intros r0. destruct (changed r0); cbn [fst snd]; [|auto].
  unfold boxFlags at 1. now rewrite box_targetState_set.
Qed.

Lemma drillOne_markOne (toolX toolZ : Q) (acc : CutLoop)
    (leg : StoolProject.Leg) (idx : nat) :
  StoolProject.drillOne toolX toolZ acc leg idx
  = markOne (StoolProject.inHole toolX toolZ) stoolBurst acc leg idx.
Proof.
  unfold StoolProject.drillOne, markOne, stoolBurst.
  destruct (array_get (newFlags acc) idx); simpl; reflexivity.
Qed.

Lemma stoolDrill_markStep (p : Q * Q) (st : StoolProject.State) :
  let r := markStep (StoolProject.inHole (fst p) (snd p)) stoolBurst
             (setTimeout_onPhaseComplete 800) StoolProject.LEG_POSITIONS
             (StoolProject.holesDrilled st) in
  StoolProject.holesDrilled (fst (stoolDrill p st)) = fst r
  /\ snd (stoolDrill p st) = snd r.
Proof.
  intros r. unfold r, stoolDrill, StoolProject.handleDrill, markStep.
  rewrite decide_True by reflexivity.
  rewrite (forEach_ext _ _ _ (drillOne_markOne (fst p) (snd p))).
  generalize (forEach (markOne (StoolProject.inHole (fst p) (snd p)) stoolBurst)
                StoolProject.LEG_POSITIONS 0
                (mkCutLoop (StoolProject.holesDrilled st) false [])).
  intros r0. destruct (changed r0); cbn [fst snd StoolProject.holesDrilled]; auto.
Qed.

(** The 24 orders in which four targets can be hit, checked one by one on
    the flags. *)
Lemma box_orders_checked (phase : GamePhase) :
  isCuttingPhase phase ->
  forallb (fun order =>
             bool_decide
               (map count_phaseComplete
                  (snd (flagRun (fun p c => inZone (fst p) c) (boxBurst phase)
                          onPhaseComplete TAIL_CENTERS (centreHits order)
                          (all_false NUM_TAILS)))
                = [0; 0; 0; 1]%nat))
          (permutations [0; 1; 2; 3]%nat) = true.
Proof. intros [->|[->| ->]]; vm_compute; reflexivity. Qed.

Lemma stool_orders_checked :
  forallb (fun order =>
             bool_decide
               (map count_phaseComplete
                  (snd (flagRun (fun p leg => StoolProject.inHole (fst p) (snd p) leg)
                          stoolBurst (setTimeout_onPhaseComplete 800)
                          StoolProject.LEG_POSITIONS (holeHits order)
                          [false; false; false; false]))
                = [0; 0; 0; 1]%nat))
          (permutations [0; 1; 2; 3]%nat) = true.
Proof. vm_compute. reflexivity. Qed.

Lemma forallb_permutations (P : list nat -> bool) (l order : list nat) :
  forallb P (permutations l) = true -> Permutation l order -> P order = true.
Proof.
  intros H Hp. rewrite forallb_forall in H. apply H.
  apply list_elem_of_In, permutations_Permutation, Hp.
Qed.

(** C2.  Within one cutting phase of the box ([handleCut] over the four tail
    centres) and within the drilling phase of the stool ([handleDrill] over
    the four holes), starting with no target complete and for every
    sequence of tool positions: a call gives the phase-complete signal
    exactly when it turns the set of targets from incomplete to complete
    (once per such call, never otherwise), so over the whole sequence the
    signal is given once if the targets end up complete and not at all
    otherwise; and for each of the orders in which the four targets can be
    hit, the first three hits give no signal and the fourth gives one. *)
Theorem phase_complete_fires_once :
  (forall (phase : GamePhase) (st : BoxProject.State) (inputs : list (Q * Q)),
      isCuttingPhase phase ->
      BoxProject.targetState phase st = Some (all_false NUM_TAILS) ->
      firesOnce (boxCut phase) (boxFlags phase) inputs st)
  /\ (forall (phase : GamePhase) (st : BoxProject.State) (order : list nat),
      isCuttingPhase phase ->
      BoxProject.targetState phase st = Some (all_false NUM_TAILS) ->
      Permutation [0; 1; 2; 3]%nat order ->
      map count_phaseComplete (snd (runHandler (boxCut phase) (centreHits order) st))
      = [0; 0; 0; 1]%nat)
  /\ (forall (st : StoolProject.State) (inputs : list (Q * Q)),
      StoolProject.holesDrilled st = [false; false; false; false] ->
      firesOnce stoolDrill StoolProject.holesDrilled inputs st)
  /\ (forall (st : StoolProject.State) (order : list nat),
      StoolProject.holesDrilled st = [false; false; false; false] ->
      Permutation [0; 1; 2; 3]%nat order ->
      map count_phaseComplete (snd (runHandler stoolDrill (holeHits order) st))
      = [0; 0; 0; 1]%nat).
Proof.
  split; [|split; [|split]].
  - intros phase st inputs Hphase Hstart.
    assert (Hflags : boxFlags phase st = all_false NUM_TAILS)
      by (unfold boxFlags; now rewrite Hstart).
    apply (run_firesOnce (boxCut phase) (boxFlags phase)
             (fun p c => inZone (fst p) c) (boxBurst phase) onPhaseComplete
             TAIL_CENTERS).
    + intros i s _. apply (boxCut_markStep phase i s Hphase).
    + intros i s _. apply (boxCut_markStep phase i s Hphase).
    + reflexivity.
    + reflexivity.
    + now rewrite Hflags.
    + now rewrite Hflags.
  - intros phase st order Hphase Hstart Hperm.
    assert (Hflags : boxFlags phase st = all_false NUM_TAILS)
      by (unfold boxFlags; now rewrite Hstart).
    destruct (run_flagRun (boxCut phase) (boxFlags phase)
                (fun p c => inZone (fst p) c) (boxBurst phase) onPhaseComplete
                TAIL_CENTERS
                (fun i s _ => proj1 (boxCut_markStep phase i s Hphase))
                (fun i s _ => proj2 (boxCut_markStep phase i s Hphase))
                (centreHits order) st) as [_ Hlog]; [now rewrite Hflags|].
    rewrite Hlog, Hflags.
    pose proof (forallb_permutations _ _ order (box_orders_checked phase Hphase) Hperm) as H.
    now apply bool_decide_eq_true in H.
  - intros st inputs Hstart.
    apply (run_firesOnce stoolDrill StoolProject.holesDrilled
             (fun p leg => StoolProject.inHole (fst p) (snd p) leg) stoolBurst
             (setTimeout_onPhaseComplete 800) StoolProject.LEG_POSITIONS).
    + intros i s _. apply (stoolDrill_markStep i s).
    + intros i s _. apply (stoolDrill_markStep i s).
    + reflexivity.
    + reflexivity.
    + now rewrite Hstart.
    + now rewrite Hstart.
  - intros st order Hstart Hperm.
    destruct (run_flagRun stoolDrill StoolProject.holesDrilled
                (fun p leg => StoolProject.inHole (fst p) (snd p) leg) stoolBurst
                (setTimeout_onPhaseComplete 800) StoolProject.LEG_POSITIONS
                (fun i s _ => proj1 (stoolDrill_markStep i s))
                (fun i s _ => proj2 (stoolDrill_markStep i s))
                (holeHits order) st) as [_ Hlog]; [now rewrite Hstart|].
    rewrite Hlog, Hstart.
    pose proof (forallb_permutations _ _ order stool_orders_checked Hperm) as H.
    now apply bool_decide_eq_true in H.
Qed.

(** ** The hit zones of the four tails *)

Lemma threshold_value : BoxProject.threshold == 13 # 60.
Proof. vm_compute. reflexivity. Qed.

Lemma inZone_spec (x c : Q) :
  inZone x c = true <-> c - (13 # 60) < x < c + (13 # 60).
Proof.
  unfold inZone. rewrite Qltb_lt, threshold_value, Qabs_Qlt_condition.
  split; intros [? ?]; split; lra.
Qed.

Lemma tail_centre_cases (i : nat) (c : Q) :
  TAIL_CENTERS !! i = Some c ->
  (i = 0%nat /\ c == -0.6975) \/ (i = 1%nat /\ c == -0.2325)
  \/ (i = 2%nat /\ c == 0.2325) \/ (i = 3%nat /\ c == 0.6975).
Proof.
  intros H.
  destruct (Forall2_lookup_l _ _ _ _ _ tail_centers_values H) as (y & Hy & Hc).
  destruct i as [|[|[|[|i]]]]; simpl in Hy; try discriminate;
    injection Hy as <-; auto 6.
Qed.

Lemma zones_disjoint (x : Q) (i j : nat) (a b : Q) :
  TAIL_CENTERS !! i = Some a -> TAIL_CENTERS !! j = Some b ->
  inZone x a = true -> inZone x b = true -> i = j.
Proof.
  intros Hi Hj Ha Hb. apply inZone_spec in Ha, Hb.
  apply tail_centre_cases in Hi, Hj.
  destruct Hi as [[-> Ea]|[[-> Ea]|[[-> Ea]|[-> Ea]]]];
    destruct Hj as [[-> Eb]|[[-> Eb]|[[-> Eb]|[-> Eb]]]];
    try reflexivity; exfalso; lra.
Qed.

(** Two centres are a pitch apart or more, and a pitch is more than two
    thresholds. *)
Lemma centres_apart (i j : nat) (a b : Q) :
  TAIL_CENTERS !! i = Some a -> TAIL_CENTERS !! j = Some b ->
  i <> j -> a - 2 * (13 # 60) < b -> a < b.
Proof.
  intros Hi Hj Hne Hab. apply tail_centre_cases in Hi, Hj.
  destruct Hi as [[-> Ea]|[[-> Ea]|[[-> Ea]|[-> Ea]]]];
    destruct Hj as [[-> Eb]|[[-> Eb]|[[-> Eb]|[-> Eb]]]];
    try congruence; lra.
Qed.

Lemma tail_centers_sorted : StronglySorted Qlt TAIL_CENTERS.
Proof.
  repeat constructor.
Qed.

Section NewlyFacts.
Context {A : Type}.
Variable hit : A -> bool.

Lemma newly_elem (flags : list bool) (ts : list A) (a : A) :
  a ∈ newly hit flags ts ->
  exists j, ts !! j = Some a /\ flags !! j = Some false /\ hit a = true.
Proof.
  revert ts. induction flags as [|f fs IH]; intros [|t ts]; simpl;
    try (intros H; now apply elem_of_nil in H).
  rewrite elem_of_app. intros [H|H].
  - destruct f; simpl in H; [now apply elem_of_nil in H|].
    destruct (hit t) eqn:Ht; [|now apply elem_of_nil in H].
    apply list_elem_of_singleton in H as ->. exists 0%nat. auto.
  - apply IH in H as (j & ? & ? & ?). exists (S j). auto.
Qed.

Lemma elem_newly (flags : list bool) (ts : list A) (j : nat) (a : A) :
  ts !! j = Some a -> flags !! j = Some false -> hit a = true ->
  a ∈ newly hit flags ts.
Proof.
  revert ts j. induction flags as [|f fs IH]; intros [|t ts] [|j]; simpl;
    try discriminate.
  - intros [= ->] [= ->] ->. simpl. left.
  - intros Ht Hf Hh. apply elem_of_app. right. eapply IH; eauto.
Qed.

Lemma newly_none (flags : list bool) (ts : list A) :
  (forall j a, ts !! j = Some a -> hit a = true -> flags !! j <> Some false) ->
  newly hit flags ts = [].
Proof.
  intros H. destruct (newly hit flags ts) as [|a l] eqn:E; [reflexivity|].
  assert (Ha : a ∈ newly hit flags ts) by (rewrite E; left).
  apply newly_elem in Ha as (j & Hj & Hf & Hh). now destruct (H j a Hj Hh).
Qed.

Lemma newly_at_most_one (flags : list bool) (ts : list A) :
  (forall i j a b, ts !! i = Some a -> ts !! j = Some b ->
                   hit a = true -> hit b = true -> i = j) ->
  (length (newly hit flags ts) <= 1)%nat.
Proof.
  revert ts. induction flags as [|f fs IH]; intros [|t ts] Hdis; simpl; try lia.
  rewrite length_app.
  assert (Htail : forall i j a b, ts !! i = Some a -> ts !! j = Some b ->
                    hit a = true -> hit b = true -> i = j).
  { intros i j a b Hi Hj Ha Hb.
    assert (S i = S j) by (eapply Hdis; eauto). lia. }
  specialize (IH ts Htail).
  destruct (negb f && hit t) eqn:E; simpl; [|lia].
  apply andb_true_iff in E as [_ Ht].
  rewrite newly_none; [simpl; lia|].
  intros j a Hj Ha _. assert (0%nat = S j) by (eapply Hdis; eauto). lia.
Qed.

Lemma marked_lookup_hit (flags : list bool) (ts : list A) (j : nat) (a : A) :
  ts !! j = Some a -> hit a = true -> (j < length flags)%nat ->
  marked hit flags ts !! j = Some true.
Proof.
  revert ts j. induction flags as [|f fs IH]; intros [|t ts] [|j]; simpl;
    try discriminate; try lia.
  - intros [= ->] -> _. now rewrite orb_true_r.
  - intros Ht Hh Hlt. apply IH; auto. lia.
Qed.

Lemma marked_lookup_false (flags : list bool) (ts : list A) (j : nat) :
  marked hit flags ts !! j = Some false -> flags !! j = Some false.
Proof.
  revert ts j. induction flags as [|f fs IH]; intros [|t ts] [|j]; simpl; auto.
  - destruct f; simpl; [discriminate|auto].
  - apply IH.
Qed.

Lemma marked_lookup_miss (flags : list bool) (ts : list A) (j : nat) (a : A) :
  ts !! j = Some a -> hit a = false -> flags !! j = Some false ->
  marked hit flags ts !! j = Some false.
Proof.
  revert ts j. induction flags as [|f fs IH]; intros [|t ts] [|j]; simpl;
    try discriminate.
  - intros [= ->] -> [= ->]. reflexivity.
  - apply IH.
Qed.

Lemma countTrue_marked (flags : list bool) (ts : list A) :
  length flags = length ts ->
  countTrue (marked hit flags ts)
  = (countTrue flags + length (newly hit flags ts))%nat.
Proof.
  unfold countTrue. revert ts.
  induction flags as [|f fs IH]; intros [|t ts] Hlen; try discriminate;
    [reflexivity|].
  injection Hlen as Hlen. specialize (IH ts Hlen). simpl.
  rewrite length_app. destruct f; simpl.
  - lia.
  - destruct (hit t); simpl;
      rewrite !(filter_cons_False _ false) by discriminate; lia.
Qed.
End NewlyFacts.

(** ** A sweep of the router along the board *)

Lemma sorted_same_elements (l1 : list Q) :
  forall l2 : list Q,
    StronglySorted Qlt l1 -> StronglySorted Qlt l2 ->
    (forall x, x ∈ l1 <-> x ∈ l2) -> l1 = l2.
Proof.
  induction l1 as [|a l1 IH]; intros [|b l2] H1 H2 Hel.
  - reflexivity.
  - exfalso. eapply elem_of_nil, Hel. left.
  - exfalso. eapply elem_of_nil, Hel. left.
  - apply StronglySorted_inv in H1 as [S1 F1], H2 as [S2 F2].
    rewrite Forall_forall in F1; rewrite Forall_forall in F2.
    assert (Hab : a = b).
    { assert (Ha : a ∈ b :: l2) by (apply Hel; left).
      assert (Hb : b ∈ a :: l1) by (apply Hel; left).
      apply elem_of_cons in Ha as [Ha|Ha]; [exact Ha|].
      apply elem_of_cons in Hb as [Hb|Hb]; [now symmetry|].
      exfalso. apply F1 in Hb. apply F2 in Ha.
      apply (Qlt_irrefl a). now apply Qlt_trans with b. }
    subst b. f_equal. apply IH; auto.
    intros x. split; intros Hx.
    + assert (Hx' : x ∈ a :: l2) by (apply Hel; now right).
      apply elem_of_cons in Hx' as [->|Hx']; [|exact Hx'].
      exfalso. apply F1 in Hx. now apply Qlt_irrefl in Hx.
    + assert (Hx' : x ∈ a :: l1) by (apply Hel; now right).
      apply elem_of_cons in Hx' as [->|Hx']; [|exact Hx'].
      exfalso. apply F2 in Hx. now apply Qlt_irrefl in Hx.
Qed.

Lemma sweepCentres_elem (inputs : list (Q * Q)) :
  forall (flags : list bool) (c : Q),
    c ∈ sweepCentres inputs flags ->
    exists j p, TAIL_CENTERS !! j = Some c /\ flags !! j = Some false
                /\ p ∈ inputs /\ inZone (fst p) c = true.
Proof.
  induction inputs as [|p rest IH]; intros flags c Hc; simpl in Hc.
  - now apply elem_of_nil in Hc.
  - apply elem_of_app in Hc as [Hc|Hc].
    + apply newly_elem in Hc as (j & Hj & Hf & Hh).
      exists j, p. repeat split; auto. left.
    + apply IH in Hc as (j & q & Hj & Hf & Hq & Hh).
      exists j, q. repeat split; auto.
      * eapply marked_lookup_false, Hf.
      * now right.
Qed.

Lemma sweepCentres_sorted (inputs : list (Q * Q)) :
  forall flags : list bool,
    StronglySorted Qlt (map fst inputs) ->
    StronglySorted Qlt (sweepCentres inputs flags).
Proof.
  induction inputs as [|p rest IH]; intros flags Hs; simpl; [constructor|].
  simpl in Hs. apply StronglySorted_inv in Hs as [Hs Hlt].
  specialize (IH (marked (inZone (fst p)) flags TAIL_CENTERS) Hs).
  pose proof (newly_at_most_one (inZone (fst p)) flags TAIL_CENTERS
                (fun i j a b Hi Hj Ha Hb => zones_disjoint (fst p) i j a b Hi Hj Ha Hb))
    as Hone.
  destruct (newly (inZone (fst p)) flags TAIL_CENTERS) as [|c [|c' l]] eqn:E;
    simpl in Hone; try lia; simpl; [exact IH|].
  constructor; [exact IH|].
  apply Forall_forall. intros e He.
  assert (Hc : c ∈ newly (inZone (fst p)) flags TAIL_CENTERS) by (rewrite E; left).
  apply newly_elem in Hc as (i & Hi & Hfi & Hhi).
  apply sweepCentres_elem in He as (j & q & Hj & Hfj & Hq & Hhj).
  assert (Hne : i <> j).
  { intros ->.
    rewrite (marked_lookup_hit (inZone (fst p)) flags TAIL_CENTERS j c) in Hfj;
      [discriminate|auto|auto|].
    eapply lookup_lt_Some, Hfi. }
  apply (centres_apart i j c e Hi Hj Hne).
  apply inZone_spec in Hhi, Hhj.
  assert (Hpq : fst p < fst q).
  { rewrite Forall_forall in Hlt. apply Hlt, list_elem_of_fmap_2, Hq. }
  lra.
Qed.

Lemma sweepCentres_covers (inputs : list (Q * Q)) :
  forall (flags : list bool) (j : nat) (c : Q) (p : Q * Q),
    TAIL_CENTERS !! j = Some c -> flags !! j = Some false ->
    p ∈ inputs -> inZone (fst p) c = true ->
    c ∈ sweepCentres inputs flags.
Proof.
  induction inputs as [|p0 rest IH]; intros flags j c p Hj Hf Hp Hh.
  - now apply elem_of_nil in Hp.
  - simpl. apply elem_of_app.
    destruct (inZone (fst p0) c) eqn:H0.
    + left. eapply elem_newly; eauto.
    + right. apply elem_of_cons in Hp as [->|Hp]; [congruence|].
      apply (IH _ j c p); auto. eapply marked_lookup_miss; eauto.
Qed.

Lemma bursts_app (l k : list Call) : bursts (l ++ k) = bursts l ++ bursts k.
Proof. apply omap_app. Qed.

Lemma bursts_signal (b : bool) (c : Call) :
  is_spawnBurst c = false -> bursts (if b then [c] else []) = [].
Proof. intros H. destruct b; [|reflexivity]. now destruct c. Qed.

Lemma bursts_boxBurst (phase : GamePhase) (cs : list Q) :
  map v_x (bursts (map (boxBurst phase) cs)) = cs.
Proof.
  induction cs as [|c cs IH]; [reflexivity|]. simpl. now rewrite IH.
Qed.

Lemma flagRun_sweepCentres (phase : GamePhase) (inputs : list (Q * Q)) :
  forall flags : list bool,
    length flags = length TAIL_CENTERS ->
    map v_x (bursts (concat (snd
      (flagRun (fun p c => inZone (fst p) c) (boxBurst phase) onPhaseComplete
         TAIL_CENTERS inputs flags))))
    = sweepCentres inputs flags.
Proof.
  unfold flagRun.
  induction inputs as [|p rest IH]; intros flags Hlen; [reflexivity|].
  rewrite runHandler_cons. cbn [fst snd concat sweepCentres].
  rewrite markStep_spec by assumption. cbn [fst snd].
  rewrite !bursts_app, !map_app, bursts_boxBurst.
  rewrite IH by (now rewrite marked_length).
  rewrite bursts_signal by reflexivity. cbn [map]. now rewrite app_nil_r.
Qed.

Lemma flagRun_length {I A : Type} (hit : I -> A -> bool) (burst : A -> Call)
    (signal : Call) (ts : list A) (inputs : list I) :
  forall flags : list bool,
    length flags = length ts ->
    length (fst (flagRun hit burst signal ts inputs flags)) = length ts.
Proof.
  unfold flagRun.
  induction inputs as [|i rest IH]; intros flags Hlen; [exact Hlen|].
  rewrite runHandler_cons. cbn [fst]. apply IH.
  rewrite markStep_spec by assumption. cbn [fst]. now rewrite marked_length.
Qed.

Lemma flagRun_monotone {I A : Type} (hit : I -> A -> bool) (burst : A -> Call)
    (signal : Call) (ts : list A) (inputs : list I) :
  forall (flags : list bool) (j : nat),
    length flags = length ts ->
    flags !! j = Some true ->
    fst (flagRun hit burst signal ts inputs flags) !! j = Some true.
Proof.
  unfold flagRun.
  induction inputs as [|i rest IH]; intros flags j Hlen Hj; [exact Hj|].
  rewrite runHandler_cons. cbn [fst].
  assert (E : fst (markStep (hit i) burst signal ts flags) = marked (hit i) flags ts)
    by (now rewrite markStep_spec).
  apply IH; rewrite E.
  - now rewrite marked_length.
  - now apply marked_lookup_true.
Qed.

Lemma flagRun_covers {I A : Type} (hit : I -> A -> bool) (burst : A -> Call)
    (signal : Call) (ts : list A) (inputs : list I) :
  forall (flags : list bool) (j : nat) (a : A) (i : I),
    length flags = length ts ->
    ts !! j = Some a -> i ∈ inputs -> hit i a = true ->
    fst (flagRun hit burst signal ts inputs flags) !! j = Some true.
Proof.
  induction inputs as [|i0 rest IH]; intros flags j a i Hlen Hj Hi Hh.
  - now apply elem_of_nil in Hi.
  - assert (E : fst (markStep (hit i0) burst signal ts flags) = marked (hit i0) flags ts)
      by (now rewrite markStep_spec).
    assert (Hlen' : length (marked (hit i0) flags ts) = length ts)
      by now rewrite marked_length.
    apply elem_of_cons in Hi as [->|Hi].
    + unfold flagRun. rewrite runHandler_cons. cbn [fst]. rewrite E.
      apply (flagRun_monotone hit burst signal ts rest); [exact Hlen'|].
      apply (marked_lookup_hit _ _ _ _ a); auto.
      rewrite Hlen. eapply lookup_lt_Some, Hj.
    + unfold flagRun. rewrite runHandler_cons. cbn [fst]. rewrite E.
      apply (IH _ j a i); auto.
Qed.

(** ** Completed targets stay completed *)

Lemma array_set_keeps (a : list bool) (i j : nat) :
  a !! j = Some true -> array_set false a i true !! j = Some true.
Proof.
  intros Hj. unfold array_set. destruct (decide (i < length a)%nat) as [Hi|Hi].
  - destruct (decide (i = j)) as [->|Hne].
    + now apply list_lookup_insert_eq.
    + now rewrite list_lookup_insert_ne.
  - now apply lookup_app_l_Some.
Qed.

Section MarkLoopKeeps.
Context {A : Type}.
Variable hit : A -> bool.
Variable burst : A -> Call.

Lemma markOne_keeps (acc : CutLoop) (a : A) (idx j : nat) :
  newFlags acc !! j = Some true ->
  newFlags (markOne hit burst acc a idx) !! j = Some true.
Proof.
  intros Hj. unfold markOne.
  destruct (negb (array_get (newFlags acc) idx) && hit a); [|exact Hj].
  cbn [newFlags]. now apply array_set_keeps.
Qed.

Lemma forEach_markOne_keeps (ts : list A) :
  forall (idx : nat) (acc : CutLoop) (j : nat),
    newFlags acc !! j = Some true ->
    newFlags (forEach (markOne hit burst) ts idx acc) !! j = Some true.
Proof.
  induction ts as [|a ts IH]; intros idx acc j Hj; [exact Hj|].
  cbn [forEach]. apply IH. now apply markOne_keeps.
Qed.

Lemma forEach_markOne_noop (ts : list A) :
  forall (idx : nat) (acc : CutLoop),
    (forall k a, ts !! k = Some a -> hit a = true ->
                 array_get (newFlags acc) (idx + k) = true) ->
    forEach (markOne hit burst) ts idx acc = acc.
Proof.
  induction ts as [|a ts IH]; intros idx acc H; [reflexivity|].
  cbn [forEach].
  assert (E : markOne hit burst acc a idx = acc).
  { unfold markOne. destruct (hit a) eqn:Ha.
    - pose proof (H 0%nat a eq_refl Ha) as H0. rewrite Nat.add_0_r in H0.
      now rewrite H0.
    - now rewrite andb_false_r. }
  rewrite E. apply IH. intros k b Hk Hb.
  replace (S idx + k)%nat with (idx + S k)%nat by lia.
  apply (H (S k) b Hk Hb).
Qed.
End MarkLoopKeeps.

Lemma box_handleCut_keeps (phase : GamePhase) (x z : Q) (st : BoxProject.State)
    (j : nat) :
  let st' := fst (BoxProject.handleCut phase x z st) in
  (BoxProject.wastesCutBFront st !! j = Some true ->
   BoxProject.wastesCutBFront st' !! j = Some true)
  /\ (BoxProject.wastesCutBBack st !! j = Some true ->
      BoxProject.wastesCutBBack st' !! j = Some true)
  /\ (BoxProject.wastesCutD st !! j = Some true ->
      BoxProject.wastesCutD st' !! j = Some true).
Proof.
  unfold BoxProject.handleCut.
  destruct (BoxProject.targetState phase st) as [target|] eqn:Ht;
    [|cbn [fst]; auto].
  change (BoxProject.cutOne phase x) with (markOne (inZone x) (boxBurst phase)).
  pose proof (fun Hj => forEach_markOne_keeps (inZone x) (boxBurst phase)
                          TAIL_CENTERS 0 (mkCutLoop target false []) j Hj) as Hk.
  cbn [newFlags] in Hk.
  revert Hk.
  generalize (forEach (markOne (inZone x) (boxBurst phase)) TAIL_CENTERS 0
                (mkCutLoop target false [])).
  intros r Hk. destruct (changed r); cbn [fst]; [|auto].
  destruct phase; try discriminate; injection Ht as <-;
    cbn [BoxProject.setTargetState BoxProject.wastesCutBFront
         BoxProject.wastesCutBBack BoxProject.wastesCutD]; auto.
Qed.

Lemma box_run_keeps (phase : GamePhase) (inputs : list (Q * Q)) :
  forall (st : BoxProject.State) (j : nat),
    let st' := fst (runHandler (boxCut phase) inputs st) in
    (BoxProject.wastesCutBFront st !! j = Some true ->
     BoxProject.wastesCutBFront st' !! j = Some true)
    /\ (BoxProject.wastesCutBBack st !! j = Some true ->
        BoxProject.wastesCutBBack st' !! j = Some true)
    /\ (BoxProject.wastesCutD st !! j = Some true ->
        BoxProject.wastesCutD st' !! j = Some true).
Proof.
  induction inputs as [|p rest IH]; intros st j; [cbn; auto|].
  cbv zeta. rewrite runHandler_cons. cbn [fst].
  destruct (box_handleCut_keeps phase (fst p) (snd p) st j) as (H1 & H2 & H3).
  destruct (IH (fst (boxCut phase p st)) j) as (I1 & I2 & I3).
  unfold boxCut in *. auto.
Qed.

Lemma box_handleCut_inside_completed (phase : GamePhase) (x z : Q)
    (st : BoxProject.State) (j : nat) (c : Q) :
  isCuttingPhase phase ->
  TAIL_CENTERS !! j = Some c ->
  inZone x c = true ->
  boxFlags phase st !! j = Some true ->
  BoxProject.handleCut phase x z st = (st, []).
Proof.
  intros Hphase Hj Hin Hdone. unfold BoxProject.handleCut.
  rewrite (box_targetState_some phase st Hphase).
  change (BoxProject.cutOne phase x) with (markOne (inZone x) (boxBurst phase)).
  rewrite forEach_markOne_noop; [reflexivity|].
  intros k a Hk Ha. cbn [newFlags]. simpl.
  assert (k = j) as -> by (eapply zones_disjoint; eauto).
  unfold array_get. now rewrite Hdone.
Qed.

(** C3.  In every phase and for every sequence of tool positions passed to
    [handleCut], a flag of any of the three waste arrays that is set stays
    set; and a call whose tool position lies within the threshold of a tail
    centre whose target is already complete changes no state and makes no
    call: no burst and no phase-complete signal. *)
Theorem cut_flags_monotone_idempotent :
  (forall (phase : GamePhase) (inputs : list (Q * Q)) (st : BoxProject.State)
          (j : nat),
      let st' := fst (runHandler (boxCut phase) inputs st) in
      (BoxProject.wastesCutBFront st !! j = Some true ->
       BoxProject.wastesCutBFront st' !! j = Some true)
      /\ (BoxProject.wastesCutBBack st !! j = Some true ->
          BoxProject.wastesCutBBack st' !! j = Some true)
      /\ (BoxProject.wastesCutD st !! j = Some true ->
          BoxProject.wastesCutD st' !! j = Some true))
  /\ (forall (phase : GamePhase) (x z : Q) (st : BoxProject.State)
             (j : nat) (c : Q),
      isCuttingPhase phase ->
      TAIL_CENTERS !! j = Some c ->
      Qabs (x - c) < BoxProject.threshold ->
      boxFlags phase st !! j = Some true ->
      BoxProject.handleCut phase x z st = (st, [])).
Proof.
  split.
  - intros phase inputs st j. apply box_run_keeps.
  - intros phase x z st j c Hphase Hj Hin Hdone.
    apply (box_handleCut_inside_completed phase x z st j c); auto.
    unfold inZone. now apply Qltb_lt.
Qed.

(** The front array after the first tail was cut: moving away and back over
    it, and over the second tail, keeps the first flag and changes nothing
    while the tool is over the first tail. *)
Lemma cut_flags_monotone_idempotent_example :
  let st := fst (BoxProject.handleCut CUTTING (-0.7) 0.2 BoxProject.initial) in
  BoxProject.wastesCutBFront st = [true; false; false; false]
  /\ BoxProject.wastesCutBFront
       (fst (runHandler (boxCut CUTTING) [(0, 0.2); (-0.2, 0.2); (-0.7, 0.2)] st))
     !! 0%nat = Some true
  /\ BoxProject.handleCut CUTTING (-0.6) 0.2 st = (st, []).
Proof.
  cbv zeta. split; [reflexivity|]. split.
  - refine (proj1 (proj1 cut_flags_monotone_idempotent CUTTING _ _ 0%nat) _).
    reflexivity.
  - refine (proj2 cut_flags_monotone_idempotent CUTTING (-0.6) 0.2 _ 0%nat _ _ _ _ _).
    + left. reflexivity.
    + reflexivity.
    + vm_compute. reflexivity.
    + reflexivity.
Defined.

(** ** Disjoint zones and the order of completion *)

Lemma boxCut_one_target (phase : GamePhase) (p : Q * Q) (st : BoxProject.State) :
  isCuttingPhase phase ->
  length (boxFlags phase st) = NUM_TAILS ->
  (countTrue (boxFlags phase (fst (boxCut phase p st)))
   <= countTrue (boxFlags phase st) + 1)%nat
  /\ (length (bursts (snd (boxCut phase p st))) <= 1)%nat.
Proof.
  intros Hphase Hlen.
  destruct (boxCut_markStep phase p st Hphase) as [Hf Hc].
  rewrite Hf, Hc, markStep_spec by exact Hlen. cbn [fst snd].
  pose proof (newly_at_most_one (inZone (fst p)) (boxFlags phase st) TAIL_CENTERS
                (fun i j a b Hi Hj Ha Hb => zones_disjoint (fst p) i j a b Hi Hj Ha Hb))
    as Hone.
  split.
  - rewrite countTrue_marked by exact Hlen. lia.
  - rewrite bursts_app, bursts_signal by reflexivity. rewrite app_nil_r.
    rewrite <- (length_map v_x), bursts_boxBurst. exact Hone.
Qed.

Lemma box_sweep (phase : GamePhase) (st : BoxProject.State) (inputs : list (Q * Q)) :
  isCuttingPhase phase ->
  BoxProject.targetState phase st = Some (all_false NUM_TAILS) ->
  StronglySorted Qlt (map fst inputs) ->
  let log := snd (runHandler (boxCut phase) inputs st) in
  StronglySorted Qlt (map v_x (bursts (concat log)))
  /\ ((forall c, c ∈ TAIL_CENTERS ->
         exists p, p ∈ inputs /\ inZone (fst p) c = true) ->
      map v_x (bursts (concat log)) = TAIL_CENTERS
      /\ count_phaseComplete (concat log) = 1%nat).
Proof.
  intros Hphase Hstart Hsorted log.
  assert (Hflags : boxFlags phase st = all_false NUM_TAILS)
    by (unfold boxFlags; now rewrite Hstart).
  assert (Hlen : length (boxFlags phase st) = length TAIL_CENTERS)
    by now rewrite Hflags.
  destruct (run_flagRun (boxCut phase) (boxFlags phase)
              (fun p c => inZone (fst p) c) (boxBurst phase) onPhaseComplete
              TAIL_CENTERS
              (fun i s _ => proj1 (boxCut_markStep phase i s Hphase))
              (fun i s _ => proj2 (boxCut_markStep phase i s Hphase))
              inputs st Hlen) as [Hfin Hlog].
  assert (Hev : map v_x (bursts (concat log)) = sweepCentres inputs (boxFlags phase st)).
  { unfold log. rewrite Hlog. now apply flagRun_sweepCentres. }
  rewrite Hev. split; [now apply sweepCentres_sorted|].
  intros Hcover. split.
  - apply sorted_same_elements.
    + now apply sweepCentres_sorted.
    + exact tail_centers_sorted.
    + intros c. split.
      * intros Hc. apply sweepCentres_elem in Hc as (j & _ & Hj & _).
        apply list_elem_of_lookup. eauto.
      * intros Hc. destruct (Hcover c Hc) as (p & Hp & Hin).
        apply list_elem_of_lookup in Hc as [j Hj].
        apply (sweepCentres_covers inputs _ j c p); auto.
        rewrite Hflags. apply lookup_replicate_2.
        apply lookup_lt_Some in Hj. exact Hj.
  - destruct (run_firesOnce (boxCut phase) (boxFlags phase)
                (fun p c => inZone (fst p) c) (boxBurst phase) onPhaseComplete
                TAIL_CENTERS
                (fun i s _ => proj1 (boxCut_markStep phase i s Hphase))
                (fun i s _ => proj2 (boxCut_markStep phase i s Hphase))
                (fun _ => eq_refl) eq_refl inputs st Hlen)
      as (_ & Htot & _); [now rewrite Hflags|].
    fold log in Htot. rewrite Htot.
    replace (every _) with true; [reflexivity|].
    symmetry. apply every_true_iff. intros i b Hi. rewrite Hfin in Hi.
    assert (Hi4 : (i < length TAIL_CENTERS)%nat).
    { apply lookup_lt_Some in Hi.
      now rewrite flagRun_length in Hi. }
    destruct (lookup_lt_is_Some_2 TAIL_CENTERS i Hi4) as [c Hc].
    destruct (Hcover c) as (p & Hp & Hin);
      [apply list_elem_of_lookup; eauto|].
    rewrite (flagRun_covers _ _ _ _ _ _ i c p Hlen Hc Hp Hin) in Hi.
    now injection Hi.
Qed.

Lemma flagRun_marked_by {I A : Type} (hit : I -> A -> bool) (burst : A -> Call)
    (signal : Call) (ts : list A) (inputs : list I) :
  forall (flags : list bool) (j : nat) (a : A),
    length flags = length ts ->
    ts !! j = Some a ->
    flags !! j = Some false ->
    fst (flagRun hit burst signal ts inputs flags) !! j = Some true ->
    exists i, i ∈ inputs /\ hit i a = true.
Proof.
  induction inputs as [|i0 rest IH]; intros flags j a Hlen Hj Hf Hend.
  - cbn in Hend. congruence.
  - unfold flagRun in Hend. rewrite runHandler_cons in Hend. cbn [fst] in Hend.
    assert (E : fst (markStep (hit i0) burst signal ts flags) = marked (hit i0) flags ts)
      by (now rewrite markStep_spec).
    rewrite E in Hend.
    destruct (hit i0 a) eqn:Hh.
    + exists i0. split; [left|exact Hh].
    + pose proof (marked_lookup_miss (hit i0) flags ts j a Hj Hh Hf) as Hm.
      destruct (IH (marked (hit i0) flags ts) j a) as (i & Hi & Hhit); auto.
      * now rewrite marked_length.
      * exists i. split; [now right|exact Hhit].
Qed.

Lemma box_sweep_flags (phase : GamePhase) (st : BoxProject.State)
    (inputs : list (Q * Q)) :
  isCuttingPhase phase ->
  BoxProject.targetState phase st = Some (all_false NUM_TAILS) ->
  let flags := boxFlags phase (fst (runHandler (boxCut phase) inputs st)) in
  (every flags = true ->
   forall c, c ∈ TAIL_CENTERS -> exists p, p ∈ inputs /\ inZone (fst p) c = true)
  /\ ((forall c, c ∈ TAIL_CENTERS ->
         exists p, p ∈ inputs /\ inZone (fst p) c = true) ->
      every flags = true).
Proof.
  intros Hphase Hstart flags.
  assert (Hflags : boxFlags phase st = all_false NUM_TAILS)
    by (unfold boxFlags; now rewrite Hstart).
  assert (Hlen : length (boxFlags phase st) = length TAIL_CENTERS)
    by now rewrite Hflags.
  destruct (run_flagRun (boxCut phase) (boxFlags phase)
              (fun p c => inZone (fst p) c) (boxBurst phase) onPhaseComplete
              TAIL_CENTERS
              (fun i s _ => proj1 (boxCut_markStep phase i s Hphase))
              (fun i s _ => proj2 (boxCut_markStep phase i s Hphase))
              inputs st Hlen) as [Hfin _].
  fold flags in Hfin. split.
  - intros Hall c Hc. apply list_elem_of_lookup in Hc as [j Hj].
    assert (Hj4 : (j < length flags)%nat).
    { rewrite Hfin, flagRun_length by exact Hlen. eapply lookup_lt_Some, Hj. }
    destruct (lookup_lt_is_Some_2 flags j Hj4) as [b Hb].
    assert (b = true) as -> by (apply (proj1 (every_true_iff flags) Hall j b Hb)).
    rewrite Hfin in Hb.
    apply (flagRun_marked_by (fun p c => inZone (fst p) c) (boxBurst phase)
             onPhaseComplete TAIL_CENTERS inputs (boxFlags phase st) j c Hlen Hj);
      [|exact Hb].
    rewrite Hflags. apply lookup_replicate_2.
    apply lookup_lt_Some in Hj. exact Hj.
  - intros Hcover. apply every_true_iff. intros i b Hi. rewrite Hfin in Hi.
    assert (Hi4 : (i < length TAIL_CENTERS)%nat).
    { apply lookup_lt_Some in Hi. now rewrite flagRun_length in Hi. }
    destruct (lookup_lt_is_Some_2 TAIL_CENTERS i Hi4) as [c Hc].
    destruct (Hcover c) as (p & Hp & Hin);
      [apply list_elem_of_lookup; eauto|].
    rewrite (flagRun_covers _ _ _ _ _ _ i c p Hlen Hc Hp Hin) in Hi.
    now injection Hi.
Qed.

(** C10.  The threshold [TAIL_WIDTH_TIP / 1.5] is less than half the pitch,
    in the doubles of the code (0.21666666666666667 against half of
    0.46499999999999997) as in exact numbers, so no tool position lies
    within the threshold of two tail centres; one call of [handleCut]
    therefore completes at most one new target and starts at most one
    burst; and when the tool's x increases strictly along the calls of a
    cutting phase that starts with no target complete, the bursts come in
    increasing order of centre x.  When the run leaves every target
    complete, the bursts are exactly the four centres in ascending order
    and the phase-complete signal is given once; and it leaves every
    target complete when each centre is approached within 0.2. *)
Theorem zones_disjoint_sweep_ascending :
  (Box64.TAIL_WIDTH_TIP = Box64.tipValue
   /\ Box64.threshold = Box64.thresholdValue
   /\ PrimFloat.ltb Box64.threshold Box64.halfPitch = true
   /\ BoxProject.threshold
      < Layout.pitch BOARD_WIDTH NUM_TAILS TOTAL_TAIL_RATIO / 2)
  /\ (forall (x : Q) (i j : nat) (a b : Q),
        TAIL_CENTERS !! i = Some a -> TAIL_CENTERS !! j = Some b -> i <> j ->
        ~ (Qabs (x - a) < BoxProject.threshold
           /\ Qabs (x - b) < BoxProject.threshold))
  /\ (forall (phase : GamePhase) (x z : Q) (st : BoxProject.State),
        isCuttingPhase phase ->
        length (boxFlags phase st) = NUM_TAILS ->
        let r := BoxProject.handleCut phase x z st in
        (countTrue (boxFlags phase (fst r)) <= countTrue (boxFlags phase st) + 1)%nat
        /\ (length (bursts (snd r)) <= 1)%nat)
  /\ (forall (phase : GamePhase) (st : BoxProject.State) (inputs : list (Q * Q)),
        isCuttingPhase phase ->
        BoxProject.targetState phase st = Some (all_false NUM_TAILS) ->
        StronglySorted Qlt (map fst inputs) ->
        let run := runHandler (boxCut phase) inputs st in
        let log := snd run in
        StronglySorted Qlt (map v_x (bursts (concat log)))
        /\ (every (boxFlags phase (fst run)) = true ->
            map v_x (bursts (concat log)) = TAIL_CENTERS
            /\ count_phaseComplete (concat log) = 1%nat)
        /\ ((forall c, c ∈ TAIL_CENTERS ->
               exists p, p ∈ inputs /\ Qabs (fst p - c) <= 0.2) ->
            every (boxFlags phase (fst run)) = true)).
Proof.
  split; [|split; [|split]].
  - repeat split; vm_compute; reflexivity.
  - intros x i j a b Hi Hj Hne [Ha Hb]. apply Hne.
    apply (zones_disjoint x i j a b Hi Hj); unfold inZone; now apply Qltb_lt.
  - intros phase x z st Hphase Hlen.
    apply (boxCut_one_target phase (x, z) st Hphase Hlen).
  - intros phase st inputs Hphase Hstart Hsorted run log.
    destruct (box_sweep phase st inputs Hphase Hstart Hsorted) as [Hs Hall].
    destruct (box_sweep_flags phase st inputs Hphase Hstart) as [Hback Hforth].
    split; [exact Hs|]. split.
    + intros Hevery. apply Hall. apply Hback. exact Hevery.
    + intros Hcover. apply Hforth.
      intros c Hc. destruct (Hcover c Hc) as (p & Hp & Hin).
      exists p. split; [exact Hp|]. apply inZone_spec.
      apply Qabs_Qle_condition in Hin. lra.
Qed.

(** ** Hammering *)

Lemma box_tap (targetY : Q) (b : BoardRef) (st : BoxProject.State) :
  BoxProject.assemblyState st = hammering ->
  let n := S (BoxProject.hammerTaps st) in
  let r := BoxProject.handleHammerClick targetY b st in
  BoxProject.hammerTaps (fst r) = n
  /\ v_y (BoxProject.board b (fst r))
     = targetY + Qmax 0 (GAP_HEIGHT * (1 - ofNat n / ofNat HAMMER_TAPS_REQUIRED))
  /\ BoxProject.assemblyState (fst r)
     = (if (HAMMER_TAPS_REQUIRED <=? n)%nat then done else hammering)
  /\ snd r
     = (if (HAMMER_TAPS_REQUIRED <=? n)%nat then [setTimeout_onPhaseComplete 500]
        else []).
Proof.
  intros Hst n r. unfold r, BoxProject.handleHammerClick.
  rewrite decide_True by exact Hst. fold n.
  destruct (HAMMER_TAPS_REQUIRED <=? n)%nat; destruct b;
    cbn [fst snd BoxProject.setAssembly BoxProject.setBoard BoxProject.board
         BoxProject.hammerTaps BoxProject.assemblyState BoxProject.tailBoardA
         BoxProject.tailBoardC BoxProject.topBoardD v_y];
    rewrite ?Hst; auto.
Qed.

Lemma box_tap_ignored (targetY : Q) (b : BoardRef) (st : BoxProject.State) :
  BoxProject.assemblyState st <> hammering ->
  BoxProject.handleHammerClick targetY b st = (st, []).
Proof.
  intros Hst. unfold BoxProject.handleHammerClick. now rewrite decide_False.
Qed.

Lemma gap_after (k : nat) :
  (k <= 3)%nat ->
  Qmax 0 (GAP_HEIGHT * (1 - ofNat k / ofNat HAMMER_TAPS_REQUIRED))
  == GAP_HEIGHT * (1 - ofNat k / ofNat HAMMER_TAPS_REQUIRED).
Proof.
  intros Hk. apply Q.max_r.
  change (ofNat HAMMER_TAPS_REQUIRED) with 3. unfold GAP_HEIGHT.
  assert (H3 : ofNat k <= 3).
  { unfold ofNat. change 3 with (inject_Z 3). rewrite <- Zle_Qle. lia. }
  assert (E : ofNat k / 3 == ofNat k * (1 # 3)) by field.
  rewrite E. lra.
Qed.

Lemma boxTaps_S (targetY : Q) (b : BoardRef) (k : nat) (st : BoxProject.State) :
  boxTaps targetY b (S k) st
  = fst (BoxProject.handleHammerClick targetY b (boxTaps targetY b k st)).
Proof. reflexivity. Qed.

Lemma stoolTaps_S (k : nat) (st : StoolProject.State) :
  stoolTaps (S k) st = fst (StoolProject.handleHammer (stoolTaps k st)).
Proof. reflexivity. Qed.

Lemma box_taps (targetY : Q) (b : BoardRef) (st : BoxProject.State) (k : nat) :
  BoxProject.assemblyState st = hammering ->
  BoxProject.hammerTaps st = 0%nat ->
  (1 <= k <= 3)%nat ->
  let st' := boxTaps targetY b k st in
  BoxProject.hammerTaps st' = k
  /\ v_y (BoxProject.board b st')
     == targetY + GAP_HEIGHT * (1 - ofNat k / ofNat HAMMER_TAPS_REQUIRED)
  /\ BoxProject.assemblyState st' = (if (3 <=? k)%nat then done else hammering)
  /\ snd (BoxProject.handleHammerClick targetY b (boxTaps targetY b (k - 1) st))
     = (if (3 <=? k)%nat then [setTimeout_onPhaseComplete 500] else []).
Proof.
  intros Hst H0 Hk. cbv zeta.
  assert (Hprev : forall m, (m < 3)%nat ->
            BoxProject.assemblyState (boxTaps targetY b m st) = hammering
            /\ BoxProject.hammerTaps (boxTaps targetY b m st) = m).
  { induction m as [|m IH]; intros Hm; [auto|].
    destruct IH as [Ha Ht]; [lia|].
    rewrite boxTaps_S.
    destruct (box_tap targetY b _ Ha) as (T & _ & A & _).
    rewrite T, A, Ht. split; [|reflexivity].
    destruct m as [|[|m]]; [reflexivity|reflexivity|lia]. }
  destruct k as [|k]; [lia|].
  destruct (Hprev k) as [Ha Ht]; [lia|].
  replace (S k - 1)%nat with k by lia.
  rewrite !boxTaps_S.
  destruct (box_tap targetY b _ Ha) as (T & Y & A & C).
  rewrite Ht in T, Y, A, C.
  repeat split; [exact T| |exact A|exact C].
  rewrite Y. now rewrite gap_after by lia.
Qed.

Lemma stool_tap (st : StoolProject.State) (y : Q) :
  StoolProject.legsState st = StoolProject.hammering ->
  StoolProject.legsRef st = Some y ->
  let n := S (StoolProject.hammerTaps st) in
  let r := StoolProject.handleHammer st in
  StoolProject.hammerTaps (fst r) = n
  /\ legsWorldY (fst r)
     = Some (- - (StoolProject.startWorldY
                  - (StoolProject.startWorldY - StoolProject.endWorldY)
                    * (ofNat n / ofNat HAMMER_TAPS_REQUIRED)))
  /\ StoolProject.legsState (fst r)
     = (if (HAMMER_TAPS_REQUIRED <=? n)%nat then StoolProject.done
        else StoolProject.hammering)
  /\ snd r
     = (if (HAMMER_TAPS_REQUIRED <=? n)%nat then [setTimeout_onPhaseComplete 600]
        else []).
Proof.
  intros Hst Hy n r. unfold r, StoolProject.handleHammer.
  rewrite Hy, decide_True by exact Hst. fold n.
  destruct (HAMMER_TAPS_REQUIRED <=? n)%nat; unfold legsWorldY;
    cbn [fst snd StoolProject.hammerTaps StoolProject.legsState
         StoolProject.legsRef]; rewrite ?Hst; auto.
Qed.

Lemma stool_taps (st : StoolProject.State) (y0 : Q) (k : nat) :
  StoolProject.legsState st = StoolProject.hammering ->
  StoolProject.hammerTaps st = 0%nat ->
  StoolProject.legsRef st = Some y0 ->
  (1 <= k <= 3)%nat ->
  let st' := stoolTaps k st in
  StoolProject.hammerTaps st' = k
  /\ (exists y, legsWorldY st' = Some y
        /\ y == StoolProject.endWorldY
                + (StoolProject.startWorldY - StoolProject.endWorldY)
                  * (1 - ofNat k / ofNat HAMMER_TAPS_REQUIRED))
  /\ StoolProject.legsState st'
     = (if (3 <=? k)%nat then StoolProject.done else StoolProject.hammering)
  /\ snd (StoolProject.handleHammer (stoolTaps (k - 1) st))
     = (if (3 <=? k)%nat then [setTimeout_onPhaseComplete 600] else []).
Proof.
  intros Hst H0 Hy Hk. cbv zeta.
  assert (Hprev : forall m, (m < 3)%nat ->
            StoolProject.legsState (stoolTaps m st) = StoolProject.hammering
            /\ StoolProject.hammerTaps (stoolTaps m st) = m
            /\ exists y, StoolProject.legsRef (stoolTaps m st) = Some y).
  { induction m as [|m IH]; intros Hm; [unfold stoolTaps; cbn; eauto|].
    destruct IH as (Ha & Ht & y & Hr); [lia|].
    rewrite stoolTaps_S.
    destruct (stool_tap _ y Ha Hr) as (T & Y & A & _).
    rewrite T, A, Ht. split; [|split; [reflexivity|]].
    - destruct m as [|[|m]]; [reflexivity|reflexivity|lia].
    - unfold legsWorldY in Y.
      destruct (StoolProject.legsRef
                  (fst (StoolProject.handleHammer (stoolTaps m st))));
        [eauto|discriminate]. }
  destruct k as [|k]; [lia|].
  destruct (Hprev k) as (Ha & Ht & y & Hr); [lia|].
  replace (S k - 1)%nat with k by lia.
  rewrite !stoolTaps_S.
  destruct (stool_tap _ y Ha Hr) as (T & Y & A & C).
  rewrite Ht in T, Y, A, C.
  repeat split; [exact T| |exact A|exact C].
  eexists. split; [exact Y|].
  change (ofNat HAMMER_TAPS_REQUIRED) with 3. field.
Qed.

Lemma stool64_tap (st : StoolProject64.State) (y : PrimFloat.float) :
  StoolProject64.legsState st = StoolProject.hammering ->
  StoolProject64.legsRef st = Some y ->
  let n := S (StoolProject64.hammerTaps st) in
  let r := StoolProject64.handleHammer st in
  StoolProject64.hammerTaps (fst r) = n
  /\ StoolProject64.legsRef (fst r)
     = Some (PrimFloat.opp
               (PrimFloat.sub StoolProject64.startWorldY
                  (PrimFloat.mul
                     (PrimFloat.sub StoolProject64.startWorldY
                        StoolProject64.endWorldY)
                     (PrimFloat.div (F64.ofNat n) (F64.ofNat HAMMER_TAPS_REQUIRED)))))
  /\ StoolProject64.legsState (fst r)
     = (if (HAMMER_TAPS_REQUIRED <=? n)%nat then StoolProject.done
        else StoolProject.hammering)
  /\ snd r
     = (if (HAMMER_TAPS_REQUIRED <=? n)%nat then [setTimeout_onPhaseComplete 600]
        else []).
Proof.
  intros Hst Hy n r. unfold r, StoolProject64.handleHammer.
  rewrite Hy, Hst. fold n.
  destruct (HAMMER_TAPS_REQUIRED <=? n)%nat;
    cbn [fst snd StoolProject64.hammerTaps StoolProject64.legsState
         StoolProject64.legsRef]; auto.
Qed.

Lemma stool64_taps_S (k : nat) (st : StoolProject64.State) :
  StoolProject64.taps (S k) st
  = fst (StoolProject64.handleHammer (StoolProject64.taps k st)).
Proof. reflexivity. Qed.

Lemma stool64_taps (st : StoolProject64.State) (y0 : PrimFloat.float) (k : nat) :
  StoolProject64.legsState st = StoolProject.hammering ->
  StoolProject64.hammerTaps st = 0%nat ->
  StoolProject64.legsRef st = Some y0 ->
  (1 <= k <= 3)%nat ->
  let st' := StoolProject64.taps k st in
  StoolProject64.hammerTaps st' = k
  /\ StoolProject64.legsWorldY st' = StoolProject64.tapHeights !! (k - 1)%nat
  /\ StoolProject64.legsState st'
     = (if (3 <=? k)%nat then StoolProject.done else StoolProject.hammering)
  /\ snd (StoolProject64.handleHammer (StoolProject64.taps (k - 1) st))
     = (if (3 <=? k)%nat then [setTimeout_onPhaseComplete 600] else []).
Proof.
  intros Hst H0 Hy Hk. cbv zeta.
  assert (Hprev : forall m, (m < 3)%nat ->
            StoolProject64.legsState (StoolProject64.taps m st) = StoolProject.hammering
            /\ StoolProject64.hammerTaps (StoolProject64.taps m st) = m
            /\ exists y, StoolProject64.legsRef (StoolProject64.taps m st) = Some y).
  { induction m as [|m IH]; intros Hm; [unfold StoolProject64.taps; cbn; eauto|].
    destruct IH as (Ha & Ht & y & Hr); [lia|].
    rewrite stool64_taps_S.
    destruct (stool64_tap _ y Ha Hr) as (T & Y & A & _).
    rewrite T, A, Ht. split; [|split; [reflexivity|eauto]].
    destruct m as [|[|m]]; [reflexivity|reflexivity|lia]. }
  destruct k as [|k]; [lia|].
  destruct (Hprev k) as (Ha & Ht & y & Hr); [lia|].
  replace (S k - 1)%nat with k by lia.
  rewrite !stool64_taps_S.
  destruct (stool64_tap _ y Ha Hr) as (T & Y & A & C).
  rewrite Ht in T, Y, A, C.
  repeat split; [exact T| |exact A|exact C].
  unfold StoolProject64.legsWorldY. rewrite Y.
  destruct k as [|[|[|k]]]; [| | |lia]; vm_compute; reflexivity.
Qed.

(** C4, as the code has it.  In the hammering sub-state, entered with no
    tap counted, after the k-th click on the mallet (k = 1, 2, 3) the board
    of the box stands at [targetY + GAP_HEIGHT * (1 - k /
    HAMMER_TAPS_REQUIRED)], the sub-state is still hammering for k < 3, and
    the third click leaves no gap (the board stands at [targetY]), sets the
    sub-state to done and schedules the phase-complete callback; a click
    after that is ignored.  The legs of the stool are counted in the same
    way, and the doubles [0.5 - (0.5 - 0.05) * (k / 3)] they are set to
    are 0.35, 0.2 and 0.04999999999999999: each within 1e-15 of the rule
    with the final height 0.05 and the gap 0.45, and the last one below the
    final height, not at it. *)
Theorem hammer_taps_close_gap (k : nat) :
  (1 <= k <= 3)%nat ->
  (forall (targetY : Q) (b : BoardRef) (st : BoxProject.State),
      BoxProject.assemblyState st = hammering ->
      BoxProject.hammerTaps st = 0%nat ->
      let st' := boxTaps targetY b k st in
      v_y (BoxProject.board b st')
      == targetY + GAP_HEIGHT * (1 - ofNat k / ofNat HAMMER_TAPS_REQUIRED)
      /\ BoxProject.hammerTaps st' = k
      /\ (BoxProject.assemblyState st' = done <-> k = 3%nat)
      /\ (BoxProject.assemblyState st' = hammering <-> (k < 3)%nat)
      /\ (k = 3%nat ->
          v_y (BoxProject.board b st') == targetY
          /\ snd (BoxProject.handleHammerClick targetY b (boxTaps targetY b 2 st))
             = [setTimeout_onPhaseComplete 500]
          /\ BoxProject.handleHammerClick targetY b st' = (st', [])))
  /\ (forall (st : StoolProject64.State) (y0 : PrimFloat.float),
      StoolProject64.legsState st = StoolProject.hammering ->
      StoolProject64.hammerTaps st = 0%nat ->
      StoolProject64.legsRef st = Some y0 ->
      let st' := StoolProject64.taps k st in
      (exists y,
         StoolProject64.legsWorldY st' = Some y
         /\ StoolProject64.tapHeights !! (k - 1)%nat = Some y
         /\ within (1 # 1000000000000000) (F64.toQ y)
              (StoolProject.endWorldY
               + (StoolProject.startWorldY - StoolProject.endWorldY)
                 * (1 - ofNat k / ofNat HAMMER_TAPS_REQUIRED))
         /\ (k = 3%nat ->
             PrimFloat.ltb y StoolProject64.endWorldY = true
             /\ F64.toQ y < F64.toQ StoolProject64.endWorldY))
      /\ StoolProject64.hammerTaps st' = k
      /\ (StoolProject64.legsState st' = StoolProject.done <-> k = 3%nat)
      /\ (k = 3%nat ->
          snd (StoolProject64.handleHammer (StoolProject64.taps 2 st))
          = [setTimeout_onPhaseComplete 600]
          /\ StoolProject64.handleHammer st' = (st', []))).
Proof.
  intros Hk. split.
  - intros targetY b st Hst H0. cbv zeta.
    destruct (box_taps targetY b st k Hst H0 Hk) as (T & Y & A & C).
    split; [exact Y|]. split; [exact T|].
    destruct (3 <=? k)%nat eqn:E.
    + apply Nat.leb_le in E. assert (k = 3%nat) as -> by lia.
      rewrite A. repeat split; try congruence; try lia.
      * rewrite Y. change (ofNat HAMMER_TAPS_REQUIRED) with 3.
        change (ofNat 3) with 3. field.
      * exact C.
      * apply box_tap_ignored. rewrite A. discriminate.
    + apply Nat.leb_gt in E.
      rewrite A. repeat split; try congruence; try lia.
  - intros st y0 Hst H0 Hy. cbv zeta.
    destruct (stool64_taps st y0 k Hst H0 Hy Hk) as (T & Y & A & C).
    split; [|split; [exact T|split]].
    + assert (Hk3 : k = 1%nat \/ k = 2%nat \/ k = 3%nat) by lia.
      destruct Hk3 as [->|[->| ->]]; cbn [Nat.sub] in Y;
        eexists; (split; [exact Y|]); (split; [reflexivity|]);
        (split; [apply Qle_bool_iff; vm_compute; reflexivity|]);
        intros Hk3; try discriminate Hk3.
      split; [vm_compute; reflexivity|vm_compute; reflexivity].
    + rewrite A. destruct (3 <=? k)%nat eqn:E.
      * apply Nat.leb_le in E. split; [lia|reflexivity].
      * apply Nat.leb_gt in E. split; [discriminate|lia].
    + intros ->. split; [exact C|].
      cbn [Nat.leb] in A. unfold StoolProject64.handleHammer. rewrite A.
      now destruct (StoolProject64.legsRef (StoolProject64.taps 3 st)).
Qed.

(** C4, as stated, fails on the stool: the third tap leaves the legs one
    step of the doubles below the final height 0.05, so the gap that
    remains is not zero. *)
Lemma legs_end_below_final_height :
  let st := StoolProject64.taps 3 StoolProject64.locked in
  StoolProject64.legsState st = StoolProject.done
  /\ exists y,
       StoolProject64.legsWorldY st = Some y
       /\ PrimFloat.eqb y StoolProject64.endWorldY = false
       /\ PrimFloat.ltb y StoolProject64.endWorldY = true
       /\ ~ F64.toQ y == F64.toQ StoolProject64.endWorldY.
Proof.
  cbv zeta. split; [reflexivity|].
  eexists. split; [vm_compute; reflexivity|].
  split; [vm_compute; reflexivity|].
  split; [vm_compute; reflexivity|].
  vm_compute. discriminate.
Qed.

(** ** The particle pool *)

Lemma activeCount_idle (ps : list SawdustSystem.Particle) :
  (SawdustSystem.activeCount ps + idle ps = length ps)%nat.
Proof.
  unfold SawdustSystem.activeCount, idle.
  induction ps as [|p ps IH]; [reflexivity|].
  destruct (SawdustSystem.active p) eqn:E.
  - rewrite filter_cons_True by exact E.
    rewrite (filter_cons_False (fun q => SawdustSystem.active q = false))
      by (rewrite E; discriminate).
    simpl. lia.
  - rewrite filter_cons_False by (rewrite E; discriminate).
    rewrite (filter_cons_True (fun q => SawdustSystem.active q = false))
      by exact E.
    simpl. lia.
Qed.

Lemma activeCount_le (ps : list SawdustSystem.Particle) :
  (SawdustSystem.activeCount ps <= length ps)%nat.
Proof. pose proof (activeCount_idle ps). lia. Qed.

Lemma activeCount_insert (ps : list SawdustSystem.Particle) :
  forall (i : nat) (p p' : SawdustSystem.Particle),
    ps !! i = Some p ->
    SawdustSystem.active p = false -> SawdustSystem.active p' = true ->
    SawdustSystem.activeCount (<[i:=p']> ps) = S (SawdustSystem.activeCount ps).
Proof.
  unfold SawdustSystem.activeCount.
  induction ps as [|q ps IH]; intros [|i] p p' Hi Hp Hp'; try discriminate.
  - injection Hi as ->. simpl.
    rewrite filter_cons_True by exact Hp'.
    rewrite filter_cons_False by (rewrite Hp; discriminate). reflexivity.
  - simpl in Hi. simpl. destruct (SawdustSystem.active q) eqn:E.
    + rewrite !filter_cons_True by exact E. simpl. now rewrite (IH i p p').
    + rewrite !filter_cons_False by (rewrite E; discriminate).
      now rewrite (IH i p p').
Qed.

Lemma activeCount_full (ps : list SawdustSystem.Particle) :
  SawdustSystem.activeCount ps = length ps ->
  forall j p, ps !! j = Some p -> SawdustSystem.active p = true.
Proof.
  unfold SawdustSystem.activeCount.
  induction ps as [|q ps IH]; intros Hfull j p Hj; [discriminate|].
  pose proof (length_filter (fun p => SawdustSystem.active p = true) ps) as Hle.
  destruct (SawdustSystem.active q) eqn:E.
  - rewrite filter_cons_True in Hfull by exact E. simpl in Hfull.
    destruct j as [|j]; [now injection Hj as <-|].
    apply (IH ltac:(lia) j p Hj).
  - rewrite filter_cons_False in Hfull by (rewrite E; discriminate).
    simpl in Hfull. lia.
Qed.

Lemma activeCount_same_flags (ps qs : list SawdustSystem.Particle) :
  map SawdustSystem.active ps = map SawdustSystem.active qs ->
  SawdustSystem.activeCount ps = SawdustSystem.activeCount qs.
Proof.
  unfold SawdustSystem.activeCount. revert qs.
  induction ps as [|p ps IH]; intros [|q qs] H; try discriminate; [reflexivity|].
  simpl in H. injection H as Hpq H. specialize (IH qs H).
  destruct (SawdustSystem.active p) eqn:E.
  - rewrite !filter_cons_True by congruence. simpl. now rewrite IH.
  - rewrite (filter_cons_False _ p) by (rewrite E; discriminate).
    rewrite (filter_cons_False _ q) by (rewrite <- Hpq; discriminate).
    exact IH.
Qed.

Lemma clear_all_inactive (sys : SawdustSystem.System) :
  length (SawdustSystem.particles (SawdustSystem.clear sys))
  = length (SawdustSystem.particles sys)
  /\ Forall (fun p => SawdustSystem.active p = false)
       (SawdustSystem.particles (SawdustSystem.clear sys))
  /\ SawdustSystem.activeCount (SawdustSystem.particles (SawdustSystem.clear sys))
     = 0%nat.
Proof.
  unfold SawdustSystem.clear. cbn [SawdustSystem.particles].
  split; [apply length_map|].
  assert (F : Forall (fun p => SawdustSystem.active p = false)
                (map (fun p => SawdustSystem.mkParticle false
                        (SawdustSystem.position p) (SawdustSystem.velocity p)
                        (SawdustSystem.rotation p) (SawdustSystem.rotSpeed p)
                        (SawdustSystem.scale p) (SawdustSystem.life p)
                        (SawdustSystem.isPiled p))
                     (SawdustSystem.particles sys))).
  { apply Forall_fmap. apply Forall_forall. intros p _. reflexivity. }
  split; [exact F|].
  unfold SawdustSystem.activeCount. revert F.
  generalize (map (fun p => SawdustSystem.mkParticle false
                        (SawdustSystem.position p) (SawdustSystem.velocity p)
                        (SawdustSystem.rotation p) (SawdustSystem.rotSpeed p)
                        (SawdustSystem.scale p) (SawdustSystem.life p)
                        (SawdustSystem.isPiled p))
                (SawdustSystem.particles sys)).
  intros l F. induction F as [|p l Hp F IH]; [reflexivity|].
  rewrite filter_cons_False by (rewrite Hp; discriminate). exact IH.
Qed.

Section SawdustFacts.
Variable random : nat -> Q.
Variables sin cos : Q -> Q.
Variable PI : Q.

Lemma activate_active (pos : Vector3) (p : SawdustSystem.Particle) (r : nat) :
  SawdustSystem.active (fst (fst (SawdustSystem.activate random sin cos PI pos p r)))
  = true.
Proof. reflexivity. Qed.

Lemma spawnLoop_spec (batch : nat) (pos : Vector3) (fuel : nat) :
  forall (i s : nat) (sys : SawdustSystem.System),
    (i + fuel = length (SawdustSystem.particles sys))%nat ->
    (s < batch)%nat ->
    exists sys',
      SawdustSystem.spawnLoop random sin cos PI fuel i s batch pos sys = Some sys'
      /\ length (SawdustSystem.particles sys') = length (SawdustSystem.particles sys)
      /\ SawdustSystem.activeCount (SawdustSystem.particles sys')
         = (SawdustSystem.activeCount (SawdustSystem.particles sys)
            + Nat.min (batch - s) (idle (drop i (SawdustSystem.particles sys))))%nat
      /\ SawdustSystem.meshRef sys' = SawdustSystem.meshRef sys
      /\ SawdustSystem.intervals sys' = SawdustSystem.intervals sys.
Proof.
  induction fuel as [|fuel IH]; intros i s sys Hlen Hs.
  - exists sys. cbn [SawdustSystem.spawnLoop].
    rewrite drop_ge by lia. unfold idle. simpl.
    rewrite Nat.min_0_r. repeat split; lia.
  - cbn [SawdustSystem.spawnLoop].
    destruct (lookup_lt_is_Some_2 (SawdustSystem.particles sys) i ltac:(lia))
      as [p Hp]. rewrite Hp.
    rewrite (drop_S _ p i Hp).
    destruct (SawdustSystem.active p) eqn:Ep.
    + destruct (IH (S i) s sys ltac:(lia) Hs) as (sys' & E & L & C & M & I).
      exists sys'. repeat split; auto. rewrite C. unfold idle.
      rewrite filter_cons_False by (rewrite Ep; discriminate). reflexivity.
    + assert (Hidle : idle (p :: drop (S i) (SawdustSystem.particles sys))
                      = S (idle (drop (S i) (SawdustSystem.particles sys)))).
      { unfold idle. now rewrite filter_cons_True by exact Ep. }
      rewrite Hidle.
      pose proof (activate_active pos p (SawdustSystem.rng sys)) as Hact.
      destruct (SawdustSystem.activate random sin cos PI pos p (SawdustSystem.rng sys))
        as [[p' color] r'].
      cbn [fst] in Hact.
      pose proof (activeCount_insert _ i p p' Hp Ep Hact) as Hcount.
      destruct (batch <=? S s)%nat eqn:Eb.
      * apply Nat.leb_le in Eb. eexists. split; [reflexivity|].
        cbn [SawdustSystem.particles SawdustSystem.meshRef SawdustSystem.intervals].
        rewrite length_insert, Hcount. repeat split; lia.
      * apply Nat.leb_gt in Eb.
        destruct (IH (S i) (S s)
                    (SawdustSystem.mkSystem (SawdustSystem.meshRef sys)
                       (SawdustSystem.meshCount sys)
                       (<[i:=p']> (SawdustSystem.particles sys))
                       (<[i:=color]> (SawdustSystem.instanceColor sys))
                       (SawdustSystem.intervals sys) r'))
          as (sys' & E & L & C & M & I);
          [cbn [SawdustSystem.particles]; rewrite length_insert; lia | lia |].
        exists sys'. split; [exact E|].
        cbn [SawdustSystem.particles SawdustSystem.meshRef SawdustSystem.intervals]
          in L, C, M, I.
        rewrite length_insert in L. rewrite Hcount in C.
        rewrite drop_insert_lt in C by lia.
        repeat split; auto. lia.
Qed.

Lemma spawnLoop_saturated (batch : nat) (pos : Vector3) (fuel : nat) :
  forall (i s : nat) (sys : SawdustSystem.System),
    (i + fuel = length (SawdustSystem.particles sys))%nat ->
    (forall j p, SawdustSystem.particles sys !! j = Some p ->
                 SawdustSystem.active p = true) ->
    SawdustSystem.spawnLoop random sin cos PI fuel i s batch pos sys = Some sys.
Proof.
  induction fuel as [|fuel IH]; intros i s sys Hlen Hall; [reflexivity|].
  cbn [SawdustSystem.spawnLoop].
  destruct (lookup_lt_is_Some_2 (SawdustSystem.particles sys) i ltac:(lia))
    as [p Hp]. rewrite Hp, (Hall i p Hp). apply IH; [lia|exact Hall].
Qed.

Lemma integrate_active (dt : Q) (p : SawdustSystem.Particle) (r : nat) :
  SawdustSystem.active (fst (SawdustSystem.integrate random PI dt p r))
  = SawdustSystem.active p.
Proof.
  unfold SawdustSystem.integrate.
  destruct (SawdustSystem.active p && negb (SawdustSystem.isPiled p));
    [|reflexivity].
  destruct (Qle_bool _ _); reflexivity.
Qed.

Lemma integrateAll_active (dt : Q) (ps : list SawdustSystem.Particle) :
  forall r : nat,
    map SawdustSystem.active (fst (SawdustSystem.integrateAll random PI dt ps r))
    = map SawdustSystem.active ps.
Proof.
  induction ps as [|p ps IH]; intros r; [reflexivity|].
  cbn [SawdustSystem.integrateAll].
  pose proof (integrate_active dt p r) as Hp.
  destruct (SawdustSystem.integrate random PI dt p r) as [p1 r1].
  specialize (IH r1).
  destruct (SawdustSystem.integrateAll random PI dt ps r1) as [ps1 r2].
  cbn [fst map] in *. now rewrite Hp, IH.
Qed.

Lemma frame_spec (delta : Q) (sys : SawdustSystem.System) :
  length (SawdustSystem.particles sys) = SawdustSystem.count ->
  exists sys',
    SawdustSystem.frame random PI delta sys = Some sys'
    /\ map SawdustSystem.active (SawdustSystem.particles sys')
       = map SawdustSystem.active (SawdustSystem.particles sys).
Proof.
  intros Hlen. unfold SawdustSystem.frame.
  destruct (SawdustSystem.meshRef sys); [|eauto].
  rewrite decide_True by lia.
  pose proof (integrateAll_active (Qmin delta 0.1)
                (take SawdustSystem.count (SawdustSystem.particles sys))
                (SawdustSystem.rng sys)) as H.
  destruct (SawdustSystem.integrateAll _ _ _ _ _) as [ps r].
  eexists. split; [reflexivity|]. cbn [SawdustSystem.particles fst] in *.
  rewrite map_app, H, <- map_app. now rewrite take_drop.
Qed.

Lemma tick_spec (k : nat) (sys : SawdustSystem.System) :
  length (SawdustSystem.particles sys) = SawdustSystem.count ->
  exists sys',
    SawdustSystem.tick random sin cos PI k sys = Some sys'
    /\ length (SawdustSystem.particles sys') = SawdustSystem.count
    /\ (SawdustSystem.activeCount (SawdustSystem.particles sys')
        <= Nat.min (SawdustSystem.activeCount (SawdustSystem.particles sys) + 4)
                   SawdustSystem.count)%nat
    /\ (is_Some (SawdustSystem.intervals sys !! k) ->
        SawdustSystem.meshRef sys = true ->
        SawdustSystem.activeCount (SawdustSystem.particles sys')
        = Nat.min (SawdustSystem.activeCount (SawdustSystem.particles sys) + 4)
                  SawdustSystem.count)
    /\ (SawdustSystem.activeCount (SawdustSystem.particles sys) = SawdustSystem.count ->
        SawdustSystem.particles sys' = SawdustSystem.particles sys).
Proof.
  intros Hlen. unfold SawdustSystem.tick.
  pose proof (activeCount_le (SawdustSystem.particles sys)) as Hle.
  destruct (SawdustSystem.intervals sys !! k) as [iv|] eqn:Ek.
  2:{ exists sys. repeat split; auto; try lia.
      intros [? ?]; discriminate. }
  destruct (SawdustSystem.meshRef sys) eqn:Em.
  2:{ eexists. split; [reflexivity|]. cbn [SawdustSystem.setIntervals
        SawdustSystem.particles]. repeat split; auto; try lia. }
  change (SawdustSystem.burstCount / SawdustSystem.duration)%nat with 4%nat.
  destruct (spawnLoop_spec 4 (SawdustSystem.origin iv) SawdustSystem.count 0 0 sys)
    as (sys' & E & L & C & _ & _); [lia|lia|].
  rewrite E. eexists. split; [reflexivity|].
  cbn [SawdustSystem.setIntervals SawdustSystem.particles].
  rewrite drop_0 in C. pose proof (activeCount_idle (SawdustSystem.particles sys)).
  repeat split; try lia.
  intros Hfull.
  rewrite spawnLoop_saturated in E.
  - now injection E as <-.
  - lia.
  - apply activeCount_full. lia.
Qed.

Lemma step_spec (e : SawdustSystem.Event) (sys : SawdustSystem.System) :
  length (SawdustSystem.particles sys) = SawdustSystem.count ->
  exists sys',
    SawdustSystem.step random sin cos PI e sys = Some sys'
    /\ length (SawdustSystem.particles sys') = SawdustSystem.count.
Proof.
  intros Hlen. destruct e as [pos|k| |delta]; cbn [SawdustSystem.step].
  - eexists. split; [reflexivity|exact Hlen].
  - destruct (tick_spec k sys Hlen) as (sys' & E & L & _). eauto.
  - eexists. split; [reflexivity|].
    now rewrite (proj1 (clear_all_inactive sys)).
  - destruct (frame_spec delta sys Hlen) as (sys' & E & A).
    exists sys'. split; [exact E|].
    rewrite <- Hlen, <- (length_map SawdustSystem.active), A.
    apply length_map.
Qed.

Lemma run_spec (events : list SawdustSystem.Event) :
  forall sys : SawdustSystem.System,
    length (SawdustSystem.particles sys) = SawdustSystem.count ->
    exists sys',
      SawdustSystem.run random sin cos PI events sys = Some sys'
      /\ length (SawdustSystem.particles sys') = SawdustSystem.count.
Proof.
  induction events as [|e events IH]; intros sys Hlen; [eauto|].
  cbn [SawdustSystem.run].
  destruct (step_spec e sys Hlen) as (sys1 & E & L). rewrite E. now apply IH.
Qed.
End SawdustFacts.

(** C5.  Whatever [Math.random] returns and whatever bursts, interval
    ticks, frames and clears reach the particle system after it is mounted,
    no step fails, the pool keeps its 1200 slots, and at most 1200 particles
    are active.  In such a state a tick of a burst activates four free slots
    or, when fewer are free, only those (the active count becomes the
    smaller of count + 4 and 1200), and leaves a full pool as it is; and
    [clear] sets every [active] flag to false and keeps the 1200 slots. *)
Theorem particle_pool_bounded (random : nat -> Q) (sin cos : Q -> Q) (PI : Q)
    (events : list SawdustSystem.Event) :
  exists sys,
    SawdustSystem.run random sin cos PI events SawdustSystem.initial = Some sys
    /\ length (SawdustSystem.particles sys) = 1200%nat
    /\ (SawdustSystem.activeCount (SawdustSystem.particles sys) <= 1200)%nat
    /\ (forall k, exists sys',
          SawdustSystem.tick random sin cos PI k sys = Some sys'
          /\ length (SawdustSystem.particles sys') = 1200%nat
          /\ (SawdustSystem.activeCount (SawdustSystem.particles sys')
              <= Nat.min (SawdustSystem.activeCount (SawdustSystem.particles sys) + 4)
                         1200)%nat
          /\ (is_Some (SawdustSystem.intervals sys !! k) ->
              SawdustSystem.meshRef sys = true ->
              SawdustSystem.activeCount (SawdustSystem.particles sys')
              = Nat.min (SawdustSystem.activeCount (SawdustSystem.particles sys) + 4)
                        1200)
          /\ (SawdustSystem.activeCount (SawdustSystem.particles sys) = 1200%nat ->
              SawdustSystem.particles sys' = SawdustSystem.particles sys))
    /\ length (SawdustSystem.particles (SawdustSystem.clear sys)) = 1200%nat
    /\ Forall (fun p => SawdustSystem.active p = false)
         (SawdustSystem.particles (SawdustSystem.clear sys))
    /\ SawdustSystem.activeCount (SawdustSystem.particles (SawdustSystem.clear sys))
       = 0%nat.
Proof.
  change 1200%nat with SawdustSystem.count.
  destruct (run_spec random sin cos PI events SawdustSystem.initial)
    as (sys & E & L).
  { unfold SawdustSystem.initial. cbn [SawdustSystem.particles].
    apply length_replicate. }
  exists sys. split; [exact E|]. split; [exact L|].
  split; [rewrite <- L; apply activeCount_le|].
  split; [intros k; apply (tick_spec random sin cos PI k sys L)|].
  destruct (clear_all_inactive sys) as (CL & CF & CA).
  rewrite CL. auto.
Qed.

(** ** Saplings are protected *)

Section TimberFacts.
Variable random : nat -> Q.
Variable atan2 : Q -> Q -> Q.

Lemma cutTree_blocked (sawPos : Vector3) (acc : TimberStage.TreeLoop)
    (tree : TimberStage.Spot) (idx : nat) :
  TimberStage.cutTree random atan2 sawPos true acc tree idx = acc.
Proof.
  unfold TimberStage.cutTree. now rewrite andb_false_r.
Qed.

Lemma forEach_cutTree_blocked (sawPos : Vector3) (ts : list TimberStage.Spot) :
  forall (idx : nat) (acc : TimberStage.TreeLoop),
    forEach (TimberStage.cutTree random atan2 sawPos true) ts idx acc = acc.
Proof.
  induction ts as [|t ts IH]; intros idx acc; [reflexivity|].
  cbn [forEach]. now rewrite cutTree_blocked.
Qed.

Lemma handleCut_over_sapling (sawPos : Vector3) (st : TimberStage.State)
    (rng0 : nat) :
  (exists s, In s TimberStage.saplings
             /\ TimberStage.dist2 sawPos s < 0.8 * 0.8 /\ v_y sawPos < 1.5) ->
  exists s, In s TimberStage.saplings
    /\ TimberStage.handleCut random atan2 sawPos st rng0
       = (TimberStage.mkState (TimberStage.treesCut st) (TimberStage.cutProgress st)
            (TimberStage.fallRotation st)
            (TimberStage.mkWarning true
               (vec3 (TimberStage.x s) 2 (TimberStage.z s))),
          [], rng0).
Proof.
  intros (s & Hs & Hd & Hy). unfold TimberStage.handleCut.
  destruct (find (TimberStage.hitsSapling sawPos) TimberStage.saplings)
    as [s'|] eqn:Ef.
  - apply find_some in Ef as [Hin _]. exists s'. split; [exact Hin|].
    now rewrite forEach_cutTree_blocked.
  - exfalso. pose proof (find_none _ _ Ef s Hs) as Hn.
    unfold TimberStage.hitsSapling in Hn.
    apply Qltb_lt in Hd, Hy. rewrite Hd, Hy in Hn. discriminate.
Qed.
End TimberFacts.

Section TimberFacts64.
Variable random : nat -> Q.
Variable atan2 : PrimFloat.float -> PrimFloat.float -> Q.

Lemma cutTree64_blocked (sawPos : TimberStage64.Tip) (acc : TimberStage.TreeLoop)
    (tree : TimberStage64.Spot) (idx : nat) :
  TimberStage64.cutTree random atan2 sawPos true acc tree idx = acc.
Proof.
  unfold TimberStage64.cutTree. now rewrite andb_false_r.
Qed.

Lemma forEach_cutTree64_blocked (sawPos : TimberStage64.Tip)
    (ts : list TimberStage64.Spot) :
  forall (idx : nat) (acc : TimberStage.TreeLoop),
    forEach (TimberStage64.cutTree random atan2 sawPos true) ts idx acc = acc.
Proof.
  induction ts as [|t ts IH]; intros idx acc; [reflexivity|].
  cbn [forEach]. now rewrite cutTree64_blocked.
Qed.

Lemma handleCut64_over_sapling (sawPos : TimberStage64.Tip)
    (st : TimberStage.State) (rng0 : nat) :
  (exists s, In s TimberStage64.saplings
             /\ TimberStage64.hitsSapling sawPos s = true) ->
  exists s, In s TimberStage64.saplings
    /\ TimberStage64.hitsSapling sawPos s = true
    /\ TimberStage64.handleCut random atan2 sawPos st rng0
       = (TimberStage.mkState (TimberStage.treesCut st) (TimberStage.cutProgress st)
            (TimberStage.fallRotation st)
            (TimberStage.mkWarning true
               (vec3 (F64.toQ (TimberStage64.x s)) 2
                  (F64.toQ (TimberStage64.z s)))),
          [], rng0).
Proof.
  intros (s & Hs & Hh). unfold TimberStage64.handleCut.
  destruct (find (TimberStage64.hitsSapling sawPos) TimberStage64.saplings)
    as [s'|] eqn:Ef.
  - apply find_some in Ef as [Hin Hh']. exists s'.
    split; [exact Hin|]. split; [exact Hh'|].
    now rewrite forEach_cutTree64_blocked.
  - exfalso. pose proof (find_none _ _ Ef s Hs) as Hn. congruence.
Qed.
End TimberFacts64.

(** C9.  When the tip of the chainsaw is lower than 1.5 and closer than 0.8
    to a sapling, as the code measures it ([Math.sqrt (dx*dx + dz*dz)] in
    doubles), [handleCut] adds no progress to any big tree in that call,
    also when the tip is within the cutting radius and height of a big
    tree: the progress, the cut flags and the fall rotations are unchanged,
    no burst, wood count or phase-complete call is made and [Math.random]
    is not drawn; only the warning is shown, at a sapling the tip is that
    close to. *)
Theorem sapling_zone_blocks_progress (random : nat -> Q)
    (atan2 : PrimFloat.float -> PrimFloat.float -> Q)
    (sawPos : TimberStage64.Tip) (st : TimberStage.State) (rng0 : nat) :
  (exists s, In s TimberStage64.saplings
             /\ PrimFloat.ltb (TimberStage64.dist sawPos s) TimberStage64.saplingRadius
                = true
             /\ PrimFloat.ltb (TimberStage64.t_y sawPos) TimberStage64.saplingHeight
                = true) ->
  let r := TimberStage64.handleCut random atan2 sawPos st rng0 in
  TimberStage.cutProgress (fst (fst r)) = TimberStage.cutProgress st
  /\ TimberStage.treesCut (fst (fst r)) = TimberStage.treesCut st
  /\ TimberStage.fallRotation (fst (fst r)) = TimberStage.fallRotation st
  /\ snd (fst r) = []
  /\ snd r = rng0
  /\ (exists s, In s TimberStage64.saplings
        /\ TimberStage64.hitsSapling sawPos s = true
        /\ TimberStage.saplingWarning (fst (fst r))
           = TimberStage.mkWarning true
               (vec3 (F64.toQ (TimberStage64.x s)) 2 (F64.toQ (TimberStage64.z s)))).
Proof.
  intros (s0 & Hs0 & Hd & Hy) r.
  destruct (handleCut64_over_sapling random atan2 sawPos st rng0)
    as (s & Hs & Hh & E).
  { exists s0. split; [exact Hs0|]. unfold TimberStage64.hitsSapling.
    now rewrite Hd, Hy. }
  unfold r. rewrite E. cbn [fst snd TimberStage.cutProgress TimberStage.treesCut
                            TimberStage.fallRotation TimberStage.saplingWarning].
  repeat split. exists s. auto.
Qed.

(** The tip at (-2.1, 1, -1.4) is 0.72 from the sapling at (-1.5, -1) and
    1.08 from the big tree at (-3, -2): nothing is cut.  Raised to y = 2,
    above the saplings, the same tip adds 2 to the progress of that tree. *)
Lemma sapling_zone_blocks_progress_near_tree :
  let sawPos := TimberStage64.tipBetween in
  let r := TimberStage64.handleCut (fun _ => 0) (fun _ _ => 0) sawPos
             TimberStage.initial 0 in
  existsb (TimberStage64.inTree sawPos) TimberStage64.trees = true
  /\ TimberStage.cutProgress (fst (fst r)) = [0; 0]
  /\ snd (fst r) = []
  /\ TimberStage.cutProgress
       (fst (fst (TimberStage64.handleCut (fun _ => 0) (fun _ _ => 0)
                    TimberStage64.tipLifted TimberStage.initial 0)))
     = [Qmin 100 (0 + 2); 0].
Proof.
  cbv zeta. split; [vm_compute; reflexivity|].
  pose proof (sapling_zone_blocks_progress (fun _ => 0) (fun _ _ => 0)
                TimberStage64.tipBetween TimberStage.initial 0) as H.
  cbv zeta in H.
  destruct H as (P & _ & _ & C & _).
  { exists (nth 1 TimberStage64.saplings (TimberStage64.mkSpot PrimFloat.zero PrimFloat.zero)).
    split; [right; left; reflexivity|].
    split; vm_compute; reflexivity. }
  split; [exact P|]. split; [exact C|]. vm_compute. reflexivity.
Defined.

(** At the edge of a sapling's zone the doubles decide.  The tip at
    (2.2981360578208525, 1, 0.5545786882050925) is closer than 0.8 to the
    sapling at (1.5, 0.5) as a real number, but the distance the code
    computes is the double 0.8: the sapling does not protect, and the tree
    at (3, 0) is cut. *)
Example sapling_zone_edge :
  let sawPos := TimberStage64.tipAtEdge in
  let r := TimberStage64.handleCut (fun _ => 0) (fun _ _ => 0) sawPos
             TimberStage.initial 0 in
  existsb (TimberStage64.hitsSapling sawPos) TimberStage64.saplings = false
  /\ (exists s, In s TimberStage64.saplings
        /\ PrimFloat.eqb (TimberStage64.dist sawPos s) TimberStage64.saplingRadius
           = true
        /\ (F64.toQ (TimberStage64.t_x sawPos) - F64.toQ (TimberStage64.x s))
           * (F64.toQ (TimberStage64.t_x sawPos) - F64.toQ (TimberStage64.x s))
           + (F64.toQ (TimberStage64.t_z sawPos) - F64.toQ (TimberStage64.z s))
             * (F64.toQ (TimberStage64.t_z sawPos) - F64.toQ (TimberStage64.z s))
           < 0.8 * 0.8)
  /\ TimberStage.cutProgress (fst (fst r)) = [0; Qmin 100 (0 + 2)].
Proof.
  cbv zeta. split; [vm_compute; reflexivity|]. split.
  - exists (nth 3 TimberStage64.saplings
              (TimberStage64.mkSpot PrimFloat.zero PrimFloat.zero)).
    split; [do 3 right; left; reflexivity|].
    split; vm_compute; reflexivity.
  - vm_compute. reflexivity.
Qed.

(** ** The order of the phases *)

Lemma nextPhase_level1 (p : GamePhase) (pr : Q) (inv : list string) (rw : nat) :
  App.nextPhase (App.mkState p pr 1 inv rw)
  = match p with
    | INTRO => (App.mkState TIMBER pr 1 inv 0, [])
    | TIMBER => (App.mkState CLAMPING pr 1 inv rw, [])
    | CLAMPING => (App.mkState MARKING pr 1 inv rw, [App.mkTimer 2000 CUTTING])
    | CUTTING => (App.mkState ASSEMBLY_PREP pr 1 inv rw, [App.mkTimer 1500 ASSEMBLY])
    | ASSEMBLY => (App.mkState CUTTING_BACK pr 1 inv rw, [])
    | CUTTING_BACK => (App.mkState ASSEMBLY_C pr 1 inv rw, [])
    | ASSEMBLY_C => (App.mkState CUTTING_TOP pr 1 inv rw, [])
    | CUTTING_TOP => (App.mkState ASSEMBLY_D pr 1 inv rw, [])
    | ASSEMBLY_D => (App.mkState SUCCESS pr 1 inv rw, [])
    | SUCCESS => (App.mkState SUCCESS pr 1 inv rw, [])
    | MARKING | ASSEMBLY_PREP => (App.mkState INTRO pr 1 inv rw, [])
    end.
Proof. destruct p; reflexivity. Qed.

Lemma nextPhase_level2 (p : GamePhase) (pr : Q) (inv : list string) (rw : nat) :
  App.nextPhase (App.mkState p pr 2 inv rw)
  = match p with
    | INTRO => (App.mkState CLAMPING pr 2 inv rw, [])
    | CLAMPING => (App.mkState CUTTING pr 2 inv rw, [])
    | CUTTING => (App.mkState ASSEMBLY pr 2 inv rw, [])
    | ASSEMBLY => (App.mkState SUCCESS pr 2 inv rw, [])
    | SUCCESS => (App.mkState SUCCESS pr 2 inv rw, [])
    | _ => (App.mkState INTRO pr 2 inv rw, [])
    end.
Proof. destruct p; reflexivity. Qed.



(** ** Restarting a project *)

Lemma initial_pool_idle :
  SawdustSystem.activeCount (SawdustSystem.particles SawdustSystem.initial) = 0%nat.
Proof. vm_compute. reflexivity. Qed.

Lemma box_effect_intro (b : BoxProject.State) (dust : SawdustSystem.System) :
  allReset (MBox (fst (BoxProject.phaseEffect INTRO b))
                 (toSawdust (snd (BoxProject.phaseEffect INTRO b)) dust)).
Proof.
  cbn. repeat split. apply clear_all_inactive.
Qed.

Lemma box_effect_keeps (phase : GamePhase) (b : BoxProject.State)
    (dust : SawdustSystem.System) :
  allReset (MBox b dust) ->
  allReset (MBox (fst (BoxProject.phaseEffect phase b))
                 (toSawdust (snd (BoxProject.phaseEffect phase b)) dust)).
Proof.
  intros (H1 & H2 & H3 & H4).
  destruct phase; try apply box_effect_intro;
    destruct b; cbn in *; auto.
Qed.

Lemma stool_effect_keeps (phase : GamePhase) (s : StoolProject.State)
    (dust : SawdustSystem.System) :
  allReset (MStool s dust) ->
  allReset (MStool (fst (StoolProject.phaseEffect phase (attachLegs phase s)))
                   (toSawdust (snd (StoolProject.phaseEffect phase (attachLegs phase s)))
                      dust)).
Proof.
  intros [H1 H2]. unfold StoolProject.phaseEffect.
  destruct (decide (phase = ASSEMBLY)); cbn; auto.
Qed.

Lemma mount_component (phase : GamePhase) (level : nat) :
  componentOf (mount phase level) = WoodProject phase level.
Proof.
  unfold mount. destruct (WoodProject phase level); [reflexivity| |].
  - now destruct (StoolProject.phaseEffect _ _).
  - now destruct (BoxProject.phaseEffect _ _).
Qed.

Lemma update_component (prev phase : GamePhase) (m : Mounted) :
  componentOf (update prev phase m) = componentOf m.
Proof.
  destruct m as [t d|s d|b d]; cbn [update]; [reflexivity| |].
  - destruct (decide (prev = phase)); [reflexivity|].
    now destruct (StoolProject.phaseEffect _ _).
  - destruct (decide (prev = phase)); [reflexivity|].
    now destruct (BoxProject.phaseEffect _ _).
Qed.

Lemma commit_component (prev phase : GamePhase) (level : nat) (m : Mounted) :
  componentOf (commit prev phase level m) = WoodProject phase level.
Proof.
  unfold commit. destruct (decide (componentOf m = WoodProject phase level)) as [E|E].
  - now rewrite update_component.
  - apply mount_component.
Qed.

Lemma mount_reset (phase : GamePhase) (level : nat) :
  WoodProject phase level <> TimberStageC ->
  allReset (mount phase level).
Proof.
  intros Hc. unfold mount. destruct (WoodProject phase level); [congruence| |].
  - pose proof (stool_effect_keeps phase StoolProject.initial SawdustSystem.initial)
      as H.
    destruct (StoolProject.phaseEffect _ _). apply H.
    split; [reflexivity|exact initial_pool_idle].
  - pose proof (box_effect_keeps phase BoxProject.initial SawdustSystem.initial)
      as H.
    destruct (BoxProject.phaseEffect _ _). apply H.
    split; [reflexivity|]. split; [reflexivity|]. split; [reflexivity|].
    exact initial_pool_idle.
Qed.

Lemma commit_intro_reset (prev : GamePhase) (level : nat) (m : Mounted) :
  componentOf m <> WoodProject INTRO level
  \/ (prev <> INTRO /\ componentOf m = BoxProjectC) ->
  allReset (commit prev INTRO level m).
Proof.
  intros H. unfold commit.
  destruct (decide (componentOf m = WoodProject INTRO level)) as [E|E].
  - destruct H as [H|[H Hb]]; [contradiction|].
    destruct m as [t d|s d|b d]; try discriminate.
    cbn [update]. rewrite decide_False by exact H.
    pose proof (box_effect_intro b d) as R.
    now destruct (BoxProject.phaseEffect INTRO b).
  - apply mount_reset. unfold WoodProject. cbn.
    destruct (decide (level = 2%nat)); discriminate.
Qed.

Lemma wellFormed_boot : wellFormed boot.
Proof.
  repeat split; cbn; auto.
Qed.

Lemma wellFormed_setApp (st' : App.State) (started : list App.Timer) (w : World) :
  wellFormed w ->
  (App.level st' = 1%nat
   \/ (App.level st' = 2%nat /\ In (App.phase st') App.stoolPhases)) ->
  Forall (fun t => App.target t = CUTTING \/ App.target t = ASSEMBLY) started ->
  wellFormed (setApp st' started w).
Proof.
  intros (_ & _ & Ht) Hl Hs. unfold setApp, wellFormed.
  cbn [app mounted timers]. split; [exact Hl|]. split.
  - apply commit_component.
  - apply Forall_app. auto.
Qed.

Lemma wellFormed_act (w : World) (a : Action) :
  wellFormed w -> wellFormed (act a w).
Proof.
  intros Hw. pose proof Hw as (Hl & Hc & Ht).
  destruct a as [| |k|m]; cbn [act].
  - destruct (app w) as [p pr lv inv rw] eqn:Ea. cbn [App.level App.phase] in Hl.
    destruct Hl as [->|[-> Hin]].
    + rewrite nextPhase_level1.
      destruct p; apply wellFormed_setApp; auto;
        repeat constructor; cbn; auto.
    + rewrite nextPhase_level2.
      destruct p; apply wellFormed_setApp; auto; cbn [App.level App.phase];
        try (right; split; [reflexivity|cbn; auto 10]).
  - apply wellFormed_setApp; auto.
    unfold App.handleCollectAndNext.
    destruct (decide (App.level (app w) = 1%nat)); cbn; auto 10.
  - destruct (timers w !! k) as [t|] eqn:Ek; [|exact Hw].
    assert (Htt : App.target t = CUTTING \/ App.target t = ASSEMBLY).
    { rewrite Forall_forall in Ht. apply Ht.
      apply list_elem_of_lookup. eauto. }
    pose proof (wellFormed_setApp (App.fire t (app w)) [] w Hw) as H.
    destruct H as (Hl' & Hc' & Ht'); [|constructor|].
    { unfold App.fire, App.setPhase. cbn [App.level App.phase].
      destruct Hl as [Hl|[Hl _]]; [now left|right].
      split; [exact Hl|]. destruct Htt as [-> | ->]; cbn; auto 10. }
    unfold wellFormed. cbn [app mounted timers].
    split; [exact Hl'|]. split; [exact Hc'|].
    cbn [setApp timers] in *. rewrite app_nil_r.
    apply Forall_delete. exact Ht.
  - destruct (decide (componentOf m = componentOf (mounted w))) as [E|E];
      [|exact Hw].
    unfold wellFormed. cbn [app mounted timers]. rewrite E. auto.
Qed.

Lemma reentry_resets (w : World) (a : Action) :
  wellFormed w -> setsPhase a ->
  App.phase (app w) <> INTRO \/ a = ActCollect ->
  App.phase (app (act a w)) = INTRO ->
  allReset (mounted (act a w)).
Proof.
  intros (Hl & Hc & Ht) Hs Hre Hintro.
  destruct a as [| |k|m]; cbn [act] in *; [| | |contradiction].
  - destruct Hre as [Hre|Hre]; [|discriminate].
    destruct (app w) as [p pr lv inv rw] eqn:Ea.
    cbn [App.level App.phase] in *.
    destruct Hl as [->|[-> Hin]].
    + rewrite nextPhase_level1 in *.
      destruct p; cbn [setApp app mounted App.phase App.level] in *;
        try discriminate; try contradiction;
        rewrite Ea; cbn [App.phase];
        apply commit_intro_reset; right; (split; [discriminate|]);
        rewrite Hc; reflexivity.
    + rewrite nextPhase_level2 in *.
      destruct p; cbn [setApp app mounted App.phase App.level] in *;
        try discriminate; try contradiction;
        exfalso; cbn in Hin; intuition discriminate.
  - unfold setApp. cbn [mounted]. revert Hintro.
    unfold App.handleCollectAndNext.
    destruct (decide (App.level (app w) = 1%nat)) as [E|E];
      cbn [App.phase App.level]; intros _; apply commit_intro_reset; left;
      rewrite Hc.
    + rewrite E. unfold WoodProject.
      destruct (decide (App.phase (app w) = TIMBER)); cbn; discriminate.
    + destruct Hl as [Hl|[Hl Hin]]; [contradiction|]. rewrite Hl.
      unfold WoodProject. rewrite decide_False; [cbn; discriminate|].
      intros Et. rewrite Et in Hin. cbn in Hin. intuition discriminate.
  - destruct (timers w !! k) as [t|] eqn:Ek.
    + exfalso. cbn [app setApp] in Hintro.
      assert (Htt : App.target t = CUTTING \/ App.target t = ASSEMBLY).
      { rewrite Forall_forall in Ht. apply Ht.
        apply list_elem_of_lookup. eauto. }
      unfold App.fire, App.setPhase in Hintro. cbn [App.phase] in Hintro.
      destruct Htt as [E|E]; rewrite E in Hintro; discriminate.
    + destruct Hre as [Hre|Hre]; [contradiction|discriminate].
Qed.

Lemma first_working_phase_stool (w : World) :
  wellFormed w -> App.phase (app w) = INTRO -> App.level (app w) = 2%nat ->
  allReset (mounted w) ->
  App.phase (app (act ActNextPhase w)) = CLAMPING
  /\ allReset (mounted (act ActNextPhase w)).
Proof.
  intros (_ & Hc & _) Hp Hl Hr. cbn [act].
  destruct (app w) as [p pr lv inv rw] eqn:Ea. cbn [App.phase App.level] in *.
  subst p lv. rewrite nextPhase_level2.
  unfold setApp. cbn [app mounted App.phase App.level]. split; [reflexivity|].
  rewrite Ea. cbn [App.phase]. unfold commit.
  rewrite decide_True by (rewrite Hc; reflexivity).
  destruct (mounted w) as [t d|s d|b d]; try discriminate.
  cbn [update]. rewrite decide_False by discriminate.
  pose proof (stool_effect_keeps CLAMPING s d Hr) as H.
  now destruct (StoolProject.phaseEffect CLAMPING (attachLegs CLAMPING s)).
Qed.

Lemma first_working_phase_box (w : World) (m : Mounted) :
  wellFormed w -> App.phase (app w) = INTRO -> App.level (app w) = 1%nat ->
  let w2 := act ActNextPhase (act (ActHandlers m) (act ActNextPhase w)) in
  App.phase (app w2) = CLAMPING /\ allReset (mounted w2).
Proof.
  intros Hw Hp Hl.
  assert (H1 : wellFormed (act ActNextPhase w)) by now apply wellFormed_act.
  assert (E1 : App.phase (app (act ActNextPhase w)) = TIMBER
               /\ App.level (app (act ActNextPhase w)) = 1%nat).
  { cbn [act]. destruct (app w) as [p pr lv inv rw]. cbn [App.phase App.level] in *.
    subst p lv. rewrite nextPhase_level1. auto. }
  set (w1 := act (ActHandlers m) (act ActNextPhase w)).
  assert (Hw1 : wellFormed w1) by now apply wellFormed_act.
  assert (Ew1 : app w1 = app (act ActNextPhase w)).
  { unfold w1. cbn [act]. now destruct (decide _). }
  destruct E1 as [Ep El]. rewrite <- Ew1 in Ep, El.
  destruct Hw1 as (_ & Hc1 & _). rewrite Ep, El in Hc1.
  cbv zeta. cbn [act].
  destruct (app w1) as [p pr lv inv rw] eqn:Ea. cbn [App.phase App.level] in *.
  subst p lv. rewrite nextPhase_level1.
  unfold setApp. cbn [app mounted App.phase App.level]. split; [reflexivity|].
  unfold commit. rewrite decide_False by (rewrite Hc1; discriminate).
  apply mount_reset. discriminate.
Qed.

(** C7.  In every world the session reaches ([wellFormed]: it holds at the
    start and every action keeps it), whenever [nextPhase], the collect
    action or a timer brings the phase back to INTRO, the project that is
    then mounted has every completion flag unset (the three waste arrays of
    the box, the four hole flags of the stool) and no active particle, and
    this still holds when [nextPhase] has brought the first working phase
    (CLAMPING).  The box does so by its effect on INTRO, which rebuilds the
    three arrays and calls [clear]; the effect of the stool does nothing in
    INTRO, and the stool starts reset because the collect action switches
    the project, so that its cells and its particle pool are built anew. *)
Theorem intro_reentry_resets :
  wellFormed boot
  /\ (forall w a, wellFormed w -> wellFormed (act a w))
  /\ (forall w a,
        wellFormed w -> setsPhase a ->
        App.phase (app w) <> INTRO \/ a = ActCollect ->
        App.phase (app (act a w)) = INTRO ->
        allReset (mounted (act a w)))
  /\ (forall w,
        wellFormed w -> App.phase (app w) = INTRO -> App.level (app w) = 2%nat ->
        allReset (mounted w) ->
        App.phase (app (act ActNextPhase w)) = CLAMPING
        /\ allReset (mounted (act ActNextPhase w)))
  /\ (forall w m,
        wellFormed w -> App.phase (app w) = INTRO -> App.level (app w) = 1%nat ->
        let w2 := act ActNextPhase (act (ActHandlers m) (act ActNextPhase w)) in
        App.phase (app w2) = CLAMPING /\ allReset (mounted w2))
  /\ (forall b dust,
        snd (BoxProject.phaseEffect INTRO b) = [clear]
        /\ allReset (MBox (fst (BoxProject.phaseEffect INTRO b))
                          (toSawdust (snd (BoxProject.phaseEffect INTRO b)) dust)))
  /\ (forall s, StoolProject.phaseEffect INTRO s = (s, [])).
Proof.
  split; [exact wellFormed_boot|].
  split; [intros w a; apply wellFormed_act|].
  split; [exact reentry_resets|].
  split; [exact first_working_phase_stool|].
  split; [exact first_working_phase_box|].
  split; [|reflexivity].
  intros b dust. split; [reflexivity|apply box_effect_intro].
Qed.

(** A finished stool with its four holes drilled and four particles in the
    air: the collect action leaves the box mounted with every flag unset
    and no active particle, in INTRO and still in CLAMPING. *)
Lemma intro_reentry_resets_after_stool :
  let dust :=
    default SawdustSystem.initial
      (SawdustSystem.run (fun _ => 0.5) (fun _ => 0) (fun _ => 1) 3
         [SawdustSystem.EvSpawnBurst (vec3 0.6 0.3 0.6); SawdustSystem.EvTick 0]
         SawdustSystem.initial) in
  let w :=
    mkWorld (App.mkState SUCCESS 1 2 ["Dovetail Box"%string] 2)
      (MStool (StoolProject.mkState [true; true; true; true] StoolProject.done 3
                 (Some (-0.05)))
              dust)
      [] in
  SawdustSystem.activeCount (SawdustSystem.particles dust) = 4%nat
  /\ App.phase (app (act ActCollect w)) = INTRO
  /\ App.level (app (act ActCollect w)) = 1%nat
  /\ allReset (mounted (act ActCollect w))
  /\ allReset (mounted (act ActNextPhase
                          (act (ActHandlers (mounted (act ActNextPhase (act ActCollect w))))
                             (act ActNextPhase (act ActCollect w))))).
Proof.
  cbv zeta.
  destruct intro_reentry_resets as (_ & Hwf & Hre & _ & Hbox & _).
  set (w := mkWorld _ _ _).
  assert (Hw : wellFormed w).
  { unfold w. repeat split; cbn; auto 10. }
  split; [vm_compute; reflexivity|].
  split; [reflexivity|]. split; [reflexivity|].
  split.
  - apply Hre; [exact Hw|exact I|now right|reflexivity].
  - apply (Hbox (act ActCollect w)); [apply Hwf, Hw|reflexivity|reflexivity].
Defined.

(** ** The properties on concrete runs *)

(** The front board dragged down to its stop and tapped three times; the
    legs of the stool locked and tapped three times. *)
Lemma hammer_taps_close_gap_third_tap :
  let st :=
    fst (BoxProject.handleAssemblyDrag (-0.9) tailBoardARef TABLE_OFFSET
           (fst (BoxProject.phaseEffect ASSEMBLY BoxProject.initial))) in
  let ss := StoolProject64.locked in
  (BoxProject.assemblyState st = hammering
   /\ v_y (BoxProject.tailBoardA st) == TABLE_OFFSET + GAP_HEIGHT)
  /\ (v_y (BoxProject.tailBoardA (boxTaps TABLE_OFFSET tailBoardARef 3 st))
      == TABLE_OFFSET
      /\ BoxProject.assemblyState (boxTaps TABLE_OFFSET tailBoardARef 3 st) = done)
  /\ (StoolProject64.legsState (StoolProject64.taps 3 ss) = StoolProject.done
      /\ StoolProject64.legsWorldY (StoolProject64.taps 3 ss)
         = StoolProject64.tapHeights !! 2%nat).
Proof.
  cbv zeta.
  destruct (hammer_taps_close_gap 3 ltac:(lia)) as [Hbox Hstool].
  split; [split; reflexivity|]. split.
  - match goal with
    | |- v_y (BoxProject.tailBoardA (boxTaps _ _ _ ?st)) == _ /\ _ =>
        destruct (Hbox TABLE_OFFSET tailBoardARef st eq_refl eq_refl)
          as (_ & _ & Hd & _ & H3)
    end.
    destruct (H3 eq_refl) as (Hy & _). split; [exact Hy|].
    now apply Hd.
  - destruct (Hstool StoolProject64.locked
                (default PrimFloat.zero
                   (StoolProject64.legsRef StoolProject64.locked))
                eq_refl eq_refl eq_refl)
      as ((y & Hy & Ht & _) & _ & Hd & _).
    split; [now apply Hd|]. rewrite Hy. symmetry. exact Ht.
Defined.

(** The front of the board cut in the order third, first, fourth, second
    tail, and the router swept from -1 to 1 in steps of 0.25. *)
Lemma phase_complete_fires_once_example :
  map count_phaseComplete
    (snd (runHandler (boxCut CUTTING) (centreHits [2; 0; 3; 1]%nat)
            BoxProject.initial))
  = [0; 0; 0; 1]%nat
  /\ firesOnce (boxCut CUTTING) (boxFlags CUTTING)
       [(-1, 0.2); (-0.7, 0.2); (-0.6, 0.2); (0.3, 0.2)] BoxProject.initial
  /\ map count_phaseComplete
       (snd (runHandler stoolDrill (holeHits [3; 2; 1; 0]%nat) StoolProject.initial))
     = [0; 0; 0; 1]%nat.
Proof.
  destruct phase_complete_fires_once as (Hbox & Hboxp & _ & Hstoolp).
  split; [|split].
  - apply Hboxp; [now left|reflexivity|].
    apply permutations_Permutation, list_elem_of_In. vm_compute. auto 30.
  - apply Hbox; [now left|reflexivity].
  - apply Hstoolp; [reflexivity|].
    apply permutations_Permutation, list_elem_of_In. vm_compute. auto 30.
Defined.

Lemma zones_disjoint_sweep_ascending_example :
  let inputs :=
    [(-1, 0.2); (-0.75, 0.2); (-0.5, 0.2); (-0.25, 0.2); (0, 0.2);
     (0.25, 0.2); (0.5, 0.2); (0.75, 0.2); (1, 0.2)] in
  let log := snd (runHandler (boxCut CUTTING) inputs BoxProject.initial) in
  map v_x (bursts (concat log)) = TAIL_CENTERS
  /\ count_phaseComplete (concat log) = 1%nat
  /\ map count_phaseComplete log = [0; 0; 0; 0; 0; 0; 1; 0; 0]%nat.
Proof.
  cbv zeta.
  destruct zones_disjoint_sweep_ascending as (_ & _ & _ & Hsweep).
  match goal with
  | |- map v_x (bursts (concat (snd (runHandler _ ?inputs _)))) = _ /\ _ =>
      destruct (Hsweep CUTTING BoxProject.initial inputs) as (_ & Hall & Hnear)
  end.
  - now left.
  - reflexivity.
  - repeat constructor.
  - destruct Hall as [Hc Hn].
    + apply Hnear.
      intros c Hc. apply list_elem_of_In in Hc. vm_compute in Hc.
      destruct Hc as [<-|[<-|[<-|[<-|[]]]]].
      * exists (-0.75, 0.2). split; [right; left|vm_compute; discriminate].
      * exists (-0.25, 0.2).
        split; [do 3 right; left|vm_compute; discriminate].
      * exists (0.25, 0.2).
        split; [do 5 right; left|vm_compute; discriminate].
      * exists (0.75, 0.2).
        split; [do 7 right; left|vm_compute; discriminate].
    + split; [exact Hc|]. split; [exact Hn|]. vm_compute. reflexivity.
Defined.

(** ** The outlines of the boards *)



Section JointFacts.
Variables (bw ratio H BH : Q) (n : nat).

Let tw := Layout.TAIL_WIDTH_TIP bw n ratio.
Let rw := Layout.TAIL_WIDTH_ROOT bw n ratio.
Let pw := Layout.pinWidth bw n ratio.
Let pt := Layout.pitch bw n ratio.
Let cs := Layout.TAIL_CENTERS bw n ratio.

Hypothesis one_tail : (1 <= n)%nat.

Let pinAt := Joint.pinAt bw n ratio H.

Lemma centre_some (k : nat) : (k < n)%nat -> exists c, cs !! k = Some c.
Proof.
  intros Hk. apply lookup_lt_is_Some. unfold cs. now rewrite tail_centers_length.
Qed.

Lemma innerPin_some (i : nat) :
  (S i < n)%nat -> is_Some (Joint.innerPin bw n ratio H i).
Proof.
  intros Hi. destruct (centre_some i) as [a Ha]; [lia|].
  destruct (centre_some (S i)) as [b Hb]; [lia|].
  unfold Joint.innerPin, Joint.CENTERS. fold cs. rewrite Ha, Hb. simpl. eauto.
Qed.

Lemma shapesF_lookup :
  exists pins,
    Joint.shapesF bw n ratio H = Some pins
    /\ length pins = S n
    /\ forall k, (k <= n)%nat -> pins !! k = pinAt k.
Proof.
  destruct (centre_some 0) as [c0 H0]; [lia|].
  destruct (centre_some (n - 1)) as [cl Hl]; [lia|].
  assert (Hin : is_Some (mapM (Joint.innerPin bw n ratio H) (seq 0 (n - 1)))).
  { apply mapM_is_Some, Forall_forall. intros i Hi.
    apply elem_of_seq in Hi. apply innerPin_some. lia. }
  destruct Hin as [inner Hinner].
  pose proof Hinner as HF. apply mapM_Some in HF.
  assert (Hlen : length inner = (n - 1)%nat).
  { apply Forall2_length in HF. rewrite length_seq in HF. lia. }
  unfold Joint.shapesF, Joint.firstPin, Joint.lastPin, Joint.CENTERS.
  fold cs. rewrite H0, Hl, Hinner. simpl.
  eexists. split; [reflexivity|]. split.
  { simpl. rewrite length_app, Hlen. simpl. lia. }
  intros k Hk. unfold pinAt, Joint.pinAt.
  destruct (decide (k = 0%nat)) as [->|Hk0].
  { simpl. unfold Joint.firstPin, Joint.CENTERS. fold cs. now rewrite H0. }
  destruct k as [|k]; [congruence|]. simpl.
  destruct (decide (S k = n)) as [E|Hkn].
  - rewrite lookup_app_r by lia.
    replace (k - length inner)%nat with 0%nat by lia. simpl.
    unfold Joint.lastPin, Joint.CENTERS. fold cs. now rewrite Hl.
  - rewrite lookup_app_l by lia.
    rewrite Nat.sub_0_r.
    destruct (lookup_lt_is_Some_2 inner k) as [s Hs]; [lia|].
    rewrite Hs. symmetry.
    eapply Forall2_lookup_lr in HF; [exact HF| |exact Hs].
    apply lookup_seq. lia.
Qed.

(** The right side of the pin at place [k] and the left side of the pin
    after it, for the centre at place [k]. *)
Lemma pin_sides (k : nat) (c : Q) :
  cs !! k = Some c ->
  exists l r,
    pinAt k = Some l /\ pinAt (S k) = Some r
    /\ Joint.secondSide l = [(c - tw / 2, H); (c - rw / 2, 0)]
    /\ Joint.firstSide r = [(c + rw / 2, 0); (c + tw / 2, H)].
Proof.
  intros Hc. pose proof Hc as Hlt. apply tail_centers_lookup in Hlt as [Hlt _].
  assert (exists l, pinAt k = Some l
            /\ Joint.secondSide l = [(c - tw / 2, H); (c - rw / 2, 0)]) as (l & El & Sl).
  { unfold pinAt, Joint.pinAt. destruct (decide (k = 0%nat)) as [->|Hk0].
    - unfold Joint.firstPin, Joint.CENTERS. fold cs. rewrite Hc. simpl.
      eexists. split; reflexivity.
    - destruct (decide (k = n)); [lia|].
      destruct (centre_some (k - 1)) as [a Ha]; [lia|].
      unfold Joint.innerPin, Joint.CENTERS. fold cs. rewrite Ha.
      replace (S (k - 1)) with k by lia. rewrite Hc. simpl.
      eexists. split; reflexivity. }
  assert (exists r, pinAt (S k) = Some r
            /\ Joint.firstSide r = [(c + rw / 2, 0); (c + tw / 2, H)]) as (r & Er & Sr).
  { unfold pinAt, Joint.pinAt. destruct (decide (S k = 0%nat)); [lia|].
    destruct (decide (S k = n)) as [E|Hkn].
    - unfold Joint.lastPin, Joint.CENTERS. fold cs.
      replace (n - 1)%nat with k by lia. rewrite Hc. simpl.
      eexists. split; reflexivity.
    - destruct (centre_some (S k)) as [b Hb]; [lia|].
      unfold Joint.innerPin, Joint.CENTERS. fold cs.
      replace (S k - 1)%nat with k by lia. rewrite Hc, Hb. simpl.
      eexists. split; reflexivity. }
  exists l, r. auto.
Qed.

Lemma waste_block_sides (c : Q) :
  Forall2 Joint.samePoint [(c - tw / 2, H); (c - rw / 2, 0)]
    (Joint.firstSide (Joint.WasteBlock bw n ratio H c))
  /\ Forall2 Joint.samePoint [(c + rw / 2, 0); (c + tw / 2, H)]
       (Joint.secondSide (Joint.WasteBlock bw n ratio H c)).
Proof.
  unfold Joint.WasteBlock, Joint.placed, Joint.tailShape, Joint.firstSide,
    Joint.secondSide, Joint.TIP, Joint.ROOT. fold tw rw. simpl.
  split; repeat constructor; unfold Joint.samePoint; simpl; field.
Qed.

Hypothesis tails_fit : ofNat n * tw < bw.

Lemma first_centre (c : Q) : cs !! 0%nat = Some c -> c - tw / 2 - - (bw / 2) == pw.
Proof.
  intros Hc. apply tail_centers_lookup in Hc as [_ Hc]. rewrite Hc.
  unfold Layout.firstX. fold pw tw. unfold ofNat. simpl. field.
Qed.

Lemma last_centre (c : Q) : cs !! (n - 1)%nat = Some c -> bw / 2 - (c + tw / 2) == pw.
Proof.
  intros Hc. destruct (centre_some 0) as [c0 H0]; [lia|].
  pose proof (tail_centers_mirror bw n ratio 0 c0 c) as M.
  rewrite Nat.sub_0_r in M. specialize (M H0 Hc).
  pose proof (first_centre c0 H0) as F.
  assert (E : c == - c0) by lra. rewrite E. lra.
Qed.

Lemma pin_top_width (k : nat) (p : Joint.Shape) :
  (k <= n)%nat -> pinAt k = Some p -> Joint.topWidth p == pw.
Proof.
  intros Hk. unfold pinAt, Joint.pinAt.
  destruct (decide (k = 0%nat)) as [->|Hk0].
  { destruct (centre_some 0) as [c0 H0]; [lia|].
    unfold Joint.firstPin, Joint.CENTERS. fold cs. rewrite H0. simpl.
    intros [= <-]. simpl. unfold Joint.TIP. fold tw. now apply first_centre. }
  destruct (decide (k = n)) as [->|Hkn].
  { destruct (centre_some (n - 1)) as [cl Hl]; [lia|].
    unfold Joint.lastPin, Joint.CENTERS. fold cs. rewrite Hl. simpl.
    intros [= <-]. simpl. unfold Joint.TIP. fold tw. now apply last_centre. }
  destruct (centre_some (k - 1)) as [a Ha]; [lia|].
  destruct (centre_some (S (k - 1))) as [b Hb]; [lia|].
  unfold Joint.innerPin, Joint.CENTERS. fold cs. rewrite Ha, Hb. simpl.
  intros [= <-]. simpl. unfold Joint.TIP. fold tw.
  pose proof (tail_centers_step bw n ratio (k - 1) a b Ha Hb) as Hs.
  change (b - a == tw + pw) in Hs.
  assert (E : tw / 2 == tw * (1 # 2)) by field. rewrite E. lra.
Qed.
End JointFacts.

(** The pins and the waste blocks in exact arithmetic, for tails that fit
    on the board. *)
Lemma pins_tile (bw ratio H : Q) (n : nat) :
  (1 <= n)%nat ->
  ofNat n * Layout.TAIL_WIDTH_TIP bw n ratio < bw ->
  exists pins,
    Joint.shapesF bw n ratio H = Some pins
    /\ length pins = S n
    /\ (forall k c, Layout.TAIL_CENTERS bw n ratio !! k = Some c ->
          exists l r,
            pins !! k = Some l /\ pins !! S k = Some r
            /\ Forall2 Joint.samePoint (Joint.secondSide l)
                 (Joint.firstSide (Joint.WasteBlock bw n ratio H c))
            /\ Forall2 Joint.samePoint (Joint.firstSide r)
                 (Joint.secondSide (Joint.WasteBlock bw n ratio H c)))
    /\ (exists l, pins !! 0%nat = Some l
          /\ Joint.firstSide l = [(- (bw / 2), 0); (- (bw / 2), H)])
    /\ (exists r, pins !! n = Some r
          /\ Joint.secondSide r = [(bw / 2, H); (bw / 2, 0)])
    /\ (forall k p, pins !! k = Some p ->
          Joint.topWidth p == Layout.pinWidth bw n ratio /\ 0 < Joint.topWidth p)
    /\ ofNat (S n) * Layout.pinWidth bw n ratio
       + ofNat n * Layout.TAIL_WIDTH_TIP bw n ratio == bw.
Proof.
  intros Hn Hfit.
  destruct (shapesF_lookup bw ratio H n Hn) as (pins & E & Hlen & Hat).
  exists pins. split; [exact E|]. split; [exact Hlen|].
  split; [|split; [|split; [|split]]].
  - intros k c Hc. pose proof Hc as Hk.
    apply tail_centers_lookup in Hk as [Hk _].
    destruct (pin_sides bw ratio H n Hn k c Hc) as (l & r & El & Er & Sl & Sr).
    exists l, r. rewrite !Hat by lia. split; [exact El|]. split; [exact Er|].
    rewrite Sl, Sr. apply waste_block_sides.
  - rewrite Hat by lia. unfold Joint.pinAt. simpl.
    destruct (centre_some bw ratio n 0) as [c0 H0]; [lia|].
    unfold Joint.firstPin, Joint.CENTERS. rewrite H0. simpl.
    eexists. split; reflexivity.
  - rewrite Hat by lia. unfold Joint.pinAt.
    destruct (decide (n = 0%nat)); [lia|].
    destruct (decide (n = n)); [|congruence].
    destruct (centre_some bw ratio n (n - 1)) as [cl Hl]; [lia|].
    unfold Joint.lastPin, Joint.CENTERS. rewrite Hl. simpl.
    eexists. split; reflexivity.
  - intros k p Hp.
    assert (Hk : (k <= n)%nat).
    { apply lookup_lt_Some in Hp. lia. }
    rewrite Hat in Hp by exact Hk.
    pose proof (pin_top_width bw ratio H n Hn k p Hk Hp) as W.
    split; [exact W|]. rewrite W. now apply pinWidth_pos.
  - pose proof (pinWidth_eq bw n ratio) as P. rewrite ofNat_S.
    cbv zeta in P. lra.
Qed.

(** X1.  The pins of the pin board and the waste blocks between them tile
    the edge of the board.  With 1 to 100 tails, a board width between
    0.001 and 1000 and a total tail ratio between 0 and 0.99, [PinBoardMesh]
    draws one pin more than there are tails; the right side of the pin at
    place [k] is the left side of the waste block at the centre [k] and the
    left side of the next pin is its right side; the first pin starts at
    the left edge of the board and the last one ends at its right edge;
    every pin has a positive width at the height of the joint, the pin
    width to within 10^-9; and the pins and tails together are as wide as
    the board, to within 10^-9. *)
Theorem pins_and_waste_blocks_tile_the_edge (bw ratio H : Q) (n : nat) :
  (1 <= n <= 100)%nat ->
  1 # 1000 <= bw <= 1000 ->
  0 <= ratio <= 99 # 100 ->
  exists pins,
    Joint.shapesF bw n ratio H = Some pins
    /\ length pins = S n
    /\ (forall k c, Layout.TAIL_CENTERS bw n ratio !! k = Some c ->
          exists l r,
            pins !! k = Some l /\ pins !! S k = Some r
            /\ Forall2 Joint.samePoint (Joint.secondSide l)
                 (Joint.firstSide (Joint.WasteBlock bw n ratio H c))
            /\ Forall2 Joint.samePoint (Joint.firstSide r)
                 (Joint.secondSide (Joint.WasteBlock bw n ratio H c)))
    /\ (exists l, pins !! 0%nat = Some l
          /\ Joint.firstSide l = [(- (bw / 2), 0); (- (bw / 2), H)])
    /\ (exists r, pins !! n = Some r
          /\ Joint.secondSide r = [(bw / 2, H); (bw / 2, 0)])
    /\ (forall k p, pins !! k = Some p ->
          within (1 # 1000000000) (Joint.topWidth p) (Layout.pinWidth bw n ratio)
          /\ 0 < Joint.topWidth p)
    /\ within (1 # 1000000000)
         (ofNat (S n) * Layout.pinWidth bw n ratio
          + ofNat n * Layout.TAIL_WIDTH_TIP bw n ratio) bw.
Proof.
  intros Hn Hbw Hr.
  assert (Hn1 : 1 <= ofNat n) by (apply ofNat_pos; lia).
  assert (Htot : ofNat n * Layout.TAIL_WIDTH_TIP bw n ratio == bw * ratio).
  { unfold Layout.TAIL_WIDTH_TIP. field. lra. }
  assert (Hfit : ofNat n * Layout.TAIL_WIDTH_TIP bw n ratio < bw) by nra.
  destruct (pins_tile bw ratio H n ltac:(lia) Hfit)
    as (pins & E & L & S & F & La & W & T).
  exists pins. repeat (split; [assumption|]). split.
  - intros k p Hp. destruct (W k p Hp) as [Wk Wp].
    split; [apply within_refl; [discriminate|exact Wk]|exact Wp].
  - apply within_refl; [discriminate|exact T].
Qed.

(** The shipped box: five pins around the four waste blocks. *)
Lemma pins_and_waste_blocks_tile_the_shipped_edge :
  exists pins,
    Joint.shapesF BOARD_WIDTH NUM_TAILS TOTAL_TAIL_RATIO JOINT_HEIGHT = Some pins
    /\ length pins = 5%nat
    /\ (forall k p, pins !! k = Some p ->
          within (1 # 1000000000) (Joint.topWidth p) 0.14 /\ 0 < Joint.topWidth p).
Proof.
  destruct (pins_and_waste_blocks_tile_the_edge BOARD_WIDTH TOTAL_TAIL_RATIO
              JOINT_HEIGHT NUM_TAILS) as (pins & E & L & _ & _ & _ & W & _).
  - unfold NUM_TAILS. lia.
  - split; vm_compute; discriminate.
  - split; vm_compute; discriminate.
  - exists pins. split; [exact E|]. split; [exact L|].
    intros k p Hp. destruct (W k p Hp) as [Wk Wp]. split; [|exact Wp].
    unfold within in *.
    assert (P : Layout.pinWidth BOARD_WIDTH NUM_TAILS TOTAL_TAIL_RATIO == 0.14)
      by (vm_compute; reflexivity).
    rewrite <- P. exact Wk.
Defined.


(** ** Felling the trees *)

Lemma array_set_0 {A : Type} (hole a v : A) (l : list A) :
  array_set hole (a :: l) 0 v = v :: l.
Proof. unfold array_set. destruct (decide _) as [|N]; [reflexivity|]. simpl in N. lia. Qed.

Lemma array_set_1 {A : Type} (hole a b v : A) (l : list A) :
  array_set hole (a :: b :: l) 1 v = a :: v :: l.
Proof. unfold array_set. destruct (decide _) as [|N]; [reflexivity|]. simpl in N. lia. Qed.

Lemma find_existsb {A : Type} (f : A -> bool) (l : list A) :
  match List.find f l with Some _ => true | None => false end = existsb f l.
Proof. induction l as [|a l IH]; simpl; [reflexivity|]. destruct (f a); auto. Qed.

Lemma count_rawWood_app (l k : list Call) :
  count_rawWood (l ++ k) = (count_rawWood l + count_rawWood k)%nat.
Proof. unfold count_rawWood. now rewrite filter_app, length_app. Qed.

(** Appending to a list given by its elements, and its length. *)
Ltac flatten_in H :=
  cbv zeta in H;
  repeat match type of H with
         | context [ @Datatypes.app ?A [] ?l ] => change (@Datatypes.app A [] l) with l in H
         | context [ @Datatypes.app ?A [?a] ?l ] => change (@Datatypes.app A [a] l) with (a :: l) in H
         | context [ length (@nil ?A) ] => change (length (@nil A)) with 0%nat in H
         | context [ length [?a] ] => change (length [a]) with 1%nat in H
         end.

Section TimberSteps.
Variable random : nat -> Q.
Variable atan2 : Q -> Q -> Q.

(** One pass of the loop over the trees, at the place [length tp]. *)
Lemma cutTree_at (sawPos : Vector3) (hs : bool) (pp ps : list Q) (p : Q)
    (tp ts : list bool) (t : bool) (fp fs : list Q) (f : Q)
    (ch : bool) (em : list Call) (r : nat) (tree : TimberStage.Spot) :
  length pp = length tp -> length fp = length tp ->
  exists (bs : list Call) (r' : nat),
    count_rawWood bs = 0%nat /\ count_phaseComplete bs = 0%nat
    /\ TimberStage.cutTree random atan2 sawPos hs
         (TimberStage.mkTreeLoop (pp ++ p :: ps) (tp ++ t :: ts) (fp ++ f :: fs)
            ch em r) tree (length tp)
       = if negb t && negb hs && TimberStage.inTree sawPos tree then
           let q := Qmin 100 (p + 2) in
           TimberStage.mkTreeLoop (pp ++ q :: ps)
             (tp ++ Qle_bool 100 q :: ts)
             (fp ++ (if Qle_bool 100 q
                     then atan2 (TimberStage.x tree - v_x sawPos)
                                (TimberStage.z tree - v_z sawPos)
                     else f) :: fs)
             true
             (em ++ bs ++ (if Qle_bool 100 q then [setRawWoodCount_increment] else []))
             r'
         else TimberStage.mkTreeLoop (pp ++ p :: ps) (tp ++ t :: ts) (fp ++ f :: fs)
                ch em r.
Proof.
  intros Lp Lf. unfold TimberStage.cutTree.
  cbn [TimberStage.newTreesCut TimberStage.newProgress TimberStage.newFallRotations
       TimberStage.t_emitted TimberStage.rng].
  rewrite array_get_app_r.
  destruct (negb t && negb hs) eqn:Eg; cbn [andb];
    [|exists [], r; repeat split; reflexivity].
  destruct (TimberStage.inTree sawPos tree);
    [|exists [], r; repeat split; reflexivity].
  assert (Et : t = false) by (destruct t; [discriminate|reflexivity]). subst t.
  assert (E1 : (pp ++ p :: ps) !! length tp = Some p).
  { rewrite <- Lp. now apply list_lookup_middle. }
  assert (E2 : forall v, array_set 0 (pp ++ p :: ps) (length tp) v = pp ++ v :: ps).
  { intros v. rewrite <- Lp, array_set_app_r, <- app_assoc. reflexivity. }
  assert (E3 : forall v, array_set 0 (fp ++ f :: fs) (length tp) v = fp ++ v :: fs).
  { intros v. rewrite <- Lf, array_set_app_r, <- app_assoc. reflexivity. }
  assert (E4 : array_set false (tp ++ false :: ts) (length tp) true = tp ++ true :: ts).
  { rewrite array_set_app_r, <- app_assoc. reflexivity. }
  rewrite E1, E2. change (default 0 (Some p)) with p.
  destruct (Qltb 0.8 (random r)).
  - exists [spawnBurst
              (vec3 (TimberStage.x tree + (random (S r) - 0.5) * 0.5) 0.5
                    (TimberStage.z tree + (random (S (S r)) - 0.5) * 0.5))],
           (S (S (S r))).
    split; [reflexivity|]. split; [reflexivity|].
    destruct (Qle_bool 100 (Qmin 100 (p + 2)));
      [rewrite E3, E4|]; reflexivity.
  - exists [], (S r). split; [reflexivity|]. split; [reflexivity|].
    destruct (Qle_bool 100 (Qmin 100 (p + 2)));
      [rewrite E3, E4|]; reflexivity.
Qed.

Let tree0 := TimberStage.mkSpot (-3) (-2).
Let tree1 := TimberStage.mkSpot 3 0.

(** One call of [handleCut] on the two trees. *)
Lemma timber_step (sawPos : Vector3) (t0 t1 : bool) (p0 p1 f0 f1 : Q)
    (w : TimberStage.Warning) (rng : nat) :
  let a0 := negb t0 && negb (overSapling sawPos) && TimberStage.inTree sawPos tree0 in
  let a1 := negb t1 && negb (overSapling sawPos) && TimberStage.inTree sawPos tree1 in
  let q0 := if a0 then Qmin 100 (p0 + 2) else p0 in
  let q1 := if a1 then Qmin 100 (p1 + 2) else p1 in
  let c0 := a0 && Qle_bool 100 q0 in
  let c1 := a1 && Qle_bool 100 q1 in
  exists (w' : TimberStage.Warning) (calls : list Call) (rng' : nat),
    TimberStage.handleCut random atan2 sawPos
      (TimberStage.mkState [t0; t1] [p0; p1] [f0; f1] w) rng
    = (TimberStage.mkState [t0 || c0; t1 || c1] [q0; q1]
         [ if c0 then atan2 (TimberStage.x tree0 - v_x sawPos)
                           (TimberStage.z tree0 - v_z sawPos) else f0;
           if c1 then atan2 (TimberStage.x tree1 - v_x sawPos)
                           (TimberStage.z tree1 - v_z sawPos) else f1 ]
         w',
       calls, rng')
    /\ count_rawWood calls = (Nat.b2n c0 + Nat.b2n c1)%nat
    /\ count_phaseComplete calls
       = (if (a0 || a1) && ((t0 || c0) && (t1 || c1)) then 1%nat else 0%nat)
    /\ (a0 || a1 = false -> calls = [] /\ rng' = rng)
    /\ TimberStage.show w' = overSapling sawPos.
Proof.
  intros a0 a1 q0 q1 c0 c1.
  unfold TimberStage.handleCut.
  cbn [TimberStage.treesCut TimberStage.cutProgress TimberStage.fallRotation
       TimberStage.saplingWarning].
  rewrite !find_existsb. fold (overSapling sawPos).
  set (hs := overSapling sawPos) in *.
  set (w' := match List.find (TimberStage.hitsSapling sawPos) TimberStage.saplings with
             | Some sapling => _
             | None => _
             end).
  assert (Hw : TimberStage.show w' = hs).
  { subst w' hs. unfold overSapling. rewrite <- find_existsb.
    destruct (List.find _ _); [reflexivity|].
    destruct (TimberStage.show w) eqn:Ew; [reflexivity|exact Ew]. }
  clearbody w'.
  unfold TimberStage.trees. cbn [forEach]. fold tree0 tree1.
  destruct (cutTree_at sawPos hs [] [p1] p0 [] [t1] t0 [] [f1] f0 false [] rng
              tree0 eq_refl eq_refl) as (bs0 & r0 & B0 & C0 & E0).
  flatten_in E0. rewrite E0. clear E0. fold a0.
  destruct a0 eqn:A0.
  - cbv zeta.
    destruct (cutTree_at sawPos hs [Qmin 100 (p0 + 2)] [] p1
                [Qle_bool 100 (Qmin 100 (p0 + 2))] [] t1
                [if Qle_bool 100 (Qmin 100 (p0 + 2))
                 then atan2 (TimberStage.x tree0 - v_x sawPos)
                            (TimberStage.z tree0 - v_z sawPos) else f0] [] f1
                true
                ([] ++ bs0 ++ (if Qle_bool 100 (Qmin 100 (p0 + 2))
                               then [setRawWoodCount_increment] else []))
                r0 tree1 eq_refl eq_refl) as (bs1 & r1 & B1 & C1 & E1).
    flatten_in E1. rewrite E1. clear E1. fold a1.
    assert (Ht0 : t0 = false) by (destruct t0; [discriminate|reflexivity]).
    subst q0 c0. cbn [andb orb]. rewrite Ht0. cbn [orb].
    destruct a1 eqn:A1.
    + assert (Ht1 : t1 = false) by (destruct t1; [discriminate|reflexivity]).
      subst q1 c1. cbn [andb orb]. rewrite Ht1. cbn [orb].
      cbn [TimberStage.t_changed TimberStage.newTreesCut TimberStage.newProgress
           TimberStage.newFallRotations TimberStage.t_emitted TimberStage.rng].
      eexists w', _, r1. split; [reflexivity|].
      rewrite !count_rawWood_app, !count_phaseComplete_app, B0, B1, C0, C1.
      destruct (Qle_bool 100 (Qmin 100 (p0 + 2))),
               (Qle_bool 100 (Qmin 100 (p1 + 2)));
        (split; [reflexivity|]; split; [reflexivity|]; split;
         [discriminate|exact Hw]).
    + subst q1 c1. cbn [andb orb]. rewrite orb_false_r.
      cbn [TimberStage.t_changed TimberStage.newTreesCut TimberStage.newProgress
           TimberStage.newFallRotations TimberStage.t_emitted TimberStage.rng].
      eexists w', _, r0. split; [reflexivity|].
      rewrite !count_rawWood_app, !count_phaseComplete_app, B0, C0.
      destruct (Qle_bool 100 (Qmin 100 (p0 + 2))), t1;
        (split; [reflexivity|]; split; [reflexivity|]; split;
         [discriminate|exact Hw]).
  - destruct (cutTree_at sawPos hs [p0] [] p1 [t0] [] t1 [f0] [] f1
                false [] rng tree1 eq_refl eq_refl) as (bs1 & r1 & B1 & C1 & E1).
    flatten_in E1. rewrite E1. clear E1. fold a1.
    subst q0 c0. cbn [andb orb]. rewrite orb_false_r.
    destruct a1 eqn:A1.
    + assert (Ht1 : t1 = false) by (destruct t1; [discriminate|reflexivity]).
      subst q1 c1. cbn [andb orb]. rewrite Ht1. cbn [orb].
      cbn [TimberStage.t_changed TimberStage.newTreesCut TimberStage.newProgress
           TimberStage.newFallRotations TimberStage.t_emitted TimberStage.rng].
      eexists w', _, r1. split; [reflexivity|].
      rewrite !count_rawWood_app, !count_phaseComplete_app, B1, C1.
      destruct (Qle_bool 100 (Qmin 100 (p1 + 2))), t0;
        (split; [reflexivity|]; split; [reflexivity|]; split;
         [discriminate|exact Hw]).
    + subst q1 c1. cbn [andb orb]. rewrite orb_false_r.
      cbn [TimberStage.t_changed].
      exists w', [], rng. repeat split; try reflexivity. exact Hw.
Qed.
End TimberSteps.

Lemma Qmin_100_step (p : Q) :
  0 <= p <= 100 ->
  0 <= Qmin 100 (p + 2) <= 100
  /\ p <= Qmin 100 (p + 2) <= p + 2
  /\ (p + 2 <= 100 -> Qmin 100 (p + 2) == p + 2).
Proof.
  intros [H0 H1].
  destruct (Q.min_spec 100 (p + 2)) as [[L E]|[L E]]; rewrite E; repeat split; lra.
Qed.

Lemma Qle_bool_true_iff (x y : Q) : Qle_bool x y = true <-> x <= y.
Proof. apply Qle_bool_iff. Qed.

Lemma Qle_bool_false_iff (x y : Q) : Qle_bool x y = false <-> y < x.
Proof.
  split; intros H.
  - destruct (Qlt_le_dec y x) as [|L]; [assumption|].
    apply Qle_bool_iff in L. congruence.
  - destruct (Qle_bool x y) eqn:E; [|reflexivity].
    apply Qle_bool_iff in E. lra.
Qed.

(** No tip position is within the radius of both trees. *)
Lemma tree_zones_disjoint (sawPos : Vector3) :
  TimberStage.inTree sawPos (TimberStage.mkSpot (-3) (-2)) = true ->
  TimberStage.inTree sawPos (TimberStage.mkSpot 3 0) = true ->
  False.
Proof.
  unfold TimberStage.inTree, TimberStage.dist2. cbn [TimberStage.x TimberStage.z].
  intros H1 H2.
  apply andb_true_iff in H1 as [H1 _]. apply andb_true_iff in H2 as [H2 _].
  apply Qltb_lt in H1. apply Qltb_lt in H2.
  set (x := v_x sawPos) in *. set (z := v_z sawPos) in *. nra.
Qed.

Section TimberRuns.
Variable random : nat -> Q.
Variable atan2 : Q -> Q -> Q.

Lemma timberSound_initial : timberSound TimberStage.initial.
Proof.
  exists false, false, 0, 0, 0, 0. repeat split; try reflexivity; try lra; try discriminate.
  all: intros H; exfalso; lra.
Qed.

(** What one call does to a sound state. *)
Lemma timber_call (sawPos : Vector3) (st : TimberStage.State) (rng : nat) :
  timberSound st ->
  let r := TimberStage.handleCut random atan2 sawPos st rng in
  let st' := fst (fst r) in
  timberSound st'
  /\ (count_rawWood (snd (fst r)) + countTrue (TimberStage.treesCut st)
      = countTrue (TimberStage.treesCut st'))%nat
  /\ count_phaseComplete (snd (fst r))
     = (if negb (every (TimberStage.treesCut st)) && every (TimberStage.treesCut st')
        then 1%nat else 0%nat)
  /\ (forall i p, TimberStage.cutProgress st !! i = Some p ->
        exists p', TimberStage.cutProgress st' !! i = Some p' /\ p <= p' <= p + 2)
  /\ (forall i, TimberStage.treesCut st !! i = Some true ->
        TimberStage.treesCut st' !! i = Some true
        /\ TimberStage.cutProgress st' !! i = TimberStage.cutProgress st !! i
        /\ TimberStage.fallRotation st' !! i = TimberStage.fallRotation st !! i).
Proof.
  intros (t0 & t1 & p0 & p1 & f0 & f1 & Et & Ep & Ef & B0 & B1 & I0 & I1) r st'.
  destruct st as [tc cp fr w]. simpl in Et, Ep, Ef. subst tc cp fr.
  destruct (timber_step random atan2 sawPos t0 t1 p0 p1 f0 f1 w rng)
    as (w' & calls & rng' & E & Hw & Hs & _ & _).
  subst r st'. rewrite E. clear E.
  cbn [fst snd TimberStage.treesCut TimberStage.cutProgress TimberStage.fallRotation].
  set (a0 := negb t0 && negb (overSapling sawPos)
             && TimberStage.inTree sawPos (TimberStage.mkSpot (-3) (-2))) in *.
  set (a1 := negb t1 && negb (overSapling sawPos)
             && TimberStage.inTree sawPos (TimberStage.mkSpot 3 0)) in *.
  assert (A0 : a0 = true -> t0 = false).
  { subst a0. destruct t0; [discriminate|reflexivity]. }
  assert (A1 : a1 = true -> t1 = false).
  { subst a1. destruct t1; [discriminate|reflexivity]. }
  clearbody a0 a1.
  destruct (Qmin_100_step p0 B0) as (M0 & N0 & _).
  destruct (Qmin_100_step p1 B1) as (M1 & N1 & _).
  pose proof (Qle_bool_true_iff 100 (Qmin 100 (p0 + 2))) as L0.
  pose proof (Qle_bool_true_iff 100 (Qmin 100 (p1 + 2))) as L1.
  rewrite Hw, Hs. clear Hw Hs.
  split; [|split; [|split; [|split]]].
  - eexists _, _, _, _, _, _. split; [reflexivity|]. split; [reflexivity|].
    split; [reflexivity|].
    destruct a0, a1; cbn [andb orb];
      try rewrite (A0 eq_refl); try rewrite (A1 eq_refl);
      rewrite ?orb_false_r; cbn [orb];
      repeat split; try tauto; try lra;
      try (intros H; apply L0; exact H); try (intros H; apply L0; exact H);
      try (intros H; apply L1; exact H); try (intros H; apply L1; exact H).
  - destruct a0, a1; cbn [andb orb];
      try rewrite (A0 eq_refl); try rewrite (A1 eq_refl);
      rewrite ?orb_false_r; cbn [orb];
      repeat match goal with
             | |- context [Qle_bool ?x ?y] => destruct (Qle_bool x y)
             end;
      try reflexivity; destruct t0, t1; reflexivity.
  - destruct a0, a1; cbn [andb orb];
      try rewrite (A0 eq_refl); try rewrite (A1 eq_refl);
      rewrite ?orb_false_r; cbn [orb];
      repeat match goal with
             | |- context [Qle_bool ?x ?y] => destruct (Qle_bool x y)
             end;
      try reflexivity; destruct t0, t1; reflexivity.
  - intros i p Hp.
    destruct i as [|[|i]]; simpl in Hp; [| |discriminate];
      injection Hp as <-; simpl;
      eexists; (split; [reflexivity|]);
      [destruct a0|destruct a1]; lra.
  - intros i Hi.
    destruct i as [|[|i]]; simpl in Hi; [| |discriminate];
      injection Hi as ->;
      [assert (a0 = false) as -> by (destruct a0; [now specialize (A0 eq_refl)|reflexivity])
      |assert (a1 = false) as -> by (destruct a1; [now specialize (A1 eq_refl)|reflexivity])];
      cbn [andb orb]; repeat split; reflexivity.
Qed.

Lemma timberRun_cons (sawPos : Vector3) (rest : list Vector3)
    (st : TimberStage.State) (rng : nat) :
  let r := TimberStage.handleCut random atan2 sawPos st rng in
  let r' := timberRun random atan2 rest (fst (fst r)) (snd r) in
  timberRun random atan2 (sawPos :: rest) st rng
  = (fst (fst r'), snd (fst r) :: snd (fst r'), snd r').
Proof.
  simpl. destruct (TimberStage.handleCut random atan2 sawPos st rng) as [[st1 calls] r1].
  simpl. destruct (timberRun random atan2 rest st1 r1) as [[st2 log] r2]. reflexivity.
Qed.

Lemma timber_call_complete (sawPos : Vector3) (st : TimberStage.State) (rng : nat) :
  timberSound st ->
  every (TimberStage.treesCut st) = true ->
  every (TimberStage.treesCut
           (fst (fst (TimberStage.handleCut random atan2 sawPos st rng)))) = true.
Proof.
  intros Hs E0.
  destruct (timber_call sawPos st rng Hs) as (Hs1 & _ & _ & _ & K1).
  destruct Hs as (t0 & t1 & ? & ? & ? & ? & Et & _).
  rewrite Et in E0. simpl in E0.
  apply andb_true_iff in E0 as [-> E0]. apply andb_true_iff in E0 as [-> _].
  destruct (K1 0%nat) as [T0 _]; [rewrite Et; reflexivity|].
  destruct (K1 1%nat) as [T1 _]; [rewrite Et; reflexivity|].
  destruct Hs1 as (u0 & u1 & ? & ? & ? & ? & Eu & _).
  rewrite Eu in T0, T1 |- *. simpl in T0, T1.
  injection T0 as ->. injection T1 as ->. reflexivity.
Qed.

Lemma timber_run_sound (inputs : list Vector3) :
  forall (st : TimberStage.State) (rng : nat),
    timberSound st ->
    let r := timberRun random atan2 inputs st rng in
    timberSound (fst (fst r))
    /\ (count_rawWood (concat (snd (fst r))) + countTrue (TimberStage.treesCut st)
        = countTrue (TimberStage.treesCut (fst (fst r))))%nat
    /\ count_phaseComplete (concat (snd (fst r)))
       = (if negb (every (TimberStage.treesCut st))
             && every (TimberStage.treesCut (fst (fst r)))
          then 1%nat else 0%nat)
    /\ (every (TimberStage.treesCut st) = true ->
        every (TimberStage.treesCut (fst (fst r))) = true).
Proof.
  induction inputs as [|sawPos rest IH]; intros st rng Hs.
  - simpl. split; [exact Hs|]. split; [reflexivity|]. split; [|tauto].
    destruct (every (TimberStage.treesCut st)); reflexivity.
  - cbv zeta. rewrite timberRun_cons. cbn [fst snd].
    destruct (timber_call sawPos st rng Hs) as (Hs1 & W1 & P1 & _ & _).
    pose proof (timber_call_complete sawPos st rng Hs) as K1.
    set (r1 := TimberStage.handleCut random atan2 sawPos st rng) in *.
    destruct (IH (fst (fst r1)) (snd r1) Hs1) as (Hs2 & W2 & P2 & K2).
    split; [exact Hs2|]. split; [|split].
    + simpl concat. rewrite count_rawWood_app. lia.
    + simpl concat. rewrite count_phaseComplete_app, P1, P2.
      destruct (every (TimberStage.treesCut st)) eqn:E0.
      * rewrite (K1 eq_refl). reflexivity.
      * destruct (every (TimberStage.treesCut (fst (fst r1)))) eqn:E1.
        -- rewrite (K2 eq_refl). reflexivity.
        -- cbn [negb andb].
           destruct (every (TimberStage.treesCut
                       (fst (fst (timberRun random atan2 rest (fst (fst r1))
                                    (snd r1)))))); reflexivity.
    + intros E0. apply K2, K1, E0.
Qed.
End TimberRuns.

(** X3.  Cutting never overshoots and never undoes.  After any sequence of
    chainsaw positions from the start of the timber stage there is one
    entry per tree, every progress lies between 0 and 100, and a tree is
    marked as cut exactly when its progress has reached 100.  One more call
    of [handleCut], at any position, raises each progress by at most 2 and
    lowers none, and it leaves the flag, the progress and the fall rotation
    of a tree that is cut as they are. *)
Theorem timber_progress_bounded_monotone (random : nat -> Q) (atan2 : Q -> Q -> Q)
    (inputs : list Vector3) (rng : nat) (sawPos : Vector3) (rng' : nat) :
  let st := fst (fst (timberRun random atan2 inputs TimberStage.initial rng)) in
  let st' := fst (fst (TimberStage.handleCut random atan2 sawPos st rng')) in
  length (TimberStage.treesCut st) = 2%nat
  /\ length (TimberStage.cutProgress st) = 2%nat
  /\ length (TimberStage.fallRotation st) = 2%nat
  /\ (forall i p, TimberStage.cutProgress st !! i = Some p ->
        0 <= p <= 100
        /\ (TimberStage.treesCut st !! i = Some true <-> 100 <= p))
  /\ (forall i p, TimberStage.cutProgress st !! i = Some p ->
        exists p', TimberStage.cutProgress st' !! i = Some p' /\ p <= p' <= p + 2)
  /\ (forall i, TimberStage.treesCut st !! i = Some true ->
        TimberStage.treesCut st' !! i = Some true
        /\ TimberStage.cutProgress st' !! i = TimberStage.cutProgress st !! i
        /\ TimberStage.fallRotation st' !! i = TimberStage.fallRotation st !! i).
Proof.
  intros st st'.
  destruct (timber_run_sound random atan2 inputs TimberStage.initial rng
              timberSound_initial) as (Hs & _).
  fold st in Hs.
  destruct (timber_call random atan2 sawPos st rng' Hs) as (_ & _ & _ & M & K).
  fold st' in M, K.
  destruct Hs as (t0 & t1 & p0 & p1 & f0 & f1 & Et & Ep & Ef & B0 & B1 & I0 & I1).
  rewrite Et, Ep, Ef.
  split; [reflexivity|]. split; [reflexivity|]. split; [reflexivity|].
  split; [|split].
  - intros i p Hp.
    destruct i as [|[|i]]; simpl in Hp; [| |discriminate];
      injection Hp as <-; simpl; (split; [assumption|]).
    + rewrite <- I0. split; [now intros [= ->]|now intros ->].
    + rewrite <- I1. split; [now intros [= ->]|now intros ->].
  - rewrite Ep in M. exact M.
  - rewrite Et, Ep, Ef in K. exact K.
Qed.

(** X4.  The wood counter and the end of the stage.  Over any sequence of
    chainsaw positions from the start of the timber stage the raw wood
    counter is raised once per tree that is cut, so at most twice, and the
    phase-complete timer is started once if both trees end up cut and never
    otherwise. *)
Theorem timber_completion_signalled_once (random : nat -> Q) (atan2 : Q -> Q -> Q)
    (inputs : list Vector3) (rng : nat) :
  let r := timberRun random atan2 inputs TimberStage.initial rng in
  let st := fst (fst r) in
  let log := snd (fst r) in
  count_rawWood (concat log) = countTrue (TimberStage.treesCut st)
  /\ (count_rawWood (concat log) <= 2)%nat
  /\ count_phaseComplete (concat log)
     = (if every (TimberStage.treesCut st) then 1%nat else 0%nat)
  /\ (count_phaseComplete (concat log) <= 1)%nat.
Proof.
  intros r st log.
  destruct (timber_run_sound random atan2 inputs TimberStage.initial rng
              timberSound_initial) as (Hs & W & P & _).
  fold r in Hs, W, P. fold st in Hs, W, P. fold log in W, P.
  change (countTrue (TimberStage.treesCut TimberStage.initial)) with 0%nat in W.
  change (every (TimberStage.treesCut TimberStage.initial)) with false in P.
  cbn [negb andb] in P.
  destruct Hs as (t0 & t1 & ? & ? & ? & ? & Et & _).
  split; [lia|]. split; [|split; [exact P|]].
  - rewrite Nat.add_0_r in W. rewrite W, Et. destruct t0, t1; vm_compute; lia.
  - rewrite P. destruct (every _); lia.
Qed.

Lemma ofNat_le (a b : nat) : (a <= b)%nat -> ofNat a <= ofNat b.
Proof. intros H. unfold ofNat. rewrite <- Zle_Qle. lia. Qed.

Lemma ofNat_lt (a b : nat) : (a < b)%nat -> ofNat a < ofNat b.
Proof. intros H. unfold ofNat. rewrite <- Zlt_Qlt. lia. Qed.

Lemma ofNat_double (m : nat) : ofNat (2 * m) == 2 * ofNat m.
Proof.
  replace (2 * m)%nat with (m + m)%nat by lia. rewrite ofNat_add. ring.
Qed.

(** The progress after one more valid cut of a tree that has taken [m]. *)
Lemma progress_after_cut (m : nat) (p : Q) :
  (m < 50)%nat -> p == ofNat (2 * m) ->
  Qmin 100 (p + 2) == ofNat (2 * S m)
  /\ Qle_bool 100 (Qmin 100 (p + 2)) = (50 <=? S m)%nat.
Proof.
  intros Hm Hp.
  assert (B : 0 <= p <= 98).
  { rewrite Hp, ofNat_double. pose proof (ofNat_nonneg m).
    pose proof (ofNat_le m 49 ltac:(lia)) as L.
    change (ofNat 49) with 49 in L. lra. }
  destruct (Qmin_100_step p ltac:(lra)) as (_ & _ & E).
  specialize (E ltac:(lra)).
  assert (E' : Qmin 100 (p + 2) == ofNat (2 * S m)).
  { rewrite E, Hp, !ofNat_double, ofNat_S. ring. }
  split; [exact E'|].
  destruct (50 <=? S m)%nat eqn:C.
  - apply Nat.leb_le in C. apply Qle_bool_true_iff. rewrite E', ofNat_double.
    pose proof (ofNat_le 50 (S m) C) as L. change (ofNat 50) with 50 in L. lra.
  - apply Nat.leb_gt in C. apply Qle_bool_false_iff. rewrite E', ofNat_double.
    pose proof (ofNat_lt (S m) 50 C) as L. change (ofNat 50) with 50 in L. lra.
Qed.

Section Felling.
Variable random : nat -> Q.
Variable atan2 : Q -> Q -> Q.
Variable sawPos : Vector3.
Hypothesis clear_of_saplings : overSapling sawPos = false.

Let tree0 := TimberStage.mkSpot (-3) (-2).
Let tree1 := TimberStage.mkSpot 3 0.

Lemma fell_tree0 :
  TimberStage.inTree sawPos tree0 = true ->
  forall (k m : nat) (t1 : bool) (p0 p1 f0 f1 : Q) (w : TimberStage.Warning)
         (rng : nat),
    (m <= 50)%nat -> p0 == ofNat (2 * m) ->
    let r := timberRun random atan2 (replicate k sawPos)
               (TimberStage.mkState [(50 <=? m)%nat; t1] [p0; p1] [f0; f1] w) rng in
    let fallen := ((m <? 50)%nat && (50 <=? m + k)%nat)%bool in
    exists (p0' : Q) (w' : TimberStage.Warning),
      fst (fst r)
      = TimberStage.mkState [(50 <=? m + k)%nat; t1] [p0'; p1]
          [ if fallen
            then atan2 (TimberStage.x tree0 - v_x sawPos)
                       (TimberStage.z tree0 - v_z sawPos)
            else f0; f1 ] w'
      /\ p0' == ofNat (2 * Nat.min (m + k) 50)
      /\ count_rawWood (concat (snd (fst r))) = Nat.b2n fallen.
Proof.
  intros Hin. induction k as [|k IH]; intros m t1 p0 p1 f0 f1 w rng Hm Hp r fallen.
  - subst r fallen. cbn [replicate timberRun fst snd]. rewrite Nat.add_0_r.
    assert (F : ((m <? 50)%nat && (50 <=? m)%nat)%bool = false).
    { destruct (m <? 50)%nat eqn:E1, (50 <=? m)%nat eqn:E2; try reflexivity.
      apply Nat.ltb_lt in E1. apply Nat.leb_le in E2. lia. }
    rewrite F. exists p0, w. split; [reflexivity|]. split; [|reflexivity].
    rewrite Hp. replace (Nat.min m 50) with m by lia. reflexivity.
  - subst r. cbn [replicate]. rewrite timberRun_cons. cbn [fst snd].
    destruct (timber_step random atan2 sawPos (50 <=? m)%nat t1 p0 p1 f0 f1 w rng)
      as (w1 & calls & rng1 & E & Hw & _).
    fold tree0 tree1 in E, Hw.
    assert (A1 : TimberStage.inTree sawPos tree1 = false).
    { destruct (TimberStage.inTree sawPos tree1) eqn:X; [|reflexivity].
      exfalso. exact (tree_zones_disjoint sawPos Hin X). }
    rewrite clear_of_saplings, Hin, A1 in E, Hw.
    replace (negb t1 && negb false && false) with false in E, Hw
      by (destruct t1; reflexivity).
    replace (negb (50 <=? m)%nat && negb false && true) with (negb (50 <=? m)%nat)
      in E, Hw by (destruct (50 <=? m)%nat; reflexivity).
    cbn [andb Nat.b2n] in E, Hw. rewrite orb_false_r in E. rewrite Nat.add_0_r in Hw.
    rewrite E. cbn [fst snd]. clear E.
    destruct (Nat.lt_ge_cases m 50) as [Hlt|Hge].
    + assert (C : (50 <=? m)%nat = false) by (apply Nat.leb_gt; lia).
      rewrite C in Hw |- *. cbn [negb orb andb] in Hw |- *.
      destruct (progress_after_cut m p0 Hlt Hp) as [Eq Eb].
      rewrite Eb in Hw |- *.
      destruct (IH (S m) t1 (Qmin 100 (p0 + 2)) p1
                  (if (50 <=? S m)%nat
                   then atan2 (TimberStage.x tree0 - v_x sawPos)
                              (TimberStage.z tree0 - v_z sawPos) else f0)
                  f1 w1 rng1 ltac:(lia) Eq) as (p0' & w' & Es & Ep & Ec).
      exists p0', w'. rewrite Es.
      replace (S m + k)%nat with (m + S k)%nat in * by lia.
      split; [|split; [exact Ep|]].
      * subst fallen. f_equal. f_equal.
        assert (L : (m <? 50)%nat = true) by (apply Nat.ltb_lt; lia). rewrite L.
        destruct (50 <=? S m)%nat eqn:C1.
        -- apply Nat.leb_le in C1.
           assert (L2 : (50 <=? m + S k)%nat = true) by (apply Nat.leb_le; lia).
           rewrite L2. destruct (S m <? 50)%nat; reflexivity.
        -- apply Nat.leb_gt in C1.
           assert (L2 : (S m <? 50)%nat = true) by (apply Nat.ltb_lt; lia).
           rewrite L2. reflexivity.
      * rewrite concat_cons, count_rawWood_app, Hw, Ec. subst fallen.
        assert (L : (m <? 50)%nat = true) by (apply Nat.ltb_lt; lia). rewrite L.
        destruct (50 <=? S m)%nat eqn:C1.
        -- apply Nat.leb_le in C1.
           assert (L2 : (50 <=? m + S k)%nat = true) by (apply Nat.leb_le; lia).
           assert (L3 : (S m <? 50)%nat = false) by (apply Nat.ltb_ge; lia).
           rewrite L2, L3. reflexivity.
        -- apply Nat.leb_gt in C1.
           assert (L2 : (S m <? 50)%nat = true) by (apply Nat.ltb_lt; lia).
           rewrite L2. reflexivity.
    + assert (m = 50%nat) as -> by lia.
      change (50 <=? 50)%nat with true in Hw |- *.
      cbn [negb orb andb] in Hw |- *.
      destruct (IH 50%nat t1 p0 p1 f0 f1 w1 rng1 ltac:(lia) Hp)
        as (p0' & w' & Es & Ep & Ec).
      change (50 <=? 50)%nat with true in Es, Ec.
      exists p0', w'. rewrite Es.
      assert (L1 : (50 <=? 50 + k)%nat = true) by (apply Nat.leb_le; lia).
      assert (L2 : (50 <=? 50 + S k)%nat = true) by (apply Nat.leb_le; lia).
      subst fallen. rewrite L1, L2 in *.
      change (50 <? 50)%nat with false in *. cbn [andb] in *.
      split; [reflexivity|]. split.
      * rewrite Ep. replace (Nat.min (50 + k) 50) with 50%nat by lia.
        replace (Nat.min (50 + S k) 50) with 50%nat by lia. reflexivity.
      * rewrite concat_cons, count_rawWood_app, Hw, Ec. reflexivity.
Qed.
Lemma fell_tree1 :
  TimberStage.inTree sawPos tree1 = true ->
  forall (k m : nat) (t0 : bool) (p0 p1 f0 f1 : Q) (w : TimberStage.Warning)
         (rng : nat),
    (m <= 50)%nat -> p1 == ofNat (2 * m) ->
    let r := timberRun random atan2 (replicate k sawPos)
               (TimberStage.mkState [t0; (50 <=? m)%nat] [p0; p1] [f0; f1] w) rng in
    let fallen := ((m <? 50)%nat && (50 <=? m + k)%nat)%bool in
    exists (p1' : Q) (w' : TimberStage.Warning),
      fst (fst r)
      = TimberStage.mkState [t0; (50 <=? m + k)%nat] [p0; p1']
          [ f0;
            if fallen
            then atan2 (TimberStage.x tree1 - v_x sawPos)
                       (TimberStage.z tree1 - v_z sawPos)
            else f1 ] w'
      /\ p1' == ofNat (2 * Nat.min (m + k) 50)
      /\ count_rawWood (concat (snd (fst r))) = Nat.b2n fallen.
Proof.
  intros Hin. induction k as [|k IH]; intros m t0 p0 p1 f0 f1 w rng Hm Hp r fallen.
  - subst r fallen. cbn [replicate timberRun fst snd]. rewrite Nat.add_0_r.
    assert (F : ((m <? 50)%nat && (50 <=? m)%nat)%bool = false).
    { destruct (m <? 50)%nat eqn:E1, (50 <=? m)%nat eqn:E2; try reflexivity.
      apply Nat.ltb_lt in E1. apply Nat.leb_le in E2. lia. }
    rewrite F. exists p1, w. split; [reflexivity|]. split; [|reflexivity].
    rewrite Hp. replace (Nat.min m 50) with m by lia. reflexivity.
  - subst r. cbn [replicate]. rewrite timberRun_cons. cbn [fst snd].
    destruct (timber_step random atan2 sawPos t0 (50 <=? m)%nat p0 p1 f0 f1 w rng)
      as (w1 & calls & rng1 & E & Hw & _).
    fold tree0 tree1 in E, Hw.
    assert (A1 : TimberStage.inTree sawPos tree0 = false).
    { destruct (TimberStage.inTree sawPos tree0) eqn:X; [|reflexivity].
      exfalso. exact (tree_zones_disjoint sawPos X Hin). }
    rewrite clear_of_saplings, Hin, A1 in E, Hw.
    replace (negb t0 && negb false && false) with false in E, Hw
      by (destruct t0; reflexivity).
    replace (negb (50 <=? m)%nat && negb false && true) with (negb (50 <=? m)%nat)
      in E, Hw by (destruct (50 <=? m)%nat; reflexivity).
    cbn [andb Nat.b2n] in E, Hw. rewrite orb_false_r in E. rewrite Nat.add_0_l in Hw.
    rewrite E. cbn [fst snd]. clear E.
    destruct (Nat.lt_ge_cases m 50) as [Hlt|Hge].
    + assert (C : (50 <=? m)%nat = false) by (apply Nat.leb_gt; lia).
      rewrite C in Hw |- *. cbn [negb orb andb] in Hw |- *.
      destruct (progress_after_cut m p1 Hlt Hp) as [Eq Eb].
      rewrite Eb in Hw |- *.
      destruct (IH (S m) t0 p0 (Qmin 100 (p1 + 2)) f0
                  (if (50 <=? S m)%nat
                   then atan2 (TimberStage.x tree1 - v_x sawPos)
                              (TimberStage.z tree1 - v_z sawPos) else f1)
                  w1 rng1 ltac:(lia) Eq) as (p1' & w' & Es & Ep & Ec).
      exists p1', w'. rewrite Es.
      replace (S m + k)%nat with (m + S k)%nat in * by lia.
      split; [|split; [exact Ep|]].
      * subst fallen. f_equal. f_equal. f_equal.
        assert (L : (m <? 50)%nat = true) by (apply Nat.ltb_lt; lia). rewrite L.
        destruct (50 <=? S m)%nat eqn:C1.
        -- apply Nat.leb_le in C1.
           assert (L2 : (50 <=? m + S k)%nat = true) by (apply Nat.leb_le; lia).
           rewrite L2. destruct (S m <? 50)%nat; reflexivity.
        -- apply Nat.leb_gt in C1.
           assert (L2 : (S m <? 50)%nat = true) by (apply Nat.ltb_lt; lia).
           rewrite L2. reflexivity.
      * rewrite concat_cons, count_rawWood_app, Hw, Ec. subst fallen.
        assert (L : (m <? 50)%nat = true) by (apply Nat.ltb_lt; lia). rewrite L.
        destruct (50 <=? S m)%nat eqn:C1.
        -- apply Nat.leb_le in C1.
           assert (L2 : (50 <=? m + S k)%nat = true) by (apply Nat.leb_le; lia).
           assert (L3 : (S m <? 50)%nat = false) by (apply Nat.ltb_ge; lia).
           rewrite L2, L3. reflexivity.
        -- apply Nat.leb_gt in C1.
           assert (L2 : (S m <? 50)%nat = true) by (apply Nat.ltb_lt; lia).
           rewrite L2. reflexivity.
    + assert (m = 50%nat) as -> by lia.
      change (50 <=? 50)%nat with true in Hw |- *.
      cbn [negb orb andb] in Hw |- *.
      destruct (IH 50%nat t0 p0 p1 f0 f1 w1 rng1 ltac:(lia) Hp)
        as (p1' & w' & Es & Ep & Ec).
      change (50 <=? 50)%nat with true in Es, Ec.
      exists p1', w'. rewrite Es.
      assert (L1 : (50 <=? 50 + k)%nat = true) by (apply Nat.leb_le; lia).
      assert (L2 : (50 <=? 50 + S k)%nat = true) by (apply Nat.leb_le; lia).
      subst fallen. rewrite L1, L2 in *.
      change (50 <? 50)%nat with false in *. cbn [andb] in *.
      split; [reflexivity|]. split.
      * rewrite Ep. replace (Nat.min (50 + k) 50) with 50%nat by lia.
        replace (Nat.min (50 + S k) 50) with 50%nat by lia. reflexivity.
      * rewrite concat_cons, count_rawWood_app, Hw, Ec. reflexivity.
Qed.
End Felling.

(** With the tip in the zone of a tree and in no sapling's zone, fifty
    calls fell the tree. *)
Lemma fifty_cuts_fell (random : nat -> Q) (atan2 : Q -> Q -> Q)
    (sawPos : Vector3) (i : nat) (tree : TimberStage.Spot) (rng k : nat) :
  TimberStage.trees !! i = Some tree ->
  TimberStage.inTree sawPos tree = true ->
  overSapling sawPos = false ->
  let r := timberRun random atan2 (replicate k sawPos) TimberStage.initial rng in
  let st := fst (fst r) in
  (exists p, TimberStage.cutProgress st !! i = Some p
             /\ p == ofNat (2 * Nat.min k 50))
  /\ TimberStage.treesCut st !! i = Some (50 <=? k)%nat
  /\ TimberStage.fallRotation st !! i
     = Some (if (50 <=? k)%nat
             then atan2 (TimberStage.x tree - v_x sawPos)
                        (TimberStage.z tree - v_z sawPos)
             else 0)
  /\ count_rawWood (concat (snd (fst r))) = (if (50 <=? k)%nat then 1%nat else 0%nat)
  /\ (forall j, j <> i ->
        TimberStage.cutProgress st !! j = TimberStage.cutProgress TimberStage.initial !! j
        /\ TimberStage.treesCut st !! j = TimberStage.treesCut TimberStage.initial !! j).
Proof.
  intros Hi Hin Hs r st.
  destruct i as [|[|i]]; simpl in Hi; [| |discriminate]; injection Hi as <-.
  - destruct (fell_tree0 random atan2 sawPos Hs Hin k 0 false 0 0 0 0
                (TimberStage.mkWarning false (vec3 0 0 0)) rng ltac:(lia)
                ltac:(reflexivity)) as (p & w & Es & Ep & Ec).
    change (timberRun random atan2 (replicate k sawPos) _ rng) with r in Es, Ec.
    fold st in Es. rewrite Es, Ec.
    cbn [TimberStage.cutProgress TimberStage.treesCut TimberStage.fallRotation].
    change (0 + k)%nat with k in *. change (0 <? 50)%nat with true. cbn [andb].
    split; [exists p; split; [reflexivity|exact Ep]|].
    split; [reflexivity|]. split; [reflexivity|].
    split; [destruct (50 <=? k)%nat; reflexivity|].
    intros j Hj. destruct j as [|[|j]]; [congruence| |]; split; reflexivity.
  - destruct (fell_tree1 random atan2 sawPos Hs Hin k 0 false 0 0 0 0
                (TimberStage.mkWarning false (vec3 0 0 0)) rng ltac:(lia)
                ltac:(reflexivity)) as (p & w & Es & Ep & Ec).
    change (timberRun random atan2 (replicate k sawPos) _ rng) with r in Es, Ec.
    fold st in Es. rewrite Es, Ec.
    cbn [TimberStage.cutProgress TimberStage.treesCut TimberStage.fallRotation].
    change (0 + k)%nat with k in *. change (0 <? 50)%nat with true. cbn [andb].
    split; [exists p; split; [reflexivity|exact Ep]|].
    split; [reflexivity|]. split; [reflexivity|].
    split; [destruct (50 <=? k)%nat; reflexivity|].
    intros j Hj. destruct j as [|[|j]]; [|congruence|]; split; reflexivity.
Qed.

Lemma wellInTree_inTree (sawPos : Vector3) (tree : TimberStage.Spot) :
  wellInTree sawPos tree -> TimberStage.inTree sawPos tree = true.
Proof.
  intros [Hd [Hy0 Hy3]]. unfold TimberStage.inTree.
  apply andb_true_iff. split; [|apply andb_true_iff; split]; apply Qltb_lt; lra.
Qed.

Lemma clearOfSaplings_overSapling (sawPos : Vector3) :
  clearOfSaplings sawPos -> overSapling sawPos = false.
Proof.
  intros H. unfold overSapling.
  apply not_true_is_false. intros E.
  apply existsb_exists in E as (s & Hs & Hh).
  unfold TimberStage.hitsSapling in Hh.
  apply andb_true_iff in Hh as [Hd Hy]. apply Qltb_lt in Hd, Hy.
  destruct H as [Hhigh|Hfar]; [lra|].
  rewrite Forall_forall in Hfar.
  specialize (Hfar s (proj2 (list_elem_of_In _ _) Hs)). lra.
Qed.

(** X5.  A tree falls at its fiftieth cut.  While the chainsaw tip stays at
    one position that is well inside the zone of a tree (not farther than
    1.19 from it, where the zone ends at 1.2, above the ground and below 3)
    and well clear of the saplings (at 1.5 or above, or not closer than
    0.81 to any, where their zones end at 0.8), [k] calls of [handleCut]
    from the start of the timber stage leave that tree with progress
    [2 * min k 50]; it is marked as cut exactly from the fiftieth call on,
    its fall rotation is then the angle [atan2] gives for the direction
    from the tip to the tree, the raw wood counter has then been raised
    once, and the other tree is untouched. *)
Theorem tree_falls_at_the_fiftieth_cut (random : nat -> Q) (atan2 : Q -> Q -> Q)
    (sawPos : Vector3) (i : nat) (tree : TimberStage.Spot) (rng k : nat) :
  TimberStage.trees !! i = Some tree ->
  wellInTree sawPos tree ->
  clearOfSaplings sawPos ->
  let r := timberRun random atan2 (replicate k sawPos) TimberStage.initial rng in
  let st := fst (fst r) in
  (exists p, TimberStage.cutProgress st !! i = Some p
             /\ p == ofNat (2 * Nat.min k 50))
  /\ TimberStage.treesCut st !! i = Some (50 <=? k)%nat
  /\ TimberStage.fallRotation st !! i
     = Some (if (50 <=? k)%nat
             then atan2 (TimberStage.x tree - v_x sawPos)
                        (TimberStage.z tree - v_z sawPos)
             else 0)
  /\ count_rawWood (concat (snd (fst r))) = (if (50 <=? k)%nat then 1%nat else 0%nat)
  /\ (forall j, j <> i ->
        TimberStage.cutProgress st !! j = TimberStage.cutProgress TimberStage.initial !! j
        /\ TimberStage.treesCut st !! j = TimberStage.treesCut TimberStage.initial !! j).
Proof.
  intros Hi Hin Hs.
  apply (fifty_cuts_fell random atan2 sawPos i tree rng k Hi).
  - now apply wellInTree_inTree.
  - now apply clearOfSaplings_overSapling.
Qed.

(** Fifty cuts at the foot of the first tree fell it, forty-nine do not. *)
Lemma first_tree_falls_at_the_fiftieth_cut :
  let sawPos := vec3 (-3) 1 (-2) in
  let run k := fst (fst (timberRun (fun _ => 0) (fun _ _ => 0) (replicate k sawPos)
                           TimberStage.initial 0)) in
  TimberStage.treesCut (run 49%nat) !! 0%nat = Some false
  /\ TimberStage.treesCut (run 50%nat) !! 0%nat = Some true
  /\ TimberStage.treesCut (run 50%nat) !! 1%nat = Some false.
Proof.
  intros sawPos run.
  assert (Hin : wellInTree sawPos (TimberStage.mkSpot (-3) (-2))).
  { split; [vm_compute; discriminate|split; reflexivity]. }
  assert (Hs : clearOfSaplings sawPos).
  { right. repeat constructor; vm_compute; discriminate. }
  pose proof (tree_falls_at_the_fiftieth_cut (fun _ => 0) (fun _ _ => 0) sawPos
                0 (TimberStage.mkSpot (-3) (-2)) 0 49 eq_refl Hin Hs)
    as (_ & T49 & _).
  pose proof (tree_falls_at_the_fiftieth_cut (fun _ => 0) (fun _ _ => 0) sawPos
                0 (TimberStage.mkSpot (-3) (-2)) 0 50 eq_refl Hin Hs)
    as (_ & T50 & _ & _ & O50).
  split; [exact T49|]. split; [exact T50|].
  destruct (O50 1%nat ltac:(lia)) as [_ O]. exact O.
Defined.

(** ** Drilling the seat *)

Lemma leg_cases (i : nat) (leg : StoolProject.Leg) :
  StoolProject.LEG_POSITIONS !! i = Some leg ->
  (i = 0%nat /\ leg = StoolProject.mkLeg 0.6 0.6)
  \/ (i = 1%nat /\ leg = StoolProject.mkLeg (-0.6) 0.6)
  \/ (i = 2%nat /\ leg = StoolProject.mkLeg 0.6 (-0.6))
  \/ (i = 3%nat /\ leg = StoolProject.mkLeg (-0.6) (-0.6)).
Proof.
  destruct i as [|[|[|[|i]]]]; simpl; intros H; try discriminate;
    injection H as <-; tauto.
Qed.

Lemma inHole_spec (toolX toolZ : Q) (leg : StoolProject.Leg) :
  StoolProject.inHole toolX toolZ leg = true
  <-> (toolX - StoolProject.x leg) * (toolX - StoolProject.x leg)
      + (toolZ + StoolProject.z leg) * (toolZ + StoolProject.z leg) < 1 # 16.
Proof.
  unfold StoolProject.inHole, StoolProject.targetWorldX, StoolProject.targetWorldZ.
  rewrite Qltb_lt. split; intros H; nra.
Qed.

Lemma within_quarter (a b : Q) :
  a * a + b * b < 1 # 16 -> (- (1 # 4) < a < 1 # 4) /\ (- (1 # 4) < b < 1 # 4).
Proof. intros H. repeat split; nra. Qed.

(** No drill position is within reach of two holes. *)
Lemma hole_zones_disjoint (toolX toolZ : Q) (i j : nat) (a b : StoolProject.Leg) :
  StoolProject.LEG_POSITIONS !! i = Some a ->
  StoolProject.LEG_POSITIONS !! j = Some b ->
  StoolProject.inHole toolX toolZ a = true ->
  StoolProject.inHole toolX toolZ b = true ->
  i = j.
Proof.
  intros Hi Hj Ha Hb.
  apply inHole_spec, within_quarter in Ha. apply inHole_spec, within_quarter in Hb.
  destruct (leg_cases i a Hi) as [[-> ->]|[[-> ->]|[[-> ->]|[-> ->]]]];
    destruct (leg_cases j b Hj) as [[-> ->]|[[-> ->]|[[-> ->]|[-> ->]]]];
    try reflexivity; exfalso;
    cbn [StoolProject.x StoolProject.z] in Ha, Hb; lra.
Qed.

Lemma bursts_stoolBurst (legs : list StoolProject.Leg) :
  length (bursts (map stoolBurst legs)) = length legs.
Proof. induction legs as [|l legs IH]; simpl; [reflexivity|]. now rewrite IH. Qed.

Lemma stoolDrill_one_target (p : Q * Q) (st : StoolProject.State) :
  length (StoolProject.holesDrilled st) = 4%nat ->
  (countTrue (StoolProject.holesDrilled (fst (stoolDrill p st)))
   <= countTrue (StoolProject.holesDrilled st) + 1)%nat
  /\ (length (bursts (snd (stoolDrill p st))) <= 1)%nat.
Proof.
  intros Hlen.
  destruct (stoolDrill_markStep p st) as [Hf Hc].
  rewrite Hf, Hc, markStep_spec by exact Hlen. cbn [fst snd].
  pose proof (newly_at_most_one (StoolProject.inHole (fst p) (snd p))
                (StoolProject.holesDrilled st) StoolProject.LEG_POSITIONS
                (fun i j a b Hi Hj Ha Hb =>
                   hole_zones_disjoint (fst p) (snd p) i j a b Hi Hj Ha Hb))
    as Hone.
  split.
  - rewrite countTrue_marked by exact Hlen. lia.
  - rewrite bursts_app, bursts_signal by reflexivity. rewrite app_nil_r.
    rewrite bursts_stoolBurst. exact Hone.
Qed.

Lemma stool_handleDrill_keeps (phase : GamePhase) (x z : Q)
    (st : StoolProject.State) (j : nat) :
  StoolProject.holesDrilled st !! j = Some true ->
  StoolProject.holesDrilled (fst (StoolProject.handleDrill phase x z st)) !! j
  = Some true.
Proof.
  intros Hj. unfold StoolProject.handleDrill.
  destruct (decide (phase = CUTTING)); [|exact Hj].
  rewrite (forEach_ext _ _ StoolProject.LEG_POSITIONS (drillOne_markOne x z)).
  pose proof (forEach_markOne_keeps (StoolProject.inHole x z) stoolBurst
                StoolProject.LEG_POSITIONS 0
                (mkCutLoop (StoolProject.holesDrilled st) false []) j Hj) as Hk.
  revert Hk.
  generalize (forEach (markOne (StoolProject.inHole x z) stoolBurst)
                StoolProject.LEG_POSITIONS 0
                (mkCutLoop (StoolProject.holesDrilled st) false [])).
  intros r Hk. destruct (changed r); cbn [fst StoolProject.holesDrilled]; auto.
Qed.

Lemma stool_run_keeps (inputs : list (Q * Q)) :
  forall (st : StoolProject.State) (j : nat),
    StoolProject.holesDrilled st !! j = Some true ->
    StoolProject.holesDrilled (fst (runHandler stoolDrill inputs st)) !! j
    = Some true.
Proof.
  induction inputs as [|p rest IH]; intros st j Hj; [exact Hj|].
  rewrite runHandler_cons. cbn [fst]. apply IH.
  unfold stoolDrill. now apply stool_handleDrill_keeps.
Qed.

Lemma stool_handleDrill_inside_drilled (x z : Q) (st : StoolProject.State)
    (j : nat) (leg : StoolProject.Leg) :
  StoolProject.LEG_POSITIONS !! j = Some leg ->
  StoolProject.inHole x z leg = true ->
  StoolProject.holesDrilled st !! j = Some true ->
  StoolProject.handleDrill CUTTING x z st = (st, []).
Proof.
  intros Hj Hin Hdone. unfold StoolProject.handleDrill.
  destruct (decide (CUTTING = CUTTING)); [|congruence].
  rewrite (forEach_ext _ _ StoolProject.LEG_POSITIONS (drillOne_markOne x z)).
  rewrite forEach_markOne_noop; [reflexivity|].
  intros k a Hk Ha. cbn [newFlags]. simpl.
  assert (k = j) as -> by (eapply hole_zones_disjoint; eauto).
  unfold array_get. now rewrite Hdone.
Qed.

(** X6.  The four drilling zones are pairwise disjoint: no drill position is
    closer than 0.25 to the marks of two different legs.  So one call of
    [handleDrill] drills at most one new hole and starts at most one burst;
    and outside the CUTTING phase it does nothing at all. *)
Theorem drill_zones_disjoint :
  (forall (toolX toolZ : Q) (i j : nat) (a b : StoolProject.Leg),
      StoolProject.LEG_POSITIONS !! i = Some a ->
      StoolProject.LEG_POSITIONS !! j = Some b ->
      i <> j ->
      ~ (StoolProject.inHole toolX toolZ a = true
         /\ StoolProject.inHole toolX toolZ b = true))
  /\ (forall (toolX toolZ : Q) (st : StoolProject.State),
        length (StoolProject.holesDrilled st) = 4%nat ->
        let r := StoolProject.handleDrill CUTTING toolX toolZ st in
        (countTrue (StoolProject.holesDrilled (fst r))
         <= countTrue (StoolProject.holesDrilled st) + 1)%nat
        /\ (length (bursts (snd r)) <= 1)%nat)
  /\ (forall (phase : GamePhase) (toolX toolZ : Q) (st : StoolProject.State),
        phase <> CUTTING ->
        StoolProject.handleDrill phase toolX toolZ st = (st, [])).
Proof.
  split; [|split].
  - intros x z i j a b Hi Hj Hne [Ha Hb]. apply Hne.
    eapply hole_zones_disjoint; eauto.
  - intros x z st Hlen. exact (stoolDrill_one_target (x, z) st Hlen).
  - intros phase x z st Hne. unfold StoolProject.handleDrill.
    destruct (decide (phase = CUTTING)); [contradiction|reflexivity].
Qed.

(** Halfway between two marks the drill reaches neither; on a mark it drills
    that hole alone. *)
Lemma drill_zones_disjoint_example :
  ~ (StoolProject.inHole 0 (-0.6) (StoolProject.mkLeg 0.6 0.6) = true
     /\ StoolProject.inHole 0 (-0.6) (StoolProject.mkLeg (-0.6) 0.6) = true)
  /\ StoolProject.holesDrilled
       (fst (StoolProject.handleDrill CUTTING 0.6 (-0.6) StoolProject.initial))
     = [true; false; false; false]
  /\ StoolProject.handleDrill CLAMPING 0.6 (-0.6) StoolProject.initial
     = (StoolProject.initial, []).
Proof.
  destruct drill_zones_disjoint as (D & _ & N).
  split; [|split].
  - apply (D 0 (-0.6) 0%nat 1%nat); [reflexivity|reflexivity|lia].
  - reflexivity.
  - apply N. discriminate.
Defined.

(** X7.  A drilled hole stays drilled.  Over any sequence of drill positions
    a flag of [holesDrilled] that is set stays set, and a call whose
    position is within reach of a hole that is already drilled changes no
    state and makes no call: no burst and no phase-complete timer. *)
Theorem drilled_holes_stay_drilled :
  (forall (inputs : list (Q * Q)) (st : StoolProject.State) (j : nat),
      StoolProject.holesDrilled st !! j = Some true ->
      StoolProject.holesDrilled (fst (runHandler stoolDrill inputs st)) !! j
      = Some true)
  /\ (forall (toolX toolZ : Q) (st : StoolProject.State) (j : nat)
             (leg : StoolProject.Leg),
      StoolProject.LEG_POSITIONS !! j = Some leg ->
      StoolProject.inHole toolX toolZ leg = true ->
      StoolProject.holesDrilled st !! j = Some true ->
      StoolProject.handleDrill CUTTING toolX toolZ st = (st, [])).
Proof.
  split.
  - intros inputs st j. apply stool_run_keeps.
  - intros x z st j leg. apply stool_handleDrill_inside_drilled.
Qed.

(** The first hole, once drilled, survives drilling elsewhere, and drilling
    it again does nothing. *)
Lemma drilled_holes_stay_drilled_example :
  let st := fst (StoolProject.handleDrill CUTTING 0.6 (-0.6) StoolProject.initial) in
  StoolProject.holesDrilled
    (fst (runHandler stoolDrill [(-0.6, -0.6); (0, 0); (0.5, -0.5)] st)) !! 0%nat
  = Some true
  /\ StoolProject.handleDrill CUTTING 0.5 (-0.5) st = (st, []).
Proof.
  intros st. destruct drilled_holes_stay_drilled as (K & I). split.
  - apply K. reflexivity.
  - apply (I 0.5 (-0.5) st 0%nat (StoolProject.mkLeg 0.6 0.6)); reflexivity.
Defined.

(** ** Seating a part: dragging it into the gap and hammering it home *)

Lemma lastOrbit_app (l k : list Call) :
  lastOrbit (l ++ k)
  = match lastOrbit k with Some b => Some b | None => lastOrbit l end.
Proof.
  unfold lastOrbit. rewrite omap_app.
  set (f := omap _). generalize (f k) as k'. generalize (f l) as l'. clear.
  intros l' k'. destruct k' as [|b k'] using rev_ind.
  - now rewrite app_nil_r.
  - rewrite app_assoc, !last_snoc. reflexivity.
Qed.

Lemma box_drag (pointY targetY : Q) (b : BoardRef) (st : BoxProject.State) :
  BoxProject.assemblyState st = dragging ->
  let r := BoxProject.handleAssemblyDrag pointY b targetY st in
  let p := BoxProject.board b (fst r) in
  let stopY := targetY + GAP_HEIGHT in
  BoxProject.hammerTaps (fst r) = BoxProject.hammerTaps st
  /\ v_x p = 0
  /\ v_z p = match b with tailBoardCRef => -2.6 | _ => 0 end
  /\ (pointY + 1 <= stopY + 0.05 ->
      v_y p = stopY /\ BoxProject.assemblyState (fst r) = hammering
      /\ snd r = [setOrbitEnabled false; setOrbitEnabled true])
  /\ (stopY + 0.05 < pointY + 1 ->
      v_y p == Qmin (pointY + 1) (targetY + 3)
      /\ stopY + 0.05 < v_y p <= targetY + 3
      /\ BoxProject.assemblyState (fst r) = dragging
      /\ snd r = [setOrbitEnabled false]).
Proof.
  intros Hd r p stopY. subst r p. unfold BoxProject.handleAssemblyDrag.
  destruct (decide (BoxProject.assemblyState st = dragging)); [|contradiction].
  cbv zeta. fold stopY.
  set (cur := Qmax stopY (Qmin (pointY + 1) (targetY + 3))).
  assert (Hg : GAP_HEIGHT == 0.15) by reflexivity.
  assert (Hcur : (pointY + 1 <= stopY + 0.05 -> cur <= stopY + 0.05)
                 /\ (stopY + 0.05 < pointY + 1 ->
                     cur == Qmin (pointY + 1) (targetY + 3)
                     /\ stopY + 0.05 < cur <= targetY + 3)).
  { subst cur stopY.
    destruct (Q.max_spec (targetY + GAP_HEIGHT) (Qmin (pointY + 1) (targetY + 3)))
      as [[L E]|[L E]];
      destruct (Q.min_spec (pointY + 1) (targetY + 3)) as [[L' E']|[L' E']];
      rewrite E; rewrite ?E' in *; split; intros; repeat split; lra. }
  destruct Hcur as [Hsnap Hfree].
  destruct (Qle_bool cur (stopY + 0.05)) eqn:Eb; cbn [fst snd].
  - apply Qle_bool_iff in Eb.
    split; [destruct b; reflexivity|]. split; [destruct b; reflexivity|].
    split; [destruct b; reflexivity|]. split.
    + intros _. destruct b; repeat split; reflexivity.
    + intros Hlt. destruct (Hfree Hlt) as (_ & Hc & _). exfalso. lra.
  - assert (Hlt : stopY + 0.05 < cur).
    { destruct (Qlt_le_dec (stopY + 0.05) cur) as [|Hle]; [assumption|].
      apply Qle_bool_iff in Hle. congruence. }
    split; [destruct b; reflexivity|]. split; [destruct b; reflexivity|].
    split; [destruct b; reflexivity|]. split.
    + intros Hle. specialize (Hsnap Hle). exfalso. lra.
    + intros Hl2. destruct (Hfree Hl2) as (Hc & Hc1 & Hc2).
      assert (Ey : v_y (BoxProject.board b
                          (BoxProject.setBoard b
                             (vec3 0 cur (match b with tailBoardCRef => -2.6 | _ => 0 end))
                             st)) = cur) by (destruct b; reflexivity).
      rewrite Ey. split; [exact Hc|]. split; [split; assumption|].
      split; [destruct b; exact Hd|reflexivity].
Qed.

Lemma box_drag_ignored (pointY targetY : Q) (b : BoardRef) (st : BoxProject.State) :
  BoxProject.assemblyState st <> dragging ->
  BoxProject.handleAssemblyDrag pointY b targetY st = (st, []).
Proof.
  intros Hd. unfold BoxProject.handleAssemblyDrag.
  destruct (decide (BoxProject.assemblyState st = dragging)); [contradiction|reflexivity].
Qed.

Lemma gap_at (n : nat) :
  (n <= 3)%nat ->
  Qmax 0 (GAP_HEIGHT * (1 - ofNat n / ofNat HAMMER_TAPS_REQUIRED))
  == GAP_HEIGHT * (1 - ofNat n / 3)
  /\ (n = 3%nat -> GAP_HEIGHT * (1 - ofNat n / 3) == 0).
Proof.
  intros Hn. split.
  - rewrite (gap_after n Hn). reflexivity.
  - intros ->. reflexivity.
Qed.

Section BoxAssembly.
Variable targetY : Q.
Variable b : BoardRef.

Let finished (st : BoxProject.State) : nat :=
  if decide (BoxProject.assemblyState st = done) then 1%nat else 0%nat.

Lemma box_assembly_step (e : AssemblyEvent) (st : BoxProject.State) :
  boxAssemblySound targetY b st ->
  let r := boxAssembly targetY b e st in
  boxAssemblySound targetY b (fst r)
  /\ (count_phaseComplete (snd r) + finished st = finished (fst r))%nat
  /\ (BoxProject.assemblyState st <> dragging ->
      BoxProject.assemblyState (fst r) <> dragging /\ lastOrbit (snd r) = None)
  /\ (BoxProject.assemblyState st = dragging ->
      lastOrbit (snd r)
      = if isDrag e
        then Some (bool_decide (BoxProject.assemblyState (fst r) <> dragging))
        else None)
  /\ BoxProject.wastesCutBFront (fst r) = BoxProject.wastesCutBFront st
  /\ BoxProject.wastesCutBBack (fst r) = BoxProject.wastesCutBBack st
  /\ BoxProject.wastesCutD (fst r) = BoxProject.wastesCutD st.
Proof.
  intros Hs r. subst r. unfold boxAssemblySound, finished in *.
  destruct e as [pointY|]; cbn [boxAssembly isDrag].
  - destruct (BoxProject.assemblyState st) eqn:Ea.
    + destruct (box_drag pointY targetY b st Ea) as (Ht & _ & _ & Hsnap & Hfree).
      assert (Hw : let r := BoxProject.handleAssemblyDrag pointY b targetY st in
                   BoxProject.wastesCutBFront (fst r) = BoxProject.wastesCutBFront st
                   /\ BoxProject.wastesCutBBack (fst r) = BoxProject.wastesCutBBack st
                   /\ BoxProject.wastesCutD (fst r) = BoxProject.wastesCutD st).
      { unfold BoxProject.handleAssemblyDrag. rewrite Ea.
        destruct (decide (dragging = dragging)); [|congruence]. cbv zeta.
        destruct (Qle_bool _ _); destruct b; cbn; auto. }
      cbv zeta in Hw, Hsnap, Hfree.
      destruct (Qlt_le_dec (targetY + GAP_HEIGHT + 0.05) (pointY + 1)) as [Hl|Hl].
      * destruct (Hfree Hl) as (_ & _ & Es & Ec). rewrite Es, Ec, Ht.
        split; [exact Hs|]. split; [reflexivity|]. split; [congruence|].
        split; [|exact Hw]. intros _. reflexivity.
      * destruct (Hsnap Hl) as (Ey & Es & Ec). rewrite Es, Ec, Ht, Ey, Hs.
        split; [split; [lia|]|].
        { change (ofNat 0) with 0. field. }
        split; [reflexivity|]. split; [congruence|].
        split; [|exact Hw]. intros _. reflexivity.
    + rewrite box_drag_ignored by congruence. cbn [fst snd]. rewrite Ea.
      split; [exact Hs|]. split; [reflexivity|]. split; [split; [congruence|reflexivity]|].
      split; [congruence|auto].
    + rewrite box_drag_ignored by congruence. cbn [fst snd]. rewrite Ea.
      split; [exact Hs|]. split; [reflexivity|]. split; [split; [congruence|reflexivity]|].
      split; [congruence|auto].
  - destruct (BoxProject.assemblyState st) eqn:Ea.
    + rewrite box_tap_ignored by congruence. cbn [fst snd]. rewrite Ea.
      split; [exact Hs|]. split; [reflexivity|]. split; [congruence|].
      split; [reflexivity|auto].
    + destruct (box_tap targetY b st Ea) as (Ht & Ey & Es & Ec).
      destruct Hs as [Hlt _].
      assert (Hw : let r := BoxProject.handleHammerClick targetY b st in
                   BoxProject.wastesCutBFront (fst r) = BoxProject.wastesCutBFront st
                   /\ BoxProject.wastesCutBBack (fst r) = BoxProject.wastesCutBBack st
                   /\ BoxProject.wastesCutD (fst r) = BoxProject.wastesCutD st).
      { unfold BoxProject.handleHammerClick. rewrite Ea.
        destruct (decide (hammering = hammering)); [|congruence]. cbv zeta.
        destruct (_ <=? _)%nat; destruct b; cbn; auto. }
      cbv zeta in Ht, Ey, Es, Ec, Hw. rewrite Es, Ec, Ht, Ey.
      destruct (gap_at (S (BoxProject.hammerTaps st)) ltac:(lia)) as [G G3].
      unfold HAMMER_TAPS_REQUIRED.
      destruct (3 <=? S (BoxProject.hammerTaps st))%nat eqn:E3.
      * apply Nat.leb_le in E3.
        assert (E : S (BoxProject.hammerTaps st) = 3%nat) by lia.
        split; [split; [exact E|]|].
        { rewrite G, (G3 E). ring. }
        split; [reflexivity|]. split; [split; [congruence|reflexivity]|].
        split; [congruence|exact Hw].
      * apply Nat.leb_gt in E3.
        split; [split; [exact E3|]|].
        { rewrite G. reflexivity. }
        split; [reflexivity|]. split; [split; [congruence|reflexivity]|].
        split; [congruence|exact Hw].
    + rewrite box_tap_ignored by congruence. cbn [fst snd]. rewrite Ea.
      split; [exact Hs|]. split; [reflexivity|]. split; [split; [congruence|reflexivity]|].
      split; [congruence|auto].
Qed.

Lemma box_assembly_run (events : list AssemblyEvent) :
  forall st : BoxProject.State,
    boxAssemblySound targetY b st ->
    let r := runHandler (boxAssembly targetY b) events st in
    boxAssemblySound targetY b (fst r)
    /\ (count_phaseComplete (concat (snd r)) + finished st = finished (fst r))%nat
    /\ (BoxProject.assemblyState st <> dragging ->
        BoxProject.assemblyState (fst r) <> dragging
        /\ lastOrbit (concat (snd r)) = None)
    /\ (BoxProject.assemblyState st = dragging ->
        lastOrbit (concat (snd r))
        = if bool_decide (BoxProject.assemblyState (fst r) <> dragging)
          then Some true
          else if existsb isDrag events then Some false else None)
    /\ BoxProject.wastesCutBFront (fst r) = BoxProject.wastesCutBFront st
    /\ BoxProject.wastesCutBBack (fst r) = BoxProject.wastesCutBBack st
    /\ BoxProject.wastesCutD (fst r) = BoxProject.wastesCutD st.
Proof.
  induction events as [|e rest IH]; intros st Hs.
  - cbn. split; [exact Hs|]. split; [reflexivity|]. split; [tauto|].
    split; [|auto]. intros Hd. rewrite bool_decide_eq_false_2 by tauto. reflexivity.
  - cbv zeta. rewrite runHandler_cons. cbn [fst snd].
    destruct (box_assembly_step e st Hs) as (Hs1 & C1 & N1 & D1 & W1).
    cbv zeta in Hs1, C1, N1, D1, W1.
    set (st1 := fst (boxAssembly targetY b e st)) in *.
    set (c1 := snd (boxAssembly targetY b e st)) in *.
    destruct (IH st1 Hs1) as (Hs2 & C2 & N2 & D2 & W2).
    cbv zeta in Hs2, C2, N2, D2, W2.
    set (st2 := fst (runHandler (boxAssembly targetY b) rest st1)) in *.
    set (log := snd (runHandler (boxAssembly targetY b) rest st1)) in *.
    rewrite concat_cons, count_phaseComplete_app, lastOrbit_app.
    split; [exact Hs2|]. split; [lia|]. split; [|split].
    + intros Hn. destruct (N1 Hn) as [Hn1 O1]. destruct (N2 Hn1) as [Hn2 O2].
      split; [exact Hn2|]. rewrite O2. exact O1.
    + intros Hd. rewrite (D1 Hd).
      destruct (decide (BoxProject.assemblyState st1 = dragging)) as [Hd1|Hn1].
      * rewrite (D2 Hd1). rewrite (bool_decide_eq_false_2 _ (fun H => H Hd1)).
        destruct (bool_decide (BoxProject.assemblyState st2 <> dragging));
          [reflexivity|].
        cbn [existsb]. destruct (isDrag e), (existsb isDrag rest); reflexivity.
      * destruct (N2 Hn1) as [Hn2 O2]. rewrite O2.
        rewrite (bool_decide_eq_true_2 _ Hn2).
        destruct (isDrag e) eqn:Ee.
        -- rewrite (bool_decide_eq_true_2 _ Hn1). reflexivity.
        -- exfalso. destruct e; [discriminate|]. subst st1. cbn in Hn1.
           rewrite box_tap_ignored in Hn1 by congruence. exact (Hn1 Hd).
    + destruct W1 as (A1 & B1 & E1). destruct W2 as (A2 & B2 & E2).
      repeat split; congruence.
Qed.
End BoxAssembly.

(** X8.  Dragging a board.  For the two heights the boards are seated at
    ([TABLE_OFFSET] and [BOARD_HEIGHT_A]) and while the box is in its
    dragging state, a call of [handleAssemblyDrag] puts the board at x = 0,
    at the depth of its side of the box, and, to within 10^-9, at a height
    between [targetY + GAP_HEIGHT] and [targetY + 3].  When the pointer
    height plus one is below [targetY + GAP_HEIGHT + 0.05] by 10^-9 or more,
    the board snaps onto the gap, the state becomes hammering and the orbit
    controls, switched off by the drag, are switched on again; when it is
    above by 10^-9 or more, the board is at the pointer height plus one,
    capped at [targetY + 3], the state stays dragging and the controls stay
    off.  The tap count is not touched.  In any other state the call does
    nothing. *)
Theorem board_drag_is_clamped_and_snaps :
  (forall (pointY targetY : Q) (b : BoardRef) (st : BoxProject.State),
      targetY == TABLE_OFFSET \/ targetY == BOARD_HEIGHT_A ->
      BoxProject.assemblyState st = dragging ->
      let r := BoxProject.handleAssemblyDrag pointY b targetY st in
      let p := BoxProject.board b (fst r) in
      let eps := 1 # 1000000000 in
      targetY + GAP_HEIGHT - eps <= v_y p <= targetY + 3 + eps
      /\ v_x p = 0
      /\ v_z p = match b with tailBoardCRef => -2.6 | _ => 0 end
      /\ BoxProject.hammerTaps (fst r) = BoxProject.hammerTaps st
      /\ (pointY + 1 <= targetY + GAP_HEIGHT + 0.05 - eps ->
          within eps (v_y p) (targetY + GAP_HEIGHT)
          /\ BoxProject.assemblyState (fst r) = hammering
          /\ snd r = [setOrbitEnabled false; setOrbitEnabled true])
      /\ (targetY + GAP_HEIGHT + 0.05 + eps <= pointY + 1 ->
          within eps (v_y p) (Qmin (pointY + 1) (targetY + 3))
          /\ BoxProject.assemblyState (fst r) = dragging
          /\ snd r = [setOrbitEnabled false]))
  /\ (forall (pointY targetY : Q) (b : BoardRef) (st : BoxProject.State),
        BoxProject.assemblyState st <> dragging ->
        BoxProject.handleAssemblyDrag pointY b targetY st = (st, [])).
Proof.
  split.
  - intros pointY targetY b st _ Hd r p eps.
    destruct (box_drag pointY targetY b st Hd) as (Ht & Hx & Hz & Hsnap & Hfree).
    cbv zeta in Ht, Hx, Hz, Hsnap, Hfree. fold r in Ht, Hx, Hz, Hsnap, Hfree.
    fold p in Hx, Hz, Hsnap, Hfree.
    assert (Hg : GAP_HEIGHT == 0.15) by reflexivity.
    assert (He : eps == 1 # 1000000000) by reflexivity.
    split; [|split; [exact Hx|split; [exact Hz|split; [exact Ht|split]]]].
    + destruct (Qlt_le_dec (targetY + GAP_HEIGHT + 0.05) (pointY + 1)) as [Hl|Hl].
      * destruct (Hfree Hl) as (_ & Hb & _). lra.
      * destruct (Hsnap Hl) as (Ey & _). rewrite Ey. lra.
    + intros Hl. destruct Hsnap as (Ey & Es & Ec); [lra|].
      split; [apply within_refl; [discriminate|now rewrite Ey]|]. auto.
    + intros Hl. destruct Hfree as (Ey & _ & Es & Ec); [lra|].
      split; [apply within_refl; [discriminate|exact Ey]|]. auto.
  - intros pointY targetY b st. apply box_drag_ignored.
Qed.

(** The front board of the box, from where it is mounted: a pointer at
    height 1 leaves it at height 2; a pointer at height -0.9 seats it in the
    gap, and further drags are ignored. *)
Lemma board_drag_is_clamped_and_snaps_front_board :
  let st := BoxProject.initial in
  let seated := fst (BoxProject.handleAssemblyDrag (-0.9) tailBoardARef TABLE_OFFSET st) in
  within (1 # 1000000000)
    (v_y (BoxProject.tailBoardA
            (fst (BoxProject.handleAssemblyDrag 1 tailBoardARef TABLE_OFFSET st)))) 2
  /\ within (1 # 1000000000) (v_y (BoxProject.tailBoardA seated)) (TABLE_OFFSET + GAP_HEIGHT)
  /\ BoxProject.assemblyState seated = hammering
  /\ BoxProject.handleAssemblyDrag 4 tailBoardARef TABLE_OFFSET seated = (seated, []).
Proof.
  intros st seated. destruct board_drag_is_clamped_and_snaps as [D I].
  destruct (D 1 TABLE_OFFSET tailBoardARef st (or_introl (Qeq_refl _)) eq_refl)
    as (_ & _ & _ & _ & _ & F).
  destruct (D (-0.9) TABLE_OFFSET tailBoardARef st (or_introl (Qeq_refl _)) eq_refl)
    as (_ & _ & _ & _ & S & _).
  cbv zeta in F, S.
  destruct F as (Ey & _); [vm_compute; discriminate|].
  destruct S as (Ey' & Es & _); [vm_compute; discriminate|].
  split; [revert Ey; unfold within; now vm_compute|].
  split; [exact Ey'|]. split; [exact Es|].
  apply I. subst seated. rewrite Es. discriminate.
Defined.

(** X9.  Seating a board signals completion once.  From the state in which
    an assembly phase starts (dragging, no tap counted) and for every
    sequence of drags and mallet clicks on the board: the phase-complete
    timer has been started once if the state is done and not at all
    otherwise; taps count only while the board is hammered, never beyond
    three, and the state is done exactly when three have counted; the board
    stands at [targetY + GAP_HEIGHT * (1 - taps / 3)] while it is hammered
    and at [targetY] when done; the orbit controls are on once the board
    is seated and off after a drag that has not seated it; and the
    completion flags of the cuts are untouched. *)
Theorem box_assembly_completes_once (targetY : Q) (b : BoardRef)
    (events : list AssemblyEvent) (st : BoxProject.State) :
  BoxProject.assemblyState st = dragging ->
  BoxProject.hammerTaps st = 0%nat ->
  let r := runHandler (boxAssembly targetY b) events st in
  let st' := fst r in
  count_phaseComplete (concat (snd r))
  = (if decide (BoxProject.assemblyState st' = done) then 1%nat else 0%nat)
  /\ (BoxProject.hammerTaps st' <= 3)%nat
  /\ (BoxProject.assemblyState st' = done <-> BoxProject.hammerTaps st' = 3%nat)
  /\ (BoxProject.assemblyState st' = dragging -> BoxProject.hammerTaps st' = 0%nat)
  /\ (BoxProject.assemblyState st' = hammering ->
      v_y (BoxProject.board b st')
      == targetY + GAP_HEIGHT * (1 - ofNat (BoxProject.hammerTaps st') / 3))
  /\ (BoxProject.assemblyState st' = done -> v_y (BoxProject.board b st') == targetY)
  /\ lastOrbit (concat (snd r))
     = (if bool_decide (BoxProject.assemblyState st' <> dragging) then Some true
        else if existsb isDrag events then Some false else None)
  /\ BoxProject.wastesCutBFront st' = BoxProject.wastesCutBFront st
  /\ BoxProject.wastesCutBBack st' = BoxProject.wastesCutBBack st
  /\ BoxProject.wastesCutD st' = BoxProject.wastesCutD st.
Proof.
  intros Hd Ht r st'.
  assert (Hs : boxAssemblySound targetY b st).
  { unfold boxAssemblySound. rewrite Hd. exact Ht. }
  destruct (box_assembly_run targetY b events st Hs) as (Hs' & C & _ & O & W).
  cbv zeta in Hs', C, O, W. fold r in Hs', C, O, W. fold st' in Hs', C, O, W.
  unfold boxAssemblySound in Hs'.
  destruct (decide (BoxProject.assemblyState st = done)) as [E|_]; [congruence|].
  rewrite Nat.add_0_r in C.
  split; [exact C|].
  destruct (BoxProject.assemblyState st') eqn:Ea.
  - rewrite Hs'. split; [lia|]. split; [split; [discriminate|lia]|].
    split; [auto|]. split; [discriminate|]. split; [discriminate|].
    split; [exact (O Hd)|exact W].
  - destruct Hs' as [Hlt Hy]. split; [lia|]. split; [split; [discriminate|lia]|].
    split; [discriminate|]. split; [auto|]. split; [discriminate|].
    split; [exact (O Hd)|exact W].
  - destruct Hs' as [H3 Hy]. split; [lia|]. split; [tauto|].
    split; [discriminate|]. split; [discriminate|]. split; [auto|].
    split; [exact (O Hd)|exact W].
Qed.

(** The front board: a tap too early, a drag that stops short, the drag that
    seats the board, and four taps, of which three count. *)
Lemma box_assembly_completes_once_front_board :
  let st := fst (BoxProject.phaseEffect ASSEMBLY BoxProject.initial) in
  let events := [AsmTap; AsmDrag 1; AsmDrag (-0.9); AsmTap; AsmTap; AsmTap; AsmTap] in
  let r := runHandler (boxAssembly TABLE_OFFSET tailBoardARef) events st in
  BoxProject.assemblyState (fst r) = done
  /\ BoxProject.hammerTaps (fst r) = 3%nat
  /\ count_phaseComplete (concat (snd r)) = 1%nat
  /\ v_y (BoxProject.tailBoardA (fst r)) == TABLE_OFFSET.
Proof.
  intros st events r.
  destruct (box_assembly_completes_once TABLE_OFFSET tailBoardARef events st
              eq_refl eq_refl) as (C & _ & D & _ & _ & Y & _).
  cbv zeta in C, D, Y. fold r in C, D, Y.
  assert (E : BoxProject.assemblyState (fst r) = done) by (vm_compute; reflexivity).
  split; [exact E|]. split; [apply D, E|]. split; [|exact (Y E)].
  rewrite C. destruct (decide _); [reflexivity|contradiction].
Defined.

Lemma leg_drag (pointY y0 : Q) (st : StoolProject.State) :
  StoolProject.legsState st = StoolProject.dragging ->
  StoolProject.legsRef st = Some y0 ->
  let r := StoolProject.handleLegDrag pointY st in
  exists y : Q,
    legsWorldY (fst r) = Some y
    /\ 0.5 <= y <= 5
    /\ StoolProject.hammerTaps (fst r) = StoolProject.hammerTaps st
    /\ StoolProject.holesDrilled (fst r) = StoolProject.holesDrilled st
    /\ (pointY <= 0.6 ->
        y == 0.5 /\ StoolProject.legsState (fst r) = StoolProject.hammering
        /\ snd r = [setOrbitEnabled false; setOrbitEnabled true])
    /\ (0.6 < pointY ->
        y == Qmin pointY 5 /\ 0.6 < y
        /\ StoolProject.legsState (fst r) = StoolProject.dragging
        /\ snd r = [setOrbitEnabled false]).
Proof.
  intros Hd Hr r. subst r. unfold StoolProject.handleLegDrag. rewrite Hr.
  destruct (decide (StoolProject.legsState st = StoolProject.dragging));
    [|contradiction].
  cbv zeta. set (cur := Qmax 0.5 (Qmin pointY 5.0)).
  assert (Hcur : 0.5 <= cur <= 5
                 /\ (pointY <= 0.6 -> cur <= 0.5 + 0.1)
                 /\ (0.6 < pointY -> cur == Qmin pointY 5 /\ 0.6 < cur)).
  { subst cur.
    destruct (Q.max_spec 0.5 (Qmin pointY 5.0)) as [[L E]|[L E]];
      destruct (Q.min_spec pointY 5.0) as [[L' E']|[L' E']];
      destruct (Q.min_spec pointY 5) as [[L2 E2]|[L2 E2]];
      rewrite E; rewrite ?E', ?E2 in *; repeat split; intros; lra. }
  destruct Hcur as (Hb & Hseat & Hfree).
  destruct (Qle_bool cur (0.5 + 0.1)) eqn:Eb; cbn [fst snd].
  - apply Qle_bool_iff in Eb. exists (- - 0.5).
    split; [reflexivity|]. split; [split; vm_compute; discriminate|].
    split; [reflexivity|]. split; [reflexivity|]. split.
    + intros _. repeat split; reflexivity.
    + intros Hl. destruct (Hfree Hl) as [_ Hc]. exfalso. lra.
  - assert (Hlt : 0.5 + 0.1 < cur).
    { destruct (Qlt_le_dec (0.5 + 0.1) cur) as [|Hle]; [assumption|].
      apply Qle_bool_iff in Hle. congruence. }
    exists (- - cur). split; [reflexivity|]. split; [lra|].
    split; [reflexivity|]. split; [reflexivity|]. split.
    + intros Hle. specialize (Hseat Hle). exfalso. lra.
    + intros Hl. destruct (Hfree Hl) as [Hc Hc']. split; [rewrite <- Hc; ring|].
      split; [lra|]. split; [exact Hd|reflexivity].
Qed.

Lemma leg_drag_ignored (pointY : Q) (st : StoolProject.State) :
  StoolProject.legsState st <> StoolProject.dragging ->
  StoolProject.handleLegDrag pointY st = (st, []).
Proof.
  intros Hd. unfold StoolProject.handleLegDrag.
  destruct (StoolProject.legsRef st); [|reflexivity].
  destruct (decide _); [contradiction|reflexivity].
Qed.

Lemma stool_tap_ignored (st : StoolProject.State) :
  StoolProject.legsState st <> StoolProject.hammering ->
  StoolProject.handleHammer st = (st, []).
Proof.
  intros Hd. unfold StoolProject.handleHammer.
  destruct (StoolProject.legsRef st); [|reflexivity].
  destruct (decide _); [contradiction|reflexivity].
Qed.

Section StoolAssembly.

Let finished (st : StoolProject.State) : nat :=
  match StoolProject.legsState st with StoolProject.done => 1%nat | _ => 0%nat end.

Lemma stool_assembly_step (e : AssemblyEvent) (st : StoolProject.State) :
  stoolAssemblySound st ->
  let r := stoolAssembly e st in
  stoolAssemblySound (fst r)
  /\ (count_phaseComplete (snd r) + finished st = finished (fst r))%nat
  /\ StoolProject.holesDrilled (fst r) = StoolProject.holesDrilled st.
Proof.
  intros (y & Hy & Hs) r. subst r. unfold finished.
  assert (Hr : exists y0, StoolProject.legsRef st = Some y0).
  { unfold legsWorldY in Hy. destruct (StoolProject.legsRef st); [eauto|discriminate]. }
  destruct Hr as [y0 Hr].
  destruct e as [pointY|]; cbn [stoolAssembly].
  - destruct (StoolProject.legsState st) eqn:Ea; [contradiction| | |].
    + destruct (leg_drag pointY y0 st Ea Hr) as (y' & Ey & Hb & Ht & Hh & Hseat & Hfree).
      cbv zeta in Ey, Ht, Hh, Hseat, Hfree.
      destruct Hs as [Ht0 _].
      destruct (Qlt_le_dec 0.6 pointY) as [Hl|Hl].
      * destruct (Hfree Hl) as (_ & _ & Es & Ec). rewrite Es, Ec.
        split; [|split; [reflexivity|exact Hh]].
        exists y'. split; [exact Ey|]. rewrite Es. split; [congruence|exact Hb].
      * destruct (Hseat Hl) as (E5 & Es & Ec). rewrite Es, Ec.
        split; [|split; [reflexivity|exact Hh]].
        exists y'. split; [exact Ey|]. rewrite Es, Ht, Ht0. split; [lia|].
        rewrite E5. change (ofNat 0) with 0. field.
    + rewrite leg_drag_ignored by congruence. cbn [fst snd]. rewrite Ea.
      split; [|split; reflexivity]. exists y. rewrite Ea. auto.
    + rewrite leg_drag_ignored by congruence. cbn [fst snd]. rewrite Ea.
      split; [|split; reflexivity]. exists y. rewrite Ea. auto.
  - destruct (StoolProject.legsState st) eqn:Ea; [contradiction| | |].
    + rewrite stool_tap_ignored by congruence. cbn [fst snd]. rewrite Ea.
      split; [|split; reflexivity]. exists y. rewrite Ea. auto.
    + destruct (stool_tap st y0 Ea Hr) as (Ht & Ey & Es & Ec).
      cbv zeta in Ht, Ey, Es, Ec. destruct Hs as [Hlt _].
      assert (Hh : StoolProject.holesDrilled (fst (StoolProject.handleHammer st))
                   = StoolProject.holesDrilled st).
      { unfold StoolProject.handleHammer. rewrite Hr, Ea.
        destruct (decide _); [|congruence]. cbv zeta.
        destruct (_ <=? _)%nat; reflexivity. }
      rewrite Es, Ec. unfold HAMMER_TAPS_REQUIRED in *.
      destruct (3 <=? S (StoolProject.hammerTaps st))%nat eqn:E3.
      * apply Nat.leb_le in E3.
        assert (E : S (StoolProject.hammerTaps st) = 3%nat) by lia.
        split; [|split; [reflexivity|exact Hh]].
        eexists. split; [exact Ey|]. rewrite Es, Ht. split; [exact E|].
        rewrite E. vm_compute. reflexivity.
      * apply Nat.leb_gt in E3.
        split; [|split; [reflexivity|exact Hh]].
        eexists. split; [exact Ey|]. rewrite Es, Ht. split; [exact E3|].
        unfold StoolProject.startWorldY, StoolProject.endWorldY.
        change (ofNat 3) with 3. field.
    + rewrite stool_tap_ignored by congruence. cbn [fst snd]. rewrite Ea.
      split; [|split; reflexivity]. exists y. rewrite Ea. auto.
Qed.

Lemma stool_assembly_run (events : list AssemblyEvent) :
  forall st : StoolProject.State,
    stoolAssemblySound st ->
    let r := runHandler stoolAssembly events st in
    stoolAssemblySound (fst r)
    /\ (count_phaseComplete (concat (snd r)) + finished st = finished (fst r))%nat
    /\ StoolProject.holesDrilled (fst r) = StoolProject.holesDrilled st.
Proof.
  induction events as [|e rest IH]; intros st Hs.
  - cbn. auto.
  - cbv zeta. rewrite runHandler_cons. cbn [fst snd].
    destruct (stool_assembly_step e st Hs) as (Hs1 & C1 & W1).
    cbv zeta in Hs1, C1, W1.
    destruct (IH _ Hs1) as (Hs2 & C2 & W2). cbv zeta in Hs2, C2, W2.
    rewrite concat_cons, count_phaseComplete_app.
    split; [exact Hs2|]. split; [lia|congruence].
Qed.
End StoolAssembly.

(** X10.  Dragging the legs.  While the legs are in their dragging state and
    their group is rendered, a call of [handleLegDrag] puts them at the
    pointer height clamped to the world heights 0.5 to 5.  When the pointer
    is at 0.6 or lower the legs are locked at 0.5, the state becomes
    hammering and the orbit controls are switched on again; otherwise the
    state stays dragging.  Neither the tap count nor the drilled holes are
    touched.  In any other state, or while the group is not rendered, the
    call does nothing. *)
Theorem leg_drag_is_clamped_and_seats :
  (forall (pointY y0 : Q) (st : StoolProject.State),
      StoolProject.legsState st = StoolProject.dragging ->
      StoolProject.legsRef st = Some y0 ->
      let r := StoolProject.handleLegDrag pointY st in
      exists y : Q,
        legsWorldY (fst r) = Some y
        /\ 0.5 <= y <= 5
        /\ StoolProject.hammerTaps (fst r) = StoolProject.hammerTaps st
        /\ StoolProject.holesDrilled (fst r) = StoolProject.holesDrilled st
        /\ (pointY <= 0.6 ->
            y == 0.5 /\ StoolProject.legsState (fst r) = StoolProject.hammering
            /\ snd r = [setOrbitEnabled false; setOrbitEnabled true])
        /\ (0.6 < pointY ->
            y == Qmin pointY 5
            /\ StoolProject.legsState (fst r) = StoolProject.dragging
            /\ snd r = [setOrbitEnabled false]))
  /\ (forall (pointY : Q) (st : StoolProject.State),
        StoolProject.legsState st <> StoolProject.dragging
        \/ StoolProject.legsRef st = None ->
        StoolProject.handleLegDrag pointY st = (st, [])).
Proof.
  split.
  - intros pointY y0 st Hd Hr r.
    destruct (leg_drag pointY y0 st Hd Hr) as (y & Ey & Hb & Ht & Hh & Hseat & Hfree).
    exists y. split; [exact Ey|]. split; [exact Hb|]. split; [exact Ht|].
    split; [exact Hh|]. split; [exact Hseat|].
    intros Hl. destruct (Hfree Hl) as (E & _ & Es & Ec). auto.
  - intros pointY st [Hd|Hr]; [now apply leg_drag_ignored|].
    unfold StoolProject.handleLegDrag. now rewrite Hr.
Qed.

(** The legs as mounted in the assembly phase: a pointer at height 9 leaves
    them at 5, a pointer at 0.55 locks them at 0.5; before the phase the
    drag does nothing. *)
Lemma leg_drag_is_clamped_and_seats_as_mounted :
  let st := fst (StoolProject.phaseEffect ASSEMBLY
                   (attachLegs ASSEMBLY StoolProject.initial)) in
  (exists y, legsWorldY (fst (StoolProject.handleLegDrag 9 st)) = Some y /\ y == 5)
  /\ (exists y, legsWorldY (fst (StoolProject.handleLegDrag 0.55 st)) = Some y
                /\ y == 0.5)
  /\ StoolProject.legsState (fst (StoolProject.handleLegDrag 0.55 st))
     = StoolProject.hammering
  /\ StoolProject.handleLegDrag 0.55 StoolProject.initial = (StoolProject.initial, []).
Proof.
  intros st. destruct leg_drag_is_clamped_and_seats as [D I].
  destruct (D 9 (-4) st eq_refl eq_refl) as (y & Ey & _ & _ & _ & _ & F).
  destruct (D 0.55 (-4) st eq_refl eq_refl) as (y' & Ey' & _ & _ & _ & S & _).
  destruct F as (E & _); [vm_compute; reflexivity|].
  destruct S as (E' & Es & _); [vm_compute; discriminate|].
  split; [exists y; split; [exact Ey|rewrite E; vm_compute; reflexivity]|].
  split; [exists y'; split; [exact Ey'|exact E']|].
  split; [exact Es|]. apply I. left. discriminate.
Defined.

(** X11.  Seating the legs signals completion once.  From the state in which
    the stool's assembly phase starts (dragging, no tap counted, the legs
    between the world heights 0.5 and 5) and for every sequence of drags
    and mallet clicks: the phase-complete timer has been started once if
    the legs are done and not at all otherwise; taps count only while the
    legs are hammered, never beyond three, and the legs are done exactly
    when three have counted; the legs stand between 0.5 and 5 while they
    are dragged and, to within 10^-15, at [0.5 - 0.45 * taps / 3] while
    they are hammered and at 0.05 when done, never lower than 0.04; and
    the drilled holes are untouched. *)
Theorem stool_assembly_completes_once (events : list AssemblyEvent)
    (st : StoolProject.State) (y0 : Q) :
  StoolProject.legsState st = StoolProject.dragging ->
  StoolProject.hammerTaps st = 0%nat ->
  legsWorldY st = Some y0 ->
  0.5 <= y0 <= 5 ->
  let r := runHandler stoolAssembly events st in
  let st' := fst r in
  count_phaseComplete (concat (snd r))
  = match StoolProject.legsState st' with StoolProject.done => 1%nat | _ => 0%nat end
  /\ (StoolProject.hammerTaps st' <= 3)%nat
  /\ (StoolProject.legsState st' = StoolProject.done
      <-> StoolProject.hammerTaps st' = 3%nat)
  /\ StoolProject.legsState st' <> StoolProject.hidden
  /\ (exists y : Q,
        legsWorldY st' = Some y
        /\ 0.04 <= y <= 5
        /\ match StoolProject.legsState st' with
           | StoolProject.hammering =>
               within (1 # 1000000000000000) y
                 (0.5 - 0.45 * (ofNat (StoolProject.hammerTaps st') / 3))
           | StoolProject.done => within (1 # 1000000000000000) y 0.05
           | _ => 0.5 <= y
           end)
  /\ StoolProject.holesDrilled st' = StoolProject.holesDrilled st.
Proof.
  intros Hd Ht Hy Hb r st'.
  assert (Hs : stoolAssemblySound st).
  { exists y0. split; [exact Hy|]. rewrite Hd. auto. }
  destruct (stool_assembly_run events st Hs) as ((y & Ey & Hs') & C & W).
  cbv zeta in Ey, Hs', C, W. fold r in Ey, Hs', C, W. fold st' in Ey, Hs', C, W.
  rewrite Hd, Nat.add_0_r in C.
  split; [exact C|].
  destruct (StoolProject.legsState st') eqn:Ea; [contradiction| | |].
  - destruct Hs' as [T B]. rewrite T.
    split; [lia|]. split; [split; [discriminate|lia]|]. split; [discriminate|].
    split; [|exact W]. exists y. split; [exact Ey|]. split; [lra|tauto].
  - destruct Hs' as [T E].
    split; [lia|]. split; [split; [discriminate|lia]|]. split; [discriminate|].
    split; [|exact W]. exists y. split; [exact Ey|].
    split; [|apply within_refl; [discriminate|exact E]].
    rewrite E. pose proof (ofNat_nonneg (StoolProject.hammerTaps st')) as N0.
    pose proof (ofNat_le (StoolProject.hammerTaps st') 2 ltac:(lia)) as N2. change (ofNat 2) with 2 in N2.
    assert (F : ofNat (StoolProject.hammerTaps st') / 3
                == ofNat (StoolProject.hammerTaps st') * (1 # 3)) by field.
    rewrite F. lra.
  - destruct Hs' as [T E]. rewrite T.
    split; [lia|]. split; [tauto|]. split; [discriminate|].
    split; [|exact W]. exists y. split; [exact Ey|].
    split; [lra|apply within_refl; [discriminate|exact E]].
Qed.

(** The stool as mounted in the assembly phase: a tap too early, a drag
    that stops short, the drag that seats the legs, and four taps. *)
Lemma stool_assembly_completes_once_as_mounted :
  let st := fst (StoolProject.phaseEffect ASSEMBLY
                   (attachLegs ASSEMBLY StoolProject.initial)) in
  let events := [AsmTap; AsmDrag 2; AsmDrag 0.3; AsmTap; AsmTap; AsmTap; AsmTap] in
  let r := runHandler stoolAssembly events st in
  StoolProject.legsState (fst r) = StoolProject.done
  /\ StoolProject.hammerTaps (fst r) = 3%nat
  /\ count_phaseComplete (concat (snd r)) = 1%nat.
Proof.
  intros st events r.
  destruct (stool_assembly_completes_once events st 4 eq_refl eq_refl eq_refl)
    as (C & _ & D & _); [split; vm_compute; discriminate|].
  cbv zeta in C, D. fold r in C, D.
  assert (E : StoolProject.legsState (fst r) = StoolProject.done)
    by (vm_compute; reflexivity).
  split; [exact E|]. split; [apply D, E|]. rewrite C, E. reflexivity.
Defined.

(** ** The particle pool over time *)

Section PoolFacts.
Variable random : nat -> Q.
Variables sin cos : Q -> Q.
Variable PI : Q.

(** What a tick's loop leaves alone: the mesh, the intervals, and every slot
    that is active. *)
Lemma spawnLoop_keeps (batch : nat) (pos : Vector3) (fuel : nat) :
  forall (i s : nat) (sys sys' : SawdustSystem.System),
    SawdustSystem.spawnLoop random sin cos PI fuel i s batch pos sys = Some sys' ->
    SawdustSystem.meshCount sys' = SawdustSystem.meshCount sys
    /\ SawdustSystem.meshRef sys' = SawdustSystem.meshRef sys
    /\ SawdustSystem.intervals sys' = SawdustSystem.intervals sys
    /\ (forall j p, SawdustSystem.particles sys !! j = Some p ->
                    SawdustSystem.active p = true ->
                    SawdustSystem.particles sys' !! j = Some p).
Proof.
  induction fuel as [|fuel IH]; intros i s sys sys' E.
  - cbn in E. injection E as <-. auto.
  - cbn [SawdustSystem.spawnLoop] in E.
    destruct (SawdustSystem.particles sys !! i) as [p|] eqn:Hp; [|discriminate].
    destruct (SawdustSystem.active p) eqn:Ep; [exact (IH _ _ _ _ E)|].
    destruct (SawdustSystem.activate random sin cos PI pos p (SawdustSystem.rng sys))
      as [[p' color] r'].
    assert (Hkeep : forall j q, SawdustSystem.particles sys !! j = Some q ->
                      SawdustSystem.active q = true ->
                      <[i:=p']> (SawdustSystem.particles sys) !! j = Some q).
    { intros j q Hj Hq. rewrite list_lookup_insert_ne; [exact Hj|].
      intros ->. rewrite Hp in Hj. injection Hj as ->. congruence. }
    destruct (batch <=? S s)%nat.
    + injection E as <-. cbn. auto.
    + apply IH in E as (M & R & I & K). cbn in M, R, I, K.
      repeat split; auto.
Qed.

Lemma tick_keeps (k : nat) (sys sys' : SawdustSystem.System) :
  SawdustSystem.tick random sin cos PI k sys = Some sys' ->
  SawdustSystem.meshCount sys' = SawdustSystem.meshCount sys
  /\ SawdustSystem.meshRef sys' = SawdustSystem.meshRef sys
  /\ (forall j p, SawdustSystem.particles sys !! j = Some p ->
                  SawdustSystem.active p = true ->
                  SawdustSystem.particles sys' !! j = Some p).
Proof.
  unfold SawdustSystem.tick. intros E.
  destruct (SawdustSystem.intervals sys !! k) as [iv|]; [|injection E as <-; auto].
  destruct (SawdustSystem.meshRef sys) eqn:Em.
  - destruct (SawdustSystem.spawnLoop _ _ _ _ _ _ _ _ _ sys) as [sys1|] eqn:E1;
      [|discriminate].
    apply spawnLoop_keeps in E1 as (M & R & _ & K).
    injection E as <-. cbn. rewrite Em in R. auto.
  - injection E as <-. cbn. auto.
Qed.

Lemma frame_keeps (delta : Q) (sys sys' : SawdustSystem.System) :
  length (SawdustSystem.particles sys) = SawdustSystem.count ->
  SawdustSystem.frame random PI delta sys = Some sys' ->
  SawdustSystem.meshCount sys' = SawdustSystem.meshCount sys
  /\ SawdustSystem.meshRef sys' = SawdustSystem.meshRef sys
  /\ SawdustSystem.intervals sys' = SawdustSystem.intervals sys
  /\ map SawdustSystem.active (SawdustSystem.particles sys')
     = map SawdustSystem.active (SawdustSystem.particles sys).
Proof.
  intros Hlen E.
  destruct (frame_spec random PI delta sys Hlen) as (sys1 & E1 & A).
  rewrite E in E1. injection E1 as <-.
  split; [|split; [|split; [|exact A]]];
    unfold SawdustSystem.frame in E;
    destruct (SawdustSystem.meshRef sys) eqn:Em; try (injection E as <-; auto; fail);
    rewrite decide_True in E by lia;
    destruct (SawdustSystem.integrateAll _ _ _ _ _) as [ps r];
    injection E as <-; cbn; auto.
Qed.

(** The drawn instance count and the mesh ref after one event. *)
Lemma step_mesh (e : SawdustSystem.Event) (sys sys' : SawdustSystem.System) :
  length (SawdustSystem.particles sys) = SawdustSystem.count ->
  SawdustSystem.step random sin cos PI e sys = Some sys' ->
  SawdustSystem.meshRef sys' = SawdustSystem.meshRef sys
  /\ SawdustSystem.meshCount sys'
     = (if isClear e && SawdustSystem.meshRef sys then 0%nat
        else SawdustSystem.meshCount sys).
Proof.
  intros Hlen E. destruct e as [pos|k| |delta]; cbn [SawdustSystem.step isClear] in *.
  - injection E as <-. cbn. auto.
  - apply tick_keeps in E as (M & R & _). auto.
  - injection E as <-. cbn. destruct (SawdustSystem.meshRef sys); auto.
  - apply frame_keeps in E as (M & R & _); auto.
Qed.

Lemma run_mesh (events : list SawdustSystem.Event) :
  forall sys sys' : SawdustSystem.System,
    length (SawdustSystem.particles sys) = SawdustSystem.count ->
    SawdustSystem.meshRef sys = true ->
    SawdustSystem.run random sin cos PI events sys = Some sys' ->
    SawdustSystem.meshRef sys' = true
    /\ SawdustSystem.meshCount sys'
       = (if existsb isClear events then 0%nat else SawdustSystem.meshCount sys).
Proof.
  induction events as [|e events IH]; intros sys sys' Hlen Hm E.
  - cbn in E. injection E as <-. auto.
  - cbn [SawdustSystem.run] in E.
    destruct (step_spec random sin cos PI e sys Hlen) as (sys1 & E1 & L1).
    rewrite E1 in E.
    destruct (step_mesh e sys sys1 Hlen E1) as (R1 & M1).
    rewrite Hm in R1, M1. rewrite andb_true_r in M1.
    destruct (IH sys1 sys' L1 R1 E) as (R2 & M2).
    split; [exact R2|]. rewrite M2, M1. cbn [existsb].
    destruct (isClear e), (existsb isClear events); reflexivity.
Qed.

(** A slot that is active stays active through an event that is not
    [clear]. *)
Lemma step_stays_active (e : SawdustSystem.Event) (sys sys' : SawdustSystem.System) :
  length (SawdustSystem.particles sys) = SawdustSystem.count ->
  isClear e = false ->
  SawdustSystem.step random sin cos PI e sys = Some sys' ->
  forall j p, SawdustSystem.particles sys !! j = Some p ->
              SawdustSystem.active p = true ->
              exists p', SawdustSystem.particles sys' !! j = Some p'
                         /\ SawdustSystem.active p' = true.
Proof.
  intros Hlen Hc E j p Hj Hp.
  destruct e as [pos|k| |delta]; cbn [SawdustSystem.step isClear] in *;
    [| | discriminate |].
  - injection E as <-. cbn. eauto.
  - apply tick_keeps in E as (_ & _ & K). eauto.
  - apply frame_keeps in E as (_ & _ & _ & A); [|exact Hlen].
    assert (Hj' : map SawdustSystem.active (SawdustSystem.particles sys) !! j
                  = Some true).
    { rewrite list_lookup_fmap, Hj. cbn. now rewrite Hp. }
    rewrite <- A, list_lookup_fmap in Hj'.
    destruct (SawdustSystem.particles sys' !! j) as [p'|]; [|discriminate].
    cbn in Hj'. injection Hj' as Hp'. eauto.
Qed.

Lemma activeCount_mono (l l' : list SawdustSystem.Particle) :
  Forall2 (fun p q => SawdustSystem.active p = true -> SawdustSystem.active q = true)
    l l' ->
  (SawdustSystem.activeCount l <= SawdustSystem.activeCount l')%nat.
Proof.
  unfold SawdustSystem.activeCount.
  induction 1 as [|p q l l' H F IH]; [reflexivity|].
  destruct (SawdustSystem.active p) eqn:Ep.
  - rewrite (filter_cons_True _ p) by exact Ep.
    rewrite (filter_cons_True _ q) by (apply H; reflexivity). simpl. lia.
  - rewrite (filter_cons_False _ p) by (rewrite Ep; discriminate).
    destruct (SawdustSystem.active q) eqn:Eq.
    + rewrite (filter_cons_True _ q) by exact Eq. simpl. lia.
    + rewrite (filter_cons_False _ q) by (rewrite Eq; discriminate). exact IH.
Qed.

Lemma run_stays_active (events : list SawdustSystem.Event) :
  forall sys sys' : SawdustSystem.System,
    length (SawdustSystem.particles sys) = SawdustSystem.count ->
    existsb isClear events = false ->
    SawdustSystem.run random sin cos PI events sys = Some sys' ->
    forall j p, SawdustSystem.particles sys !! j = Some p ->
                SawdustSystem.active p = true ->
                exists p', SawdustSystem.particles sys' !! j = Some p'
                           /\ SawdustSystem.active p' = true.
Proof.
  induction events as [|e events IH]; intros sys sys' Hlen Hc E j p Hj Hp.
  - cbn in E. injection E as <-. eauto.
  - cbn [SawdustSystem.run] in E. cbn [existsb] in Hc.
    apply orb_false_iff in Hc as [Hc1 Hc2].
    destruct (step_spec random sin cos PI e sys Hlen) as (sys1 & E1 & L1).
    rewrite E1 in E.
    destruct (step_stays_active e sys sys1 Hlen Hc1 E1 j p Hj Hp) as (p1 & Hj1 & Hp1).
    exact (IH sys1 sys' L1 Hc2 E j p1 Hj1 Hp1).
Qed.
End PoolFacts.

(** X12.  After [clear()] nothing is drawn any more.  For every source of
    random numbers and every sequence of bursts, interval ticks, frames and
    clears that reaches a particle system after it is mounted, the number of
    instances the mesh draws is 1200 as long as no [clear()] was among them
    and 0 from the first [clear()] on: no burst, tick or frame sets it
    again, whatever particles they activate. *)
Theorem cleared_pool_draws_nothing (random : nat -> Q) (sin cos : Q -> Q) (PI : Q)
    (events : list SawdustSystem.Event) :
  exists sys,
    SawdustSystem.run random sin cos PI events SawdustSystem.initial = Some sys
    /\ SawdustSystem.meshCount sys
       = (if existsb isClear events then 0%nat else 1200%nat).
Proof.
  destruct (run_spec random sin cos PI events SawdustSystem.initial)
    as (sys & E & _); [apply length_replicate|].
  exists sys. split; [exact E|].
  destruct (run_mesh random sin cos PI events SawdustSystem.initial sys) as (_ & M);
    [apply length_replicate|reflexivity|exact E|exact M].
Qed.

(** X13.  A particle stays active until [clear()].  For every sequence of
    bursts, interval ticks and frames without a [clear()], on a pool of
    1200 slots: no step fails, every slot that was active is still active
    afterwards, and so the number of active particles has not gone down. *)
Theorem particles_stay_active_until_clear (random : nat -> Q) (sin cos : Q -> Q)
    (PI : Q) (events : list SawdustSystem.Event) (sys : SawdustSystem.System) :
  length (SawdustSystem.particles sys) = SawdustSystem.count ->
  existsb isClear events = false ->
  exists sys',
    SawdustSystem.run random sin cos PI events sys = Some sys'
    /\ (forall j p, SawdustSystem.particles sys !! j = Some p ->
                    SawdustSystem.active p = true ->
                    exists p', SawdustSystem.particles sys' !! j = Some p'
                               /\ SawdustSystem.active p' = true)
    /\ (SawdustSystem.activeCount (SawdustSystem.particles sys)
        <= SawdustSystem.activeCount (SawdustSystem.particles sys'))%nat.
Proof.
  intros Hlen Hc.
  destruct (run_spec random sin cos PI events sys Hlen) as (sys' & E & L).
  exists sys'. split; [exact E|].
  pose proof (run_stays_active random sin cos PI events sys sys' Hlen Hc E) as K.
  split; [exact K|].
  apply activeCount_mono, Forall2_same_length_lookup_2; [congruence|].
  intros j p q Hp Hq Ha. destruct (K j p Hp Ha) as (p' & Hp' & Ha').
  rewrite Hq in Hp'. now injection Hp' as ->.
Qed.

(** Four active particles, then free slots. *)
Lemma particles_stay_active_until_clear_example :
  let lit := SawdustSystem.mkParticle true (vec3 0 1 0) (vec3 0 0 0) (vec3 0 0 0)
               (vec3 0 0 0) 1 0 false in
  let sys := SawdustSystem.mkSystem true 1200
               (replicate 4 lit ++ replicate 1196 SawdustSystem.fresh)
               (replicate 1200 0%nat) [] 0 in
  let events := [SawdustSystem.EvSpawnBurst (vec3 0 0.4 0); SawdustSystem.EvTick 0;
                 SawdustSystem.EvFrame 1; SawdustSystem.EvTick 0] in
  exists sys',
    SawdustSystem.run (fun _ => 0) (fun _ => 0) (fun _ => 0) 3 events sys = Some sys'
    /\ (4 <= SawdustSystem.activeCount (SawdustSystem.particles sys'))%nat.
Proof.
  intros lit sys events.
  destruct (particles_stay_active_until_clear (fun _ => 0) (fun _ => 0) (fun _ => 0)
              3 events sys) as (sys' & E & _ & C).
  - vm_compute. reflexivity.
  - reflexivity.
  - exists sys'. split; [exact E|].
    change (SawdustSystem.activeCount (SawdustSystem.particles sys)) with 4%nat in C.
    exact C.
Defined.

Section Bursts.
Variable random : nat -> Q.
Variables sin cos : Q -> Q.
Variable PI : Q.

Lemma run_app (a b : list SawdustSystem.Event) (sys : SawdustSystem.System) :
  SawdustSystem.run random sin cos PI (a ++ b) sys
  = match SawdustSystem.run random sin cos PI a sys with
    | Some sys1 => SawdustSystem.run random sin cos PI b sys1
    | None => None
    end.
Proof.
  revert sys. induction a as [|e a IH]; intros sys; [reflexivity|].
  rewrite <- app_comm_cons. cbn [SawdustSystem.run].
  destruct (SawdustSystem.step random sin cos PI e sys); [apply IH|reflexivity].
Qed.

(** One firing of an interval that is running. *)
Lemma tick_running (k : nat) (sys : SawdustSystem.System) (iv : SawdustSystem.Interval) :
  length (SawdustSystem.particles sys) = SawdustSystem.count ->
  SawdustSystem.meshRef sys = true ->
  SawdustSystem.intervals sys !! k = Some iv ->
  exists sys',
    SawdustSystem.tick random sin cos PI k sys = Some sys'
    /\ length (SawdustSystem.particles sys') = SawdustSystem.count
    /\ SawdustSystem.meshRef sys' = true
    /\ SawdustSystem.activeCount (SawdustSystem.particles sys')
       = Nat.min (SawdustSystem.activeCount (SawdustSystem.particles sys) + 4)
                 SawdustSystem.count
    /\ SawdustSystem.intervals sys'
       = if (SawdustSystem.duration <=? S (SawdustSystem.iter iv))%nat
         then delete k (SawdustSystem.intervals sys)
         else <[k := SawdustSystem.mkInterval (SawdustSystem.origin iv)
                       (S (SawdustSystem.iter iv))]> (SawdustSystem.intervals sys).
Proof.
  intros Hlen Hm Hk.
  destruct (tick_spec random sin cos PI k sys Hlen) as (sys' & E & L & _ & C & _).
  exists sys'. split; [exact E|]. split; [exact L|].
  specialize (C (ex_intro _ iv Hk) Hm).
  unfold SawdustSystem.tick in E. rewrite Hk, Hm in E.
  destruct (SawdustSystem.spawnLoop _ _ _ _ _ _ _ _ _ sys) as [sys1|] eqn:E1;
    [|discriminate].
  apply spawnLoop_keeps in E1 as (_ & R & I & _).
  injection E as <-. cbn. rewrite R, I. auto.
Qed.

(** The remaining firings of the last interval, [n] of them. *)
Lemma burst_ticks (pos : Vector3) (n : nat) :
  forall (sys : SawdustSystem.System) (ivs : list SawdustSystem.Interval) (it : nat),
    length (SawdustSystem.particles sys) = SawdustSystem.count ->
    SawdustSystem.meshRef sys = true ->
    SawdustSystem.intervals sys = ivs ++ [SawdustSystem.mkInterval pos it] ->
    (it + S n = SawdustSystem.duration)%nat ->
    exists sys',
      SawdustSystem.run random sin cos PI
        (replicate (S n) (SawdustSystem.EvTick (length ivs))) sys = Some sys'
      /\ length (SawdustSystem.particles sys') = SawdustSystem.count
      /\ SawdustSystem.meshRef sys' = true
      /\ SawdustSystem.intervals sys' = ivs
      /\ SawdustSystem.activeCount (SawdustSystem.particles sys')
         = Nat.min (SawdustSystem.activeCount (SawdustSystem.particles sys) + 4 * S n)
                   SawdustSystem.count.
Proof.
  induction n as [|n IH]; intros sys ivs it Hlen Hm Hi Hit.
  - destruct (tick_running (length ivs) sys (SawdustSystem.mkInterval pos it) Hlen Hm)
      as (sys' & E & L & M & C & I).
    { rewrite Hi. now apply list_lookup_middle. }
    cbn [replicate SawdustSystem.run SawdustSystem.step]. rewrite E.
    exists sys'. split; [reflexivity|]. split; [exact L|]. split; [exact M|].
    split; [|rewrite C; lia].
    rewrite I. cbn [SawdustSystem.iter].
    replace (SawdustSystem.duration <=? S it)%nat with true
      by (symmetry; apply Nat.leb_le; lia).
    rewrite Hi. rewrite delete_middle. apply app_nil_r.
  - destruct (tick_running (length ivs) sys (SawdustSystem.mkInterval pos it) Hlen Hm)
      as (sys1 & E & L & M & C & I).
    { rewrite Hi. now apply list_lookup_middle. }
    cbn [SawdustSystem.iter SawdustSystem.origin] in I.
    replace (SawdustSystem.duration <=? S it)%nat with false in I
      by (symmetry; apply Nat.leb_gt; lia).
    rewrite Hi, insert_app_r_alt, Nat.sub_diag in I by lia. cbn in I.
    destruct (IH sys1 ivs (S it) L M I ltac:(lia)) as (sys' & E' & L' & M' & I' & C').
    exists sys'. split.
    { change (replicate (S (S n)) ?x) with (x :: replicate (S n) x).
      cbn [SawdustSystem.run SawdustSystem.step]. rewrite E. exact E'. }
    split; [exact L'|]. split; [exact M'|]. split; [exact I'|].
    rewrite C', C. unfold SawdustSystem.count. lia.
Qed.

Lemma one_burst (pos : Vector3) (sys : SawdustSystem.System) :
  length (SawdustSystem.particles sys) = SawdustSystem.count ->
  SawdustSystem.meshRef sys = true ->
  exists sys',
    SawdustSystem.run random sin cos PI (oneBurst pos sys) sys = Some sys'
    /\ length (SawdustSystem.particles sys') = SawdustSystem.count
    /\ SawdustSystem.meshRef sys' = true
    /\ SawdustSystem.intervals sys' = SawdustSystem.intervals sys
    /\ SawdustSystem.activeCount (SawdustSystem.particles sys')
       = Nat.min (SawdustSystem.activeCount (SawdustSystem.particles sys) + 60)
                 SawdustSystem.count.
Proof.
  intros Hlen Hm. unfold oneBurst.
  cbn [SawdustSystem.run SawdustSystem.step].
  destruct (burst_ticks pos 14 (SawdustSystem.spawnBurst pos sys)
              (SawdustSystem.intervals sys) 0 Hlen Hm eq_refl eq_refl)
    as (sys' & E & L & M & I & C).
  exists sys'. split; [exact E|]. auto.
Qed.

Lemma many_bursts (pos : Vector3) (n : nat) :
  forall sys : SawdustSystem.System,
    length (SawdustSystem.particles sys) = SawdustSystem.count ->
    SawdustSystem.meshRef sys = true ->
    SawdustSystem.intervals sys = [] ->
    exists sys',
      SawdustSystem.run random sin cos PI
        (concat (replicate n (oneBurst pos SawdustSystem.initial))) sys = Some sys'
      /\ SawdustSystem.intervals sys' = []
      /\ SawdustSystem.activeCount (SawdustSystem.particles sys')
         = Nat.min (SawdustSystem.activeCount (SawdustSystem.particles sys) + 60 * n)
                   SawdustSystem.count.
Proof.
  induction n as [|n IH]; intros sys Hlen Hm Hi.
  - exists sys. cbn [replicate concat SawdustSystem.run].
    pose proof (activeCount_le (SawdustSystem.particles sys)).
    split; [reflexivity|]. split; [exact Hi|]. lia.
  - cbn [replicate concat]. rewrite run_app.
    assert (Eb : oneBurst pos SawdustSystem.initial = oneBurst pos sys).
    { unfold oneBurst. rewrite Hi. reflexivity. }
    destruct (one_burst pos sys Hlen Hm) as (sys1 & E & L & M & I & C).
    rewrite <- Eb in E. rewrite E. rewrite Hi in I.
    destruct (IH sys1 L M I) as (sys' & E' & I' & C').
    exists sys'. split; [exact E'|]. split; [exact I'|].
    rewrite C', C. unfold SawdustSystem.count. lia.
Qed.
End Bursts.

(** X14.  A burst is sixty particles in fifteen ticks.  On a mounted pool of
    1200 slots, [spawnBurst] followed by the fifteen firings of the interval
    it starts activates 60 particles, or as many as there are free slots if
    fewer, and leaves the running intervals as they were: the interval has
    cleared itself, and a sixteenth firing changes nothing.  From the
    mounted pool, [n] bursts one after the other leave [min (60 * n) 1200]
    particles active: the pool is full after twenty bursts and later
    bursts add nothing. *)
Theorem burst_delivers_sixty (random : nat -> Q) (sin cos : Q -> Q) (PI : Q)
    (pos : Vector3) :
  (forall sys : SawdustSystem.System,
      length (SawdustSystem.particles sys) = SawdustSystem.count ->
      SawdustSystem.meshRef sys = true ->
      exists sys',
        SawdustSystem.run random sin cos PI (oneBurst pos sys) sys = Some sys'
        /\ SawdustSystem.activeCount (SawdustSystem.particles sys')
           = Nat.min (SawdustSystem.activeCount (SawdustSystem.particles sys) + 60)
                     1200
        /\ SawdustSystem.intervals sys' = SawdustSystem.intervals sys
        /\ SawdustSystem.tick random sin cos PI
             (length (SawdustSystem.intervals sys)) sys' = Some sys')
  /\ (forall n : nat,
        exists sys',
          SawdustSystem.run random sin cos PI
            (concat (replicate n (oneBurst pos SawdustSystem.initial)))
            SawdustSystem.initial = Some sys'
          /\ SawdustSystem.activeCount (SawdustSystem.particles sys')
             = Nat.min (60 * n) 1200).
Proof.
  split.
  - intros sys Hlen Hm.
    destruct (one_burst random sin cos PI pos sys Hlen Hm)
      as (sys' & E & L & M & I & C).
    exists sys'. split; [exact E|]. split; [exact C|]. split; [exact I|].
    unfold SawdustSystem.tick. rewrite I.
    rewrite lookup_ge_None_2 by lia. reflexivity.
  - intros n.
    destruct (many_bursts random sin cos PI pos n SawdustSystem.initial)
      as (sys' & E & _ & C); [apply length_replicate|reflexivity|reflexivity|].
    exists sys'. split; [exact E|].
    rewrite C, initial_pool_idle. reflexivity.
Qed.

(** One burst on the mounted pool, and twenty-one of them. *)
Lemma burst_delivers_sixty_on_the_mounted_pool :
  (exists sys',
     SawdustSystem.run (fun _ => 0) (fun _ => 0) (fun _ => 0) 3
       (oneBurst (vec3 0 0.4 0) SawdustSystem.initial) SawdustSystem.initial
     = Some sys'
     /\ SawdustSystem.activeCount (SawdustSystem.particles sys') = 60%nat)
  /\ (exists sys',
        SawdustSystem.run (fun _ => 0) (fun _ => 0) (fun _ => 0) 3
          (concat (replicate 21 (oneBurst (vec3 0 0.4 0) SawdustSystem.initial)))
          SawdustSystem.initial = Some sys'
        /\ SawdustSystem.activeCount (SawdustSystem.particles sys') = 1200%nat).
Proof.
  destruct (burst_delivers_sixty (fun _ => 0) (fun _ => 0) (fun _ => 0) 3
              (vec3 0 0.4 0)) as [One Many].
  split.
  - destruct (One SawdustSystem.initial) as (sys' & E & C & _);
      [apply length_replicate|reflexivity|].
    exists sys'. split; [exact E|]. rewrite C, initial_pool_idle. reflexivity.
  - destruct (Many 21%nat) as (sys' & E & C). exists sys'. split; [exact E|].
    rewrite C. reflexivity.
Defined.

Section Floor.
Variable random : nat -> Q.
Variables sin cos : Q -> Q.
Variable PI : Q.
Hypothesis random_nonneg : forall k, 0 <= random k.

Let lands (p : SawdustSystem.Particle) : Prop :=
  SawdustSystem.active p = true ->
  SawdustSystem.floorY <= v_y (SawdustSystem.position p).

Lemma activate_above (pos : Vector3) (p : SawdustSystem.Particle) (r : nat) :
  SawdustSystem.floorY <= v_y pos ->
  lands (fst (fst (SawdustSystem.activate random sin cos PI pos p r))).
Proof.
  intros Hpos _. cbn. pose proof (random_nonneg (r + 1)). lra.
Qed.

Lemma spawnLoop_above (batch : nat) (pos : Vector3) (fuel : nat) :
  SawdustSystem.floorY <= v_y pos ->
  forall (i s : nat) (sys sys' : SawdustSystem.System),
    aboveFloor (SawdustSystem.particles sys) ->
    SawdustSystem.spawnLoop random sin cos PI fuel i s batch pos sys = Some sys' ->
    aboveFloor (SawdustSystem.particles sys').
Proof.
  intros Hpos. induction fuel as [|fuel IH]; intros i s sys sys' Ha E.
  - cbn in E. now injection E as <-.
  - cbn [SawdustSystem.spawnLoop] in E.
    destruct (SawdustSystem.particles sys !! i) as [p|] eqn:Hp; [|discriminate].
    destruct (SawdustSystem.active p) eqn:Ep; [exact (IH _ _ _ _ Ha E)|].
    pose proof (activate_above pos p (SawdustSystem.rng sys) Hpos) as Hl.
    destruct (SawdustSystem.activate random sin cos PI pos p (SawdustSystem.rng sys))
      as [[p' color] r'].
    cbn [fst] in Hl.
    assert (Ha' : aboveFloor (<[i:=p']> (SawdustSystem.particles sys))).
    { apply Forall_insert; assumption. }
    destruct (batch <=? S s)%nat.
    + injection E as <-. exact Ha'.
    + eapply IH; [|exact E]. exact Ha'.
Qed.

Lemma integrate_above (dt : Q) (p : SawdustSystem.Particle) (r : nat) :
  lands p -> lands (fst (SawdustSystem.integrate random PI dt p r)).
Proof.
  intros Hp. unfold SawdustSystem.integrate.
  destruct (SawdustSystem.active p && negb (SawdustSystem.isPiled p)); [|exact Hp].
  cbv zeta. destruct (Qle_bool _ SawdustSystem.floorY) eqn:Eb; intros _; cbn.
  - pose proof (random_nonneg r). lra.
  - apply Qle_bool_false_iff in Eb. cbn in Eb. lra.
Qed.

Lemma integrateAll_above (dt : Q) (ps : list SawdustSystem.Particle) :
  forall r : nat,
    aboveFloor ps ->
    aboveFloor (fst (SawdustSystem.integrateAll random PI dt ps r)).
Proof.
  induction ps as [|p ps IH]; intros r Ha; [constructor|].
  cbn [SawdustSystem.integrateAll].
  apply Forall_cons in Ha as [Hp Ha].
  pose proof (integrate_above dt p r Hp) as Hp1.
  destruct (SawdustSystem.integrate random PI dt p r) as [p1 r1].
  specialize (IH r1 Ha).
  destruct (SawdustSystem.integrateAll random PI dt ps r1) as [ps1 r2].
  constructor; assumption.
Qed.

Let grounded (sys : SawdustSystem.System) : Prop :=
  aboveFloor (SawdustSystem.particles sys)
  /\ Forall (fun iv => SawdustSystem.floorY <= v_y (SawdustSystem.origin iv))
       (SawdustSystem.intervals sys).

Lemma step_above (e : SawdustSystem.Event) (sys sys' : SawdustSystem.System) :
  burstsAboveFloor [e] ->
  grounded sys ->
  SawdustSystem.step random sin cos PI e sys = Some sys' ->
  grounded sys'.
Proof.
  intros He [Ha Hi] E. apply Forall_cons in He as [He _].
  destruct e as [pos|k| |delta]; cbn [SawdustSystem.step] in E.
  - injection E as <-. split; [exact Ha|]. cbn.
    apply Forall_app. split; [exact Hi|]. repeat constructor. exact He.
  - unfold SawdustSystem.tick in E.
    destruct (SawdustSystem.intervals sys !! k) as [iv|] eqn:Hk;
      [|injection E as <-; split; assumption].
    pose proof (Forall_lookup_1 _ _ _ _ Hi Hk) as Hiv. cbn in Hiv.
    destruct (SawdustSystem.meshRef sys).
    + destruct (SawdustSystem.spawnLoop _ _ _ _ _ _ _ _ _ sys) as [sys1|] eqn:E1;
        [|discriminate].
      pose proof (spawnLoop_above _ _ _ Hiv _ _ _ _ Ha E1) as Ha1.
      apply spawnLoop_keeps in E1 as (_ & _ & I1 & _).
      injection E as <-. split; [exact Ha1|]. cbn. rewrite I1.
      match goal with |- context [if ?c then _ else _] => destruct c end;
        [now apply Forall_delete|].
      apply Forall_insert; assumption.
    + injection E as <-. split; [exact Ha|]. cbn. now apply Forall_delete.
  - injection E as <-. split; [|exact Hi]. cbn.
    apply Forall_fmap, Forall_forall. intros p _ Hp. discriminate.
  - unfold SawdustSystem.frame in E.
    destruct (SawdustSystem.meshRef sys); [|injection E as <-; split; assumption].
    destruct (decide _); [|discriminate].
    pose proof (integrateAll_above (Qmin delta 0.1)
                  (take SawdustSystem.count (SawdustSystem.particles sys))
                  (SawdustSystem.rng sys) (Forall_take _ _ _ Ha)) as Ht.
    destruct (SawdustSystem.integrateAll _ _ _ _ _) as [ps r].
    injection E as <-. split; [|exact Hi]. cbn.
    apply Forall_app. split; [exact Ht|now apply Forall_drop].
Qed.

Lemma run_above (events : list SawdustSystem.Event) :
  forall sys sys' : SawdustSystem.System,
    burstsAboveFloor events ->
    grounded sys ->
    SawdustSystem.run random sin cos PI events sys = Some sys' ->
    grounded sys'.
Proof.
  induction events as [|e events IH]; intros sys sys' He Hg E.
  - cbn in E. now injection E as <-.
  - cbn [SawdustSystem.run] in E. apply Forall_cons in He as [He1 He].
    destruct (SawdustSystem.step random sin cos PI e sys) as [sys1|] eqn:E1;
      [|discriminate].
    apply (IH sys1 sys' He); [|exact E].
    apply (step_above e sys sys1); [|exact Hg|exact E1].
    constructor; [exact He1|constructor].
Qed.
End Floor.

(** X15.  Sawdust does not fall through the floor.  When [Math.random] never
    returns a negative number and every burst starts at the height of the
    floor (0.01) or above, then for every sequence of bursts, interval
    ticks, frames and clears that reaches the mounted pool no active
    particle is below the floor afterwards. *)
Theorem sawdust_stays_above_the_floor (random : nat -> Q) (sin cos : Q -> Q)
    (PI : Q) (events : list SawdustSystem.Event) :
  (forall k, 0 <= random k) ->
  burstsAboveFloor events ->
  exists sys,
    SawdustSystem.run random sin cos PI events SawdustSystem.initial = Some sys
    /\ aboveFloor (SawdustSystem.particles sys).
Proof.
  intros Hr He.
  destruct (run_spec random sin cos PI events SawdustSystem.initial)
    as (sys & E & _); [apply length_replicate|].
  exists sys. split; [exact E|].
  apply (run_above random sin cos PI Hr events SawdustSystem.initial sys He);
    [|exact E].
  split; [|constructor].
  apply Forall_forall. intros p Hp. apply elem_of_replicate in Hp as [-> _].
  discriminate.
Qed.

(** A burst over the bottom board, two ticks and a long frame. *)
Lemma sawdust_stays_above_the_floor_example :
  exists sys,
    SawdustSystem.run (fun _ => 0) (fun _ => 0) (fun _ => 0) 3
      [SawdustSystem.EvSpawnBurst (vec3 0 0.4 0); SawdustSystem.EvTick 0;
       SawdustSystem.EvTick 0; SawdustSystem.EvFrame 1]
      SawdustSystem.initial = Some sys
    /\ aboveFloor (SawdustSystem.particles sys).
Proof.
  apply sawdust_stays_above_the_floor.
  - intros k. discriminate.
  - repeat constructor. discriminate.
Defined.

Section Resting.
Variable random : nat -> Q.
Variables sin cos : Q -> Q.
Variable PI : Q.

Lemma integrate_resting (dt : Q) (p : SawdustSystem.Particle) (r : nat) :
  SawdustSystem.active p = false \/ SawdustSystem.isPiled p = true ->
  SawdustSystem.integrate random PI dt p r = (p, r).
Proof.
  intros H. unfold SawdustSystem.integrate.
  destruct H as [-> | ->]; [reflexivity|].
  now rewrite andb_false_r.
Qed.

Lemma integrateAll_resting (dt : Q) (ps : list SawdustSystem.Particle) :
  forall (r j : nat) (p : SawdustSystem.Particle),
    ps !! j = Some p ->
    SawdustSystem.active p = false \/ SawdustSystem.isPiled p = true ->
    fst (SawdustSystem.integrateAll random PI dt ps r) !! j = Some p.
Proof.
  induction ps as [|q ps IH]; intros r j p Hj Hp; [discriminate|].
  cbn [SawdustSystem.integrateAll].
  destruct j as [|j]; cbn in Hj.
  - injection Hj as ->. rewrite (integrate_resting dt p r Hp).
    destruct (SawdustSystem.integrateAll random PI dt ps r). reflexivity.
  - destruct (SawdustSystem.integrate random PI dt q r) as [q1 r1].
    specialize (IH r1 j p Hj Hp).
    destruct (SawdustSystem.integrateAll random PI dt ps r1). exact IH.
Qed.

Lemma frame_resting (delta : Q) (sys sys' : SawdustSystem.System)
    (j : nat) (p : SawdustSystem.Particle) :
  SawdustSystem.frame random PI delta sys = Some sys' ->
  SawdustSystem.particles sys !! j = Some p ->
  SawdustSystem.active p = false \/ SawdustSystem.isPiled p = true ->
  SawdustSystem.particles sys' !! j = Some p.
Proof.
  unfold SawdustSystem.frame. intros E Hj Hp.
  destruct (SawdustSystem.meshRef sys); [|now injection E as <-].
  destruct (decide _) as [Hc|]; [|discriminate].
  destruct (SawdustSystem.integrateAll random PI (Qmin delta 0.1)
              (take SawdustSystem.count (SawdustSystem.particles sys))
              (SawdustSystem.rng sys)) as [ps r] eqn:Ei.
  injection E as <-. cbn [SawdustSystem.particles].
  destruct (Nat.lt_ge_cases j SawdustSystem.count) as [Hlt|Hge].
  - pose proof (integrateAll_resting (Qmin delta 0.1)
                  (take SawdustSystem.count (SawdustSystem.particles sys))
                  (SawdustSystem.rng sys) j p) as H.
    rewrite Ei in H. cbn [fst] in H.
    rewrite lookup_take_lt in H by exact Hlt. specialize (H Hj Hp).
    rewrite lookup_app_l; [exact H|]. now apply lookup_lt_Some in H.
  - pose proof (integrateAll_active random PI (Qmin delta 0.1)
                  (take SawdustSystem.count (SawdustSystem.particles sys))
                  (SawdustSystem.rng sys)) as A.
    rewrite Ei in A. cbn [fst] in A.
    assert (L : length ps = SawdustSystem.count).
    { rewrite <- (length_map SawdustSystem.active), A, length_map, length_take. lia. }
    rewrite lookup_app_r by lia. rewrite lookup_drop, L.
    replace (SawdustSystem.count + (j - SawdustSystem.count))%nat with j by lia.
    exact Hj.
Qed.

Lemma run_resting (events : list SawdustSystem.Event) :
  forall (sys sys' : SawdustSystem.System) (j : nat) (p : SawdustSystem.Particle),
    existsb isClear events = false ->
    SawdustSystem.run random sin cos PI events sys = Some sys' ->
    SawdustSystem.particles sys !! j = Some p ->
    SawdustSystem.active p = true ->
    SawdustSystem.isPiled p = true ->
    SawdustSystem.particles sys' !! j = Some p.
Proof.
  induction events as [|e events IH]; intros sys sys' j p Hc E Hj Ha Hp.
  - cbn in E. now injection E as <-.
  - cbn [SawdustSystem.run] in E. cbn [existsb] in Hc.
    apply orb_false_iff in Hc as [Hc1 Hc2].
    destruct (SawdustSystem.step random sin cos PI e sys) as [sys1|] eqn:E1;
      [|discriminate].
    apply (IH sys1 sys' j p Hc2 E); [|exact Ha|exact Hp].
    destruct e as [pos|k| |delta]; cbn [SawdustSystem.step isClear] in *;
      [| |discriminate|].
    + injection E1 as <-. exact Hj.
    + apply tick_keeps in E1 as (_ & _ & K). now apply K.
    + apply (frame_resting delta sys sys1 j p E1 Hj). now right.
Qed.
End Resting.

(** X16.  Sawdust that has piled up rests.  On a pool of 1200 slots and for
    every sequence of bursts, interval ticks and frames without a
    [clear()], a particle that is active and piled is afterwards in the
    same slot with the same position, rotation and scale: frames skip it
    and ticks activate free slots only.  A frame longer than 0.1 s is
    integrated as one of 0.1 s. *)
Theorem piled_sawdust_rests (random : nat -> Q) (sin cos : Q -> Q) (PI : Q) :
  (forall (events : list SawdustSystem.Event) (sys : SawdustSystem.System)
          (j : nat) (p : SawdustSystem.Particle),
      length (SawdustSystem.particles sys) = SawdustSystem.count ->
      existsb isClear events = false ->
      SawdustSystem.particles sys !! j = Some p ->
      SawdustSystem.active p = true ->
      SawdustSystem.isPiled p = true ->
      exists sys',
        SawdustSystem.run random sin cos PI events sys = Some sys'
        /\ SawdustSystem.particles sys' !! j = Some p)
  /\ (forall (delta : Q) (sys : SawdustSystem.System),
        0.1 < delta ->
        SawdustSystem.frame random PI delta sys = SawdustSystem.frame random PI 0.1 sys).
Proof.
  split.
  - intros events sys j p Hlen Hc Hj Ha Hp.
    destruct (run_spec random sin cos PI events sys Hlen) as (sys' & E & _).
    exists sys'. split; [exact E|].
    exact (run_resting random sin cos PI events sys sys' j p Hc E Hj Ha Hp).
  - intros delta sys Hd. unfold SawdustSystem.frame.
    assert (E : Qmin delta 0.1 = Qmin 0.1 0.1).
    { unfold Qmin, GenericMinMax.gmin.
      apply Qgt_alt in Hd. rewrite Hd. reflexivity. }
    rewrite E. reflexivity.
Qed.

(** A piled particle in the first slot, through a burst, its ticks and a
    frame; and a frame of one second. *)
Lemma piled_sawdust_rests_example :
  let pile := SawdustSystem.mkParticle true (vec3 0 0.03 0) (vec3 0 0 0)
                (vec3 0 0 0) (vec3 0 0 0) 0.9 0 true in
  let sys := SawdustSystem.mkSystem true 1200
               (pile :: replicate 1199 SawdustSystem.fresh)
               (replicate 1200 0%nat) [] 0 in
  let events := [SawdustSystem.EvSpawnBurst (vec3 0 0.4 0); SawdustSystem.EvTick 0;
                 SawdustSystem.EvFrame 1; SawdustSystem.EvTick 0] in
  (exists sys',
     SawdustSystem.run (fun _ => 0) (fun _ => 0) (fun _ => 0) 3 events sys = Some sys'
     /\ SawdustSystem.particles sys' !! 0%nat = Some pile)
  /\ SawdustSystem.frame (fun _ => 0) 3 1 sys = SawdustSystem.frame (fun _ => 0) 3 0.1 sys.
Proof.
  intros pile sys events.
  destruct (piled_sawdust_rests (fun _ => 0) (fun _ => 0) (fun _ => 0) 3) as [R F].
  split.
  - apply (R events sys 0%nat pile); reflexivity.
  - apply F. reflexivity.
Defined.

(** ** The router and the drill *)

Lemma clamp_bounds (t : Q) : -1 <= Qmax (-1.0) (Qmin 1.0 t) <= 1.
Proof.
  split.
  - pose proof (Q.le_max_l (-1.0) (Qmin 1.0 t)). lra.
  - apply Q.max_lub; [lra|]. pose proof (Q.le_min_l 1.0 t). lra.
Qed.

Lemma clamp_inside (t : Q) : -1 <= t <= 1 -> Qmax (-1.0) (Qmin 1.0 t) == t.
Proof.
  intros [H1 H2].
  rewrite Q.min_r by lra. rewrite Q.max_r by lra. reflexivity.
Qed.

Lemma routerRun_app (variant : RouterTool.Variant) (phase : GamePhase) (zB : Q)
    (l k : list RouterEvent) :
  forall st,
    routerRun variant phase zB (l ++ k) st
    = (fst (routerRun variant phase zB k (fst (routerRun variant phase zB l st))),
       snd (routerRun variant phase zB l st)
       ++ snd (routerRun variant phase zB k (fst (routerRun variant phase zB l st)))).
Proof.
  induction l as [|e l IH]; intros st.
  - cbn. now destruct (routerRun variant phase zB k st).
  - rewrite <- app_comm_cons. cbn [routerRun].
    destruct (routerStep variant phase zB e st) as [st1 calls].
    rewrite IH.
    destruct (routerRun variant phase zB l st1) as [st2 log]. cbn [fst snd].
    now rewrite app_assoc.
Qed.

Lemma cutsOf_app (l k : list RouterTool.Emit) : cutsOf (l ++ k) = cutsOf l ++ cutsOf k.
Proof. apply flat_map_app. Qed.

Lemma cutsOf_onCut (x z : Q) (log : list RouterTool.Emit) :
  cutsOf (RouterTool.onCut x z :: log) = (x, z) :: cutsOf log.
Proof. reflexivity. Qed.

Lemma runHandler_app_fst {St I : Type} (h : I -> St -> St * list Call)
    (l k : list I) :
  forall st,
    fst (runHandler h (l ++ k) st) = fst (runHandler h k (fst (runHandler h l st))).
Proof.
  induction l as [|i l IH]; intros st; [reflexivity|].
  rewrite <- app_comm_cons, !runHandler_cons. cbn [fst]. apply IH.
Qed.

Section RouterFacts.
Variable phase : GamePhase.
Variable zB : Q.

Let wy : Q := RouterTool.workY RouterTool.router phase.
Let wz : Q := RouterTool.workZ phase zB.

Lemma router_frame_held (hit : option Vector3) (delta : Q) (st : RouterTool.State) :
  RouterTool.dragging st = true ->
  let x' := RouterTool.lerp (v_x (RouterTool.position st))
              (Qmax (-1.0) (Qmin 1.0 (v_x (intersectPlane hit)))) 0.3 in
  RouterTool.frame RouterTool.router phase zB hit delta st
  = (RouterTool.mkState (vec3 x' wy wz) true (RouterTool.bitRotation st + delta * 40),
     [RouterTool.onCut x' wz]).
Proof. intros H. unfold RouterTool.frame. rewrite H. reflexivity. Qed.

Lemma router_frame_idle (hit : option Vector3) (delta : Q) (st : RouterTool.State) :
  RouterTool.dragging st = false ->
  RouterTool.frame RouterTool.router phase zB hit delta st
  = (RouterTool.mkState (RouterTool.position st) false
       (RouterTool.bitRotation st + delta * 2), []).
Proof. intros H. unfold RouterTool.frame. rewrite H. reflexivity. Qed.

(** Where the router is and where it has cut. *)
Let reach (st : RouterTool.State) : Prop :=
  -1 < v_x (RouterTool.position st) <= 1.5
  /\ v_y (RouterTool.position st) = wy
  /\ v_z (RouterTool.position st) = wz.

Let cutReach (p : Q * Q) : Prop := -1 < fst p <= 1.35 /\ snd p = wz.

Lemma router_step_reach (e : RouterEvent) (st : RouterTool.State) :
  reach st ->
  reach (fst (routerStep RouterTool.router phase zB e st))
  /\ Forall cutReach (cutsOf (snd (routerStep RouterTool.router phase zB e st))).
Proof.
  intros (Hx & Hy & Hz). destruct e as [hit delta| |]; cbn [routerStep].
  - destruct (RouterTool.dragging st) eqn:D.
    + rewrite router_frame_held by exact D. cbn [fst snd cutsOf flat_map app].
      pose proof (clamp_bounds (v_x (intersectPlane hit))) as Hc.
      set (c := Qmax (-1.0) (Qmin 1.0 (v_x (intersectPlane hit)))) in *.
      assert (Hb : -1 < RouterTool.lerp (v_x (RouterTool.position st)) c 0.3 <= 1.35).
      { unfold RouterTool.lerp. split; lra. }
      split.
      * unfold reach. cbn [RouterTool.position v_x v_y v_z].
        repeat split; lra.
      * constructor; [|constructor]. split; [exact Hb|reflexivity].
    + rewrite router_frame_idle by exact D. cbn [fst snd cutsOf flat_map].
      split; [|constructor]. unfold reach. cbn [RouterTool.position]. auto.
  - cbn. split; [|constructor]. unfold reach. auto.
  - cbn. split; [|constructor]. unfold reach. auto.
Qed.

Lemma router_run_reach (events : list RouterEvent) :
  forall st,
    reach st ->
    reach (fst (routerRun RouterTool.router phase zB events st))
    /\ Forall cutReach (cutsOf (snd (routerRun RouterTool.router phase zB events st))).
Proof.
  induction events as [|e events IH]; intros st H.
  - cbn. split; [exact H|constructor].
  - cbn [routerRun].
    destruct (router_step_reach e st H) as [H1 C1].
    destruct (routerStep RouterTool.router phase zB e st) as [st1 calls].
    cbn [fst snd] in H1, C1.
    destruct (IH st1 H1) as [H2 C2].
    destruct (routerRun RouterTool.router phase zB events st1) as [st2 log].
    cbn [fst snd] in *. split; [exact H2|].
    rewrite cutsOf_app. apply Forall_app. split; assumption.
Qed.
End RouterFacts.

(** X17.  The router stays between the left edge of the board and the place
    where it rests.  From its mounting and whatever the pointer does (frames
    with a ray that meets the work plane anywhere or misses it, presses,
    releases), the router is at -1 < x <= 1.5 at the height and depth of
    the work of its phase, and every [onCut] it makes reports
    -1 < x <= 1.35 and that depth. *)
Theorem router_stays_between_edge_and_rest (phase : GamePhase) (zBackPosition : Q)
    (events : list RouterEvent) :
  let run := routerRun RouterTool.router phase zBackPosition events
               (RouterTool.initial RouterTool.router phase zBackPosition) in
  let p := RouterTool.position (fst run) in
  (-1 < v_x p <= 1.5
   /\ v_y p = RouterTool.workY RouterTool.router phase
   /\ v_z p = RouterTool.workZ phase zBackPosition)
  /\ Forall (fun c => -1 < fst c <= 1.35
                      /\ snd c = RouterTool.workZ phase zBackPosition)
       (cutsOf (snd run)).
Proof.
  intros run p.
  apply (router_run_reach phase zBackPosition events).
  cbn [RouterTool.initial RouterTool.position v_x v_y v_z].
  repeat split; lra.
Qed.

Lemma box_run_length (phase : GamePhase) (inputs : list (Q * Q))
    (st : BoxProject.State) :
  isCuttingPhase phase ->
  length (boxFlags phase st) = 4%nat ->
  length (boxFlags phase (fst (runHandler (boxCut phase) inputs st))) = 4%nat.
Proof.
  intros Hphase Hlen.
  apply (run_length (boxCut phase) (boxFlags phase)
           (fun p c => inZone (fst p) c) (boxBurst phase) onPhaseComplete
           TAIL_CENTERS); [|exact Hlen].
  intros p s _. apply (boxCut_markStep phase p s Hphase).
Qed.

Lemma box_run_flag_stays (phase : GamePhase) (inputs : list (Q * Q))
    (st : BoxProject.State) (j : nat) :
  isCuttingPhase phase ->
  length (boxFlags phase st) = 4%nat ->
  boxFlags phase st !! j = Some true ->
  boxFlags phase (fst (runHandler (boxCut phase) inputs st)) !! j = Some true.
Proof.
  intros Hphase Hlen Hj.
  apply (run_monotone (boxCut phase) (boxFlags phase)
           (fun p c => inZone (fst p) c) (boxBurst phase) onPhaseComplete
           TAIL_CENTERS); [|exact Hlen|exact Hj].
  intros p s _. apply (boxCut_markStep phase p s Hphase).
Qed.

Lemma box_cut_in_zone (phase : GamePhase) (p : Q * Q) (st : BoxProject.State)
    (i : nat) (c : Q) :
  isCuttingPhase phase ->
  length (boxFlags phase st) = 4%nat ->
  TAIL_CENTERS !! i = Some c ->
  inZone (fst p) c = true ->
  boxFlags phase (fst (boxCut phase p st)) !! i = Some true.
Proof.
  intros Hphase Hlen Hi Hz.
  destruct (boxCut_markStep phase p st Hphase) as [E _]. rewrite E.
  rewrite markStep_spec by exact Hlen. cbn [fst].
  apply (marked_lookup_hit _ _ _ i c Hi Hz).
  rewrite Hlen. apply lookup_lt_Some in Hi. exact Hi.
Qed.

Section RouterHeld.
Variable phase : GamePhase.
Variable zB : Q.
Variable i : nat.
Variable c : Q.
Hypothesis cutting : isCuttingPhase phase.
Hypothesis centre : TAIL_CENTERS !! i = Some c.

Lemma router_held_step (e : RouterEvent) (rs : RouterTool.State) (B : Q) :
  RouterTool.dragging rs = true ->
  aimsAtX c e ->
  - B <= v_x (RouterTool.position rs) - c <= B ->
  exists rs' x',
    routerStep RouterTool.router phase zB e rs
    = (rs', [RouterTool.onCut x' (RouterTool.workZ phase zB)])
    /\ RouterTool.dragging rs' = true
    /\ v_x (RouterTool.position rs') = x'
    /\ - (0.7 * B) <= x' - c <= 0.7 * B.
Proof.
  intros D A Hb.
  destruct e as [[target|] delta| |]; cbn [aimsAtX] in A; try contradiction.
  cbn [routerStep]. rewrite router_frame_held by exact D.
  eexists _, _. split; [reflexivity|].
  cbn [RouterTool.dragging RouterTool.position v_x intersectPlane default].
  split; [reflexivity|]. split; [reflexivity|].
  assert (Hc : -1 <= c <= 1).
  { apply tail_centre_cases in centre.
    destruct centre as [[_ E]|[[_ E]|[[_ E]|[_ E]]]]; lra. }
  assert (E : Qmax (-1.0) (Qmin 1.0 (v_x target)) == c).
  { change (id target) with target. rewrite A. now apply clamp_inside. }
  change (id target) with target.
  unfold RouterTool.lerp. rewrite E. lra.
Qed.

Lemma router_held_cuts (held : list RouterEvent) :
  forall (rs : RouterTool.State) (st : BoxProject.State) (B : Q),
    held <> [] ->
    RouterTool.dragging rs = true ->
    length (boxFlags phase st) = 4%nat ->
    Forall (aimsAtX c) held ->
    - B <= v_x (RouterTool.position rs) - c <= B ->
    Nat.iter (length held) (Qmult 0.7) B < 13 # 60 ->
    RouterTool.dragging (fst (routerRun RouterTool.router phase zB held rs)) = true
    /\ boxFlags phase
         (fst (runHandler (boxCut phase)
                 (cutsOf (snd (routerRun RouterTool.router phase zB held rs))) st))
       !! i = Some true.
Proof.
  induction held as [|e held IH]; intros rs st B Hne D Hlen Ha Hb Hn;
    [congruence|].
  apply Forall_cons in Ha as [Ae Ah].
  destruct (router_held_step e rs B D Ae Hb) as (rs1 & x1 & E & D1 & <- & Hb1).
  cbn [routerRun]. rewrite E.
  destruct held as [|e2 held].
  - cbn [routerRun fst snd length Nat.iter] in *.
    split; [exact D1|].
    rewrite app_nil_r, cutsOf_onCut, runHandler_cons. cbn [runHandler fst cutsOf flat_map].
    apply (box_cut_in_zone phase _ st i c cutting Hlen centre).
    apply inZone_spec. cbn [fst].
    unfold Nat.iter in Hn. cbn [nat_rect] in Hn. lra.
  - destruct (IH rs1 (fst (boxCut phase
                  (v_x (RouterTool.position rs1), RouterTool.workZ phase zB) st))
                (0.7 * B)) as [D2 F2]; try assumption; try discriminate.
    + pose proof (box_run_length phase
                    [(v_x (RouterTool.position rs1), RouterTool.workZ phase zB)]
                    st cutting Hlen) as L.
      rewrite runHandler_cons in L. exact L.
    + rewrite <- Nat.iter_succ_r. exact Hn.
    + destruct (routerRun RouterTool.router phase zB (e2 :: held) rs1)
        as [rs2 log] eqn:R.
      cbn [fst snd] in *. split; [exact D2|].
      rewrite <- app_comm_cons, cutsOf_onCut, runHandler_cons. cbn [fst].
      rewrite app_nil_l. exact F2.
Qed.
End RouterHeld.

(** X18.  Holding the router on a tail cuts it.  In a cutting phase of the
    box, with the router held at -1 <= x <= 1.5 and the pointer ray kept on
    the centre of tail [i] for seven frames, the [onCut] calls of the frames,
    passed to [handleCut], mark the waste block of that tail as cut; what
    the pointer does afterwards leaves it marked. *)
Theorem router_held_on_a_tail_cuts_it (phase : GamePhase) (zBackPosition : Q)
    (st : BoxProject.State) (rs : RouterTool.State) (i : nat) (c : Q)
    (held rest : list RouterEvent) :
  isCuttingPhase phase ->
  length (boxFlags phase st) = 4%nat ->
  RouterTool.dragging rs = true ->
  -1 <= v_x (RouterTool.position rs) <= 1.5 ->
  TAIL_CENTERS !! i = Some c ->
  Forall (aimsAtX c) held ->
  length held = 7%nat ->
  let log := snd (routerRun RouterTool.router phase zBackPosition (held ++ rest) rs) in
  boxFlags phase (fst (runHandler (boxCut phase) (cutsOf log) st)) !! i = Some true.
Proof.
  intros Hphase Hlen D Hx Hi Ha H7 log. unfold log.
  rewrite routerRun_app. cbn [snd]. rewrite cutsOf_app, runHandler_app_fst.
  assert (Hc : -1 <= c <= 1).
  { pose proof (tail_centre_cases i c Hi) as K.
    destruct K as [[_ E]|[[_ E]|[[_ E]|[_ E]]]]; lra. }
  destruct (router_held_cuts phase zBackPosition i c Hphase Hi held rs st 2.5)
    as [_ F]; try assumption.
  - intros ->. discriminate.
  - lra.
  - rewrite H7. unfold Nat.iter. cbn [nat_rect]. lra.
  - apply box_run_flag_stays; [exact Hphase| |exact F].
    now apply box_run_length.
Qed.

(** The router pressed where it rests, held on the first tail for seven
    frames and released. *)
Lemma router_held_on_the_first_tail_cuts_it :
  let c := default 0 (TAIL_CENTERS !! 0%nat) in
  let rs := fst (RouterTool.onPointerDown
                   (RouterTool.initial RouterTool.router CUTTING 0)) in
  let held := replicate 7 (RouterFrame (Some (vec3 c 0.6 0.2)) (1 # 60)) in
  let log := snd (routerRun RouterTool.router CUTTING 0
                    (held ++ [RouterPointerUp]) rs) in
  boxFlags CUTTING (fst (runHandler (boxCut CUTTING) (cutsOf log) BoxProject.initial))
  !! 0%nat = Some true.
Proof.
  intros c rs held.
  apply (router_held_on_a_tail_cuts_it CUTTING 0 BoxProject.initial rs 0 c held
           [RouterPointerUp]).
  - left. reflexivity.
  - reflexivity.
  - reflexivity.
  - cbn. lra.
  - reflexivity.
  - repeat constructor; cbn; reflexivity.
  - reflexivity.
Defined.

Lemma stool_run_length (inputs : list (Q * Q)) (st : StoolProject.State) :
  length (StoolProject.holesDrilled st) = 4%nat ->
  length (StoolProject.holesDrilled (fst (runHandler stoolDrill inputs st))) = 4%nat.
Proof.
  intros Hlen.
  apply (run_length stoolDrill StoolProject.holesDrilled
           (fun p leg => StoolProject.inHole (fst p) (snd p) leg) stoolBurst
           (setTimeout_onPhaseComplete 800) StoolProject.LEG_POSITIONS);
    [|exact Hlen].
  intros p s _. apply (stoolDrill_markStep p s).
Qed.

Lemma stool_run_flag_stays (inputs : list (Q * Q)) (st : StoolProject.State)
    (j : nat) :
  length (StoolProject.holesDrilled st) = 4%nat ->
  StoolProject.holesDrilled st !! j = Some true ->
  StoolProject.holesDrilled (fst (runHandler stoolDrill inputs st)) !! j = Some true.
Proof.
  intros Hlen Hj.
  apply (run_monotone stoolDrill StoolProject.holesDrilled
           (fun p leg => StoolProject.inHole (fst p) (snd p) leg) stoolBurst
           (setTimeout_onPhaseComplete 800) StoolProject.LEG_POSITIONS);
    [|exact Hlen|exact Hj].
  intros p s _. apply (stoolDrill_markStep p s).
Qed.

Lemma stool_drill_in_hole (p : Q * Q) (st : StoolProject.State)
    (i : nat) (leg : StoolProject.Leg) :
  length (StoolProject.holesDrilled st) = 4%nat ->
  StoolProject.LEG_POSITIONS !! i = Some leg ->
  StoolProject.inHole (fst p) (snd p) leg = true ->
  StoolProject.holesDrilled (fst (stoolDrill p st)) !! i = Some true.
Proof.
  intros Hlen Hi Hz.
  destruct (stoolDrill_markStep p st) as [E _]. rewrite E.
  rewrite markStep_spec by exact Hlen. cbn [fst].
  apply (marked_lookup_hit _ _ _ i leg Hi Hz).
  rewrite Hlen. apply lookup_lt_Some in Hi. exact Hi.
Qed.

Section DrillHeld.
Variable phase : GamePhase.
Variable zB : Q.
Variable i : nat.
Variable leg : StoolProject.Leg.
Hypothesis hole : StoolProject.LEG_POSITIONS !! i = Some leg.
Variable eps : Q.

Let tx : Q := StoolProject.targetWorldX leg.
Let tz : Q := StoolProject.targetWorldZ leg.

(** The drill is not farther than [b] from the hole of the leg, coordinate
    by coordinate. *)
Let off (rs : RouterTool.State) (b : Q) : Prop :=
  Qabs (v_x (RouterTool.position rs) - tx) <= b
  /\ Qabs (v_z (RouterTool.position rs) - tz) <= b.

(** A frame halves what separates the drill from where the pointer aims. *)
Let closer (b : Q) : Q := (1 # 2) * b + (1 # 2) * eps.

Lemma drill_held_step (e : RouterEvent) (rs : RouterTool.State) (b : Q) :
  RouterTool.dragging rs = true ->
  aimsNear eps tx tz e ->
  off rs b ->
  exists rs',
    routerStep RouterTool.drill phase zB e rs
    = (rs', [RouterTool.onCut (v_x (RouterTool.position rs'))
               (v_z (RouterTool.position rs'))])
    /\ RouterTool.dragging rs' = true
    /\ off rs' (closer b).
Proof.
  intros D A [Hx Hz].
  destruct e as [[target|] delta| |]; cbn [aimsNear] in A; try contradiction.
  destruct A as [Ax Az].
  cbn [routerStep]. unfold RouterTool.frame. rewrite D.
  cbn [intersectPlane default]. change (id target) with target.
  match goal with |- exists rs', (?s, _) = _ /\ _ => exists s end.
  split; [reflexivity|].
  cbn [RouterTool.dragging]. split; [reflexivity|].
  unfold off, closer in *. cbn [RouterTool.position v_x v_z].
  set (x := v_x (RouterTool.position rs)) in *.
  set (z := v_z (RouterTool.position rs)) in *.
  apply Qabs_Qle_condition in Hx, Hz, Ax, Az.
  split; apply Qabs_Qle_condition; unfold RouterTool.lerp; split; lra.
Qed.

Lemma drill_held_cuts (held : list RouterEvent) :
  forall (rs : RouterTool.State) (st : StoolProject.State) (b : Q),
    held <> [] ->
    RouterTool.dragging rs = true ->
    length (StoolProject.holesDrilled st) = 4%nat ->
    Forall (aimsNear eps tx tz) held ->
    off rs b ->
    0 <= Nat.iter (length held) closer b <= 17 # 100 ->
    StoolProject.holesDrilled
      (fst (runHandler stoolDrill
              (cutsOf (snd (routerRun RouterTool.drill phase zB held rs))) st))
    !! i = Some true.
Proof.
  induction held as [|e held IH]; intros rs st b Hne D Hlen Ha Hb Hn;
    [congruence|].
  apply Forall_cons in Ha as [Ae Ah].
  destruct (drill_held_step e rs b D Ae Hb) as (rs1 & E & D1 & Hb1).
  cbn [routerRun]. rewrite E.
  destruct held as [|e2 held].
  - cbn [routerRun fst snd length] in *.
    rewrite app_nil_r, cutsOf_onCut, runHandler_cons.
    cbn [runHandler fst cutsOf flat_map].
    apply (stool_drill_in_hole _ st i leg Hlen hole).
    apply inHole_spec. cbn [fst snd].
    unfold Nat.iter in Hn. cbn [nat_rect] in Hn.
    destruct Hb1 as [Hx Hz].
    apply Qabs_Qle_condition in Hx, Hz.
    unfold tx, tz, StoolProject.targetWorldX, StoolProject.targetWorldZ in Hx, Hz.
    set (c := closer b) in *.
    set (dx := v_x (RouterTool.position rs1) - StoolProject.x leg) in *.
    assert (Ez : v_z (RouterTool.position rs1) + StoolProject.z leg
                 == v_z (RouterTool.position rs1) - - StoolProject.z leg) by ring.
    rewrite Ez.
    set (dz := v_z (RouterTool.position rs1) - - StoolProject.z leg) in *.
    assert (dx * dx <= (17 # 100) * (17 # 100)) by nra.
    assert (dz * dz <= (17 # 100) * (17 # 100)) by nra.
    lra.
  - specialize (IH rs1
                  (fst (stoolDrill (v_x (RouterTool.position rs1),
                                    v_z (RouterTool.position rs1)) st))
                  (closer b)).
    destruct (routerRun RouterTool.drill phase zB (e2 :: held) rs1)
      as [rs2 log] eqn:R.
    cbn [fst snd] in *.
    rewrite <- app_comm_cons, cutsOf_onCut, runHandler_cons. cbn [fst].
    rewrite app_nil_l. apply IH; try assumption; try discriminate.
    + pose proof (stool_run_length
                    [(v_x (RouterTool.position rs1), v_z (RouterTool.position rs1))]
                    st Hlen) as L.
      rewrite runHandler_cons in L. exact L.
    + rewrite <- Nat.iter_succ_r. exact Hn.
Qed.
End DrillHeld.

(** X19.  Holding the drill near a hole drills it.  With the drill held not
    farther than 2.4 from the centre of the hole of leg [i] in x and in z,
    and the pointer ray kept within 0.01 of that centre in x and in z for
    four frames, the [onCut] calls of the frames, passed to [handleDrill],
    mark the hole as drilled: after the fourth frame the drill is not
    farther than 0.16 from the centre in either coordinate, well inside the
    radius 0.25 of the hole.  What the pointer does afterwards leaves the
    hole marked. *)
Theorem drill_held_on_a_hole_drills_it (st : StoolProject.State)
    (rs : RouterTool.State) (i : nat) (leg : StoolProject.Leg)
    (held rest : list RouterEvent) :
  length (StoolProject.holesDrilled st) = 4%nat ->
  RouterTool.dragging rs = true ->
  StoolProject.LEG_POSITIONS !! i = Some leg ->
  Qabs (v_x (RouterTool.position rs) - StoolProject.targetWorldX leg) <= 2.4 ->
  Qabs (v_z (RouterTool.position rs) - StoolProject.targetWorldZ leg) <= 2.4 ->
  Forall (aimsNear 0.01 (StoolProject.targetWorldX leg)
            (StoolProject.targetWorldZ leg)) held ->
  length held = 4%nat ->
  let log := snd (routerRun RouterTool.drill CUTTING 0 (held ++ rest) rs) in
  StoolProject.holesDrilled (fst (runHandler stoolDrill (cutsOf log) st)) !! i
  = Some true.
Proof.
  intros Hlen D Hi Hx Hz Ha H4 log. unfold log.
  rewrite routerRun_app. cbn [snd]. rewrite cutsOf_app, runHandler_app_fst.
  apply stool_run_flag_stays; [now apply stool_run_length|].
  apply (drill_held_cuts CUTTING 0 i leg Hi 0.01 held rs st 2.4); try assumption.
  - intros ->. discriminate.
  - split; assumption.
  - rewrite H4. unfold Nat.iter. cbn [nat_rect]. split; lra.
Qed.

(** The drill pressed where it rests, held close to the hole of the last leg
    for four frames and released. *)
Lemma drill_held_on_the_last_hole_drills_it :
  let rs := fst (RouterTool.onPointerDown (RouterTool.initial RouterTool.drill CUTTING 0)) in
  let held := replicate 4 (RouterFrame (Some (vec3 (-0.605) 0.3 0.595)) (1 # 60)) in
  let log := snd (routerRun RouterTool.drill CUTTING 0 (held ++ [RouterPointerUp]) rs) in
  StoolProject.holesDrilled
    (fst (runHandler stoolDrill (cutsOf log) StoolProject.initial)) !! 3%nat
  = Some true.
Proof.
  intros rs held.
  apply (drill_held_on_a_hole_drills_it StoolProject.initial rs 3
           (StoolProject.mkLeg (-0.6) (-0.6)) held [RouterPointerUp]).
  - reflexivity.
  - reflexivity.
  - reflexivity.
  - vm_compute. discriminate.
  - vm_compute. discriminate.
  - repeat constructor; vm_compute; discriminate.
  - reflexivity.
Defined.

(** ** The mallet *)




(** ** The chainsaw *)

Section ChainsawFacts.
Variable sin : Q -> Q.

Let held (st : Chainsaw.State) : SawProtocol :=
  if Chainsaw.dragging st then SawHeld else SawIdle.

Lemma sawFollows_app (l k : list Chainsaw.Emit) :
  forall s, sawFollows s (l ++ k) = (s1 ← sawFollows s l; sawFollows s1 k).
Proof.
  induction l as [|c l IH]; intros s; [reflexivity|].
  rewrite <- app_comm_cons. cbn [sawFollows].
  destruct (sawNext s c) as [s1|]; [apply IH|reflexivity].
Qed.

Lemma chainsaw_step (e : ChainsawEvent) (st : Chainsaw.State) :
  (Chainsaw.tiltIndex st < 3)%nat ->
  let r := chainsawStep sin e st in
  sawFollows (held st) (snd r) = Some (held (fst r))
  /\ Chainsaw.tiltIndex (fst r)
     = ((Chainsaw.tiltIndex st + (if togglesTilt e then 1 else 0)) mod 3)%nat.
Proof.
  intros Ht. unfold held.
  assert (M : ((Chainsaw.tiltIndex st + 0) mod 3 = Chainsaw.tiltIndex st)%nat)
    by (rewrite Nat.add_0_r; now apply Nat.mod_small).
  destruct e as [key|button|hit|tip|t tip]; cbn [chainsawStep togglesTilt].
  - unfold Chainsaw.handleKeyDown.
    destruct (String.eqb key "r" || String.eqb key "R")%bool; cbn -[Nat.modulo]; [auto|].
    now rewrite M.
  - unfold Chainsaw.handlePointerDown.
    case_bool_decide as Hb.
    + rewrite decide_True by exact Hb. cbn -[Nat.modulo]. auto.
    + rewrite decide_False by exact Hb. cbn -[Nat.modulo]. rewrite M.
      destruct (Chainsaw.dragging st); auto.
  - unfold Chainsaw.handlePointerMove.
    destruct (Chainsaw.dragging st) eqn:D; cbn -[Nat.modulo]; rewrite ?D, M; auto.
  - unfold Chainsaw.handlePointerUp.
    destruct (Chainsaw.dragging st) eqn:D; cbn -[Nat.modulo]; rewrite ?D, M; auto.
  - unfold Chainsaw.frame.
    destruct (Chainsaw.dragging st) eqn:D; cbn -[Nat.modulo]; rewrite M; auto.
Qed.

Lemma chainsaw_run (events : list ChainsawEvent) :
  forall st : Chainsaw.State,
    (Chainsaw.tiltIndex st < 3)%nat ->
    let r := chainsawRun sin events st in
    sawFollows (held st) (snd r) = Some (held (fst r))
    /\ Chainsaw.tiltIndex (fst r)
       = ((Chainsaw.tiltIndex st + length (List.filter togglesTilt events)) mod 3)%nat.
Proof.
  induction events as [|e events IH]; intros st Ht.
  - cbn -[Nat.modulo]. split; [reflexivity|].
    rewrite Nat.add_0_r. symmetry. now apply Nat.mod_small.
  - cbn [chainsawRun List.filter].
    destruct (chainsaw_step e st Ht) as [F1 T1].
    destruct (chainsawStep sin e st) as [st1 calls]. cbn [fst snd] in F1, T1.
    assert (Ht1 : (Chainsaw.tiltIndex st1 < 3)%nat)
      by (rewrite T1; apply Nat.mod_upper_bound; lia).
    destruct (IH st1 Ht1) as [F2 T2].
    destruct (chainsawRun sin events st1) as [st2 log]. cbn [fst snd] in *.
    split.
    + rewrite sawFollows_app, F1. exact F2.
    + rewrite T2, T1.
      destruct (togglesTilt e); cbn [length].
      * rewrite Nat.Div0.add_mod_idemp_l. f_equal. lia.
      * rewrite Nat.Div0.add_mod_idemp_l. f_equal. lia.
Qed.
End ChainsawFacts.

(** X21.  What the chainsaw calls, in which order, and how it tilts.  From
    its mounting and for every sequence of key presses, pointer presses,
    moves and releases and frames: no [onCut] and no [onDragEnd] is made
    while the saw is idle, every [onDragEnd] is followed at once by one
    [onCut], and the saw is dragged afterwards exactly when the calls end
    after an [onDragStart] that no [onDragEnd] has answered.  The tilt is
    the number of presses of [r], [R] or the right button, modulo 3; a
    press of the right button starts no drag. *)
Theorem chainsaw_calls_follow_the_drag (sin : Q -> Q) (position : Vector3)
    (events : list ChainsawEvent) :
  let r := chainsawRun sin events (Chainsaw.initial position) in
  sawFollows SawIdle (snd r)
  = Some (if Chainsaw.dragging (fst r) then SawHeld else SawIdle)
  /\ Chainsaw.tiltIndex (fst r)
     = (length (List.filter togglesTilt events) mod 3)%nat
  /\ (forall st : Chainsaw.State,
        chainsawStep sin (SawPointerDown 2) st = (Chainsaw.toggleTilt st, [])
        /\ Chainsaw.dragging (Chainsaw.toggleTilt st) = Chainsaw.dragging st).
Proof.
  intros r.
  destruct (chainsaw_run sin events (Chainsaw.initial position)) as [F T];
    [cbn; lia|].
  split; [exact F|]. split; [exact T|].
  intros st. split; reflexivity.
Qed.

(** ** The inventory of the session *)

Lemma nextPhase_keeps (st : App.State) :
  App.level (fst (App.nextPhase st)) = App.level st
  /\ App.inventory (fst (App.nextPhase st)) = App.inventory st.
Proof.
  unfold App.nextPhase.
  destruct (decide (App.level st = 1%nat));
    [destruct (App.phase st); cbn; auto|].
  destruct (decide (App.level st = 2%nat));
    [destruct (App.phase st); cbn; auto|].
  cbn. auto.
Qed.

Lemma products_S (n : nat) :
  products (S n)
  = products n
    ++ [if Nat.even n then "Dovetail Box"%string else "Wooden Stool"%string].
Proof. unfold products. rewrite seq_S, map_app. reflexivity. Qed.

Lemma appStep_products (e : AppEvent) (st : App.State) (n : nat) :
  App.inventory st = products n ->
  App.level st = (if Nat.even n then 1%nat else 2%nat) ->
  let n' := if isCollect e then S n else n in
  App.inventory (appStep e st) = products n'
  /\ App.level (appStep e st) = (if Nat.even n' then 1%nat else 2%nat).
Proof.
  intros Hi Hl.
  destruct e as [| |t|p|k]; cbn [appStep isCollect].
  - destruct (nextPhase_keeps st) as [-> ->]. auto.
  - rewrite products_S, Nat.even_succ, <- Nat.negb_even.
    unfold App.handleCollectAndNext. rewrite Hl.
    destruct (Nat.even n); cbn; rewrite Hi; auto.
  - cbn. auto.
  - cbn. auto.
  - cbn. auto.
Qed.

Lemma appRun_products (events : list AppEvent) :
  forall (st : App.State) (n : nat),
    App.inventory st = products n ->
    App.level st = (if Nat.even n then 1%nat else 2%nat) ->
    let n' := (n + length (List.filter isCollect events))%nat in
    App.inventory (appRun events st) = products n'
    /\ App.level (appRun events st) = (if Nat.even n' then 1%nat else 2%nat).
Proof.
  induction events as [|e events IH]; intros st n Hi Hl.
  - cbn [List.filter length]. rewrite Nat.add_0_r. auto.
  - destruct (appStep_products e st n Hi Hl) as [Hi1 Hl1].
    specialize (IH (appStep e st) _ Hi1 Hl1).
    cbn [List.filter]. unfold appRun in *. cbn [fold_left].
    destruct (isCollect e); cbn [length].
    + replace (n + S (length (List.filter isCollect events)))%nat
        with (S n + length (List.filter isCollect events))%nat by lia.
      exact IH.
    + exact IH.
Qed.

(** X22.  The inventory lists the products in the order of the projects.
    From the start of the session and for every sequence of [nextPhase]
    calls, collects, timers and calls of the setters, the inventory is
    Dovetail Box, Wooden Stool, Dovetail Box, ... with one entry for each
    collect, and the level is 1 after an even number of collects and 2 after
    an odd number: a level other than 1 and 2 is never reached. *)
Theorem inventory_lists_products_in_turn (events : list AppEvent) :
  let st := appRun events App.initial in
  let n := length (List.filter isCollect events) in
  App.inventory st = products n
  /\ App.level st = (if Nat.even n then 1%nat else 2%nat).
Proof.
  intros st n.
  apply (appRun_products events App.initial 0); reflexivity.
Qed.
